(** * ProxQP sparse solver: a shallow embedding of [solver_sparse.hpp] and
      [rowmod.hpp], with the properties claimed by the specification.

    The C++ code is a template over the scalar type [T].  The embedding keeps
    that parameter: every routine is written once over a [Scalar] class and is
    then read at two instances, the real numbers (exact arithmetic) and the
    binary64 floating-point numbers (the arithmetic of [T = double]). *)

From Stdlib Require Import List ZArith Lia Bool Arith Reals Lra Floats Sorted.
Import ListNotations.

Set Implicit Arguments.

(* ================================================================== *)
(** * Scalars *)
(* ================================================================== *)

(** The operations the solver uses on [T].  [s_lit n d] is the literal whose
    decimal value is [n/d] (so [T(1e-3)] is [s_lit 1 1000]); [s_epsilon] is
    [std::numeric_limits<T>::epsilon()]; [s_fabs] and [s_sqrt] are the libm
    functions. *)
Class Scalar (T : Type) : Type := {
  s_lit : Z -> positive -> T;
  s_add : T -> T -> T;
  s_sub : T -> T -> T;
  s_mul : T -> T -> T;
  s_div : T -> T -> T;
  s_opp : T -> T;
  s_fabs : T -> T;
  s_sqrt : T -> T;
  s_ltb : T -> T -> bool;
  s_leb : T -> T -> bool;
  s_eqb : T -> T -> bool;
  s_epsilon : T
}.

(** Scalar types that have a value [std::numeric_limits<T>::infinity()]. *)
Class HasInfinity (T : Type) : Type := s_infinity : T.

Declare Scope scalar_scope.
Delimit Scope scalar_scope with S.
Infix "+" := s_add : scalar_scope.
Infix "-" := s_sub : scalar_scope.
Infix "*" := s_mul : scalar_scope.
Infix "/" := s_div : scalar_scope.
Notation "- x" := (s_opp x) : scalar_scope.
Infix "<?" := s_ltb : scalar_scope.
Infix "<=?" := s_leb : scalar_scope.
Infix "=?" := s_eqb : scalar_scope.

(** ** Exact arithmetic: the real numbers *)

Definition Rltb (x y : R) : bool := if Rlt_dec x y then true else false.
Definition Rleb (x y : R) : bool := if Rle_dec x y then true else false.
Definition Reqb (x y : R) : bool := if Req_dec_T x y then true else false.

#[export] Instance Scalar_R : Scalar R := {|
  s_lit := fun n d => (IZR n / IZR (Zpos d))%R;
  s_add := Rplus;
  s_sub := Rminus;
  s_mul := Rmult;
  s_div := Rdiv;
  s_opp := Ropp;
  s_fabs := Rabs;
  s_sqrt := R_sqrt.sqrt;
  s_ltb := Rltb;
  s_leb := Rleb;
  s_eqb := Reqb;
  s_epsilon := (/ 4503599627370496)%R
|}.

(** ** IEEE 754 binary64: [T = double] *)

(** The [double] nearest to the integer [z] (ties to even), as a decimal
    literal without fraction is converted: [float_of_Z (10 ^ 20)] is
    [1e20]. *)
Definition float_of_Z (z : Z) : float :=
  SF2Prim (SpecFloat.binary_normalize prec emax z 0 false).

#[export] Instance Scalar_double : Scalar float := {|
  s_lit := fun n d => PrimFloat.div (float_of_Z n) (float_of_Z (Zpos d));
  s_add := PrimFloat.add;
  s_sub := PrimFloat.sub;
  s_mul := PrimFloat.mul;
  s_div := PrimFloat.div;
  s_opp := PrimFloat.opp;
  s_fabs := PrimFloat.abs;
  s_sqrt := PrimFloat.sqrt;
  s_ltb := PrimFloat.ltb;
  s_leb := PrimFloat.leb;
  s_eqb := PrimFloat.eqb;
  s_epsilon := PrimFloat.div (float_of_Z 1) (float_of_Z 4503599627370496)
|}.

#[export] Instance Infinity_double : HasInfinity float := PrimFloat.infinity.

(* ================================================================== *)
(** * Dense vectors and the Eigen operations used on them *)
(* ================================================================== *)

Section Vectors.
Context {T : Type} `{Scalar T}.
Local Open Scope scalar_scope.

Definition s0 : T := s_lit 0 1.
Definition s1 : T := s_lit 1 1.

(** [std::max(a, b)] returns [b] when [a < b] and [a] otherwise;
    [std::min(a, b)] returns [b] when [b < a] and [a] otherwise. *)
Definition s_max (a b : T) : T := if a <? b then b else a.
Definition s_min (a b : T) : T := if b <? a then b else a.

(** [std::max({a, b, ...})]: the first largest element of a non-empty list. *)
Definition s_max_list (a : T) (l : list T) : T := fold_left s_max l a.

Definition vec : Type := list T.

Definition vzero (n : nat) : vec := repeat s0 n.
Definition vones (n : nat) : vec := repeat s1 n.

(** Coefficient-wise binary operation of two vectors of the same size. *)
Definition vmap2 (f : T -> T -> T) (a b : vec) : vec :=
  map (fun p => f (fst p) (snd p)) (combine a b).

Definition vadd : vec -> vec -> vec := vmap2 s_add.
Definition vsub : vec -> vec -> vec := vmap2 s_sub.
Definition vmul : vec -> vec -> vec := vmap2 s_mul.
Definition vdiv : vec -> vec -> vec := vmap2 s_div.
Definition vscale (c : T) (a : vec) : vec := map (fun x => c * x) a.
Definition vneg (a : vec) : vec := map s_opp a.

Definition dot (a b : vec) : T :=
  fold_left (fun acc p => acc + fst p * snd p) (combine a b) s0.
Definition squaredNorm (a : vec) : T := dot a a.

(** [infty_norm]: largest absolute value, and 0 for an empty vector. *)
Definition infty_norm (a : vec) : T :=
  fold_left (fun m x => s_max m (s_fabs x)) a s0.

(** Eigen block views. *)
Definition head (n : nat) (a : vec) : vec := firstn n a.
Definition segment (i k : nat) (a : vec) : vec := firstn k (skipn i a).
Definition tail (k : nat) (a : vec) : vec := skipn (length a - k) a.

(** [detail::positive_part] and [detail::negative_part]. *)
Definition positive_part (a : vec) : vec :=
  map (fun x => if s0 <? x then x else s0) a.
Definition negative_part (a : vec) : vec :=
  map (fun x => if x <? s0 then x else s0) a.

(** In-place write [a[i] = x]. *)
Fixpoint set_nth {A : Type} (i : nat) (x : A) (a : list A) : list A :=
  match a, i with
  | [], _ => []
  | _ :: a', O => x :: a'
  | y :: a', S i' => y :: set_nth i' x a'
  end.

Definition get (a : vec) (i : nat) : T := nth i a s0.

End Vectors.

(* ================================================================== *)
(** * Sparse matrices *)
(* ================================================================== *)

Section Sparse.
Context {T : Type} `{Scalar T}.
Local Open Scope scalar_scope.

(** Modelled from the spec: the compressed-column view [sparse_ldlt::MatRef]
    (and [MatMut]), "sparse CSC storage with a per-column nnz count that is
    allowed to be less than the column's allocated capacity".  Column [j]
    occupies the positions [col_start j .. col_end j - 1] of [row_indices] and
    [values]; a view without per-column counts is compressed and its column
    ends where the next one starts. *)
Record Mat : Type := {
  nrows : nat;
  ncols : nat;
  nnz : nat;
  col_ptrs : list nat;
  nnz_per_col : option (list nat);
  row_indices : list nat;
  values : list T
}.

Definition col_start (m : Mat) (j : nat) : nat := nth j (col_ptrs m) 0%nat.

Definition col_end (m : Mat) (j : nat) : nat :=
  match nnz_per_col m with
  | None => nth (S j) (col_ptrs m) 0%nat
  | Some nz => (col_start m j + nth j nz 0)%nat
  end.

(** The positions [p] visited by [for (p = col_start; p < col_end; ++p)]. *)
Definition col_range (m : Mat) (j : nat) : list nat :=
  seq (col_start m j) (col_end m j - col_start m j).

Definition with_values (m : Mat) (x : list T) : Mat :=
  {| nrows := nrows m; ncols := ncols m; nnz := nnz m; col_ptrs := col_ptrs m;
     nnz_per_col := nnz_per_col m; row_indices := row_indices m;
     values := x |}.

(** Modelled from the spec: the Eigen products of the linear algebra
    substrate ("sym-upper matrix-vector, transpose-matrix-vector").
    [mat_mul m y] is [m * y], [mat_tmul m x] is [m.transpose() * x] and
    [symhi_mul h x] is [h.selfadjointView<Upper>() * x], which reads the
    stored entries with row at most the column. *)
Definition mat_tmul (m : Mat) (x : list T) : list T :=
  map (fun j =>
         fold_left (fun acc p =>
                      acc + get (values m) p * get x (nth p (row_indices m) 0%nat))
                   (col_range m j) s0)
      (seq 0 (ncols m)).

Definition mat_mul (m : Mat) (y : list T) : list T :=
  fold_left (fun out j =>
     fold_left (fun out p =>
                  let i := nth p (row_indices m) 0%nat in
                  set_nth i (get out i + get (values m) p * get y j) out)
               (col_range m j) out)
    (seq 0 (ncols m)) (vzero (nrows m)).

Definition symhi_mul (h : Mat) (x : list T) : list T :=
  fold_left (fun out j =>
     fold_left (fun out p =>
                  let i := nth p (row_indices h) 0%nat in
                  let hij := get (values h) p in
                  if (j <? i)%nat then out
                  else
                    let out1 := set_nth i (get out i + hij * get x j) out in
                    if (i =? j)%nat then out1
                    else set_nth j (get out1 j + hij * get x i) out1)
               (col_range h j) out)
    (seq 0 (ncols h)) (vzero (nrows h)).

End Sparse.

Arguments Mat T : clear implicits.

(* ================================================================== *)
(** * Ruiz equilibration ([namespace preconditioner]) *)
(* ================================================================== *)

Inductive Symmetry : Type := LOWER | UPPER.

Section Ruiz.
Context {T : Type} `{Scalar T}.
Local Open Scope scalar_scope.

(** [QpViewMut]: the seven parts of a QP, with [A] and [C] held transposed. *)
Record QpView : Type := {
  qp_H : Mat T;
  qp_g : list T;
  qp_AT : Mat T;
  qp_b : list T;
  qp_CT : Mat T;
  qp_l : list T;
  qp_u : list T
}.

(** [detail::rowwise_infty_norm]. *)
Definition rowwise_infty_norm (row_norm : list T) (m : Mat T) : list T :=
  fold_left (fun rn j =>
     fold_left (fun rn p =>
                  let i := nth p (row_indices m) 0%nat in
                  let mij := s_fabs (get (values m) p) in
                  set_nth i (s_max (get rn i) mij) rn)
               (col_range m j) rn)
    (seq 0 (ncols m)) row_norm.

(** One column of [detail::colwise_infty_norm_symhi]: the walk stops at the
    first entry below the diagonal. *)
Fixpoint symhi_col (h : Mat T) (j : nat) (ps : list nat)
         (norm_j : T) (col_norm : list T) : T * list T :=
  match ps with
  | [] => (norm_j, col_norm)
  | p :: ps' =>
      let i := nth p (row_indices h) 0%nat in
      if (j <? i)%nat then (norm_j, col_norm)
      else
        let hij := s_fabs (get (values h) p) in
        symhi_col h j ps' (s_max norm_j hij)
                  (set_nth i (s_max (get col_norm i) hij) col_norm)
  end.

Definition colwise_infty_norm_symhi (col_norm : list T) (h : Mat T) : list T :=
  fold_left (fun cn j =>
               let r := symhi_col h j (col_range h j) s0 cn in
               set_nth j (fst r) (snd r))
            (seq 0 (ncols h)) col_norm.

(** One column of [detail::colwise_infty_norm_symlo]: the walk goes from the
    end of the column backwards and stops at the first entry above the
    diagonal. *)
Fixpoint symlo_col (h : Mat T) (j : nat) (ps : list nat)
         (norm_j : T) (col_norm : list T) : T * list T :=
  match ps with
  | [] => (norm_j, col_norm)
  | p :: ps' =>
      let i := nth p (row_indices h) 0%nat in
      if (i <? j)%nat then (norm_j, col_norm)
      else
        let hij := s_fabs (get (values h) p) in
        symlo_col h j ps' (s_max norm_j hij)
                  (set_nth i (s_max (get col_norm i) hij) col_norm)
  end.

Definition colwise_infty_norm_symlo (col_norm : list T) (h : Mat T) : list T :=
  fold_left (fun cn j =>
               let r := symlo_col h j (rev (col_range h j)) s0 cn in
               set_nth j (s_max (get (snd r) j) (fst r)) (snd r))
            (seq 0 (ncols h)) col_norm.

Definition colwise_infty_norm (sym : Symmetry) (col_norm : list T) (h : Mat T)
  : list T :=
  match sym with
  | LOWER => colwise_infty_norm_symlo col_norm h
  | UPPER => colwise_infty_norm_symhi col_norm h
  end.

(** Largest absolute value stored in column [j] (the [a_row_norm] and
    [c_row_norm] loops). *)
Definition col_abs_max (m : Mat T) (j : nat) : T :=
  fold_left (fun nrm p => s_max nrm (s_fabs (get (values m) p)))
            (col_range m j) s0.

(** "normalize A" and "normalize C": entry [p] of column [j], in row [i],
    becomes [delta(i) * (entry * delta(off + j))]. *)
Definition normalize_cols (delta : list T) (off : nat) (m : Mat T) : Mat T :=
  with_values m
    (fold_left (fun x j =>
       let delta_j := get delta (off + j) in
       fold_left (fun x p =>
                    let i := nth p (row_indices m) 0%nat in
                    set_nth p (get delta i * (get x p * delta_j)) x)
                 (col_range m j) x)
      (seq 0 (ncols m)) (values m)).

(** "normalize H", upper and lower storage. *)
Fixpoint normalize_H_col (stop : nat -> bool) (h : Mat T) (delta : list T)
         (j : nat) (ps : list nat) (x : list T) : list T :=
  match ps with
  | [] => x
  | p :: ps' =>
      let i := nth p (row_indices h) 0%nat in
      if stop i then x
      else normalize_H_col stop h delta j ps'
             (set_nth p (get delta j * get x p * get delta i) x)
  end.

Definition normalize_H (sym : Symmetry) (delta : list T) (h : Mat T) : Mat T :=
  with_values h
    (fold_left (fun x j =>
       match sym with
       | LOWER => normalize_H_col (fun i => (i <? j)%nat) h delta j
                                  (rev (col_range h j)) x
       | UPPER => normalize_H_col (fun i => (j <? i)%nat) h delta j
                                  (col_range h j) x
       end)
      (seq 0 (ncols h)) (values h)).

(** [m.to_eigen() *= gamma] on the stored entries of every column. *)
Definition mat_scale (gamma : T) (m : Mat T) : Mat T :=
  with_values m
    (fold_left (fun x j =>
       fold_left (fun x p => set_nth p (get x p * gamma) x) (col_range m j) x)
      (seq 0 (ncols m)) (values m)).

(** The variables of [ruiz_scale_qp_in_place] that its loop changes. *)
Record RuizState : Type := {
  rz_delta : list T;   (* the temporary [delta] *)
  rz_qp : QpView;      (* the QP, scaled in place *)
  rz_S : list T;       (* [S], the accumulated scaling [delta_] *)
  rz_c : T;
  rz_gamma : T
}.

(** The new [delta] of a round: the three loops that fill it. *)
Definition ruiz_delta (sym : Symmetry) (n n_eq n_in : nat) (qp : QpView)
  : list T :=
  let a_infty_norm := rowwise_infty_norm (vzero n) (qp_AT qp) in
  let c_infty_norm := rowwise_infty_norm (vzero n) (qp_CT qp) in
  let h_infty_norm := colwise_infty_norm sym (vzero n) (qp_H qp) in
  map (fun j => s1 / (s_epsilon + s_sqrt
         (s_max_list (get h_infty_norm j)
                     [get a_infty_norm j; get c_infty_norm j])))
      (seq 0 n)
  ++ map (fun j => s1 / (s_epsilon + s_sqrt (col_abs_max (qp_AT qp) j)))
         (seq 0 n_eq)
  ++ map (fun j => s1 / (s_epsilon + s_sqrt (col_abs_max (qp_CT qp) j)))
         (seq 0 n_in).

(** The body of the [while] loop, after the test on [iter]. *)
Definition ruiz_round (sym : Symmetry) (n n_eq n_in : nat) (st : RuizState)
  : RuizState :=
  let qp := rz_qp st in
  let delta := ruiz_delta sym n n_eq n_in qp in
  let AT1 := normalize_cols delta n (qp_AT qp) in
  let CT1 := normalize_cols delta (n + n_eq) (qp_CT qp) in
  let H1 := normalize_H sym delta (qp_H qp) in
  let g1 := vmul (qp_g qp) (head n delta) in
  let b1 := vmul (qp_b qp) (segment n n_eq delta) in
  let l1 := vmul (qp_l qp) (tail n_in delta) in
  let u1 := vmul (qp_u qp) (tail n_in delta) in
  let h_infty_norm := colwise_infty_norm sym (vzero n) H1 in
  let avg := fold_left s_add (firstn n h_infty_norm) s0
             / s_lit (Z.of_nat n) 1 in
  let gamma := s1 / s_max avg s1 in
  {| rz_delta := delta;
     rz_qp := {| qp_H := mat_scale gamma H1;
                 qp_g := map (fun x => x * gamma) g1;
                 qp_AT := AT1; qp_b := b1;
                 qp_CT := CT1; qp_l := l1; qp_u := u1 |};
     rz_S := vmul (rz_S st) delta;
     rz_c := rz_c st * gamma;
     rz_gamma := gamma |}.

(** The loop condition [infty_norm(1 - delta) > epsilon]. *)
Definition ruiz_continue (epsilon : T) (st : RuizState) : bool :=
  epsilon <? infty_norm (map (fun d => s1 - d) (rz_delta st)).

(** The [while] loop.  [iter] is the C++ counter; the result also counts the
    rounds (executions of the body).  The loop has no bound of its own when
    [max_iter < iter], hence the fuel. *)
Fixpoint ruiz_loop (fuel : nat) (sym : Symmetry) (n n_eq n_in : nat)
         (epsilon : T) (max_iter : Z) (iter : Z) (st : RuizState)
  : option (RuizState * nat) :=
  match fuel with
  | O => None
  | S fuel' =>
      if ruiz_continue epsilon st then
        if (iter =? max_iter)%Z then Some (st, O)
        else
          match ruiz_loop fuel' sym n n_eq n_in epsilon max_iter (iter + 1)
                          (ruiz_round sym n n_eq n_in st) with
          | Some (st', k) => Some (st', S k)
          | None => None
          end
      else Some (st, O)
  end.

(** [detail::ruiz_scale_qp_in_place]: [delta] starts as a zero vector of
    length [n + n_eq + n_in] ([LDLT_TEMP_VEC]), [c] and [gamma] as 1, [iter]
    as 1. *)
Definition ruiz_scale_qp_in_place (fuel : nat) (delta_ : list T) (qp : QpView)
           (epsilon : T) (max_iter : Z) (sym : Symmetry)
  : option (RuizState * nat) :=
  let n := nrows (qp_H qp) in
  let n_eq := ncols (qp_AT qp) in
  let n_in := ncols (qp_CT qp) in
  ruiz_loop fuel sym n n_eq n_in epsilon max_iter 1
    {| rz_delta := vzero (n + n_eq + n_in); rz_qp := qp;
       rz_S := delta_; rz_c := s1; rz_gamma := s1 |}.

(** [struct RuizEquilibration]. *)
Record RuizEquilibration : Type := {
  re_delta : list T;
  re_n : nat;
  re_c : T;
  re_epsilon : T;
  re_max_iter : Z;
  re_sym : Symmetry
}.

(** The constructor, and its default arguments. *)
Definition RuizEquilibration_new (n_ n_eq_in : nat) (epsilon_ : T)
           (max_iter_ : Z) (sym_ : Symmetry) : RuizEquilibration :=
  {| re_delta := vones (n_ + n_eq_in); re_n := n_; re_c := s1;
     re_epsilon := epsilon_; re_max_iter := max_iter_; re_sym := sym_ |}.

Definition default_epsilon : T := s_lit 1 1000.
Definition default_max_iter : Z := 10.

(** [RuizEquilibration::scale_qp_in_place]. *)
Definition ruiz_scale_qp (fuel : nat) (r : RuizEquilibration) (qp : QpView)
  : option (RuizEquilibration * QpView * nat) :=
  match ruiz_scale_qp_in_place fuel (vones (length (re_delta r))) qp
          (re_epsilon r) (re_max_iter r) (re_sym r) with
  | Some (st, k) =>
      Some ({| re_delta := rz_S st; re_n := re_n r; re_c := rz_c st;
               re_epsilon := re_epsilon r; re_max_iter := re_max_iter r;
               re_sym := re_sym r |}, rz_qp st, k)
  | None => None
  end.

(** Scaling and unscaling of the variables. *)
Definition scale_primal_in_place (r : RuizEquilibration) (primal : list T) :=
  vdiv primal (head (re_n r) (re_delta r)).
Definition scale_dual_in_place_eq (r : RuizEquilibration) (dual : list T) :=
  map (fun x => x * re_c r)
      (vdiv dual (segment (re_n r) (length dual) (re_delta r))).
Definition scale_dual_in_place_in (r : RuizEquilibration) (dual : list T) :=
  map (fun x => x * re_c r) (vdiv dual (tail (length dual) (re_delta r))).
Definition unscale_primal_in_place (r : RuizEquilibration) (primal : list T) :=
  vmul primal (head (re_n r) (re_delta r)).
Definition unscale_dual_in_place_eq (r : RuizEquilibration) (dual : list T) :=
  map (fun x => x / re_c r)
      (vmul dual (segment (re_n r) (length dual) (re_delta r))).
Definition unscale_dual_in_place_in (r : RuizEquilibration) (dual : list T) :=
  map (fun x => x / re_c r) (vmul dual (tail (length dual) (re_delta r))).

(** Scaling and unscaling of the residuals. *)
Definition scale_primal_residual_in_place_eq (r : RuizEquilibration)
           (primal_eq : list T) :=
  vmul primal_eq (segment (re_n r) (length primal_eq) (re_delta r)).
Definition scale_primal_residual_in_place_in (r : RuizEquilibration)
           (primal_in : list T) :=
  vmul primal_in (tail (length primal_in) (re_delta r)).
Definition scale_dual_residual_in_place (r : RuizEquilibration)
           (dual : list T) :=
  vmul dual (map (fun d => d * re_c r) (head (re_n r) (re_delta r))).
Definition unscale_primal_residual_in_place_eq (r : RuizEquilibration)
           (primal_eq : list T) :=
  vdiv primal_eq (segment (re_n r) (length primal_eq) (re_delta r)).
Definition unscale_primal_residual_in_place_in (r : RuizEquilibration)
           (primal_in : list T) :=
  vdiv primal_in (tail (length primal_in) (re_delta r)).
Definition unscale_dual_residual_in_place (r : RuizEquilibration)
           (dual : list T) :=
  vdiv dual (map (fun d => d * re_c r) (head (re_n r) (re_delta r))).

End Ruiz.

Arguments QpView T : clear implicits.
Arguments RuizState T : clear implicits.
Arguments RuizEquilibration T : clear implicits.

(* ================================================================== *)
(** * The solver: settings, preconditioner interface, factorization *)
(* ================================================================== *)

Section SolverTypes.
Context {T : Type} `{Scalar T}.
Local Open Scope scalar_scope.

(** Modelled from the spec: [QPSettings] (its header is not among the
    sources); these are the fields [qp_solve] reads.  The counters are
    [isize]. *)
Record QPSettings : Type := {
  alpha_bcl : T;
  beta_bcl : T;
  mu_update_factor : T;
  mu_max_eq : T;
  mu_max_in : T;
  cold_reset_mu_eq : T;
  cold_reset_mu_in : T;
  eps_abs : T;
  eps_rel : T;
  max_iter : Z;
  max_iter_in : Z;
  nb_iterative_refinement : Z;
  warm_start : bool
}.

(** The template parameter [P] of [qp_solve]: the member functions of a
    preconditioner that the solver calls.  [pc_scale_qp_in_place] returns
    nothing when the equilibration loop does not end. *)
Record Preconditioner (P : Type) : Type := {
  pc_scale_qp_in_place : P -> QpView T -> option (P * QpView T);
  pc_unscale_primal_in_place : P -> list T -> list T;
  pc_unscale_dual_in_place_eq : P -> list T -> list T;
  pc_unscale_dual_in_place_in : P -> list T -> list T;
  pc_scale_primal_residual_in_place_eq : P -> list T -> list T;
  pc_scale_primal_residual_in_place_in : P -> list T -> list T;
  pc_scale_dual_residual_in_place : P -> list T -> list T;
  pc_unscale_primal_residual_in_place_eq : P -> list T -> list T;
  pc_unscale_primal_residual_in_place_in : P -> list T -> list T;
  pc_unscale_dual_residual_in_place : P -> list T -> list T
}.

(** [struct RuizEquilibration] as a preconditioner. *)
Definition Ruiz_preconditioner (fuel : nat)
  : Preconditioner (RuizEquilibration T) :=
  {| pc_scale_qp_in_place := fun r qp =>
       match ruiz_scale_qp fuel r qp with
       | Some (r', qp', _) => Some (r', qp')
       | None => None
       end;
     pc_unscale_primal_in_place := unscale_primal_in_place;
     pc_unscale_dual_in_place_eq := unscale_dual_in_place_eq;
     pc_unscale_dual_in_place_in := unscale_dual_in_place_in;
     pc_scale_primal_residual_in_place_eq := scale_primal_residual_in_place_eq;
     pc_scale_primal_residual_in_place_in := scale_primal_residual_in_place_in;
     pc_scale_dual_residual_in_place := scale_dual_residual_in_place;
     pc_unscale_primal_residual_in_place_eq :=
       unscale_primal_residual_in_place_eq;
     pc_unscale_primal_residual_in_place_in :=
       unscale_primal_residual_in_place_in;
     pc_unscale_dual_residual_in_place := unscale_dual_residual_in_place |}.

(** [struct Identity]: every member function has an empty body. *)
Definition Identity_preconditioner : Preconditioner unit :=
  {| pc_scale_qp_in_place := fun p qp => Some (p, qp);
     pc_unscale_primal_in_place := fun _ v => v;
     pc_unscale_dual_in_place_eq := fun _ v => v;
     pc_unscale_dual_in_place_in := fun _ v => v;
     pc_scale_primal_residual_in_place_eq := fun _ v => v;
     pc_scale_primal_residual_in_place_in := fun _ v => v;
     pc_scale_dual_residual_in_place := fun _ v => v;
     pc_unscale_primal_residual_in_place_eq := fun _ v => v;
     pc_unscale_primal_residual_in_place_in := fun _ v => v;
     pc_unscale_dual_residual_in_place := fun _ v => v |}.

(** Modelled from the spec: the factorization object [ldl].  The kernel
    "maintains L D L^T = P K P^T"; the numeric factor itself is computed by
    routines that are not among the sources ([factorize_numeric],
    [rank1_update], the triangular solves), so the object is represented by
    the matrix [K] it factorizes: for every slot, how many entries of the KKT
    column are included ([fac_nnz_per_col]) and the diagonal entry
    ([fac_diag]). *)
Record Factor : Type := {
  fac_nnz_per_col : list nat;
  fac_diag : list T
}.

(** Modelled from the spec: what the solver needs from the kernel routines
    that are not among the sources.  [k_ldl_solve] is the permuted solve
    "apply L, then scale by 1/D, then L^T" with the factorized matrix;
    [k_lnz] gives the entry count [pldnz] of a column of [L], as a function
    of the pattern that is factorized and of the permuted column. *)
Record Kernel : Type := {
  k_ldl_solve : Factor -> list T -> list T;
  k_lnz : list nat -> nat -> nat
}.

(** The dimensions and the data of [qp_solve] that never change after the
    set-up: the scaled model (whose matrices live in the KKT storage), the
    unscaled model, and the inverse permutation of the workspace. *)
Record Problem : Type := {
  pb_n : nat;
  pb_n_eq : nat;
  pb_n_in : nat;
  pb_qp : QpView T;          (* [qp] *)
  pb_qp_scaled : QpView T;   (* [qp_scaled] after [scale_qp_in_place] *)
  pb_perm_inv : list nat
}.

Definition pb_n_tot (pb : Problem) : nat := (pb_n pb + pb_n_eq pb + pb_n_in pb)%nat.

(** The iterates [x_e], [y_e], [z_e]. *)
Record Iterates : Type := { it_x : list T; it_y : list T; it_z : list T }.

(** The penalties. *)
Record Penalty : Type := { rho : T; mu_eq : T; mu_in : T }.

(** The active-set bookkeeping: [active_constraints], the per-column counts
    and the total count of [kkt_active], and the factorization. *)
Record ActiveSet : Type := {
  active_constraints : list bool;
  kkt_nnz_counts : list nat;
  kkt_active_nnz : Z;
  ldl : Factor
}.

(** [refactorize]: the diagonal handed to [factorize_numeric]. *)
Definition refactorize_diag (pb : Problem) (pen : Penalty)
           (active : list bool) : list T :=
  repeat (rho pen) (pb_n pb)
  ++ repeat (s_lit (-1) 1 / mu_eq pen) (pb_n_eq pb)
  ++ map (fun i => if nth i active false
                   then s_lit (-1) 1 / mu_in pen else s1)
         (seq 0 (pb_n_in pb)).

(** [refactorize]: a symbolic and a numeric factorization of [kkt_active]
    with that diagonal. *)
Definition refactorize (pb : Problem) (pen : Penalty) (a : ActiveSet)
  : ActiveSet :=
  {| active_constraints := active_constraints a;
     kkt_nnz_counts := kkt_nnz_counts a;
     kkt_active_nnz := kkt_active_nnz a;
     ldl := {| fac_nnz_per_col := kkt_nnz_counts a;
               fac_diag := refactorize_diag pb pen (active_constraints a) |} |}.

(** [sparse_ldlt::add_row] (rowmod.hpp).  From the source: the position is
    permuted unless [perm_inv] is empty, and the routine asserts that the
    column of [L] at the permuted position holds one entry; a failed
    assertion is [None].  Modelled from the spec: on success the matrix that
    is factorized has the new column and the diagonal entry [diag_element] at
    slot [pos]. *)
Definition add_row (K : Kernel) (ld : Factor) (perm_inv : list nat) (pos : nat)
           (new_col_nnz : nat) (diag_element : T) : option Factor :=
  let permuted_pos :=
    if (length perm_inv =? 0)%nat then pos else nth pos perm_inv 0%nat in
  if (k_lnz K (fac_nnz_per_col ld) permuted_pos =? 1)%nat then
    Some {| fac_nnz_per_col := set_nth pos new_col_nnz (fac_nnz_per_col ld);
            fac_diag := set_nth pos diag_element (fac_diag ld) |}
  else None.

(** [sparse_ldlt::delete_row] (rowmod.hpp).  From the source: "step 2: set
    d_kk = 1" and "step 4: delete col k".  Modelled from the spec: the matrix
    that is factorized loses the column at slot [pos]. *)
Definition delete_row (ld : Factor) (pos : nat) : Factor :=
  {| fac_nnz_per_col := set_nth pos 0%nat (fac_nnz_per_col ld);
     fac_diag := set_nth pos s1 (fac_diag ld) |}.

(** [kkt.col_end(idx) - kkt.col_start(idx)] for the slot of inequality [i]:
    the length of column [i] of the scaled [CT]. *)
Definition kkt_col_nnz (pb : Problem) (i : nat) : nat :=
  let CT := qp_CT (pb_qp_scaled pb) in
  (col_end CT i - col_start CT i)%nat.

(** One turn of the loop "active set change". *)
Definition active_set_step (K : Kernel) (pb : Problem) (pen : Penalty)
           (new_active_constraints : list bool)
           (acc : option (ActiveSet * bool * bool)) (i : nat)
  : option (ActiveSet * bool * bool) :=
  match acc with
  | None => None
  | Some (a, added, removed) =>
      let was_active := nth i (active_constraints a) false in
      let is_active := nth i new_active_constraints false in
      let idx := (pb_n pb + pb_n_eq pb + i)%nat in
      let col_nnz := kkt_col_nnz pb i in
      if is_active && negb was_active then
        match add_row K (ldl a) (pb_perm_inv pb) idx col_nnz
                      (s_lit (-1) 1 / mu_in pen) with
        | None => None
        | Some ld =>
            Some ({| active_constraints :=
                       set_nth i is_active (active_constraints a);
                     kkt_nnz_counts := set_nth idx col_nnz (kkt_nnz_counts a);
                     kkt_active_nnz := (kkt_active_nnz a + Z.of_nat col_nnz)%Z;
                     ldl := ld |}, true, removed)
        end
      else if negb is_active && was_active then
        Some ({| active_constraints :=
                   set_nth i is_active (active_constraints a);
                 kkt_nnz_counts := set_nth idx 0%nat (kkt_nnz_counts a);
                 kkt_active_nnz := (kkt_active_nnz a - Z.of_nat col_nnz)%Z;
                 ldl := delete_row (ldl a) idx |}, added, true)
      else Some (a, added, removed)
  end.

(** The block "active set change" of a Newton step: the sweep over the
    inequalities, then one refactorization if anything changed. *)
Definition active_set_change (K : Kernel) (pb : Problem) (pen : Penalty)
           (new_active_constraints : list bool) (a : ActiveSet)
  : option ActiveSet :=
  if (0 <? pb_n_in pb)%nat then
    match fold_left (active_set_step K pb pen new_active_constraints)
                    (seq 0 (pb_n_in pb)) (Some (a, false, false)) with
    | None => None
    | Some (a', added, removed) =>
        if added || removed then Some (refactorize pb pen a') else Some a'
    end
  else Some a.

(** The state of the active set when the outer loop starts: every inequality
    inactive, the columns of [H] and [AT] counted in full, and a first
    [refactorize]. *)
Definition initial_active_set (pb : Problem) (pen : Penalty) : ActiveSet :=
  let q := pb_qp_scaled pb in
  refactorize pb pen
    {| active_constraints := repeat false (pb_n_in pb);
       kkt_nnz_counts :=
         map (fun j => (col_end (qp_H q) j - col_start (qp_H q) j)%nat)
             (seq 0 (pb_n pb))
         ++ map (fun j => (col_end (qp_AT q) j - col_start (qp_AT q) j)%nat)
                (seq 0 (pb_n_eq pb))
         ++ repeat 0%nat (pb_n_in pb);
       kkt_active_nnz := Z.of_nat (nnz (qp_H (pb_qp pb)) + nnz (qp_AT (pb_qp pb)));
       ldl := {| fac_nnz_per_col := []; fac_diag := [] |} |}.

End SolverTypes.

Arguments QPSettings T : clear implicits.
Arguments Preconditioner T P : clear implicits.
Arguments Factor T : clear implicits.
Arguments Kernel T : clear implicits.
Arguments Problem T : clear implicits.
Arguments Iterates T : clear implicits.
Arguments Penalty T : clear implicits.
Arguments ActiveSet T : clear implicits.

(* ================================================================== *)
(** * [qp_solve]: the outer loop *)
(* ================================================================== *)

Section Outer.
Context {T : Type} `{Scalar T}.
Local Open Scope scalar_scope.

(** [pow] of libm. *)
Variable pow : T -> T -> T.

Variable P : Type.
Variable pc : Preconditioner T P.
Variable precond : P.
Variable settings : QPSettings T.
Variable pb : Problem T.

(** The residual caches of an outer iteration. *)
Record Residuals : Type := {
  primal_residual_eq_scaled : list T;
  primal_residual_in_scaled_lo : list T;
  primal_residual_in_scaled_up : list T;
  dual_residual_scaled : list T
}.

(** The reference norms that the two residual routines leave behind. *)
Record PrimalRhs : Type := {
  primal_feasibility_eq_rhs_0 : T;
  primal_feasibility_in_rhs_0 : T
}.

Record DualRhs : Type := {
  dual_feasibility_rhs_0 : T;
  dual_feasibility_rhs_1 : T;
  dual_feasibility_rhs_3 : T
}.

(** The reference norms computed once, from the unscaled model. *)
Definition primal_feasibility_rhs_1_eq : T := infty_norm (qp_b (pb_qp pb)).
Definition primal_feasibility_rhs_1_in_u : T := infty_norm (qp_u (pb_qp pb)).
Definition primal_feasibility_rhs_1_in_l : T := infty_norm (qp_l (pb_qp pb)).
Definition dual_feasibility_rhs_2 : T := infty_norm (qp_g (pb_qp pb)).

(** The lambda [unscaled_primal_residual]: its result, and the variables it
    assigns. *)
Definition unscaled_primal_residual (x_e : list T)
  : T * PrimalRhs * (list T * list T * list T) :=
  let q := pb_qp_scaled pb in
  let eq0 := mat_tmul (qp_AT q) x_e in
  let up0 := mat_tmul (qp_CT q) x_e in
  let eq1 := pc_unscale_primal_residual_in_place_eq pc precond eq0 in
  let eq_rhs_0 := infty_norm eq1 in
  let up1 := pc_unscale_primal_residual_in_place_in pc precond up0 in
  let in_rhs_0 := infty_norm up1 in
  let lo := vadd (positive_part (vsub up1 (qp_u (pb_qp pb))))
                 (negative_part (vsub up1 (qp_l (pb_qp pb)))) in
  let eq2 := vsub eq1 (qp_b (pb_qp pb)) in
  let primal_feasibility_eq_lhs := infty_norm eq2 in
  let primal_feasibility_in_lhs := infty_norm lo in
  let primal_feasibility_lhs :=
    s_max primal_feasibility_eq_lhs primal_feasibility_in_lhs in
  (primal_feasibility_lhs,
   {| primal_feasibility_eq_rhs_0 := eq_rhs_0;
      primal_feasibility_in_rhs_0 := in_rhs_0 |},
   (pc_scale_primal_residual_in_place_eq pc precond eq2,
    lo,
    pc_scale_primal_residual_in_place_in pc precond up1)).

(** The lambda [unscaled_dual_residual]: its result, the reference norms and
    [dual_residual_scaled]. *)
Definition unscaled_dual_residual (it : Iterates T)
  : T * DualRhs * list T :=
  let q := pb_qp_scaled pb in
  let Hx := symhi_mul (qp_H q) (it_x it) in
  let d1 := vadd (qp_g q) Hx in
  let rhs_0 := infty_norm (pc_unscale_dual_residual_in_place pc precond Hx) in
  let ATy := mat_mul (qp_AT q) (it_y it) in
  let d2 := vadd d1 ATy in
  let rhs_1 := infty_norm (pc_unscale_dual_residual_in_place pc precond ATy) in
  let CTz := mat_mul (qp_CT q) (it_z it) in
  let d3 := vadd d2 CTz in
  let rhs_3 := infty_norm (pc_unscale_dual_residual_in_place pc precond CTz) in
  let d4 := pc_unscale_dual_residual_in_place pc precond d3 in
  let dual_feasibility_lhs := infty_norm d4 in
  (dual_feasibility_lhs,
   {| dual_feasibility_rhs_0 := rhs_0;
      dual_feasibility_rhs_1 := rhs_1;
      dual_feasibility_rhs_3 := rhs_3 |},
   pc_scale_dual_residual_in_place pc precond d4).

(** The right-hand sides of the two convergence tests. *)
Definition rhs_pri (r : PrimalRhs) : T :=
  if negb (eps_rel settings =? s0) then
    eps_abs settings
    + eps_rel settings
      * s_max_list (primal_feasibility_eq_rhs_0 r)
          [primal_feasibility_in_rhs_0 r; primal_feasibility_rhs_1_eq;
           primal_feasibility_rhs_1_in_l; primal_feasibility_rhs_1_in_u]
  else eps_abs settings.

Definition rhs_dua (r : DualRhs) : T :=
  if negb (eps_rel settings =? s0) then
    eps_abs settings
    + eps_rel settings
      * s_max_list (dual_feasibility_rhs_0 r)
          [dual_feasibility_rhs_1 r; dual_feasibility_rhs_2;
           dual_feasibility_rhs_3 r]
  else eps_abs settings.

(** The lambdas [is_primal_feasible] and [is_dual_feasible]. *)
Definition is_primal_feasible (r : PrimalRhs) (primal_feasibility_lhs : T)
  : bool :=
  primal_feasibility_lhs <=? rhs_pri r.

Definition is_dual_feasible (r : DualRhs) (dual_feasibility_lhs : T) : bool :=
  dual_feasibility_lhs <=? rhs_dua r.

(** The tolerances of the BCL schedule. *)
Record Bcl : Type := { bcl_eta_ext : T; bcl_eta_in : T }.

Definition bcl_eta_ext_init : T := pow (s_lit 1 10) (alpha_bcl settings).
Definition eps_in_min : T := s_min (eps_abs settings) (s_lit 1 1000000000).

(** What [bcl_update] assigns: the tolerances, the iterates and the two
    candidate penalties [new_bcl_mu_eq], [new_bcl_mu_in]. *)
Record BclResult : Type := {
  br_bcl : Bcl;
  br_it : Iterates T;
  new_bcl_mu_eq : T;
  new_bcl_mu_in : T
}.

(** The lambda [bcl_update].  [new_bcl_mu_eq] and [new_bcl_mu_in] hold the
    current penalties when it is called. *)
Definition bcl_update (pen : Penalty T) (primal_feasibility_lhs_new : T)
           (bcl : Bcl) (it : Iterates T) (y_prev_e z_prev_e : list T)
  : BclResult :=
  if primal_feasibility_lhs_new <=? bcl_eta_ext bcl then
    {| br_bcl :=
         {| bcl_eta_ext :=
              bcl_eta_ext bcl * (s1 / pow (mu_in pen) (beta_bcl settings));
            bcl_eta_in := s_max (bcl_eta_in bcl / mu_in pen) eps_in_min |};
       br_it := it;
       new_bcl_mu_eq := mu_eq pen;
       new_bcl_mu_in := mu_in pen |}
  else
    let new_mu_in :=
      s_min (mu_in pen * mu_update_factor settings) (mu_max_in settings) in
    let new_mu_eq :=
      s_min (mu_eq pen * mu_update_factor settings) (mu_max_eq settings) in
    {| br_bcl :=
         {| bcl_eta_ext :=
              bcl_eta_ext_init / pow new_mu_in (alpha_bcl settings);
            bcl_eta_in := s1 / s_max new_mu_in eps_in_min |};
       br_it := {| it_x := it_x it; it_y := y_prev_e; it_z := z_prev_e |};
       new_bcl_mu_eq := new_mu_eq;
       new_bcl_mu_in := new_mu_in |}.

(** The test that guards the cold reset. *)
Definition cold_reset_test (pen : Penalty T)
           (primal_feasibility_lhs_new primal_feasibility_lhs
              dual_feasibility_lhs_new : T) : bool :=
  (primal_feasibility_lhs <=? primal_feasibility_lhs_new)
  && (primal_feasibility_lhs <=? dual_feasibility_lhs_new)
  && (s_lit 100000 1 <=? mu_in pen).

(** The cold reset: the candidate penalties after it. *)
Definition cold_reset (pen : Penalty T)
           (primal_feasibility_lhs_new primal_feasibility_lhs
              dual_feasibility_lhs_new : T) (new_mu : T * T) : T * T :=
  if cold_reset_test pen primal_feasibility_lhs_new primal_feasibility_lhs
                     dual_feasibility_lhs_new
  then (cold_reset_mu_eq settings, cold_reset_mu_in settings)
  else new_mu.

(** The end of an outer iteration: when a candidate penalty differs from the
    current one, [mu_update()] (that is, [refactorize()]) runs and then the
    penalties are assigned. *)
Definition mu_update_step (pen : Penalty T) (new_mu : T * T)
           (a : ActiveSet T) : Penalty T * ActiveSet T :=
  if negb (mu_in pen =? snd new_mu) || negb (mu_eq pen =? fst new_mu) then
    ({| rho := rho pen; mu_eq := fst new_mu; mu_in := snd new_mu |},
     refactorize pb pen a)
  else (pen, a).

(** The variables that live across outer iterations. *)
Record OuterState : Type := {
  os_it : Iterates T;
  os_pen : Penalty T;
  os_bcl : Bcl;
  os_aset : ActiveSet T
}.

(** What the inner solver works on. *)
Record InnerState : Type := {
  is_it : Iterates T;
  is_res : Residuals;
  is_aset : ActiveSet T
}.

(** The inner solver [primal_dual_newton_semi_smooth], as the outer loop sees
    it: it is given the outer counter [iter], the penalties, the tolerances
    and the snapshot [x_prev_e]; it fails when an assertion of the kernel
    does. *)
Variable inner_solver :
  nat -> Penalty T -> Bcl -> list T -> InnerState -> option InnerState.

(** The state handed to the inner solver: the iterates, the residual caches
    in their shifted form ([C x - l + z/mu_in] and [C x - u + z/mu_in]), and
    the active set. *)
Definition inner_input (s : OuterState) : InnerState :=
  let it := os_it s in
  let pen := os_pen s in
  let '(_, _, (eq_s, _, up_s)) := unscaled_primal_residual (it_x it) in
  let '(_, _, dual_s) := unscaled_dual_residual it in
  let z_prev_e := it_z it in
  let up1 := vadd up_s (vscale (s1 / mu_in pen) z_prev_e) in
  let lo2 := vsub up1 (qp_l (pb_qp_scaled pb)) in
  let up2 := vsub up1 (qp_u (pb_qp_scaled pb)) in
  {| is_it := it;
     is_res := {| primal_residual_eq_scaled := eq_s;
                  primal_residual_in_scaled_lo := lo2;
                  primal_residual_in_scaled_up := up2;
                  dual_residual_scaled := dual_s |};
     is_aset := os_aset s |}.

(** How one turn of the outer loop ends. *)
Inductive Step : Type :=
| Break (s : OuterState)
| Continue (s : OuterState).

(** What follows the inner solver when the second convergence test fails:
    [bcl_update], the dual residual at the iterates it left, the cold reset,
    and the update of the penalties. *)
Definition outer_update (s : OuterState) (r : InnerState)
           (primal_feasibility_lhs primal_feasibility_lhs_new : T)
  : OuterState :=
  let pen := os_pen s in
  let b := bcl_update pen primal_feasibility_lhs_new (os_bcl s) (is_it r)
                      (it_y (os_it s)) (it_z (os_it s)) in
  let '(dual_feasibility_lhs_new, _, _) := unscaled_dual_residual (br_it b) in
  let new_mu :=
    cold_reset pen primal_feasibility_lhs_new primal_feasibility_lhs
               dual_feasibility_lhs_new (new_bcl_mu_eq b, new_bcl_mu_in b) in
  let '(pen', a') := mu_update_step pen new_mu (is_aset r) in
  {| os_it := br_it b; os_pen := pen'; os_bcl := br_bcl b; os_aset := a' |}.

(** The body of [for (iter = 0; iter < settings.max_iter; ++iter)]. *)
Definition outer_iteration (iter : nat) (s : OuterState) : option Step :=
  let it := os_it s in
  let pen := os_pen s in
  let '(primal_feasibility_lhs, prhs, _) :=
    unscaled_primal_residual (it_x it) in
  let '(dual_feasibility_lhs, drhs, _) := unscaled_dual_residual it in
  if is_primal_feasible prhs primal_feasibility_lhs
     && is_dual_feasible drhs dual_feasibility_lhs
  then Some (Break s)
  else
    let x_prev_e := it_x it in
    match inner_solver iter pen (os_bcl s) x_prev_e (inner_input s) with
    | None => None
    | Some r =>
        let it1 := is_it r in
        let '(primal_feasibility_lhs_new, prhs1, _) :=
          unscaled_primal_residual (it_x it1) in
        let '(dual_feasibility_lhs_new, drhs1, _) :=
          unscaled_dual_residual it1 in
        if is_primal_feasible prhs1 primal_feasibility_lhs_new
           && is_dual_feasible drhs1 dual_feasibility_lhs_new
        then Some (Break {| os_it := it1; os_pen := pen; os_bcl := os_bcl s;
                            os_aset := is_aset r |})
        else Some (Continue (outer_update s r primal_feasibility_lhs
                                          primal_feasibility_lhs_new))
    end.

(** How the outer loop was left. *)
Inductive Exit : Type := Converged | MaxIterReached.

(** The outer loop, with [remaining] turns left. *)
Fixpoint outer_loop (remaining : nat) (iter : nat) (s : OuterState)
  : option (OuterState * Exit) :=
  match remaining with
  | O => Some (s, MaxIterReached)
  | S remaining' =>
      match outer_iteration iter s with
      | None => None
      | Some (Break s') => Some (s', Converged)
      | Some (Continue s') => outer_loop remaining' (S iter) s'
      end
  end.

(** The initial values of the penalties and of the tolerances. *)
Definition initial_penalty : Penalty T :=
  {| rho := s_lit 1 1000000; mu_eq := s_lit 1000 1; mu_in := s_lit 10 1 |}.

Definition initial_bcl : Bcl :=
  {| bcl_eta_ext := bcl_eta_ext_init; bcl_eta_in := s1 |}.

(** [ldl_solve_in_place], as the set-up of the first iterate sees it. *)
Variable ldl_solve_in_place : Penalty T -> ActiveSet T -> list T -> list T.

(** The first iterate: the arguments when [warm_start] is set, and otherwise
    a solve with the right-hand side [(-g_scaled, b_scaled, 0)]. *)
Definition initial_iterates (x y z : list T) (a : ActiveSet T) : Iterates T :=
  if warm_start settings then {| it_x := x; it_y := y; it_z := z |}
  else
    let q := pb_qp_scaled pb in
    let rhs := vneg (qp_g q) ++ qp_b q ++ vzero (pb_n_in pb) in
    let sol := ldl_solve_in_place initial_penalty a rhs in
    {| it_x := head (pb_n pb) sol;
       it_y := segment (pb_n pb) (pb_n_eq pb) sol;
       it_z := segment (pb_n pb + pb_n_eq pb) (pb_n_in pb) sol |}.

(** The state with which the outer loop starts. *)
Definition initial_outer_state (x y z : list T) : OuterState :=
  let a := initial_active_set pb initial_penalty in
  {| os_it := initial_iterates x y z a; os_pen := initial_penalty;
     os_bcl := initial_bcl; os_aset := a |}.

(** The loop of [qp_solve] from its first iterate, and the unscaling that
    follows it. *)
Definition qp_solve_loop (x y z : list T) : option (Iterates T * Exit) :=
  match outer_loop (Z.to_nat (max_iter settings)) 0
                   (initial_outer_state x y z) with
  | None => None
  | Some (s, e) =>
      Some ({| it_x := pc_unscale_primal_in_place pc precond (it_x (os_it s));
               it_y := pc_unscale_dual_in_place_eq pc precond (it_y (os_it s));
               it_z := pc_unscale_dual_in_place_in pc precond (it_z (os_it s)) |},
            e)
  end.

End Outer.

Arguments Residuals T : clear implicits.
Arguments InnerState T : clear implicits.
Arguments OuterState T : clear implicits.
Arguments Bcl T : clear implicits.
Arguments Step T : clear implicits.
Arguments BclResult T : clear implicits.
Arguments PrimalRhs T : clear implicits.
Arguments DualRhs T : clear implicits.

(* ================================================================== *)
(** * [qp_solve]: linear solves, Newton step, line search, inner loop *)
(* ================================================================== *)

Section Inner.
Context {T : Type} `{Scalar T} `{HasInfinity T}.
Local Open Scope scalar_scope.

Variable K : Kernel T.
Variable settings : QPSettings T.
Variable pb : Problem T.

Let n : nat := pb_n pb.
Let n_eq : nat := pb_n_eq pb.
Let n_in : nat := pb_n_in pb.
Let H_scaled : Mat T := qp_H (pb_qp_scaled pb).
Let AT_scaled : Mat T := qp_AT (pb_qp_scaled pb).
Let CT_scaled : Mat T := qp_CT (pb_qp_scaled pb).

(** The transpose of [C_active]: the columns of the scaled [CT] with the
    per-column counts of [kkt_active], so that an inactive column is
    empty. *)
Definition CT_active (a : ActiveSet T) : Mat T :=
  {| nrows := nrows CT_scaled; ncols := ncols CT_scaled;
     nnz := nnz CT_scaled; col_ptrs := col_ptrs CT_scaled;
     nnz_per_col := Some (skipn (n + n_eq) (kkt_nnz_counts a));
     row_indices := row_indices CT_scaled; values := values CT_scaled |}.

(** The error [err] of a refinement pass: [-rhs] in the first pass, and
    [K sol - rhs] with the current penalties and active set afterwards. *)
Definition refinement_error (pen : Penalty T) (a : ActiveSet T)
           (solve_iter : nat) (rhs sol : list T) : list T :=
  let err := vneg rhs in
  if (0 <? solve_iter)%nat then
    let sol_x := head n sol in
    let sol_y := segment n n_eq sol in
    let sol_z := tail n_in sol in
    let err_x :=
      vadd (vadd (vadd (vadd (head n err) (symhi_mul H_scaled sol_x))
                       (vscale (rho pen) sol_x))
                 (mat_mul AT_scaled sol_y))
           (mat_mul (CT_active a) sol_z) in
    let err_y :=
      vadd (vadd (segment n n_eq err) (mat_tmul AT_scaled sol_x))
           (vscale (s_lit (-1) 1 / mu_eq pen) sol_y) in
    let err_z0 := vadd (tail n_in err) (mat_tmul (CT_active a) sol_x) in
    let err_z :=
      map (fun i =>
             get err_z0 i
             + (if nth i (active_constraints a) false
                then s_lit (-1) 1 / mu_in pen else s1) * get sol_z i)
          (seq 0 n_in) in
    err_x ++ err_y ++ err_z
  else err.

(** The norm that a refinement pass compares with the one of the previous
    pass. *)
Definition refinement_err_norm (pen : Penalty T) (a : ActiveSet T)
           (solve_iter : nat) (rhs sol : list T) : T :=
  infty_norm (tail n_in (refinement_error pen a solve_iter rhs sol)).

(** One pass: a solve with the factorization, applied to the error. *)
Definition refinement_pass (pen : Penalty T) (a : ActiveSet T)
           (solve_iter : nat) (rhs sol : list T) : list T :=
  vsub sol (k_ldl_solve K (ldl a)
                        (refinement_error pen a solve_iter rhs sol)).

(** The loop of [ldl_iter_solve_noalias], with [remaining] turns left.  The
    result also counts the passes, that is, the calls of [ldl_solve]. *)
Fixpoint refinement_loop (pen : Penalty T) (a : ActiveSet T) (rhs : list T)
         (remaining solve_iter : nat) (prev_err_norm : T) (sol : list T)
  : list T * nat :=
  match remaining with
  | O => (sol, O)
  | S remaining' =>
      let err_norm := refinement_err_norm pen a solve_iter rhs sol in
      if prev_err_norm <? err_norm then (sol, O)
      else
        let r := refinement_loop pen a rhs remaining' (S solve_iter) err_norm
                                 (refinement_pass pen a solve_iter rhs sol) in
        (fst r, S (snd r))
  end.

(** The lambda [ldl_iter_solve_noalias]. *)
Definition ldl_iter_solve_noalias (pen : Penalty T) (a : ActiveSet T)
           (rhs : list T) : list T * nat :=
  refinement_loop pen a rhs (Z.to_nat (nb_iterative_refinement settings)) 0
                  s_infinity (vzero (n + n_eq + n_in)).

(** The lambda [ldl_solve_in_place]. *)
Definition ldl_solve_in_place (pen : Penalty T) (a : ActiveSet T)
           (rhs : list T) : list T :=
  fst (ldl_iter_solve_noalias pen a rhs).

(** The semi-smooth prediction of the active set. *)
Definition active_set_lo (r : Residuals T) : list bool :=
  map (fun v => v <=? s0) (primal_residual_in_scaled_lo r).
Definition active_set_up (r : Residuals T) : list bool :=
  map (fun v => s0 <=? v) (primal_residual_in_scaled_up r).
Definition new_active_constraints (r : Residuals T) : list bool :=
  map (fun p => orb (fst p) (snd p))
      (combine (active_set_lo r) (active_set_up r)).

(** [rhs.head(n) += z * C_scaled_e.row(i)]. *)
Definition add_scaled_row (z_i : T) (i : nat) (rhs : list T) : list T :=
  fold_left (fun out p =>
               let k := nth p (row_indices CT_scaled) 0%nat in
               set_nth k (get out k + z_i * get (values CT_scaled) p) out)
            (col_range CT_scaled i) rhs.

(** The right-hand side of the Newton system. *)
Definition newton_rhs (pen : Penalty T) (it : Iterates T) (r : Residuals T)
  : list T :=
  fold_left (fun rhs i =>
     let z_i := get (it_z it) i in
     if nth i (active_set_up r) false then
       set_nth (n + n_eq + i)
               (s1 / mu_in pen * z_i - get (primal_residual_in_scaled_up r) i)
               rhs
     else if nth i (active_set_lo r) false then
       set_nth (n + n_eq + i)
               (s1 / mu_in pen * z_i - get (primal_residual_in_scaled_lo r) i)
               rhs
     else add_scaled_row z_i i (set_nth (n + n_eq + i) (- z_i) rhs))
    (seq 0 n_in)
    (vneg (dual_residual_scaled r) ++ vneg (primal_residual_eq_scaled r)
     ++ vzero n_in).

(** [struct PrimalDualGradResult]. *)
Record PrimalDualGradResult : Type := { pd_a : T; pd_b : T; pd_grad : T }.

(** The products that the line search and the update of the residuals
    share. *)
Record Products : Type := {
  Hdx : list T; Adx : list T; Cdx : list T; ATdy : list T; CTdz : list T
}.

Definition products (dx dy dz : list T) : Products :=
  {| Hdx := symhi_mul H_scaled dx;
     Adx := mat_tmul AT_scaled dx;
     ATdy := mat_mul AT_scaled dy;
     Cdx := mat_tmul CT_scaled dx;
     CTdz := mat_mul CT_scaled dz |}.

(** The lambda [primal_dual_gradient_norm]. *)
Definition primal_dual_gradient_norm (pen : Penalty T) (x_prev_e : list T)
           (it : Iterates T) (r : Residuals T) (dx dy dz : list T)
           (pr : Products) (alpha_cur : T) : PrimalDualGradResult :=
  let lo := primal_residual_in_scaled_lo r in
  let up := primal_residual_in_scaled_up r in
  let tmp_lo := vadd lo (vscale alpha_cur (Cdx pr)) in
  let tmp_up := vadd up (vscale alpha_cur (Cdx pr)) in
  let Cdx_active :=
    map (fun i => if (get tmp_lo i <? s0) || (s0 <? get tmp_up i)
                  then get (Cdx pr) i else s0) (seq 0 n_in) in
  let active_part_z :=
    vadd (map (fun i => if get tmp_lo i <? s0 then get lo i else s0)
              (seq 0 n_in))
         (map (fun i => if s0 <? get tmp_up i then get up i else s0)
              (seq 0 n_in)) in
  let nu := s1 in
  let x_e := it_x it in
  let y_e := it_y it in
  let z_e := it_z it in
  let req := primal_residual_eq_scaled r in
  let a :=
    dot dx (Hdx pr)
    + rho pen * squaredNorm dx
    + mu_eq pen * squaredNorm (Adx pr)
    + mu_in pen * squaredNorm Cdx_active
    + nu / mu_eq pen * squaredNorm (vsub (vscale (mu_eq pen) (Adx pr)) dy)
    + nu / mu_in pen * squaredNorm (vsub (vscale (mu_in pen) Cdx_active) dz) in
  let b :=
    dot x_e (Hdx pr)
    + dot (vadd (vscale (rho pen) (vsub x_e x_prev_e)) (qp_g (pb_qp_scaled pb)))
          dx
    + dot (Adx pr) (vadd (vscale (mu_eq pen) req) y_e)
    + mu_in pen * dot Cdx_active active_part_z
    + nu * dot req (vsub (vscale (mu_eq pen) (Adx pr)) dy)
    + nu * dot (vsub active_part_z (vscale (s1 / mu_in pen) z_e))
               (vsub (vscale (mu_in pen) Cdx_active) dz) in
  {| pd_a := a; pd_b := b; pd_grad := a * alpha_cur + b |}.

(** The two candidates of inequality [i], and the ones that are kept. *)
Definition alpha_candidates (r : Residuals T) (Cdx_ : list T) (i : nat)
  : list T :=
  [ - get (primal_residual_in_scaled_lo r) i / get Cdx_ i;
    - get (primal_residual_in_scaled_up r) i / get Cdx_ i ].

(** The array [alphas] when the collecting loop ends. *)
Definition collect_alphas (r : Residuals T) (Cdx_ : list T) : list T :=
  flat_map (fun i => filter (fun alpha_candidate => s0 <? alpha_candidate)
                            (alpha_candidates r Cdx_ i))
           (seq 0 n_in).

(** [std::sort] and [std::unique] on [alphas]. *)
Fixpoint sort_insert (x : T) (l : list T) : list T :=
  match l with
  | [] => [x]
  | y :: l' => if x <? y then x :: l else y :: sort_insert x l'
  end.

Definition std_sort (l : list T) : list T := fold_right sort_insert [] l.

Fixpoint std_unique (l : list T) : list T :=
  match l with
  | [] => []
  | x :: l' =>
      match l' with
      | [] => [x]
      | y :: _ => if x =? y then std_unique l' else x :: std_unique l'
      end
  end.

(** The variables of the walk over the breakpoints. *)
Record Walk : Type := {
  last_neg_grad : T;
  alpha_last_neg : T;
  first_pos_grad : T;
  alpha_first_pos : T
}.

(** The walk: it stops at the first breakpoint whose gradient is not
    negative. *)
Fixpoint walk_alphas (grad : T -> T) (alphas : list T) (w : Walk) : Walk :=
  match alphas with
  | [] => w
  | alpha_cur :: rest =>
      let gr := grad alpha_cur in
      if gr <? s0 then
        walk_alphas grad rest
          {| last_neg_grad := gr; alpha_last_neg := alpha_cur;
             first_pos_grad := first_pos_grad w;
             alpha_first_pos := alpha_first_pos w |}
      else
        {| last_neg_grad := last_neg_grad w;
           alpha_last_neg := alpha_last_neg w;
           first_pos_grad := gr; alpha_first_pos := alpha_cur |}
  end.

(** The "primal dual line search": the step length [alpha]. *)
Definition line_search (pen : Penalty T) (x_prev_e : list T)
           (it : Iterates T) (r : Residuals T) (dx dy dz : list T)
           (pr : Products) : T :=
  let pdg := primal_dual_gradient_norm pen x_prev_e it r dx dy dz pr in
  let alphas := std_unique (std_sort (collect_alphas r (Cdx pr))) in
  match alphas with
  | [] => s1
  | alpha0 :: _ =>
      if alpha0 <=? s1 then
        let w := walk_alphas (fun a => pd_grad (pdg a)) alphas
                   {| last_neg_grad := s0; alpha_last_neg := s0;
                      first_pos_grad := s0; alpha_first_pos := s_infinity |} in
        let last_neg_grad' :=
          if alpha_last_neg w =? s0 then pd_grad (pdg (alpha_last_neg w))
          else last_neg_grad w in
        if alpha_first_pos w =? s_infinity then
          let res := pdg (s_lit 2 1 * alpha_last_neg w + s1) in
          - pd_b res / pd_a res
        else
          let alpha :=
            alpha_last_neg w
            - last_neg_grad' * (alpha_first_pos w - alpha_last_neg w)
              / (first_pos_grad w - last_neg_grad') in
          if (alpha_last_neg w =? s0) && (alpha_first_pos w <? s1)
          then alpha_first_pos w else alpha
      else s1
  end.

(** How the inner loop was left. *)
Inductive InnerExit : Type :=
| SmallStep        (* [alpha * infty_norm(dw) < 1e-11 && iter > 0] *)
| InnerConverged   (* [err_in <= bcl_eta_in] *)
| MaxIterIn.       (* the loop counter reached [max_iter_in] *)

(** The test of the first [return] of the inner loop. *)
Definition small_step_test (iter : nat) (alpha : T) (dw : list T) : bool :=
  (alpha * infty_norm dw <? s_lit 1 100000000000) && (0 <? iter)%nat.

(** The first part of the body of the inner loop, up to the line search: the
    active set after the sweep, the Newton direction [dw] and the step length
    [alpha]. *)
Definition newton_step (pen : Penalty T) (x_prev_e : list T)
           (s : InnerState T) : option (ActiveSet T * list T * T) :=
  let it := is_it s in
  let r := is_res s in
  match active_set_change K pb pen (new_active_constraints r) (is_aset s) with
  | None => None
  | Some a =>
      let dw := ldl_solve_in_place pen a (newton_rhs pen it r) in
      let dx := head n dw in
      let dy := segment n n_eq dw in
      let dz := segment (n + n_eq) n_in dw in
      let pr := products dx dy dz in
      let alpha :=
        if (0 <? n_in)%nat then line_search pen x_prev_e it r dx dy dz pr
        else s1 in
      Some (a, dw, alpha)
  end.

(** The body of the inner loop.  [iter] is the counter of the outer loop. *)
Definition newton_iteration (iter : nat) (pen : Penalty T) (bcl : Bcl T)
           (x_prev_e : list T) (s : InnerState T)
  : option (InnerState T * option InnerExit) :=
  let it := is_it s in
  let r := is_res s in
  match newton_step pen x_prev_e s with
  | None => None
  | Some (a, dw, alpha) =>
      let dx := head n dw in
      let dy := segment n n_eq dw in
      let dz := segment (n + n_eq) n_in dw in
      let pr := products dx dy dz in
      if small_step_test iter alpha dw then
        Some ({| is_it := it; is_res := r; is_aset := a |}, Some SmallStep)
      else
        let it' := {| it_x := vadd (it_x it) (vscale alpha dx);
                      it_y := vadd (it_y it) (vscale alpha dy);
                      it_z := vadd (it_z it) (vscale alpha dz) |} in
        let r' :=
          {| dual_residual_scaled :=
               vadd (dual_residual_scaled r)
                    (vscale alpha
                       (vadd (vadd (vadd (Hdx pr) (ATdy pr)) (CTdz pr))
                             (vscale (rho pen) dx)));
             primal_residual_eq_scaled :=
               vadd (primal_residual_eq_scaled r)
                    (vscale alpha
                       (vsub (Adx pr) (vscale (s1 / mu_eq pen) dy)));
             primal_residual_in_scaled_lo :=
               vadd (primal_residual_in_scaled_lo r) (vscale alpha (Cdx pr));
             primal_residual_in_scaled_up :=
               vadd (primal_residual_in_scaled_up r) (vscale alpha (Cdx pr))
          |} in
        let err_in :=
          s_max_list
            (infty_norm
               (vsub (vadd (negative_part (primal_residual_in_scaled_lo r'))
                           (positive_part (primal_residual_in_scaled_up r')))
                     (vscale (s1 / mu_in pen) (it_z it'))))
            [infty_norm (primal_residual_eq_scaled r');
             infty_norm (dual_residual_scaled r')] in
        let s' := {| is_it := it'; is_res := r'; is_aset := a |} in
        if err_in <=? bcl_eta_in bcl then Some (s', Some InnerConverged)
        else Some (s', None)
  end.

(** The inner loop, with [remaining] turns left; the result also tells how
    the loop was left and in which turn ([iter_inner]). *)
Fixpoint inner_loop (iter : nat) (pen : Penalty T) (bcl : Bcl T)
         (x_prev_e : list T) (remaining iter_inner : nat) (s : InnerState T)
  : option (InnerState T * InnerExit * nat) :=
  match remaining with
  | O => Some (s, MaxIterIn, iter_inner)
  | S remaining' =>
      match newton_iteration iter pen bcl x_prev_e s with
      | None => None
      | Some (s', Some e) => Some (s', e, iter_inner)
      | Some (s', None) =>
          inner_loop iter pen bcl x_prev_e remaining' (S iter_inner) s'
      end
  end.

(** The lambda [primal_dual_newton_semi_smooth]. *)
Definition primal_dual_newton_semi_smooth (iter : nat) (pen : Penalty T)
           (bcl : Bcl T) (x_prev_e : list T) (s : InnerState T)
  : option (InnerState T) :=
  match inner_loop iter pen bcl x_prev_e
                   (Z.to_nat (max_iter_in settings)) 0 s with
  | Some (s', _, _) => Some s'
  | None => None
  end.

End Inner.

(* ================================================================== *)
(** * [qp_solve] *)
(* ================================================================== *)

Section QpSolve.
Context {T : Type} `{Scalar T} `{HasInfinity T}.

(** [qp_solve]: the preconditioner scales the model, the loop runs on the
    scaled model, and the iterates are unscaled.  The KKT storage of the
    workspace holds the matrices of [qp] (they were copied by [qp_setup]),
    and [perm_inv] is the permutation found by the symbolic analysis. *)
Definition qp_solve (pow : T -> T -> T) (K : Kernel T) (P : Type)
           (pc : Preconditioner T P) (x y z : list T) (perm_inv : list nat)
           (settings : QPSettings T) (precond : P) (qp : QpView T)
  : option (Iterates T * Exit) :=
  match pc_scale_qp_in_place pc precond qp with
  | None => None
  | Some (precond', qp_scaled) =>
      let pb := {| pb_n := nrows (qp_H qp);
                   pb_n_eq := ncols (qp_AT qp);
                   pb_n_in := ncols (qp_CT qp);
                   pb_qp := qp;
                   pb_qp_scaled := qp_scaled;
                   pb_perm_inv := perm_inv |} in
      qp_solve_loop pow pc precond' settings pb
        (primal_dual_newton_semi_smooth K settings pb)
        (ldl_solve_in_place K settings pb) x y z
  end.

End QpSolve.

(* ================================================================== *)
(** * Small models used as examples *)
(* ================================================================== *)

Section Examples.
Context {T : Type} `{Scalar T}.

(** A matrix with [nr] rows and [nc] columns and no stored entry. *)
Definition mat_empty (nr nc : nat) : Mat T :=
  {| nrows := nr; ncols := nc; nnz := 0; col_ptrs := repeat 0%nat (S nc);
     nnz_per_col := None; row_indices := []; values := [] |}.

(** A matrix with one row and one column, and the entry [v]. *)
Definition mat_1x1 (v : T) : Mat T :=
  {| nrows := 1; ncols := 1; nnz := 1; col_ptrs := [0; 1]%nat;
     nnz_per_col := None; row_indices := [0%nat]; values := [v] |}.

(** minimize (h/2) x^2 + g x subject to a x = b and l <= c x <= u. *)
Definition qp_1_1_1 (h g a b c l u : T) : QpView T :=
  {| qp_H := mat_1x1 h; qp_g := [g];
     qp_AT := mat_1x1 a; qp_b := [b];
     qp_CT := mat_1x1 c; qp_l := [l]; qp_u := [u] |}.

(** minimize g x over one variable: [H] has no stored entry and there is no
    constraint. *)
Definition qp_linear (g : T) : QpView T :=
  {| qp_H := mat_empty 1 1; qp_g := [g];
     qp_AT := mat_empty 1 0; qp_b := [];
     qp_CT := mat_empty 1 0; qp_l := []; qp_u := [] |}.

(** The loop variables of [ruiz_scale_qp_in_place] when the loop starts. *)
Definition ruiz_initial_state (delta_ : list T) (qp : QpView T) : RuizState T :=
  {| rz_delta := vzero (nrows (qp_H qp) + ncols (qp_AT qp) + ncols (qp_CT qp));
     rz_qp := qp; rz_S := delta_; rz_c := s1; rz_gamma := s1 |}.

End Examples.

(** An equilibration in exact arithmetic that runs one round: the QP
    minimize 2 x^2 + x subject to x = 1 and 0 <= x <= 1, with
    [max_iter = 2]. *)
Definition ruiz_example_qp : QpView R := qp_1_1_1 4%R 1%R 1%R 1%R 1%R 0%R 1%R.

Definition ruiz_example_precond : RuizEquilibration R :=
  RuizEquilibration_new 1 2 (s_lit 1 1000) 2 UPPER.

Definition ruiz_example_state : RuizState R :=
  ruiz_round UPPER 1 1 1 (ruiz_initial_state (vones 3) ruiz_example_qp).

Definition ruiz_example_scaled : RuizEquilibration R :=
  {| re_delta := rz_S ruiz_example_state; re_n := 1;
     re_c := rz_c ruiz_example_state; re_epsilon := s_lit 1 1000;
     re_max_iter := 2; re_sym := UPPER |}.

(* ================================================================== *)
(** * Auxiliary notions used to state the properties *)
(* ================================================================== *)

Section RefinementTrace.
Context {T : Type} `{Scalar T} `{HasInfinity T}.
Variable K : Kernel T.
Variable pb : Problem T.
Variable pen : Penalty T.
Variable a : ActiveSet T.
Variable rhs : list T.

(** The solution and the previous norm with which pass [j] of the iterative
    refinement starts, when no earlier pass left the loop. *)
Fixpoint refinement_iterate (j : nat) : list T * T :=
  match j with
  | O => (vzero (pb_n pb + pb_n_eq pb + pb_n_in pb), s_infinity)
  | S j' =>
      let st := refinement_iterate j' in
      (refinement_pass K pb pen a j' rhs (fst st),
       refinement_err_norm pb pen a j' rhs (fst st))
  end.

(** The test [err_norm > prev_err_norm] in pass [j]. *)
Definition refinement_stops (j : nat) : bool :=
  s_ltb (snd (refinement_iterate j))
        (refinement_err_norm pb pen a j rhs (fst (refinement_iterate j))).

(** The norm of the whole error [K sol - rhs] in pass [j]. *)
Definition refinement_full_norm (j : nat) : T :=
  infty_norm (refinement_error pb pen a j rhs (fst (refinement_iterate j))).

End RefinementTrace.

(* ================================================================== *)
(** * A dense stand-in for the factorization kernel, for the examples *)
(* ================================================================== *)

Section DenseKernel.
Context {T : Type} `{Scalar T}.
Local Open Scope scalar_scope.

(** [m[i][j] += v] in a dense matrix held by rows. *)
Definition dense_add (i j : nat) (v : T) (m : list (list T)) : list (list T) :=
  set_nth i (set_nth j (get (nth i m []) j + v) (nth i m [])) m.

(** The entries of the first [count] positions of column [j] of [m], put at
    column [off + j] of the symmetric dense matrix. *)
Definition dense_add_col (m : Mat T) (off j count : nat)
           (d : list (list T)) : list (list T) :=
  fold_left (fun d p =>
               let i := nth p (row_indices m) 0%nat in
               let v := get (values m) p in
               if (i =? off + j)%nat then dense_add i i v d
               else dense_add (off + j) i v (dense_add i (off + j) v d))
            (seq (col_start m j) count) d.

(** Modelled from the spec: the matrix of which [ldl] is the factorization,
    "L D L^T = P K P^T": the symmetric matrix whose upper part is
    [kkt_active], with the counts and the diagonal recorded in the [Factor]. *)
Definition dense_kkt (pb : Problem T) (F : Factor T) : list (list T) :=
  let q := pb_qp_scaled pb in
  let n := pb_n pb in
  let n_eq := pb_n_eq pb in
  let n_in := pb_n_in pb in
  let n_tot := (n + n_eq + n_in)%nat in
  let d0 := repeat (vzero n_tot) n_tot in
  let d1 := fold_left (fun d j =>
                dense_add_col (qp_H q) 0 j (nth j (fac_nnz_per_col F) 0%nat) d)
              (seq 0 n) d0 in
  let d2 := fold_left (fun d j =>
                dense_add_col (qp_AT q) n j
                              (nth (n + j) (fac_nnz_per_col F) 0%nat) d)
              (seq 0 n_eq) d1 in
  let d3 := fold_left (fun d j =>
                dense_add_col (qp_CT q) (n + n_eq) j
                              (nth (n + n_eq + j) (fac_nnz_per_col F) 0%nat) d)
              (seq 0 n_in) d2 in
  fold_left (fun d i => dense_add i i (get (fac_diag F) i) d) (seq 0 n_tot) d3.

(** Gaussian elimination without pivoting on the rows [(a_i, b_i)]. *)
Fixpoint gauss (k : nat) (rows : list (list T * T)) : list T :=
  match k, rows with
  | S k', (a0 :: as0, b0) :: rest =>
      let rest' :=
        map (fun r =>
               let f := get (fst r) 0 / a0 in
               (vsub (List.tl (fst r)) (vscale f as0), snd r - f * b0))
            rest in
      let x_rest := gauss k' rest' in
      (b0 - dot as0 x_rest) / a0 :: x_rest
  | _, _ => []
  end.

Definition dense_solve (m : list (list T)) (rhs : list T) : list T :=
  gauss (length m) (combine m rhs).

(** The stand-in: the solve is a dense elimination on the factorized matrix,
    and a column of [L] holds its diagonal entry, and one more entry for each
    later slot of the factorized pattern that is not empty when the column
    itself is not empty. *)
Definition dense_kernel (pb : Problem T) : Kernel T :=
  {| k_ldl_solve := fun F rhs => dense_solve (dense_kkt pb F) rhs;
     k_lnz := fun nz p =>
       if (nth p nz 0 =? 0)%nat then 1%nat
       else S (length (filter (fun c => negb (c =? 0)%nat) (skipn (S p) nz))) |}.

(** A stand-in for [pow] that is right for the exponents 0 and 1. *)
Definition pow_01 (x y : T) : T :=
  if y =? s1 then x else if y =? s0 then s1 else s_sqrt (s_opp s1).

(** The problem data of [qp_solve] for a QP that is not rescaled, with the
    identity permutation. *)
Definition problem_of (qp : QpView T) : Problem T :=
  {| pb_n := nrows (qp_H qp); pb_n_eq := ncols (qp_AT qp);
     pb_n_in := ncols (qp_CT qp); pb_qp := qp; pb_qp_scaled := qp;
     pb_perm_inv := [] |}.

(** Modelled from the spec: the default settings ("alpha_bcl = 0.1,
    beta_bcl = 0.9, mu_update_factor = 10, mu_max_eq = 1e10, mu_max_in = 1e8,
    cold_reset_mu = 1.1, max_iter 10000, max_iter_in 1500, eps_abs = 1e-9",
    five refinement passes), with [eps_rel = 0]. *)
Definition default_settings (warm : bool) : QPSettings T :=
  {| alpha_bcl := s_lit 1 10; beta_bcl := s_lit 9 10;
     mu_update_factor := s_lit 10 1;
     mu_max_eq := s_lit 10000000000 1; mu_max_in := s_lit 100000000 1;
     cold_reset_mu_eq := s_lit 11 10; cold_reset_mu_in := s_lit 11 10;
     eps_abs := s_lit 1 1000000000; eps_rel := s0;
     max_iter := 10000; max_iter_in := 1500;
     nb_iterative_refinement := 5; warm_start := warm |}.

(** The same with the exponents [alpha_bcl = beta_bcl = 1]. *)
Definition example_settings (warm : bool) (eps : T) (iters : Z)
  : QPSettings T :=
  {| alpha_bcl := s1; beta_bcl := s1;
     mu_update_factor := s_lit 10 1;
     mu_max_eq := s_lit 10000000000 1; mu_max_in := s_lit 100000000 1;
     cold_reset_mu_eq := s_lit 11 10; cold_reset_mu_in := s_lit 11 10;
     eps_abs := eps; eps_rel := s0;
     max_iter := iters; max_iter_in := 1500;
     nb_iterative_refinement := 5; warm_start := warm |}.

End DenseKernel.

Section ActiveSetNotions.
Context {T : Type} `{Scalar T}.
Local Open Scope scalar_scope.
Variable K : Kernel T.
Variable pb : Problem T.

(** The KKT slot of inequality [i], and its position after the permutation
    (as [add_row] computes it). *)
Definition slot (i : nat) : nat := (pb_n pb + pb_n_eq pb + i)%nat.

Definition permuted_pos (pos : nat) : nat :=
  if (length (pb_perm_inv pb) =? 0)%nat then pos
  else nth pos (pb_perm_inv pb) 0%nat.

(** The number of entries that slot [i] must hold: the whole column of [CT]
    when the inequality is active, none otherwise. *)
Definition slot_count (a : ActiveSet T) (i : nat) : nat :=
  if nth i (active_constraints a) false then kkt_col_nnz pb i else 0%nat.

(** The bookkeeping is coherent: [kkt_active] and the factorized pattern both
    hold, at every inequality slot, the column of an active inequality and
    nothing for an inactive one. *)
Definition slots_coherent (a : ActiveSet T) : Prop :=
  length (active_constraints a) = pb_n_in pb
  /\ length (kkt_nnz_counts a) = (pb_n pb + pb_n_eq pb + pb_n_in pb)%nat
  /\ length (fac_nnz_per_col (ldl a)) = (pb_n pb + pb_n_eq pb + pb_n_in pb)%nat
  /\ forall i, (i < pb_n_in pb)%nat ->
       nth (slot i) (kkt_nnz_counts a) 0%nat = slot_count a i
       /\ nth (slot i) (fac_nnz_per_col (ldl a)) 0%nat = slot_count a i.

(** The diagonal that the factorization holds at the inequality slots is the
    one of the invariant of the KKT matrix for the penalties [pen]:
    [-1/mu_in] when active, [1] when inactive. *)
Definition diag_coherent (pen : Penalty T) (a : ActiveSet T) : Prop :=
  forall i, (i < pb_n_in pb)%nat ->
    get (fac_diag (ldl a)) (slot i)
    = if nth i (active_constraints a) false
      then s_lit (-1) 1 / mu_in pen else s1.

(** The states of the active set that the solver can reach: the initial one,
    and those after a sweep or a refactorization. *)
Inductive reachable : ActiveSet T -> Prop :=
| reach_initial (pen : Penalty T) : reachable (initial_active_set pb pen)
| reach_sweep (a a' : ActiveSet T) (pen : Penalty T) (pred : list bool) :
    reachable a -> active_set_change K pb pen pred a = Some a' ->
    reachable a'
| reach_refactorize (a : ActiveSet T) (pen : Penalty T) :
    reachable a -> reachable (refactorize pb pen a).

(** The state of the sweep before turn [i]. *)
Definition sweep_before (pen : Penalty T) (pred : list bool)
           (a : ActiveSet T) (i : nat) : option (ActiveSet T * bool * bool) :=
  fold_left (active_set_step K pb pen pred) (seq 0 i) (Some (a, false, false)).

End ActiveSetNotions.

(* ================================================================== *)
(** * Runs of the outer loop, for the examples *)
(* ================================================================== *)

Section Runs.
Context {T : Type} `{Scalar T}.
Variable pow : T -> T -> T.
Variable P : Type.
Variable pc : Preconditioner T P.
Variable precond : P.
Variable settings : QPSettings T.
Variable pb : Problem T.
Variable inner_solver :
  nat -> Penalty T -> Bcl T -> list T -> InnerState T -> option (InnerState T).

(** The state after [k] more turns of the outer loop, none of which leaves
    the loop. *)
Fixpoint outer_run (k iter : nat) (s : OuterState T) : option (OuterState T) :=
  match k with
  | O => Some s
  | S k' =>
      match outer_iteration pow pc precond settings pb inner_solver iter s with
      | Some (Continue s') => outer_run k' (S iter) s'
      | _ => None
      end
  end.

(** The feasibilities that a turn of the outer loop compares in the test of
    the cold reset: the primal and dual feasibility before the inner solver,
    the primal one after it, and the dual one after [bcl_update]. *)
Record Feasibilities : Type := {
  primal_before : T;
  dual_before : T;
  primal_after : T;
  dual_after : T
}.

Definition outer_feasibilities (iter : nat) (s : OuterState T)
  : option Feasibilities :=
  let '(p0, _, _) := unscaled_primal_residual pc precond pb (it_x (os_it s)) in
  let '(d0, _, _) := unscaled_dual_residual pc precond pb (os_it s) in
  match inner_solver iter (os_pen s) (os_bcl s) (it_x (os_it s))
                     (inner_input pc precond pb s) with
  | None => None
  | Some r =>
      let '(p1, _, _) :=
        unscaled_primal_residual pc precond pb (it_x (is_it r)) in
      let b := bcl_update pow settings (os_pen s) p1 (os_bcl s) (is_it r)
                          (it_y (os_it s)) (it_z (os_it s)) in
      let '(d1, _, _) := unscaled_dual_residual pc precond pb (br_it b) in
      Some {| primal_before := p0; dual_before := d0;
              primal_after := p1; dual_after := d1 |}
  end.

End Runs.

(** ** The example runs, in double arithmetic *)

(** minimize x^2/2 - 10 x subject to -1e20 <= x <= 0. *)
Definition qp_bound : QpView float :=
  {| qp_H := mat_1x1 (s_lit 1 1); qp_g := [s_lit (-10) 1];
     qp_AT := mat_empty 1 0; qp_b := [];
     qp_CT := mat_1x1 (s_lit 1 1);
     qp_l := [s_lit (-100000000000000000000) 1]; qp_u := [s_lit 0 1] |}.

(** minimize x^2/2 subject to 1 <= 0 x <= 2: an infeasible QP. *)
Definition qp_infeasible : QpView float :=
  {| qp_H := mat_1x1 (s_lit 1 1); qp_g := [s_lit 0 1];
     qp_AT := mat_empty 1 0; qp_b := [];
     qp_CT := mat_1x1 (s_lit 0 1); qp_l := [s_lit 1 1]; qp_u := [s_lit 2 1] |}.

(** minimize x^2/2 + x, without constraints. *)
Definition qp_free : QpView float :=
  {| qp_H := mat_1x1 (s_lit 1 1); qp_g := [s_lit 1 1];
     qp_AT := mat_empty 1 0; qp_b := [];
     qp_CT := mat_empty 1 0; qp_l := []; qp_u := [] |}.

(** The solver on a QP that is not rescaled (identity preconditioner), with
    the dense stand-in for the kernel: the inner solver, the first state of
    the outer loop, and the state after [k] turns. *)
Definition example_inner (settings : QPSettings float) (qp : QpView float) :=
  primal_dual_newton_semi_smooth (dense_kernel (problem_of qp)) settings
                                 (problem_of qp).

Definition example_start (settings : QPSettings float) (qp : QpView float)
  : OuterState float :=
  initial_outer_state pow_01 settings (problem_of qp)
    (ldl_solve_in_place (dense_kernel (problem_of qp)) settings
                        (problem_of qp)) [] [] [].

Definition example_run (settings : QPSettings float) (qp : QpView float)
           (k : nat) : option (OuterState float) :=
  outer_run pow_01 Identity_preconditioner tt settings (problem_of qp)
            (example_inner settings qp) k 0 (example_start settings qp).

(** The state after [k] turns, with the first state in the place of a run
    that leaves the loop early. *)
Definition example_state (settings : QPSettings float) (qp : QpView float)
           (k : nat) : OuterState float :=
  match example_run settings qp k with
  | Some s => s
  | None => example_start settings qp
  end.

(* ================================================================== *)
(** * The residuals of the unscaled QP *)
(* ================================================================== *)

Section TrueResiduals.
Context {T : Type} `{Scalar T}.
Local Open Scope scalar_scope.
Variable settings : QPSettings T.
Variable qp : QpView T.

(** [A x - b]. *)
Definition primal_eq_residual (x : list T) : list T :=
  vsub (mat_tmul (qp_AT qp) x) (qp_b qp).

(** [[C x - u]^+ + [C x - l]^-]. *)
Definition primal_in_residual (x : list T) : list T :=
  vadd (positive_part (vsub (mat_tmul (qp_CT qp) x) (qp_u qp)))
       (negative_part (vsub (mat_tmul (qp_CT qp) x) (qp_l qp))).

(** [H x + g + A^T y + C^T z]. *)
Definition dual_residual (it : Iterates T) : list T :=
  vadd (vadd (vadd (qp_g qp) (symhi_mul (qp_H qp) (it_x it)))
             (mat_mul (qp_AT qp) (it_y it)))
       (mat_mul (qp_CT qp) (it_z it)).

(** The tolerance of the primal test: [eps_abs] plus [eps_rel] times the
    largest of the norms of [A x], [C x], [b], [l] and [u]. *)
Definition primal_tolerance (x : list T) : T :=
  eps_abs settings
  + eps_rel settings
    * s_max_list (infty_norm (mat_tmul (qp_AT qp) x))
        [infty_norm (mat_tmul (qp_CT qp) x); infty_norm (qp_b qp);
         infty_norm (qp_l qp); infty_norm (qp_u qp)].

(** The tolerance of the dual test: [eps_abs] plus [eps_rel] times the
    largest of the norms of [H x], [A^T y], [g] and [C^T z]. *)
Definition dual_tolerance (it : Iterates T) : T :=
  eps_abs settings
  + eps_rel settings
    * s_max_list (infty_norm (symhi_mul (qp_H qp) (it_x it)))
        [infty_norm (mat_mul (qp_AT qp) (it_y it)); infty_norm (qp_g qp);
         infty_norm (mat_mul (qp_CT qp) (it_z it))].

End TrueResiduals.

Section Consistency.
Context {T : Type} `{Scalar T}.
Variable P : Type.
Variable pc : Preconditioner T P.
Variable precond : P.
Variable pb : Problem T.

(** Iterates of the sizes of the problem. *)
Definition sized (it : Iterates T) : Prop :=
  length (it_x it) = pb_n pb /\ length (it_y it) = pb_n_eq pb
  /\ length (it_z it) = pb_n_in pb.

(** The unscaling of the iterates. *)
Definition unscale_iterates (it : Iterates T) : Iterates T :=
  {| it_x := pc_unscale_primal_in_place pc precond (it_x it);
     it_y := pc_unscale_dual_in_place_eq pc precond (it_y it);
     it_z := pc_unscale_dual_in_place_in pc precond (it_z it) |}.

(** The preconditioner is consistent with the scaled model: unscaling a
    product of a scaled matrix with scaled iterates gives the product of the
    unscaled matrix with the unscaled iterates, and likewise for the whole
    dual residual. *)
Definition preconditioner_consistent : Prop :=
  let q := pb_qp pb in
  let qs := pb_qp_scaled pb in
  forall it, sized it ->
    let it' := unscale_iterates it in
    pc_unscale_primal_residual_in_place_eq pc precond
      (mat_tmul (qp_AT qs) (it_x it)) = mat_tmul (qp_AT q) (it_x it')
    /\ pc_unscale_primal_residual_in_place_in pc precond
         (mat_tmul (qp_CT qs) (it_x it)) = mat_tmul (qp_CT q) (it_x it')
    /\ pc_unscale_dual_residual_in_place pc precond
         (symhi_mul (qp_H qs) (it_x it)) = symhi_mul (qp_H q) (it_x it')
    /\ pc_unscale_dual_residual_in_place pc precond
         (mat_mul (qp_AT qs) (it_y it)) = mat_mul (qp_AT q) (it_y it')
    /\ pc_unscale_dual_residual_in_place pc precond
         (mat_mul (qp_CT qs) (it_z it)) = mat_mul (qp_CT q) (it_z it')
    /\ pc_unscale_dual_residual_in_place pc precond
         (vadd (vadd (vadd (qp_g qs) (symhi_mul (qp_H qs) (it_x it)))
                     (mat_mul (qp_AT qs) (it_y it)))
               (mat_mul (qp_CT qs) (it_z it)))
       = dual_residual q it'.

(** The inner solver keeps the sizes of the iterates. *)
Definition keeps_sizes
  (inner_solver : nat -> Penalty T -> Bcl T -> list T -> InnerState T
                  -> option (InnerState T)) : Prop :=
  forall iter pen bcl x_prev s s',
    sized (is_it s) -> inner_solver iter pen bcl x_prev s = Some s' ->
    sized (is_it s').

End Consistency.

Section ConvergenceTest.
Context {T : Type} `{Scalar T}.
Variable P : Type.
Variable pc : Preconditioner T P.
Variable precond : P.
Variable settings : QPSettings T.
Variable pb : Problem T.

(** The convergence test of the outer loop at given (scaled) iterates. *)
Definition convergence_test (it : Iterates T) : bool :=
  let '(primal_feasibility_lhs, prhs, _) :=
    unscaled_primal_residual pc precond pb (it_x it) in
  let '(dual_feasibility_lhs, drhs, _) :=
    unscaled_dual_residual pc precond pb it in
  is_primal_feasible settings pb prhs primal_feasibility_lhs
  && is_dual_feasible settings pb drhs dual_feasibility_lhs.

End ConvergenceTest.

(** ** An example in exact arithmetic: a warm start at the solution *)

(** minimize 2 x^2 - 4 x subject to x = 1 and 0 <= x <= 1; the solution is
    [x = 1] with zero multipliers. *)
Definition qp_solved : QpView R :=
  qp_1_1_1 4%R (-4)%R 1%R 1%R 1%R 0%R 1%R.

(** An inner solver and a linear solve that do nothing: the run of the
    example never reaches them. *)
Definition idle_inner_solver (iter : nat) (pen : Penalty R) (bcl : Bcl R)
           (x_prev : list R) (s : InnerState R) : option (InnerState R) :=
  Some s.

Definition idle_solve (pen : Penalty R) (a : ActiveSet R) (rhs : list R)
  : list R := rhs.

(* ================================================================== *)
(** * Well-formed models *)
(* ================================================================== *)

Section WellFormed.
Context {T : Type} `{Scalar T}.

(** A compressed matrix whose column pointers do not decrease and stay
    within the arrays, and whose row indices are rows of the matrix. *)
Definition csc_wf (m : Mat T) : Prop :=
  nnz_per_col m = None
  /\ (forall j, (j < ncols m)%nat ->
                (nth j (col_ptrs m) 0 <= nth (S j) (col_ptrs m) 0)%nat)
  /\ (nth (ncols m) (col_ptrs m) 0 <= length (values m))%nat
  /\ (forall j p, (j < ncols m)%nat ->
                  (nth j (col_ptrs m) 0 <= p < nth (S j) (col_ptrs m) 0)%nat ->
                  (nth p (row_indices m) 0 < nrows m)%nat).

(** Every stored entry of [h] is on or above the diagonal (what [qp_setup]
    asserts for [H]). *)
Definition upper_triangular (h : Mat T) : Prop :=
  forall j p, (j < ncols h)%nat ->
              (col_start h j <= p < col_end h j)%nat ->
              (nth p (row_indices h) 0 <= j)%nat.

(** Two matrices with the same pattern. *)
Definition same_pattern (m m' : Mat T) : Prop :=
  nrows m' = nrows m /\ ncols m' = ncols m /\ col_ptrs m' = col_ptrs m
  /\ nnz_per_col m' = nnz_per_col m /\ row_indices m' = row_indices m
  /\ length (values m') = length (values m).

(** A model of the sizes [n], [n_eq], [n_in] with well-formed matrices. *)
Definition qp_wf (qp : QpView T) : Prop :=
  csc_wf (qp_H qp) /\ csc_wf (qp_AT qp) /\ csc_wf (qp_CT qp)
  /\ upper_triangular (qp_H qp)
  /\ ncols (qp_H qp) = nrows (qp_H qp)
  /\ nrows (qp_AT qp) = nrows (qp_H qp)
  /\ nrows (qp_CT qp) = nrows (qp_H qp)
  /\ length (qp_g qp) = nrows (qp_H qp).

End WellFormed.

(** The entries of [ms] are those of [m0] through [F]: the entry at position
    [p] of column [j], in row [i], is [F j i] of the entry of [m0]. *)
Definition values_rel (T : Type) `{Scalar T} (F : nat -> nat -> T -> T)
           (m0 ms : Mat T) : Prop :=
  same_pattern m0 ms
  /\ forall j p, (j < ncols m0)%nat ->
                 (col_start m0 j <= p < col_end m0 j)%nat ->
                 get (values ms) p
                 = F j (nth p (row_indices m0) 0%nat) (get (values m0) p).

(** The model [qs] is the model [q0] equilibrated with the factors [S] and
    the cost factor [c]: [H_s = c D H D], [A_s = E_eq A D], [C_s = E_in C D]
    and [g_s = c D g], where [D], [E_eq], [E_in] are the three parts of
    [S]. *)
Definition equilibrated (S : list R) (c : R) (q0 qs : QpView R) : Prop :=
  let n := nrows (qp_H q0) in
  let n_eq := ncols (qp_AT q0) in
  values_rel (fun j i v => (c * (get S j * v * get S i))%R)
             (qp_H q0) (qp_H qs)
  /\ values_rel (fun j i v => (get S i * v * get S (n + j))%R)
                (qp_AT q0) (qp_AT qs)
  /\ values_rel (fun j i v => (get S i * v * get S (n + n_eq + j))%R)
                (qp_CT q0) (qp_CT qs)
  /\ length (qp_g qs) = length (qp_g q0)
  /\ forall k, get (qp_g qs) k = (c * get S k * get (qp_g q0) k)%R.

(** What the rounds keep: positive accumulated factors, of the length of the
    KKT system, and a positive cost factor. *)
Definition ruiz_positive (len : nat) (st : RuizState R) : Prop :=
  Forall (fun v => (0 < v)%R) (rz_S st) /\ length (rz_S st) = len /\ (0 < rz_c st)%R.


(** The vector [a] is the vector [b] scaled entry by entry: [a(i)] is
    [e(i) * b(i)]. *)
Definition scaled_by (e : nat -> R) (a b : list R) : Prop :=
  length a = length b /\ forall i, get a i = (e i * get b i)%R.

(* ================================================================== *)
(** * Further members of [RuizEquilibration] *)
(* ================================================================== *)

Section RuizMembers.
Context {T : Type} `{Scalar T}.
Local Open Scope scalar_scope.

(** [scale_dual_in_place] and [unscale_dual_in_place]: the whole dual vector
    [(y, z)], against [delta.tail(delta.size() - n)]. *)
Definition scale_dual_in_place (r : RuizEquilibration T) (dual : list T) :=
  map (fun x => x * re_c r)
      (vdiv dual (tail (length (re_delta r) - re_n r) (re_delta r))).
Definition unscale_dual_in_place (r : RuizEquilibration T) (dual : list T) :=
  map (fun x => x / re_c r)
      (vmul dual (tail (length (re_delta r) - re_n r) (re_delta r))).

(** [scale_primal_residual_in_place] and [unscale_primal_residual_in_place]:
    the whole primal residual. *)
Definition scale_primal_residual_in_place (r : RuizEquilibration T)
           (primal : list T) :=
  vmul primal (tail (length (re_delta r) - re_n r) (re_delta r)).
Definition unscale_primal_residual_in_place (r : RuizEquilibration T)
           (primal : list T) :=
  vdiv primal (tail (length (re_delta r) - re_n r) (re_delta r)).

End RuizMembers.

(** The right-hand sides of the constraints of [qs] are those of [q0] scaled
    by the factors of their rows: [b_s = E_eq b], [l_s = E_in l] and
    [u_s = E_in u]. *)
Definition bounds_equilibrated (S : list R) (q0 qs : QpView R) : Prop :=
  let n := nrows (qp_H q0) in
  let n_eq := ncols (qp_AT q0) in
  let n_in := ncols (qp_CT q0) in
  length (qp_b qs) = n_eq /\ length (qp_l qs) = n_in
  /\ length (qp_u qs) = n_in
  /\ (forall j, (j < n_eq)%nat ->
                get (qp_b qs) j = (get (qp_b q0) j * get S (n + j))%R)
  /\ (forall j, (j < n_in)%nat ->
                get (qp_l qs) j = (get (qp_l q0) j * get S (n + n_eq + j))%R
                /\ get (qp_u qs) j
                   = (get (qp_u q0) j * get S (n + n_eq + j))%R).

(** minimize x^2/2 + x subject to 0 x = 0: the row of the equality
    constraint has no stored entry. *)
Definition qp_empty_row : QpView R :=
  {| qp_H := mat_1x1 1%R; qp_g := [1%R];
     qp_AT := mat_empty 1 1; qp_b := [0%R];
     qp_CT := mat_empty 1 0; qp_l := []; qp_u := [] |}.

(* ================================================================== *)
(** * [results.hpp]: the results of a solve *)
(* ================================================================== *)

Module results.

(** Modelled from the spec: [QPSolverOutput] ("termination status in
    {solved, max_iter}"); its header is not among the sources. *)
Inductive QPSolverOutput : Type :=
| PROXQP_SOLVED
| PROXQP_MAX_ITER_REACHED.

Section Results.
Context {T : Type} `{Scalar T}.
Local Open Scope scalar_scope.

(** [struct Info]. *)
Record Info : Type := {
  mu_eq : T;
  mu_eq_inv : T;
  mu_in : T;
  mu_in_inv : T;
  rho : T;
  nu : T;
  iter : Z;
  iter_ext : Z;
  mu_updates : Z;
  rho_updates : Z;
  status : QPSolverOutput;
  setup_time : T;
  solve_time : T;
  run_time : T;
  objValue : T;
  pri_res : T;
  dua_res : T
}.

(** [struct Results]. *)
Record Results : Type := {
  x : list T;
  y : list T;
  z : list T;
  active_constraints : list bool;
  info : Info
}.

(** The constructor [Results(dim, n_eq, n_in)]; [active_constraints] is
    default-constructed, and so empty. *)
Definition Results_new (dim n_eq n_in : nat) : Results :=
  {| x := vzero dim; y := vzero n_eq; z := vzero n_in;
     active_constraints := [];
     info := {| rho := s_lit 1 1000000;
                mu_eq_inv := s_lit 1000 1;
                mu_eq := s_lit 1 1000;
                mu_in_inv := s_lit 10 1;
                mu_in := s_lit 1 10;
                nu := s_lit 1 1;
                iter := 0; iter_ext := 0; mu_updates := 0; rho_updates := 0;
                run_time := s_lit 0 1; setup_time := s_lit 0 1;
                solve_time := s_lit 0 1; objValue := s_lit 0 1;
                pri_res := s_lit 0 1; dua_res := s_lit 0 1;
                status := PROXQP_MAX_ITER_REACHED |} |}.

Definition with_info (r : Results) (i : Info) : Results :=
  {| x := x r; y := y r; z := z r;
     active_constraints := active_constraints r; info := i |}.

(** [cleanup_statistics]. *)
Definition cleanup_statistics (r : Results) : Results :=
  let i := info r in
  with_info r
    {| mu_eq := mu_eq i; mu_eq_inv := mu_eq_inv i; mu_in := mu_in i;
       mu_in_inv := mu_in_inv i; rho := rho i; nu := nu i;
       run_time := s_lit 0 1; setup_time := s_lit 0 1;
       solve_time := s_lit 0 1; objValue := s_lit 0 1;
       iter := 0; iter_ext := 0; mu_updates := 0; rho_updates := 0;
       pri_res := s_lit 0 1; dua_res := s_lit 0 1;
       status := PROXQP_MAX_ITER_REACHED |}.

(** [cold_start(rho, mu_eq, mu_in)]; an absent argument is [None]. *)
Definition cold_start (rho_ mu_eq_ mu_in_ : option T) (r : Results)
  : Results :=
  let i := info r in
  let rho1 := match rho_ with Some v => v | None => s_lit 1 1000000 end in
  let '(mu_eq1, mu_eq_inv1) :=
    match mu_eq_ with
    | Some v => (v, s_lit 1 1 / v)
    | None => (s_lit 1 1000, s_lit 1000 1)
    end in
  let '(mu_in1, mu_in_inv1) :=
    match mu_in_ with
    | Some v => (v, s_lit 1 1 / v)
    | None => (s_lit 1 10, s_lit 10 1)
    end in
  cleanup_statistics
    (with_info r
       {| mu_eq := mu_eq1; mu_eq_inv := mu_eq_inv1; mu_in := mu_in1;
          mu_in_inv := mu_in_inv1; rho := rho1; nu := s_lit 1 1;
          iter := iter i; iter_ext := iter_ext i;
          mu_updates := mu_updates i; rho_updates := rho_updates i;
          status := status i; setup_time := setup_time i;
          solve_time := solve_time i; run_time := run_time i;
          objValue := objValue i; pri_res := pri_res i;
          dua_res := dua_res i |}).

Definition set_zero (r : Results) : Results :=
  {| x := vzero (length (x r)); y := vzero (length (y r));
     z := vzero (length (z r));
     active_constraints := active_constraints r; info := info r |}.

(** [cleanup(rho, mu_eq, mu_in)]. *)
Definition cleanup (rho_ mu_eq_ mu_in_ : option T) (r : Results) : Results :=
  cold_start rho_ mu_eq_ mu_in_ (set_zero r).

(** [cleanup_all_except_prox_parameters]. *)
Definition cleanup_all_except_prox_parameters (r : Results) : Results :=
  cleanup_statistics (set_zero r).

End Results.

Arguments Info T : clear implicits.
Arguments Results T : clear implicits.

End results.

(* ================================================================== *)
(** * Counting the entries of [kkt_active] *)
(* ================================================================== *)

Section ActiveCounts.
Context {T : Type} `{Scalar T}.
Variable pb : Problem T.

(** The entries of the columns of [CT] of the inequalities that [active]
    marks, among the first [k] inequalities. *)
Definition active_nnz (active : list bool) (k : nat) : nat :=
  list_sum (map (fun i => if nth i active false then kkt_col_nnz pb i
                          else 0%nat)
                (seq 0 k)).

(** What the sweep from the state [a0] with the prediction [pred] has done
    before turn [k]: the first [k] flags are those of the prediction, the
    others are untouched, and the entry count of [kkt_active] has followed
    the flags. *)
Definition sweep_inv (a0 : ActiveSet T) (pred : list bool) (k : nat)
           (a : ActiveSet T) : Prop :=
  length (active_constraints a) = length (active_constraints a0)
  /\ (forall i, (i < k)%nat ->
                nth i (active_constraints a) false = nth i pred false)
  /\ (forall i, (k <= i)%nat ->
                nth i (active_constraints a) false
                = nth i (active_constraints a0) false)
  /\ (kkt_active_nnz a
      + Z.of_nat (active_nnz (active_constraints a0) (pb_n_in pb))
      = kkt_active_nnz a0
        + Z.of_nat (active_nnz (active_constraints a) (pb_n_in pb)))%Z.

End ActiveCounts.

(* ================================================================== *)
(** * The permutation of the factorization *)
(* ================================================================== *)

Section Permutation.
Context {T : Type} `{Scalar T}.

(** "compute perm from perm_inv": the loop
    [perm[perm_inv[i]] = i] over [i < n_tot], on the array [perm] as it was
    allocated. *)
Definition compute_perm (n_tot : nat) (perm_inv perm : list nat) : list nat :=
  fold_left (fun perm i => set_nth (nth i perm_inv 0%nat) i perm)
            (seq 0 n_tot) perm.

(** The lambda [ldl_solve].  From the source: the copy
    [work[i] = rhs[perm[i]]] before the solve and the copy
    [sol[i] = work[perm_inv[i]]] after it.  The three steps in between
    ([dense_lsolve], the division by the diagonal and [dense_ltsolve]) are
    routines that are not among the sources; they are the argument
    [solve]. *)
Definition ldl_solve (n_tot : nat) (perm perm_inv : list nat)
           (solve : list T -> list T) (rhs : list T) : list T :=
  let work := map (fun i => get rhs (nth i perm 0%nat)) (seq 0 n_tot) in
  let work := solve work in
  map (fun i => get work (nth i perm_inv 0%nat)) (seq 0 n_tot).

End Permutation.

(* ================================================================== *)
(** * The KKT storage of the workspace *)
(* ================================================================== *)

Section KktStorage.
Context {T : Type} `{Scalar T}.

(** The index type [I] is bounded.  [util::checked_non_negative_plus] and
    [veg::nb::narrow<I>] are not among the sources: they are arguments of the
    model, and a result [None] is a failed check. *)
Variable checked_non_negative_plus : nat -> nat -> option nat.
Variable narrow : nat -> option nat.

(** The three arrays of [QpWorkspace] that hold the KKT matrix.  (The arrays
    [ldl_col_ptrs] and [perm_inv] are filled by the symbolic factorization,
    which is not among the sources.) *)
Record QpWorkspace : Type := {
  kkt_col_ptrs : list nat;
  kkt_row_indices : list nat;
  kkt_values : list T
}.

(** A write through a raw pointer: outside the array it is no defined
    behaviour, which is a failure here. *)
Definition write {A : Type} (k : nat) (v : A) (a : list A) : option (list A) :=
  if (k <? length a)%nat then Some (set_nth k v a) else None.

(** The variables of the block "form the full kkt matrix": the arrays behind
    [kktp], [kkti] and [kktx], and the counters [col] and [pos]. *)
Record KktBuild : Type := {
  kktp : list nat;
  kkti : list nat;
  kktx : list T;
  kb_col : nat;
  kb_pos : nat
}.

(** The body of the loop over [p] in [insert_submatrix]. *)
Definition insert_entry (m : Mat T) (assert_sym_hi : bool) (j : nat)
           (acc : option KktBuild) (p : nat) : option KktBuild :=
  match acc with
  | None => None
  | Some st =>
      let i := nth p (row_indices m) 0%nat in
      if assert_sym_hi && negb (i <=? j)%nat then None
      else
        match narrow i with
        | None => None
        | Some i' =>
            match write (kb_pos st) i' (kkti st),
                  write (kb_pos st) (get (values m) p) (kktx st) with
            | Some ki, Some kx =>
                Some {| kktp := kktp st; kkti := ki; kktx := kx;
                        kb_col := kb_col st; kb_pos := S (kb_pos st) |}
            | _, _ => None
            end
        end
  end.

(** The body of the loop over [j] in [insert_submatrix]. *)
Definition insert_column (m : Mat T) (assert_sym_hi : bool)
           (acc : option KktBuild) (j : nat) : option KktBuild :=
  match acc with
  | None => None
  | Some st =>
      match checked_non_negative_plus (nth (kb_col st) (kktp st) 0%nat)
                                      (col_end m j - col_start m j) with
      | None => None
      | Some c =>
          match write (S (kb_col st)) c (kktp st) with
          | None => None
          | Some kp =>
              fold_left (insert_entry m assert_sym_hi j) (col_range m j)
                        (Some {| kktp := kp; kkti := kkti st; kktx := kktx st;
                                 kb_col := S (kb_col st);
                                 kb_pos := kb_pos st |})
          end
      end
  end.

(** The lambda [insert_submatrix]. *)
Definition insert_submatrix (m : Mat T) (assert_sym_hi : bool)
           (acc : option KktBuild) : option KktBuild :=
  fold_left (insert_column m assert_sym_hi) (seq 0 (ncols m)) acc.

(** The first block of [setup_impl]: the KKT arrays.  [work0] holds the
    arrays as [resize_for_overwrite] left them, with the requested lengths
    and a content that is not specified. *)
Definition setup_impl (qp : QpView T) (work0 : QpWorkspace)
  : option QpWorkspace :=
  match write 0 0%nat (kkt_col_ptrs work0) with
  | None => None
  | Some kp =>
      let st := Some {| kktp := kp; kkti := kkt_row_indices work0;
                        kktx := kkt_values work0;
                        kb_col := 0; kb_pos := 0 |} in
      let st := insert_submatrix (qp_H qp) true st in
      let st := insert_submatrix (qp_AT qp) false st in
      let st := insert_submatrix (qp_CT qp) false st in
      match st with
      | None => None
      | Some st =>
          Some {| kkt_col_ptrs := kktp st; kkt_row_indices := kkti st;
                  kkt_values := kktx st |}
      end
  end.

(** The views [H_scaled], [AT_scaled] and [CT_scaled] of [qp_solve]: each
    takes its column pointers from a slice of [kkt_col_ptrs] and shares the
    two other arrays. *)
Definition H_scaled (qp : QpView T) (work : QpWorkspace) : Mat T :=
  let n := nrows (qp_H qp) in
  {| nrows := n; ncols := n; nnz := nnz (qp_H qp);
     col_ptrs := firstn (n + 1) (kkt_col_ptrs work);
     nnz_per_col := None;
     row_indices := kkt_row_indices work; values := kkt_values work |}.

Definition AT_scaled (qp : QpView T) (work : QpWorkspace) : Mat T :=
  let n := nrows (qp_H qp) in
  let n_eq := ncols (qp_AT qp) in
  {| nrows := n; ncols := n_eq; nnz := nnz (qp_AT qp);
     col_ptrs := firstn (n_eq + 1) (skipn n (kkt_col_ptrs work));
     nnz_per_col := None;
     row_indices := kkt_row_indices work; values := kkt_values work |}.

Definition CT_scaled (qp : QpView T) (work : QpWorkspace) : Mat T :=
  let n := nrows (qp_H qp) in
  let n_eq := ncols (qp_AT qp) in
  let n_in := ncols (qp_CT qp) in
  {| nrows := n; ncols := n_in; nnz := nnz (qp_CT qp);
     col_ptrs := firstn (n_in + 1) (skipn (n + n_eq) (kkt_col_ptrs work));
     nnz_per_col := None;
     row_indices := kkt_row_indices work; values := kkt_values work |}.

End KktStorage.

Arguments QpWorkspace T : clear implicits.
Arguments KktBuild T : clear implicits.

(** Two matrices hold the same columns: the same sizes, and in every column
    the same row indices and values in the same order (the positions in the
    arrays may differ). *)
Definition same_columns {T : Type} `{Scalar T} (m v : Mat T) : Prop :=
  nrows v = nrows m /\ ncols v = ncols m
  /\ forall j, (j < ncols m)%nat ->
       (col_end v j - col_start v j = col_end m j - col_start m j)%nat
       /\ forall t, (t < col_end m j - col_start m j)%nat ->
            nth (col_start v j + t) (row_indices v) 0%nat
            = nth (col_start m j + t) (row_indices m) 0%nat
            /\ get (values v) (col_start v j + t)
               = get (values m) (col_start m j + t).

(* ================================================================== *)
(** * The wrapper: [QP::update] *)
(* ================================================================== *)

Module wrapper.

(** The three views of [model.kkt_mut_unscaled()] that [update] writes. *)
Inductive Block : Type := H_unscaled | AT_unscaled | CT_unscaled.

Section Update.
Context {T : Type} `{Scalar T}.

(** Not among the sources: [have_same_structure] and [copy] of the sparse
    helpers, and the Eigen operations [triangularView<Eigen::Upper>] and
    [transpose].  They are arguments of the model, and a call of [copy] is
    recorded with the view it writes and the matrix it is given. *)
Variable have_same_structure : Mat T -> Mat T -> bool.
Variable triangularView_Upper : Mat T -> Mat T.
Variable transpose : Mat T -> Mat T.

(** The vectors of [model]. *)
Record Model : Type := {
  g : list T;
  b : list T;
  u : list T;
  l : list T
}.

(** The block "update the model" of [QP::update]: the vectors of the model
    after it, and the calls of [copy] in the order in which they are made.
    [views] gives the content of the three views when [update] is
    called. *)
Definition update (views : Block -> Mat T)
           (H_ : option (Mat T)) (g_ : option (list T))
           (A_ : option (Mat T)) (b_ : option (list T))
           (C_ : option (Mat T)) (u_ : option (list T))
           (l_ : option (list T)) (model : Model)
  : Model * list (Block * Mat T) :=
  let model' :=
    {| g := match g_ with Some v => v | None => g model end;
       b := match b_ with Some v => v | None => b model end;
       u := match u_ with Some v => v | None => u model end;
       l := match l_ with Some v => v | None => l model end |} in
  let copies :=
    match H_ with
    | Some h =>
        let H_triu := triangularView_Upper h in
        match A_ with
        | Some a =>
            match C_ with
            | Some c =>
                let res :=
                  have_same_structure (views H_unscaled) H_triu
                  && have_same_structure (views AT_unscaled) (transpose a)
                  && have_same_structure (views CT_unscaled) (transpose c) in
                if res then
                  [(H_unscaled, H_triu); (AT_unscaled, transpose a);
                   (CT_unscaled, transpose c)]
                else []
            | None =>
                let res :=
                  have_same_structure (views H_unscaled) H_triu
                  && have_same_structure (views AT_unscaled) (transpose a) in
                if res then
                  [(H_unscaled, H_triu); (AT_unscaled, transpose a)]
                else []
            end
        | None =>
            match C_ with
            | Some c =>
                let res :=
                  have_same_structure (views H_unscaled) H_triu
                  && have_same_structure (views CT_unscaled) (transpose c) in
                if res then
                  [(H_unscaled, H_triu); (CT_unscaled, transpose c)]
                else []
            | None =>
                let res := have_same_structure (views H_unscaled) H_triu in
                if res then [(H_unscaled, h)] else []
            end
        end
    | None =>
        match A_ with
        | Some a =>
            match C_ with
            | Some c =>
                let res :=
                  have_same_structure (views AT_unscaled) (transpose a)
                  && have_same_structure (views CT_unscaled) (transpose c) in
                if res then
                  [(AT_unscaled, transpose a); (CT_unscaled, transpose c)]
                else []
            | None =>
                let res :=
                  have_same_structure (views AT_unscaled) (transpose a) in
                if res then [(AT_unscaled, transpose a)] else []
            end
        | None =>
            match C_ with
            | Some c =>
                let res :=
                  have_same_structure (views CT_unscaled) (transpose c) in
                if res then [(CT_unscaled, transpose c)] else []
            | None => []
            end
        end
    end in
  (model', copies).

End Update.

Arguments Model T : clear implicits.

End wrapper.

(* ================================================================== *)
(** * The dense solver: [iterative_solve_with_permut_fact] *)
(* ================================================================== *)

Section DenseIterativeSolve.
Context {T : Type} `{Scalar T}.
Local Open Scope scalar_scope.

(** Not among the sources: the dense factorization [ldlt::Ldlt] and the
    Eigen product.  [solve] is [ldl.solve_in_place] for the factorization of
    [mat], and [mul v] is [mat * v]. *)
Variable solve : list T -> list T.
Variable mul : list T -> list T.

Variable rhs : list T.
Variable eps : T.
Variable max_it : Z.

(** The largest value of the counter [i32 it]; to increment it further is
    not defined, which is [None] here. *)
Definition i32_max : Z := 2147483647.

(** The loop [while (infty_norm(res) >= eps)], with [fuel] tests left.  The
    result is [sol] and the counter [it]. *)
Fixpoint iterative_solve_loop (fuel : nat) (it : Z) (sol res : list T)
  : option (list T * Z) :=
  match fuel with
  | O => None
  | S fuel' =>
      if eps <=? infty_norm res then
        if (it =? i32_max)%Z then None
        else
          let it := (it + 1)%Z in
          if (max_it <=? it)%Z then Some (sol, it)
          else
            let res := solve (vneg res) in
            let sol := vadd sol res in
            iterative_solve_loop fuel' it sol (vsub (mul sol) rhs)
      else Some (sol, it)
  end.

(** [iterative_solve_with_permut_fact]. *)
Definition iterative_solve_with_permut_fact (fuel : nat)
  : option (list T * Z) :=
  let sol := solve rhs in
  let res := vsub (mul sol) rhs in
  iterative_solve_loop fuel 0 sol res.

End DenseIterativeSolve.

(* ================================================================== *)
(** * [delete_row], step 1: the row is deleted from each column *)
(* ================================================================== *)

Module rowmod.

Section DeleteRow.
Context {T : Type} `{Scalar T}.

(** [std::lower_bound(first, first + count, v)] on the array [a]: the first
    position of the range whose element is not less than [v], and the end
    of the range when there is none.  (The library searches by bisection,
    which finds this position when the range is sorted.) *)
Fixpoint lower_bound (a : list nat) (first count v : nat) : nat :=
  match count with
  | O => first
  | S count' =>
      if (nth first a 0 <? v)%nat then lower_bound a (S first) count' v
      else first
  end.

(** [std::memmove(a + dst, a + src, count * sizeof(A))]: the elements are
    copied as if through a buffer.  A range that leaves the array is no
    defined behaviour, which is a failure here. *)
Definition memmove {A : Type} (d : A) (a : list A) (dst src count : nat)
  : option (list A) :=
  if ((src + count <=? length a) && (dst + count <=? length a))%nat then
    Some (fold_left (fun acc t => set_nth (dst + t) (nth (src + t) a d) acc)
                    (seq 0 count) a)
  else None.

(** The factorization that [delete_row] works on: the matrix [ld] and the
    elimination tree, in which [-1] stands for "no parent". *)
Record Ldlt : Type := {
  ld : Mat T;
  etree : list Z
}.

(** The body of the loop of step 1, for column [j].  A failed assertion is
    [None]. *)
Definition delete_row_col (permuted_pos : nat) (acc : option Ldlt) (j : nat)
  : option Ldlt :=
  match acc with
  | None => None
  | Some s =>
      let m := ld s in
      match nnz_per_col m with
      | None => None
      | Some pldnz =>
          let col_start := (col_start m j + 1)%nat in
          let col_end := col_end m j in
          let it := lower_bound (row_indices m) col_start
                                (col_end - col_start) permuted_pos in
          if negb (it =? col_end)%nat
             && (nth it (row_indices m) 0 =? permuted_pos)%nat then
            let it_pos := (it - col_start)%nat in
            let count := (col_end - col_start - it_pos)%nat in
            match memmove 0%nat (row_indices m) it (it + 1) count,
                  memmove s0 (values m) (col_start + it_pos)
                          (col_start + it_pos + 1) count with
            | Some pldi, Some pldx =>
                let pldnz' := set_nth j (nth j pldnz 0 - 1)%nat pldnz in
                let m' := {| nrows := nrows m; ncols := ncols m;
                             nnz := (nnz m - 1)%nat;
                             col_ptrs := col_ptrs m;
                             nnz_per_col := Some pldnz';
                             row_indices := pldi; values := pldx |} in
                if (nth j (etree s) (-1) =? Z.of_nat permuted_pos)%Z then
                  if negb (it_pos =? 0)%nat then None
                  else
                    Some {| ld := m';
                            etree :=
                              set_nth j
                                (if (1 <? nth j pldnz' 0)%nat
                                 then Z.of_nat (nth it pldi 0%nat)
                                 else (-1)%Z)
                                (etree s) |}
                else Some {| ld := m'; etree := etree s |}
            | _, _ => None
            end
          else Some s
      end
  end.

(** Step 1 of [delete_row]: the loop over the columns before
    [permuted_pos]. *)
Definition delete_row_step_1 (permuted_pos : nat) (s : Ldlt) : option Ldlt :=
  fold_left (delete_row_col permuted_pos) (seq 0 permuted_pos) (Some s).

(** The entries of column [j], from the diagonal down: row and value. *)
Definition column_entries (m : Mat T) (j : nat) : list (nat * T) :=
  map (fun p => (nth p (row_indices m) 0%nat, get (values m) p))
      (col_range m j).

(** The first row below the diagonal in column [j], as the elimination tree
    records it. *)
Definition first_below (m : Mat T) (j : nat) : Z :=
  match column_entries m j with
  | _ :: (r, _) :: _ => Z.of_nat r
  | _ => (-1)%Z
  end.

(** A factor in the layout that [delete_row] expects: per-column counts,
    every column within its capacity and holding its diagonal entry first
    and then rows in increasing order, and an elimination tree that gives
    the first row below the diagonal. *)
Definition factor_wf (s : Ldlt) : Prop :=
  let m := ld s in
  let n := ncols m in
  exists nz,
    nnz_per_col m = Some nz /\ length nz = n /\ length (etree s) = n
    /\ length (values m) = length (row_indices m)
    /\ (col_start m n <= length (row_indices m))%nat
    /\ forall j, (j < n)%nat ->
         (1 <= nth j nz 0)%nat
         /\ (col_start m j + nth j nz 0 <= col_start m (S j))%nat
         /\ nth (col_start m j) (row_indices m) 0%nat = j
         /\ StronglySorted lt (map fst (column_entries m j))
         /\ nth j (etree s) (-1)%Z = first_below m j.

End DeleteRow.

Arguments Ldlt T : clear implicits.

End rowmod.

(* ================================================================== *)
(** * Largest stored entries *)
(* ================================================================== *)

(** [c] is the largest of the values in [V], and 0 when [V] is empty (the
    values at hand are absolute values). *)
Definition is_largest (V : R -> Prop) (c : R) : Prop :=
  (forall v, V v -> (v <= c)%R) /\ (c = 0%R \/ V c).

(** [v] is the absolute value of a stored entry of [m] whose column [j] and
    row [i] satisfy [sel j i]. *)
Definition stored_abs (m : Mat R) (sel : nat -> nat -> Prop) (v : R) : Prop :=
  exists j p,
    (j < ncols m)%nat /\ (col_start m j <= p < col_end m j)%nat
    /\ sel j (nth p (row_indices m) 0%nat)
    /\ v = Rabs (get (values m) p).

(* ================================================================== *)
(** * Properties *)
(* ================================================================== *)

(** ** Comparisons on the real numbers *)

Lemma Rltb_true (x y : R) : (x < y)%R -> Rltb x y = true.
Proof. intros; unfold Rltb; destruct (Rlt_dec x y); [reflexivity | lra]. Qed.

Lemma Rltb_false (x y : R) : (y <= x)%R -> Rltb x y = false.
Proof. intros; unfold Rltb; destruct (Rlt_dec x y); [lra | reflexivity]. Qed.

Lemma Rleb_true (x y : R) : (x <= y)%R -> Rleb x y = true.
Proof. intros; unfold Rleb; destruct (Rle_dec x y); [reflexivity | lra]. Qed.

Lemma Rleb_false (x y : R) : (y < x)%R -> Rleb x y = false.
Proof. intros; unfold Rleb; destruct (Rle_dec x y); [lra | reflexivity]. Qed.

Lemma Rleb_le (x y : R) : Rleb x y = true -> (x <= y)%R.
Proof. unfold Rleb; destruct (Rle_dec x y); [auto | discriminate]. Qed.

Lemma Reqb_true (x y : R) : x = y -> Reqb x y = true.
Proof.
  intros; unfold Reqb; destruct (Req_dec_T x y); [reflexivity | contradiction].
Qed.

Lemma Reqb_false (x y : R) : x <> y -> Reqb x y = false.
Proof.
  intros; unfold Reqb; destruct (Req_dec_T x y); [contradiction | reflexivity].
Qed.

Lemma s_max_R (a b : R) : s_max a b = Rmax a b.
Proof.
  unfold s_max; simpl; unfold Rltb, Rmax.
  destruct (Rlt_dec a b), (Rle_dec a b); try reflexivity; lra.
Qed.

Lemma s_max_R_ge_l (a b : R) : (a <= s_max a b)%R.
Proof. rewrite s_max_R; apply Rmax_l. Qed.

Lemma s_max_R_ge_r (a b : R) : (b <= s_max a b)%R.
Proof. rewrite s_max_R; apply Rmax_r. Qed.

(** ** Lists *)

Lemma set_nth_length (A : Type) (i : nat) (x : A) (a : list A) :
  length (set_nth i x a) = length a.
Proof.
  revert i; induction a as [|y a IH]; intros [|i]; simpl; auto.
Qed.

Lemma nth_set_nth_same (A : Type) (i : nat) (x d : A) (a : list A) :
  (i < length a)%nat -> nth i (set_nth i x a) d = x.
Proof.
  revert i; induction a as [|y a IH]; intros [|i] Hi; simpl in *;
    try lia; auto.
  apply IH; lia.
Qed.

Lemma nth_set_nth_other (A : Type) (i j : nat) (x d : A) (a : list A) :
  i <> j -> nth j (set_nth i x a) d = nth j a d.
Proof.
  revert i j; induction a as [|y a IH]; intros [|i] [|j] Hij; simpl;
    try reflexivity; try congruence.
  apply IH; congruence.
Qed.

Lemma vmap2_length (T : Type) (f : T -> T -> T) (a b : list T) :
  length (vmap2 f a b) = Nat.min (length a) (length b).
Proof. unfold vmap2; rewrite length_map, length_combine; reflexivity. Qed.

(** ** Scaling and unscaling with positive factors (exact arithmetic) *)

Section RoundTrip.
Local Open Scope R_scope.

Lemma vmul_vdiv_R (x d : list R) :
  Forall (fun v => v <> 0) d -> (length x <= length d)%nat ->
  vmul (vdiv x d) d = x.
Proof.
  revert d; induction x as [|a x IH]; intros [|e d] Hd Hl; simpl in *;
    try reflexivity; try lia.
  inversion Hd; subst.
  unfold vmul, vdiv, vmap2 in *; simpl.
  f_equal; [field; assumption | apply IH; [assumption | lia]].
Qed.

Lemma vdiv_vmul_R (x d : list R) :
  Forall (fun v => v <> 0) d -> (length x <= length d)%nat ->
  vdiv (vmul x d) d = x.
Proof.
  revert d; induction x as [|a x IH]; intros [|e d] Hd Hl; simpl in *;
    try reflexivity; try lia.
  inversion Hd; subst.
  unfold vmul, vdiv, vmap2 in *; simpl.
  f_equal; [field; assumption | apply IH; [assumption | lia]].
Qed.

Lemma unscale_scale_dual_R (c : R) (y d d' : list R) :
  c <> 0 -> Forall (fun v => v <> 0) d -> (length y <= length d)%nat ->
  d' = d ->
  map (fun v => v / c) (vmul (map (fun v => v * c) (vdiv y d)) d') = y.
Proof.
  intros Hc Hd Hl ->; revert d Hd Hl.
  induction y as [|a y IH]; intros [|e d] Hd Hl; simpl in *;
    try reflexivity; try lia.
  inversion Hd; subst.
  unfold vmul, vdiv, vmap2 in *; simpl.
  f_equal; [field; split; assumption | apply IH; [assumption | lia]].
Qed.

Lemma scale_unscale_dual_R (c : R) (y d d' : list R) :
  c <> 0 -> Forall (fun v => v <> 0) d -> (length y <= length d)%nat ->
  d' = d ->
  map (fun v => v * c) (vdiv (map (fun v => v / c) (vmul y d)) d') = y.
Proof.
  intros Hc Hd Hl ->; revert d Hd Hl.
  induction y as [|a y IH]; intros [|e d] Hd Hl; simpl in *;
    try reflexivity; try lia.
  inversion Hd; subst.
  unfold vmul, vdiv, vmap2 in *; simpl.
  f_equal; [field; split; assumption | apply IH; [assumption | lia]].
Qed.

Lemma Forall_firstn (A : Type) (Q : A -> Prop) (k : nat) (l : list A) :
  Forall Q l -> Forall Q (firstn k l).
Proof.
  intros Hl; revert k; induction Hl; intros [|k]; simpl; constructor; auto.
Qed.

Lemma Forall_skipn (A : Type) (Q : A -> Prop) (k : nat) (l : list A) :
  Forall Q l -> Forall Q (skipn k l).
Proof.
  intros Hl; revert k; induction Hl; intros [|k]; simpl; auto.
Qed.

(** A scaling state whose factors are all positive. *)
Lemma ruiz_state_roundtrip (r : RuizEquilibration R) (x y z : list R) :
  Forall (fun v => 0 < v) (re_delta r) -> 0 < re_c r ->
  (length x <= re_n r)%nat ->
  (re_n r + length y <= length (re_delta r))%nat ->
  (length z <= length (re_delta r))%nat ->
  (re_n r <= length (re_delta r))%nat ->
  unscale_primal_in_place r (scale_primal_in_place r x) = x
  /\ scale_primal_in_place r (unscale_primal_in_place r x) = x
  /\ unscale_dual_in_place_eq r (scale_dual_in_place_eq r y) = y
  /\ scale_dual_in_place_eq r (unscale_dual_in_place_eq r y) = y
  /\ unscale_dual_in_place_in r (scale_dual_in_place_in r z) = z
  /\ scale_dual_in_place_in r (unscale_dual_in_place_in r z) = z.
Proof.
  intros Hd Hc Hx Hy Hz Hn.
  assert (Hd0 : Forall (fun v => v <> 0) (re_delta r)).
  { eapply Forall_impl; [|exact Hd]. simpl. intros; lra. }
  assert (Hc0 : re_c r <> 0) by lra.
  assert (Lh : length (head (re_n r) (re_delta r)) = re_n r).
  { unfold head. rewrite length_firstn. lia. }
  assert (Ls : length (segment (re_n r) (length y) (re_delta r)) = length y).
  { unfold segment. rewrite length_firstn, length_skipn. lia. }
  assert (Lt : length (tail (length z) (re_delta r)) = length z).
  { unfold tail. rewrite length_skipn. lia. }
  unfold unscale_primal_in_place, scale_primal_in_place,
    unscale_dual_in_place_eq, scale_dual_in_place_eq,
    unscale_dual_in_place_in, scale_dual_in_place_in.
  repeat split.
  - apply vmul_vdiv_R; [apply Forall_firstn; assumption | lia].
  - apply vdiv_vmul_R; [apply Forall_firstn; assumption | lia].
  - apply (@unscale_scale_dual_R (re_c r) y); try assumption.
    + unfold segment. apply Forall_firstn, Forall_skipn. assumption.
    + lia.
    + unfold vdiv, vmul; rewrite length_map, vmap2_length, Ls, Nat.min_id.
      reflexivity.
  - apply (@scale_unscale_dual_R (re_c r) y); try assumption.
    + unfold segment. apply Forall_firstn, Forall_skipn. assumption.
    + lia.
    + unfold vdiv, vmul; rewrite length_map, vmap2_length, Ls, Nat.min_id.
      reflexivity.
  - apply (@unscale_scale_dual_R (re_c r) z); try assumption.
    + unfold tail. apply Forall_skipn. assumption.
    + lia.
    + unfold vdiv, vmul; rewrite length_map, vmap2_length, Lt, Nat.min_id.
      reflexivity.
  - apply (@scale_unscale_dual_R (re_c r) z); try assumption.
    + unfold tail. apply Forall_skipn. assumption.
    + lia.
    + unfold vdiv, vmul; rewrite length_map, vmap2_length, Lt, Nat.min_id.
      reflexivity.
Qed.

End RoundTrip.

(** ** The loop of the Ruiz equilibration *)

Section RuizLoop.
Context {T : Type} `{Scalar T}.

Lemma ruiz_delta_length (sym : Symmetry) (n n_eq n_in : nat) (qp : QpView T) :
  length (ruiz_delta sym n n_eq n_in qp) = (n + n_eq + n_in)%nat.
Proof.
  unfold ruiz_delta. rewrite !length_app, !length_map, !length_seq. lia.
Qed.

(** A property of the loop variables that every round keeps holds when the
    loop ends. *)
Lemma ruiz_loop_invariant (Inv : RuizState T -> Prop)
      (sym : Symmetry) (n n_eq n_in : nat) (epsilon : T) (max_iter : Z) :
  (forall st, Inv st -> Inv (ruiz_round sym n n_eq n_in st)) ->
  forall fuel iter st st' k,
    Inv st ->
    ruiz_loop fuel sym n n_eq n_in epsilon max_iter iter st = Some (st', k) ->
    Inv st'.
Proof.
  intros Hstep fuel; induction fuel as [|fuel IH]; intros iter st st' k Hi Hr;
    simpl in Hr; [discriminate|].
  destruct (ruiz_continue epsilon st).
  - destruct (iter =? max_iter)%Z.
    + inversion Hr; subst; assumption.
    + destruct (ruiz_loop fuel sym n n_eq n_in epsilon max_iter (iter + 1)
                  (ruiz_round sym n n_eq n_in st)) as [[st1 k1]|] eqn:E;
        [|discriminate].
      inversion Hr; subst. eapply IH; [|exact E]. apply Hstep; assumption.
  - inversion Hr; subst; assumption.
Qed.

(** The counter bounds the rounds: starting at [iter <= max_iter], the body
    runs at most [max_iter - iter] times. *)
Lemma ruiz_loop_rounds_le (sym : Symmetry) (n n_eq n_in : nat) (epsilon : T)
      (max_iter : Z) :
  forall fuel iter st st' k,
    (iter <= max_iter)%Z ->
    ruiz_loop fuel sym n n_eq n_in epsilon max_iter iter st = Some (st', k) ->
    (Z.of_nat k <= max_iter - iter)%Z.
Proof.
  intros fuel; induction fuel as [|fuel IH]; intros iter st st' k Hle Hr;
    simpl in Hr; [discriminate|].
  destruct (ruiz_continue epsilon st).
  - destruct (iter =? max_iter)%Z eqn:E.
    + inversion Hr; subst; simpl; lia.
    + apply Z.eqb_neq in E.
      destruct (ruiz_loop fuel sym n n_eq n_in epsilon max_iter (iter + 1)
                  (ruiz_round sym n n_eq n_in st)) as [[st1 k1]|] eqn:E1;
        [|discriminate].
      inversion Hr; subst. apply IH in E1; lia.
  - inversion Hr; subst; simpl; lia.
Qed.

(** With [iter <= max_iter] the loop ends, whatever the rounds compute. *)
Lemma ruiz_loop_total (sym : Symmetry) (n n_eq n_in : nat) (epsilon : T)
      (max_iter : Z) :
  forall fuel iter st,
    (iter <= max_iter)%Z -> (Z.to_nat (max_iter - iter) < fuel)%nat ->
    exists r, ruiz_loop fuel sym n n_eq n_in epsilon max_iter iter st = Some r.
Proof.
  intros fuel; induction fuel as [|fuel IH]; intros iter st Hle Hf;
    [lia|]. simpl.
  destruct (ruiz_continue epsilon st); [|eauto].
  destruct (iter =? max_iter)%Z eqn:E; [eauto|].
  apply Z.eqb_neq in E.
  destruct (IH (iter + 1)%Z (ruiz_round sym n n_eq n_in st)) as [[st1 k1] E1];
    [lia | lia |].
  rewrite E1; eauto.
Qed.

(** The state after [k] rounds. *)
Lemma ruiz_loop_never_met (sym : Symmetry) (n n_eq n_in : nat) (epsilon : T)
      (max_iter : Z) :
  forall fuel iter st,
    (iter <= max_iter)%Z -> (Z.to_nat (max_iter - iter) < fuel)%nat ->
    (forall j, (j <= Z.to_nat (max_iter - iter))%nat ->
               ruiz_continue epsilon
                 (Nat.iter j (ruiz_round sym n n_eq n_in) st) = true) ->
    ruiz_loop fuel sym n n_eq n_in epsilon max_iter iter st
    = Some (Nat.iter (Z.to_nat (max_iter - iter))
                     (ruiz_round sym n n_eq n_in) st,
            Z.to_nat (max_iter - iter)).
Proof.
  intros fuel; induction fuel as [|fuel IH]; intros iter st Hle Hf Hc;
    [lia|]. simpl.
  pose proof (Hc 0%nat ltac:(lia)) as H0; simpl in H0; rewrite H0.
  destruct (iter =? max_iter)%Z eqn:E.
  - apply Z.eqb_eq in E; subst. rewrite Z.sub_diag. reflexivity.
  - apply Z.eqb_neq in E.
    assert (Hk : Z.to_nat (max_iter - iter)
                 = S (Z.to_nat (max_iter - (iter + 1)))) by lia.
    rewrite IH; [| lia | lia |].
    + rewrite Hk. rewrite Nat.iter_succ_r. reflexivity.
    + intros j Hj. rewrite <- Nat.iter_succ_r. apply Hc. lia.
Qed.

End RuizLoop.

(** ** The scaling state of the Ruiz equilibration in exact arithmetic *)

Section RuizPositive.
Local Open Scope R_scope.

Lemma Forall_vmul_pos (a b : list R) :
  Forall (fun v => 0 < v) a -> Forall (fun v => 0 < v) b ->
  Forall (fun v => 0 < v) (vmul a b).
Proof.
  intros Ha; revert b; induction Ha as [|x a Hx Ha IH]; intros b Hb;
    [constructor|].
  destruct Hb as [|y b Hy Hb]; [constructor|].
  unfold vmul, vmap2 in *; simpl. constructor.
  - apply Rmult_lt_0_compat; assumption.
  - apply IH; assumption.
Qed.

Lemma ruiz_factor_pos (v : R) : 0 < s1 / (s_epsilon + s_sqrt v).
Proof.
  simpl. pose proof (R_sqrt.sqrt_pos v).
  assert (0 < / 4503599627370496) by (apply Rinv_0_lt_compat; lra).
  unfold s1; simpl. apply Rdiv_lt_0_compat; lra.
Qed.

Lemma ruiz_delta_pos (sym : Symmetry) (n n_eq n_in : nat) (qp : QpView R) :
  Forall (fun v => 0 < v) (ruiz_delta sym n n_eq n_in qp).
Proof.
  unfold ruiz_delta. rewrite !Forall_app. repeat split;
    apply Forall_forall; intros v Hv; apply in_map_iff in Hv;
    destruct Hv as [j [<- _]]; apply ruiz_factor_pos.
Qed.

Lemma ruiz_gamma_pos (avg : R) : 0 < s1 / s_max avg s1.
Proof.
  pose proof (s_max_R_ge_r avg s1) as Hm. unfold s1 in *; simpl in *.
  apply Rdiv_lt_0_compat; lra.
Qed.

Lemma ruiz_round_positive (sym : Symmetry) (n n_eq n_in : nat)
      (st : RuizState R) :
  ruiz_positive (n + n_eq + n_in) st ->
  ruiz_positive (n + n_eq + n_in) (ruiz_round sym n n_eq n_in st).
Proof.
  intros (HS & HL & Hc). unfold ruiz_positive, ruiz_round; simpl.
  repeat split.
  - apply Forall_vmul_pos; [assumption | apply ruiz_delta_pos].
  - unfold vmul. rewrite vmap2_length, ruiz_delta_length, HL.
    apply Nat.min_id.
  - apply Rmult_lt_0_compat; [assumption | apply ruiz_gamma_pos].
Qed.

Lemma vones_pos (k : nat) : Forall (fun v : R => 0 < v) (vones k).
Proof.
  unfold vones. apply Forall_forall. intros v Hv.
  apply repeat_spec in Hv; subst. unfold s1; simpl. lra.
Qed.

Lemma ruiz_scale_qp_positive (fuel : nat) (r r' : RuizEquilibration R)
      (qp qp' : QpView R) (k : nat) :
  ruiz_scale_qp fuel r qp = Some (r', qp', k) ->
  length (re_delta r)
  = (nrows (qp_H qp) + ncols (qp_AT qp) + ncols (qp_CT qp))%nat ->
  Forall (fun v => 0 < v) (re_delta r') /\ 0 < re_c r'
  /\ length (re_delta r') = length (re_delta r) /\ re_n r' = re_n r.
Proof.
  unfold ruiz_scale_qp, ruiz_scale_qp_in_place. intros Hr HL.
  destruct (ruiz_loop _ _ _ _ _ _ _ _ _) as [[st j]|] eqn:E; [|discriminate].
  inversion Hr; subst; clear Hr; simpl.
  apply (ruiz_loop_invariant
           (ruiz_positive (nrows (qp_H qp) + ncols (qp_AT qp)
                           + ncols (qp_CT qp)))) in E.
  - destruct E as (HS & HL' & Hc). rewrite HL, HL'. auto.
  - intros; apply ruiz_round_positive; assumption.
  - unfold ruiz_positive; simpl. repeat split.
    + apply vones_pos.
    + unfold vones. rewrite repeat_length. assumption.
    + unfold s1; simpl; lra.
Qed.

End RuizPositive.

(** C9.  In exact arithmetic, for every scaling state that the Ruiz
    equilibration produces (on a QP of the sizes the preconditioner was built
    for) and all vectors [x], [y], [z] of the sizes of the QP, unscaling
    after scaling and scaling after unscaling give the vector back, for the
    primal variable, the equality dual and the inequality dual. *)
Theorem ruiz_scale_unscale_roundtrip
        (fuel : nat) (r r' : RuizEquilibration R) (qp qp' : QpView R)
        (k : nat) (x y z : list R) :
  ruiz_scale_qp fuel r qp = Some (r', qp', k) ->
  re_n r = nrows (qp_H qp) ->
  length (re_delta r)
  = (nrows (qp_H qp) + ncols (qp_AT qp) + ncols (qp_CT qp))%nat ->
  length x = nrows (qp_H qp) ->
  length y = ncols (qp_AT qp) ->
  length z = ncols (qp_CT qp) ->
  unscale_primal_in_place r' (scale_primal_in_place r' x) = x
  /\ scale_primal_in_place r' (unscale_primal_in_place r' x) = x
  /\ unscale_dual_in_place_eq r' (scale_dual_in_place_eq r' y) = y
  /\ scale_dual_in_place_eq r' (unscale_dual_in_place_eq r' y) = y
  /\ unscale_dual_in_place_in r' (scale_dual_in_place_in r' z) = z
  /\ scale_dual_in_place_in r' (unscale_dual_in_place_in r' z) = z.
Proof.
  intros Hr Hn HL Hx Hy Hz.
  destruct (ruiz_scale_qp_positive _ _ _ Hr HL) as (Hd & Hc & HL' & Hn').
  apply ruiz_state_roundtrip; try assumption; lia.
Qed.

(** ** The infinity norm in exact arithmetic *)

Section NormR.
Local Open Scope R_scope.

Lemma infty_fold_R (v : list R) (acc : R) :
  acc <= fold_left (fun m x => s_max m (s_fabs x)) v acc
  /\ forall x, In x v ->
               Rabs x <= fold_left (fun m x => s_max m (s_fabs x)) v acc.
Proof.
  revert acc; induction v as [|a v IH]; intros acc; simpl.
  - split; [lra | contradiction].
  - destruct (IH (s_max acc (s_fabs a))) as [H1 H2].
    pose proof (s_max_R_ge_l acc (s_fabs a)) as H3.
    pose proof (s_max_R_ge_r acc (s_fabs a)) as H4.
    split; [exact (Rle_trans _ _ _ H3 H1)|].
    intros x [->|Hx]; [exact (Rle_trans _ _ _ H4 H1) | auto].
Qed.

Lemma infty_norm_R_In (v : list R) (x : R) :
  In x v -> Rabs x <= infty_norm v.
Proof. intros; apply infty_fold_R; assumption. Qed.

Lemma infty_norm_R_nonneg (v : list R) : 0 <= infty_norm v.
Proof.
  unfold infty_norm. pose proof (proj1 (infty_fold_R v s0)) as Hf.
  unfold s0 in *; simpl in *. lra.
Qed.

Lemma s_max_list_R_ge (a : R) (l : list R) :
  a <= s_max_list a l /\ forall x, In x l -> x <= s_max_list a l.
Proof.
  unfold s_max_list. revert a; induction l as [|b l IH]; intros a; simpl.
  - split; [lra | contradiction].
  - destruct (IH (s_max a b)) as [H1 H2].
    pose proof (s_max_R_ge_l a b) as H3. pose proof (s_max_R_ge_r a b) as H4.
    split; [exact (Rle_trans _ _ _ H3 H1)|].
    intros x [->|Hx]; [exact (Rle_trans _ _ _ H4 H1) | auto].
Qed.

End NormR.

(** The example equilibration runs exactly one round. *)
Lemma ruiz_example_run :
  ruiz_scale_qp 2 ruiz_example_precond ruiz_example_qp
  = Some (ruiz_example_scaled, rz_qp ruiz_example_state, 1%nat).
Proof.
  unfold ruiz_scale_qp, ruiz_scale_qp_in_place.
  cbn [ruiz_example_precond RuizEquilibration_new re_delta re_epsilon
       re_max_iter re_sym re_n].
  rewrite (@ruiz_loop_never_met R _ UPPER 1 1 1 (s_lit 1 1000) 2 2 1);
    [reflexivity | lia | simpl; lia |].
  intros j Hj.
  assert (Hj' : j = 0%nat \/ j = 1%nat) by (simpl in Hj; lia).
  destruct Hj' as [-> | ->]; unfold ruiz_continue.
  - cbn. apply Rltb_true. rewrite !s_max_R.
    eapply Rlt_le_trans; [|apply Rmax_r].
    unfold Rabs. destruct (Rcase_abs _); lra.
  - cbn [Nat.iter nat_rect]. unfold ruiz_round. cbn [rz_delta].
    unfold ruiz_delta. cbn [seq map app]. apply Rltb_true.
    eapply Rlt_le_trans; [|apply infty_norm_R_In; left; reflexivity].
    match goal with
    | |- Rlt _ (Rabs (s_sub _ (s_div _ (s_add _ (s_sqrt ?v))))) =>
        set (nrm := v)
    end.
    assert (Hn : (4 <= nrm)%R).
    { eapply Rle_trans; [|apply (proj1 (s_max_list_R_ge _ _))]. cbn.
      rewrite s_max_R. eapply Rle_trans; [|apply Rmax_r].
      unfold Rabs. destruct (Rcase_abs _); lra. }
    clearbody nrm.
    assert (Hs : (2 <= R_sqrt.sqrt nrm)%R).
    { replace 2%R with (R_sqrt.sqrt (2 * 2)) by (apply sqrt_square; lra).
      apply sqrt_le_1; lra. }
    cbn. assert (He : (0 < / 4503599627370496)%R)
      by (apply Rinv_0_lt_compat; lra).
    assert (Hd : (1 / 1 / (/ 4503599627370496 + R_sqrt.sqrt nrm) <= / 2)%R).
    { unfold Rdiv. rewrite Rinv_1, !Rmult_1_l.
      apply Rinv_le_contravar; lra. }
    eapply Rlt_le_trans; [|apply Rle_abs]. lra.
Qed.

(** Witness of C9: the scaling state left by one round of equilibration. *)
Lemma ruiz_scale_unscale_roundtrip_witness :
  unscale_primal_in_place ruiz_example_scaled
    (scale_primal_in_place ruiz_example_scaled [5%R]) = [5%R]
  /\ scale_primal_in_place ruiz_example_scaled
       (unscale_primal_in_place ruiz_example_scaled [5%R]) = [5%R]
  /\ unscale_dual_in_place_eq ruiz_example_scaled
       (scale_dual_in_place_eq ruiz_example_scaled [7%R]) = [7%R]
  /\ scale_dual_in_place_eq ruiz_example_scaled
       (unscale_dual_in_place_eq ruiz_example_scaled [7%R]) = [7%R]
  /\ unscale_dual_in_place_in ruiz_example_scaled
       (scale_dual_in_place_in ruiz_example_scaled [9%R]) = [9%R]
  /\ scale_dual_in_place_in ruiz_example_scaled
       (unscale_dual_in_place_in ruiz_example_scaled [9%R]) = [9%R].
Proof.
  apply (@ruiz_scale_unscale_roundtrip 2 ruiz_example_precond
           ruiz_example_scaled ruiz_example_qp (rz_qp ruiz_example_state)
           1 [5%R] [7%R] [9%R]).
  - exact ruiz_example_run.
  - reflexivity.
  - reflexivity.
  - reflexivity.
  - reflexivity.
  - reflexivity.
Defined.

(** ** C6: the number of rounds of the Ruiz equilibration *)

(** With [1 <= max_iter] the equilibration ends, and it runs at most
    [max_iter - 1] rounds. *)
Lemma ruiz_rounds_at_most_max_iter_minus_one
      (T : Type) (ST : Scalar T) (fuel : nat) (delta_ : list T)
      (qp : QpView T) (epsilon : T) (max_iter : Z) (sym : Symmetry)
      (st : RuizState T) (k : nat) :
  (1 <= max_iter)%Z ->
  ruiz_scale_qp_in_place fuel delta_ qp epsilon max_iter sym = Some (st, k) ->
  (Z.of_nat k <= max_iter - 1)%Z.
Proof.
  unfold ruiz_scale_qp_in_place. intros Hm Hr.
  eapply ruiz_loop_rounds_le; eauto.
Qed.

(** When the stopping criterion is never met, the equilibration runs exactly
    [max_iter - 1] rounds. *)
Lemma ruiz_rounds_never_met
      (T : Type) (ST : Scalar T) (fuel : nat) (delta_ : list T)
      (qp : QpView T) (epsilon : T) (max_iter : Z) (sym : Symmetry) :
  (1 <= max_iter)%Z -> (Z.to_nat (max_iter - 1) < fuel)%nat ->
  (forall j, (j <= Z.to_nat (max_iter - 1))%nat ->
     ruiz_continue epsilon
       (Nat.iter j (ruiz_round sym (nrows (qp_H qp)) (ncols (qp_AT qp))
                               (ncols (qp_CT qp)))
                 (ruiz_initial_state delta_ qp)) = true) ->
  exists st,
    ruiz_scale_qp_in_place fuel delta_ qp epsilon max_iter sym
    = Some (st, Z.to_nat (max_iter - 1)).
Proof.
  intros Hm Hf Hc. unfold ruiz_scale_qp_in_place.
  eexists. apply ruiz_loop_never_met; assumption.
Qed.

(** C6.  In double arithmetic, with the default [epsilon = 1e-3] and
    [max_iter = 10], the equilibration of the QP "minimize x" (one variable,
    no stored entry in [H], no constraint) runs 9 rounds, and the stopping
    criterion is still unmet when it ends: the claimed 10 rounds are not
    performed. *)
Theorem ruiz_default_performs_nine_rounds :
  exists st : RuizState float,
    ruiz_scale_qp_in_place 20 (vones 1) (qp_linear (s_lit 1 1))
                           default_epsilon default_max_iter UPPER
    = Some (st, 9%nat)
    /\ ruiz_continue default_epsilon st = true.
Proof.
  eexists. split; vm_compute; reflexivity.
Qed.

(** ** C7: the breakpoints of the line search *)

Section Breakpoints.
Context {T : Type} `{Scalar T}.

(** C7 (amended).  The collecting loop makes the two quotients
    [-r_in_lo[i] / (C dx)[i]] and [-r_in_up[i] / (C dx)[i]] for every index
    [i] below [n_in], whatever the denominator is, and keeps a quotient
    exactly when it compares greater than 0. *)
Theorem collect_alphas_spec (pb : Problem T) (r : Residuals T)
        (Cdx_ : list T) (q : T) :
  In q (collect_alphas pb r Cdx_)
  <-> exists i, (i < pb_n_in pb)%nat
                /\ (q = s_div (s_opp (get (primal_residual_in_scaled_lo r) i))
                              (get Cdx_ i)
                    \/ q = s_div (s_opp (get (primal_residual_in_scaled_up r) i))
                                 (get Cdx_ i))
                /\ s_ltb s0 q = true.
Proof.
  unfold collect_alphas. rewrite in_flat_map. split.
  - intros (i & Hi & Hq). apply in_seq in Hi. apply filter_In in Hq.
    destruct Hq as [Hq Hpos]. exists i. split; [lia|]. split; [|assumption].
    unfold alpha_candidates in Hq. simpl in Hq.
    destruct Hq as [Hq | [Hq | []]]; auto.
  - intros (i & Hi & Hq & Hpos). exists i. split; [apply in_seq; lia|].
    apply filter_In. split; [|assumption].
    unfold alpha_candidates. simpl. destruct Hq as [-> | ->]; auto.
Qed.

(** Sorting keeps the candidates, and removing repetitions adds none. *)
Lemma sort_insert_In (x y : T) (l : list T) :
  In y (sort_insert x l) <-> y = x \/ In y l.
Proof.
  induction l as [|z l IH]; simpl.
  - intuition.
  - destruct (s_ltb x z); simpl; rewrite ?IH; intuition.
Qed.

Lemma std_sort_In (y : T) (l : list T) : In y (std_sort l) <-> In y l.
Proof.
  induction l as [|x l IH]; simpl; [reflexivity|].
  rewrite sort_insert_In, IH. intuition.
Qed.

Lemma std_unique_In (y : T) (l : list T) : In y (std_unique l) -> In y l.
Proof.
  induction l as [|x l IH]; simpl; [auto|].
  destruct l as [|z l]; [auto|].
  destruct (s_eqb x z); simpl in *; intuition.
Qed.

End Breakpoints.

(** ** C10 and C8: the sweep over the inequalities *)

Section ActiveSetSweep.
Context {T : Type} `{Scalar T}.
Variable K : Kernel T.
Variable pb : Problem T.

(** Modelled from the spec ("L D L^T = P K P^T", an inactive slot holds "+1
    on the diagonal and an empty off-diagonal"): the column of [L] of an
    inequality slot whose column is absent from the factorized pattern holds
    its diagonal entry only. *)
Hypothesis lnz_isolated :
  forall nz i, (i < pb_n_in pb)%nat -> nth (slot pb i) nz 0%nat = 0%nat ->
               k_lnz K nz (permuted_pos pb (slot pb i)) = 1%nat.

Lemma slot_count_set_same (a : ActiveSet T) (i : nat) (v : bool)
      (k : list nat) (z : Z) (f : Factor T) :
  (i < length (active_constraints a))%nat ->
  slot_count pb {| active_constraints := set_nth i v (active_constraints a);
                   kkt_nnz_counts := k; kkt_active_nnz := z; ldl := f |} i
  = if v then kkt_col_nnz pb i else 0%nat.
Proof.
  intros Hi. unfold slot_count; simpl.
  rewrite nth_set_nth_same by assumption. reflexivity.
Qed.

Lemma slot_count_set_other (a : ActiveSet T) (i j : nat) (v : bool)
      (k : list nat) (z : Z) (f : Factor T) :
  i <> j ->
  slot_count pb {| active_constraints := set_nth i v (active_constraints a);
                   kkt_nnz_counts := k; kkt_active_nnz := z; ldl := f |} j
  = slot_count pb a j.
Proof.
  intros Hij. unfold slot_count; simpl.
  rewrite nth_set_nth_other by assumption. reflexivity.
Qed.

(** One turn of the sweep from a coherent state: the assertion of [add_row]
    holds when [add_row] is called, and the state stays coherent. *)
Lemma active_set_step_coherent (pen : Penalty T) (pred : list bool)
      (a : ActiveSet T) (added removed : bool) (i : nat) :
  slots_coherent pb a -> (i < pb_n_in pb)%nat ->
  exists a' added' removed',
    active_set_step K pb pen pred (Some (a, added, removed)) i
    = Some (a', added', removed')
    /\ slots_coherent pb a'
    /\ (diag_coherent pb pen a ->
        length (fac_diag (ldl a)) = (pb_n pb + pb_n_eq pb + pb_n_in pb)%nat ->
        diag_coherent pb pen a'
        /\ length (fac_diag (ldl a'))
           = (pb_n pb + pb_n_eq pb + pb_n_in pb)%nat).
Proof.
  intros Hc Hi. pose proof Hc as (La & Lk & Lf & Hs).
  unfold active_set_step.
  destruct (Hs i Hi) as [Hk Hf]. unfold slot_count in Hk, Hf.
  destruct (nth i pred false) eqn:Ep;
    destruct (nth i (active_constraints a) false) eqn:Ea; simpl.
  - (* predicted active, already active *)
    exists a, added, removed. split; [reflexivity|]. split; [assumption|].
    intros; split; assumption.
  - (* activation *)
    unfold add_row. fold (permuted_pos pb (pb_n pb + pb_n_eq pb + i)).
    fold (slot pb i). rewrite (lnz_isolated _ Hi Hf). simpl.
    eexists _, _, _. split; [reflexivity|]. split.
    + unfold slots_coherent; simpl. rewrite !set_nth_length.
      repeat split; auto. 
      * destruct (Nat.eq_dec i i0) as [<-|Hne].
        -- rewrite slot_count_set_same by lia.
           apply nth_set_nth_same. unfold slot. lia.
        -- rewrite slot_count_set_other by assumption.
           rewrite nth_set_nth_other by (unfold slot; lia).
           apply Hs; assumption.
      * destruct (Nat.eq_dec i i0) as [<-|Hne].
        -- rewrite slot_count_set_same by lia.
           apply nth_set_nth_same. unfold slot. lia.
        -- rewrite slot_count_set_other by assumption.
           rewrite nth_set_nth_other by (unfold slot; lia).
           apply Hs; assumption.
    + intros Hd Ld. split; [|simpl; rewrite set_nth_length; assumption].
      unfold diag_coherent; simpl. intros j Hj.
      destruct (Nat.eq_dec i j) as [<-|Hne].
      * rewrite nth_set_nth_same by lia. unfold get.
        apply nth_set_nth_same. unfold slot. lia.
      * rewrite nth_set_nth_other by assumption. unfold get.
        rewrite nth_set_nth_other by (unfold slot; lia).
        apply Hd; assumption.
  - (* deactivation *)
    eexists _, _, _. split; [reflexivity|]. split.
    + unfold slots_coherent; simpl. rewrite !set_nth_length.
      repeat split; auto. 
      * destruct (Nat.eq_dec i i0) as [<-|Hne].
        -- rewrite slot_count_set_same by lia.
           apply nth_set_nth_same. unfold slot. lia.
        -- rewrite slot_count_set_other by assumption.
           rewrite nth_set_nth_other by (unfold slot; lia).
           apply Hs; assumption.
      * destruct (Nat.eq_dec i i0) as [<-|Hne].
        -- rewrite slot_count_set_same by lia.
           apply nth_set_nth_same. unfold slot. lia.
        -- rewrite slot_count_set_other by assumption.
           rewrite nth_set_nth_other by (unfold slot; lia).
           apply Hs; assumption.
    + intros Hd Ld. split; [|simpl; rewrite set_nth_length; assumption].
      unfold diag_coherent; simpl. intros j Hj.
      destruct (Nat.eq_dec i j) as [<-|Hne].
      * rewrite nth_set_nth_same by lia. unfold get.
        apply nth_set_nth_same. unfold slot. lia.
      * rewrite nth_set_nth_other by assumption. unfold get.
        rewrite nth_set_nth_other by (unfold slot; lia).
        apply Hd; assumption.
  - (* predicted inactive, inactive *)
    exists a, added, removed. split; [reflexivity|]. split; [assumption|].
    intros; split; assumption.
Qed.

(** The sweep up to any turn, from a coherent state. *)
Lemma sweep_before_coherent (pen : Penalty T) (pred : list bool)
      (a : ActiveSet T) (i : nat) :
  slots_coherent pb a -> (i <= pb_n_in pb)%nat ->
  exists a_i added removed,
    sweep_before K pb pen pred a i = Some (a_i, added, removed)
    /\ slots_coherent pb a_i
    /\ (diag_coherent pb pen a ->
        length (fac_diag (ldl a)) = (pb_n pb + pb_n_eq pb + pb_n_in pb)%nat ->
        diag_coherent pb pen a_i
        /\ length (fac_diag (ldl a_i))
           = (pb_n pb + pb_n_eq pb + pb_n_in pb)%nat).
Proof.
  intros Hc. induction i as [|i IH]; intros Hi.
  - exists a, false, false. unfold sweep_before; simpl. auto.
  - destruct IH as (a_i & ad & rm & E & Hci & Hdi); [lia|].
    destruct (@active_set_step_coherent pen pred a_i ad rm i Hci)
      as (a' & ad' & rm' & E' & Hc' & Hd'); [lia|].
    exists a', ad', rm'. split; [|split; [assumption|]].
    + unfold sweep_before in *. rewrite seq_S, fold_left_app. simpl.
      rewrite E. exact E'.
    + intros Hd Ld. destruct (Hdi Hd Ld) as [Hd1 Ld1]. apply Hd'; assumption.
Qed.

Lemma refactorize_diag_slot (pen : Penalty T) (active : list bool) (i : nat) :
  (i < pb_n_in pb)%nat ->
  get (refactorize_diag pb pen active) (slot pb i)
  = if nth i active false then s_div (s_lit (-1) 1) (mu_in pen) else s1.
Proof.
  intros Hi. unfold get, refactorize_diag, slot.
  rewrite app_nth2 by (rewrite repeat_length; lia).
  rewrite app_nth2 by (rewrite !repeat_length; lia).
  rewrite !repeat_length.
  replace (pb_n pb + pb_n_eq pb + i - pb_n pb - pb_n_eq pb)%nat with i by lia.
  set (f := fun j => if nth j active false
                     then s_div (s_lit (-1) 1) (mu_in pen) else s1).
  rewrite (nth_indep _ _ (f 0%nat))
    by (rewrite length_map, length_seq; assumption).
  rewrite (map_nth f), seq_nth by assumption. reflexivity.
Qed.

Lemma refactorize_diag_length (pen : Penalty T) (active : list bool) :
  length (refactorize_diag pb pen active)
  = (pb_n pb + pb_n_eq pb + pb_n_in pb)%nat.
Proof.
  unfold refactorize_diag.
  rewrite !length_app, !repeat_length, length_map, length_seq. lia.
Qed.

(** A refactorization makes the factorized pattern the one of [kkt_active]
    and installs the diagonal of the penalties it is run with. *)
Lemma refactorize_coherent_gen (pen : Penalty T) (a : ActiveSet T) :
  length (active_constraints a) = pb_n_in pb ->
  length (kkt_nnz_counts a) = (pb_n pb + pb_n_eq pb + pb_n_in pb)%nat ->
  (forall i, (i < pb_n_in pb)%nat ->
             nth (slot pb i) (kkt_nnz_counts a) 0%nat = slot_count pb a i) ->
  slots_coherent pb (refactorize pb pen a)
  /\ diag_coherent pb pen (refactorize pb pen a)
  /\ length (fac_diag (ldl (refactorize pb pen a)))
     = (pb_n pb + pb_n_eq pb + pb_n_in pb)%nat.
Proof.
  intros La Lk Hs. split; [|split].
  - unfold slots_coherent, refactorize; simpl. repeat split; auto;
      apply Hs; assumption.
  - intros i Hi. simpl. apply refactorize_diag_slot; assumption.
  - simpl. apply refactorize_diag_length.
Qed.

Lemma refactorize_coherent (pen : Penalty T) (a : ActiveSet T) :
  slots_coherent pb a ->
  slots_coherent pb (refactorize pb pen a)
  /\ diag_coherent pb pen (refactorize pb pen a)
  /\ length (fac_diag (ldl (refactorize pb pen a)))
     = (pb_n pb + pb_n_eq pb + pb_n_in pb)%nat.
Proof.
  intros (La & Lk & Lf & Hs). apply refactorize_coherent_gen; auto.
  intros i Hi. apply Hs; assumption.
Qed.

Lemma initial_active_set_coherent (pen : Penalty T) :
  slots_coherent pb (initial_active_set pb pen)
  /\ diag_coherent pb pen (initial_active_set pb pen)
  /\ length (fac_diag (ldl (initial_active_set pb pen)))
     = (pb_n pb + pb_n_eq pb + pb_n_in pb)%nat.
Proof.
  unfold initial_active_set. apply refactorize_coherent_gen; simpl.
  - apply repeat_length.
  - rewrite !length_app, !length_map, !length_seq, !repeat_length. lia.
  - intros i Hi. unfold slot_count; simpl. unfold slot.
    rewrite app_nth2 by (rewrite length_map, length_seq; lia).
    rewrite app_nth2 by (rewrite !length_map, !length_seq; lia).
    rewrite !nth_repeat. reflexivity.
Qed.

(** The whole block "active set change" from a coherent state: no assertion
    fails, and the state that results is coherent. *)
Lemma active_set_change_coherent (pen : Penalty T) (pred : list bool)
      (a : ActiveSet T) :
  slots_coherent pb a ->
  exists a', active_set_change K pb pen pred a = Some a'
             /\ slots_coherent pb a'.
Proof.
  intros Hc. unfold active_set_change.
  destruct (0 <? pb_n_in pb)%nat; [|eauto].
  destruct (@sweep_before_coherent pen pred a (pb_n_in pb) Hc)
    as (a' & ad & rm & E & Hc' & _); [lia|].
  unfold sweep_before in E. rewrite E.
  destruct (ad || rm); eexists; split; try reflexivity; auto.
  apply refactorize_coherent; assumption.
Qed.

Lemma reachable_coherent (a : ActiveSet T) :
  reachable K pb a -> slots_coherent pb a.
Proof.
  induction 1 as [pen | a a' pen pred Hr IH E | a pen Hr IH].
  - apply initial_active_set_coherent.
  - destruct (@active_set_change_coherent pen pred a IH) as (a1 & E1 & Hc).
    rewrite E in E1. inversion E1; subst. assumption.
  - apply refactorize_coherent; assumption.
Qed.

(** C10.  From every state of the active set that the solver can reach, the
    sweep of an inner iteration goes through without a failed assertion;
    and at every turn [i] of it, a call of [add_row] (predicted active, not
    active) finds one entry in the column of [L] at the permuted slot, which
    is what [add_row] asserts, and a call of [delete_row] (predicted inactive,
    active) finds the slot active with its whole column in the
    factorization. *)
Theorem add_row_assertion_never_fires
        (a : ActiveSet T) (pen : Penalty T) (pred : list bool) :
  reachable K pb a ->
  (exists a', active_set_change K pb pen pred a = Some a'
              /\ reachable K pb a')
  /\ forall i, (i < pb_n_in pb)%nat ->
       exists a_i added removed,
         sweep_before K pb pen pred a i = Some (a_i, added, removed)
         /\ (nth i pred false = true ->
             nth i (active_constraints a_i) false = false ->
             k_lnz K (fac_nnz_per_col (ldl a_i)) (permuted_pos pb (slot pb i))
             = 1%nat)
         /\ (nth i pred false = false ->
             nth i (active_constraints a_i) false = true ->
             nth (slot pb i) (fac_nnz_per_col (ldl a_i)) 0%nat
             = kkt_col_nnz pb i).
Proof.
  intros Hr. pose proof (reachable_coherent Hr) as Hc. split.
  - destruct (@active_set_change_coherent pen pred a Hc) as (a' & E & _).
    exists a'. split; [assumption|]. eapply reach_sweep; eauto.
  - intros i Hi.
    destruct (@sweep_before_coherent pen pred a i Hc)
      as (a_i & ad & rm & E & Hci & _); [lia|].
    exists a_i, ad, rm. split; [assumption|].
    destruct Hci as (_ & _ & _ & Hs). destruct (Hs i Hi) as [_ Hf].
    unfold slot_count in Hf. split.
    + intros _ Ha. rewrite Ha in Hf. apply lnz_isolated; assumption.
    + intros _ Ha. rewrite Ha in Hf. assumption.
Qed.

End ActiveSetSweep.

(** ** C2: the iterative refinement *)

Section Refinement.
Context {T : Type} `{Scalar T} `{HasInfinity T}.
Variable K : Kernel T.
Variable settings : QPSettings T.
Variable pb : Problem T.
Variable pen : Penalty T.
Variable a : ActiveSet T.
Variable rhs : list T.

Lemma refinement_loop_spec (remaining j : nat) :
  let r := refinement_loop K pb pen a rhs remaining j
             (snd (refinement_iterate K pb pen a rhs j))
             (fst (refinement_iterate K pb pen a rhs j)) in
  (snd r <= remaining)%nat
  /\ fst r = fst (refinement_iterate K pb pen a rhs (j + snd r))
  /\ (forall i, (j <= i < j + snd r)%nat ->
                refinement_stops K pb pen a rhs i = false)
  /\ ((snd r < remaining)%nat ->
      refinement_stops K pb pen a rhs (j + snd r) = true).
Proof.
  revert j; induction remaining as [|remaining IH]; intros j; simpl.
  - rewrite Nat.add_0_r. split; [lia|]. split; [reflexivity|].
    split; intros; lia.
  - fold (refinement_stops K pb pen a rhs j).
    destruct (refinement_stops K pb pen a rhs j) eqn:E; simpl.
    + rewrite Nat.add_0_r. split; [lia|]. split; [reflexivity|].
      split; [intros; lia | intros; assumption].
    + specialize (IH (S j)). simpl in IH.
      destruct IH as (H1 & H2 & H3 & H4).
      repeat split.
      * lia.
      * rewrite Nat.add_succ_r. exact H2.
      * intros i Hi. destruct (Nat.eq_dec i j) as [->|Hne]; [assumption|].
        apply H3. lia.
      * intros Hlt. rewrite Nat.add_succ_r. apply H4. lia.
Qed.


End Refinement.


(** Counterexample to C7 as stated, in double arithmetic: one inequality
    with [r_in_lo = -1], [r_in_up = -2] and [(C dx) = 0].  The denominator is
    zero, and both quotients are [+infinity], which compares greater than 0:
    two candidates are produced for the index. *)
Lemma breakpoint_for_zero_denominator :
  collect_alphas (problem_of qp_bound)
    {| primal_residual_eq_scaled := [];
       primal_residual_in_scaled_lo := [s_lit (-1) 1];
       primal_residual_in_scaled_up := [s_lit (-2) 1];
       dual_residual_scaled := [s_lit 0 1] |}
    [s_lit 0 1]
  = [PrimFloat.infinity; PrimFloat.infinity].
Proof. vm_compute. reflexivity. Qed.

(** ** C3: how the inner loop is left *)

Section InnerLoop.
Context {T : Type} `{Scalar T} `{HasInfinity T}.
Variable K : Kernel T.
Variable settings : QPSettings T.
Variable pb : Problem T.

(** In the first outer iteration the small-step test fails, whatever the
    step. *)
Lemma small_step_test_first_outer (alpha : T) (dw : list T) :
  small_step_test 0 alpha dw = false.
Proof. unfold small_step_test. simpl. apply andb_false_r. Qed.

(** In a later outer iteration the test is the comparison alone. *)
Lemma small_step_test_later_outer (iter : nat) (alpha : T) (dw : list T) :
  (0 < iter)%nat ->
  small_step_test iter alpha dw
  = s_ltb (s_mul alpha (infty_norm dw)) (s_lit 1 100000000000).
Proof.
  intros Hi. unfold small_step_test.
  replace (0 <? iter)%nat with true by (symmetry; apply Nat.ltb_lt; lia).
  apply andb_true_r.
Qed.

Lemma inner_loop_exit (iter : nat) (pen : Penalty T) (bcl : Bcl T)
      (x_prev_e : list T) :
  forall remaining k s s' e k',
    inner_loop K settings pb iter pen bcl x_prev_e remaining k s
    = Some (s', e, k') ->
    match e with
    | SmallStep => (0 < iter)%nat /\ (k' < k + remaining)%nat
    | InnerConverged => (k' < k + remaining)%nat
    | MaxIterIn => k' = (k + remaining)%nat
    end.
Proof.
  induction remaining as [|remaining IH]; intros k s s' e k' Hr; simpl in Hr.
  - inversion Hr; subst. lia.
  - destruct (newton_iteration K settings pb iter pen bcl x_prev_e s)
      as [[s1 [e1|]]|] eqn:E; try discriminate.
    + inversion Hr; subst; clear Hr.
      unfold newton_iteration in E.
      destruct (newton_step K settings pb pen x_prev_e s)
        as [[[a dw] alpha]|]; [|discriminate].
      destruct (small_step_test iter alpha dw) eqn:Et.
      * inversion E; subst. split; [|lia].
        unfold small_step_test in Et. apply andb_true_iff in Et.
        destruct Et as [_ Et]. apply Nat.ltb_lt in Et. assumption.
      * destruct (s_leb _ _); inversion E; subst. lia.
    + apply IH in Hr. destruct e; lia.
Qed.


End InnerLoop.



(** ** C5: the BCL update when the step is rejected *)

Section BclUpdate.
Context {T : Type} `{Scalar T}.
Local Open Scope scalar_scope.
Variable pow : T -> T -> T.
Variable P : Type.
Variable pc : Preconditioner T P.
Variable precond : P.
Variable settings : QPSettings T.
Variable pb : Problem T.


End BclUpdate.

(** In exact arithmetic the test rejects the step exactly when the primal
    feasibility is greater than [bcl_eta_ext]. *)
Lemma bcl_reject_R (p eta : R) : s_leb p eta = false <-> (eta < p)%R.
Proof.
  simpl. unfold Rleb. destruct (Rle_dec p eta); split; intros;
    try discriminate; try reflexivity; lra.
Qed.


(** ** C4: the cold reset *)

Section ColdReset.
Context {T : Type} `{Scalar T}.
Local Open Scope scalar_scope.

(** The test reads the primal feasibility before the inner solver, the primal
    feasibility after it, the dual feasibility after [bcl_update] and the
    penalty [mu_in]; the dual feasibility before the inner solver is not among
    its arguments. *)
Lemma cold_reset_test_spec (pen : Penalty T) (p_new p_old d_new : T) :
  cold_reset_test pen p_new p_old d_new
  = (p_old <=? p_new) && (p_old <=? d_new) && (s_lit 100000 1 <=? mu_in pen).
Proof. reflexivity. Qed.

Lemma cold_reset_spec (settings : QPSettings T) (pen : Penalty T)
      (p_new p_old d_new : T) (new_mu : T * T) :
  cold_reset settings pen p_new p_old d_new new_mu
  = if (p_old <=? p_new) && (p_old <=? d_new) && (s_lit 100000 1 <=? mu_in pen)
    then (cold_reset_mu_eq settings, cold_reset_mu_in settings)
    else new_mu.
Proof. reflexivity. Qed.

End ColdReset.

(** C4.  The infeasible QP "minimize x^2/2 subject to 1 <= 0 x <= 2" in
    double arithmetic, fifth outer iteration ([iter = 4]).  The primal
    feasibility after the inner solver is not below the one before it, the
    dual feasibility after it is not below the dual feasibility before it,
    and [mu_in >= 1e5]: the three conditions of the claim hold.  The code
    compares the new dual feasibility (0) with the old primal feasibility (1)
    instead, its test fails, and the penalty goes on to [1e6] instead of
    being reset to [cold_reset_mu_in = 1.1]. *)
Theorem cold_reset_skipped_on_infeasible_qp :
  let settings := example_settings (T := float) false (s_lit 1 1000000000) 100 in
  let s4 := example_state settings qp_infeasible 4 in
  let s5 := example_state settings qp_infeasible 5 in
  exists f,
    outer_feasibilities pow_01 Identity_preconditioner tt settings
                        (problem_of qp_infeasible)
                        (example_inner settings qp_infeasible) 4 s4 = Some f
    /\ s_leb (primal_before f) (primal_after f) = true
    /\ s_leb (dual_before f) (dual_after f) = true
    /\ s_leb (s_lit 100000 1) (mu_in (os_pen s4)) = true
    /\ cold_reset_test (os_pen s4) (primal_after f) (primal_before f)
                       (dual_after f) = false
    /\ example_run settings qp_infeasible 5 = Some s5
    /\ mu_in (os_pen s5) = s_lit 1000000 1
    /\ cold_reset_mu_in settings = s_lit 11 10.
Proof.
  eexists. split; [vm_compute; reflexivity|].
  repeat split; vm_compute; reflexivity.
Qed.

(** ** C8: the factorization after an update of the penalties *)

Section MuUpdate.
Context {T : Type} `{Scalar T}.
Local Open Scope scalar_scope.
Variable pb : Problem T.

(** When a penalty changes, the refactorization runs before the penalties
    are assigned: the diagonal of the factorization at an active inequality
    slot is [-1/mu_in] for the penalty that is being replaced. *)
Lemma mu_update_step_keeps_old_diagonal
      (pen : Penalty T) (new_mu : T * T) (a : ActiveSet T) (i : nat) :
  (negb (mu_in pen =? snd new_mu) || negb (mu_eq pen =? fst new_mu)) = true ->
  (i < pb_n_in pb)%nat ->
  nth i (active_constraints a) false = true ->
  let r := mu_update_step pb pen new_mu a in
  mu_in (fst r) = snd new_mu
  /\ active_constraints (snd r) = active_constraints a
  /\ get (fac_diag (ldl (snd r))) (slot pb i) = s_lit (-1) 1 / mu_in pen.
Proof.
  intros Hc Hi Ha. unfold mu_update_step. rewrite Hc. simpl.
  repeat split. rewrite refactorize_diag_slot by assumption.
  rewrite Ha. reflexivity.
Qed.

End MuUpdate.

(** C8.  The QP "minimize x^2/2 - 10 x subject to -1e20 <= x <= 0" in double
    arithmetic, after the first outer iteration: the inequality is active, the
    BCL update has raised [mu_in] from 10 to 100, and the factorization holds
    [-1/10] on the diagonal of the slot of the inequality, not [-1/mu_in]. *)
Theorem factorization_stale_after_mu_update :
  let settings := example_settings (T := float) false (s_lit 1 1000000000) 100 in
  let s := example_state settings qp_bound 1 in
  example_run settings qp_bound 1 = Some s
  /\ active_constraints (os_aset s) = [true]
  /\ mu_in (os_pen s) = s_lit 100 1
  /\ get (fac_diag (ldl (os_aset s))) (slot (problem_of qp_bound) 0)
     = s_div (s_lit (-1) 1) (s_lit 10 1)
  /\ s_eqb (get (fac_diag (ldl (os_aset s))) (slot (problem_of qp_bound) 0))
           (s_div (s_lit (-1) 1) (mu_in (os_pen s))) = false.
Proof. repeat split; vm_compute; reflexivity. Qed.

(** Witness of C10, in double arithmetic: the first sweep of the solver on
    the QP "minimize x^2/2 - 10 x subject to -1e20 <= x <= 0", with the dense
    stand-in for the kernel. *)
Lemma add_row_assertion_never_fires_witness :
  let pb := problem_of qp_bound in
  let K := dense_kernel pb in
  let a := initial_active_set pb (initial_penalty (T := float)) in
  (exists a', active_set_change K pb initial_penalty [true] a = Some a'
              /\ reachable K pb a')
  /\ forall i, (i < pb_n_in pb)%nat ->
       exists a_i added removed,
         sweep_before K pb initial_penalty [true] a i
         = Some (a_i, added, removed)
         /\ (nth i [true] false = true ->
             nth i (active_constraints a_i) false = false ->
             k_lnz K (fac_nnz_per_col (ldl a_i)) (permuted_pos pb (slot pb i))
             = 1%nat)
         /\ (nth i [true] false = false ->
             nth i (active_constraints a_i) false = true ->
             nth (slot pb i) (fac_nnz_per_col (ldl a_i)) 0%nat
             = kkt_col_nnz pb i).
Proof.
  intros pb K a.
  apply (@add_row_assertion_never_fires float _ K pb).
  - intros nz i Hi Hz. unfold K, dense_kernel, permuted_pos. simpl.
    rewrite Hz. reflexivity.
  - apply reach_initial.
Defined.

(** ** C1: the residuals when the outer loop is left by a convergence test *)

Section OuterLoopConverged.
Context {T : Type} `{Scalar T}.
Variable pow : T -> T -> T.
Variable P : Type.
Variable pc : Preconditioner T P.
Variable precond : P.
Variable settings : QPSettings T.
Variable pb : Problem T.
Variable inner_solver :
  nat -> Penalty T -> Bcl T -> list T -> InnerState T -> option (InnerState T).

Hypothesis inner_keeps_sizes : keeps_sizes pb inner_solver.

Lemma bcl_update_sized (pen : Penalty T) (p : T) (bcl : Bcl T)
      (it : Iterates T) (y_prev z_prev : list T) :
  sized pb it -> length y_prev = pb_n_eq pb -> length z_prev = pb_n_in pb ->
  sized pb (br_it (bcl_update pow settings pen p bcl it y_prev z_prev)).
Proof.
  intros (Hx & Hy & Hz) Ly Lz. unfold bcl_update.
  destruct (s_leb p (bcl_eta_ext bcl)); simpl; unfold sized; simpl; auto.
Qed.

Lemma outer_update_it (s : OuterState T) (r : InnerState T) (p0 p1 : T) :
  os_it (outer_update pow pc precond settings pb s r p0 p1)
  = br_it (bcl_update pow settings (os_pen s) p1 (os_bcl s) (is_it r)
                      (it_y (os_it s)) (it_z (os_it s))).
Proof.
  unfold outer_update.
  destruct (unscaled_dual_residual pc precond pb _) as [[d ?] ?].
  destruct (mu_update_step pb (os_pen s) _ (is_aset r)) as [pen' a'].
  reflexivity.
Qed.

(** A turn of the outer loop leaves the loop only at iterates that pass the
    convergence test, and it keeps the sizes of the iterates. *)
Lemma outer_iteration_step (iter : nat) (s : OuterState T) (st : Step T) :
  sized pb (os_it s) ->
  outer_iteration pow pc precond settings pb inner_solver iter s = Some st ->
  match st with
  | Break s' =>
      convergence_test pc precond settings pb (os_it s') = true
      /\ sized pb (os_it s')
  | Continue s' => sized pb (os_it s')
  end.
Proof.
  intros Hs. unfold outer_iteration.
  destruct (unscaled_primal_residual pc precond pb (it_x (os_it s)))
    as [[p0 prhs0] c0] eqn:Ep0.
  destruct (unscaled_dual_residual pc precond pb (os_it s))
    as [[d0 drhs0] dc0] eqn:Ed0.
  destruct (is_primal_feasible settings pb prhs0 p0
            && is_dual_feasible settings pb drhs0 d0) eqn:Et0.
  - intros Hr; inversion Hr; subst. split; [|assumption].
    unfold convergence_test. rewrite Ep0, Ed0. assumption.
  - destruct (inner_solver iter (os_pen s) (os_bcl s) (it_x (os_it s))
                (inner_input pc precond pb s)) as [r|] eqn:Ei; [|discriminate].
    assert (Hr1 : sized pb (is_it r)).
    { eapply inner_keeps_sizes; [|exact Ei]. unfold inner_input.
      rewrite Ep0, Ed0. destruct c0 as [[? ?] ?]. simpl. assumption. }
    destruct (unscaled_primal_residual pc precond pb (it_x (is_it r)))
      as [[p1 prhs1] c1] eqn:Ep1.
    destruct (unscaled_dual_residual pc precond pb (is_it r))
      as [[d1 drhs1] dc1] eqn:Ed1.
    destruct (is_primal_feasible settings pb prhs1 p1
              && is_dual_feasible settings pb drhs1 d1) eqn:Et1.
    + intros Hr; inversion Hr; subst. simpl. split; [|assumption].
      unfold convergence_test. rewrite Ep1, Ed1. assumption.
    + intros Hr; inversion Hr; subst. rewrite outer_update_it.
      destruct Hs as (Hx & Hy & Hz).
      apply bcl_update_sized; assumption.
Qed.

Lemma outer_loop_converged :
  forall remaining iter s s',
    sized pb (os_it s) ->
    outer_loop pow pc precond settings pb inner_solver remaining iter s
    = Some (s', Converged) ->
    convergence_test pc precond settings pb (os_it s') = true
    /\ sized pb (os_it s').
Proof.
  induction remaining as [|remaining IH]; intros iter s s' Hs Hr;
    simpl in Hr; [discriminate|].
  destruct (outer_iteration pow pc precond settings pb inner_solver iter s)
    as [[s1|s1]|] eqn:E; try discriminate.
  - inversion Hr; subst. apply (@outer_iteration_step iter s _ Hs E).
  - eapply IH; [|exact Hr]. apply (@outer_iteration_step iter s _ Hs E).
Qed.

End OuterLoopConverged.

Section ResidualBound.
Local Open Scope R_scope.
Variable P : Type.
Variable pc : Preconditioner R P.
Variable precond : P.
Variable settings : QPSettings R.
Variable pb : Problem R.

Hypothesis consistent : preconditioner_consistent pc precond pb.

Lemma rhs_pri_R (r : PrimalRhs R) :
  rhs_pri settings pb r
  = eps_abs settings
    + eps_rel settings
      * s_max_list (primal_feasibility_eq_rhs_0 r)
          [primal_feasibility_in_rhs_0 r; infty_norm (qp_b (pb_qp pb));
           infty_norm (qp_l (pb_qp pb)); infty_norm (qp_u (pb_qp pb))].
Proof.
  unfold rhs_pri.
  destruct (Req_dec_T (eps_rel settings) s0) as [E|E].
  - replace (s_eqb (eps_rel settings) s0) with true
      by (symmetry; apply Reqb_true; exact E).
    simpl negb. cbv iota. rewrite E. unfold s0; simpl. lra.
  - replace (s_eqb (eps_rel settings) s0) with false
      by (symmetry; apply Reqb_false; exact E).
    reflexivity.
Qed.

Lemma rhs_dua_R (r : DualRhs R) :
  rhs_dua settings pb r
  = eps_abs settings
    + eps_rel settings
      * s_max_list (dual_feasibility_rhs_0 r)
          [dual_feasibility_rhs_1 r; infty_norm (qp_g (pb_qp pb));
           dual_feasibility_rhs_3 r].
Proof.
  unfold rhs_dua.
  destruct (Req_dec_T (eps_rel settings) s0) as [E|E].
  - replace (s_eqb (eps_rel settings) s0) with true
      by (symmetry; apply Reqb_true; exact E).
    simpl negb. cbv iota. rewrite E. unfold s0; simpl. lra.
  - replace (s_eqb (eps_rel settings) s0) with false
      by (symmetry; apply Reqb_false; exact E).
    reflexivity.
Qed.

(** Iterates that pass the convergence test: the residuals of the unscaled QP
    at the unscaled iterates are within the tolerances. *)
Lemma convergence_test_residuals (it : Iterates R) :
  sized pb it ->
  convergence_test pc precond settings pb it = true ->
  let it' := unscale_iterates pc precond it in
  infty_norm (primal_eq_residual (pb_qp pb) (it_x it'))
  <= primal_tolerance settings (pb_qp pb) (it_x it')
  /\ infty_norm (primal_in_residual (pb_qp pb) (it_x it'))
     <= primal_tolerance settings (pb_qp pb) (it_x it')
  /\ infty_norm (dual_residual (pb_qp pb) it')
     <= dual_tolerance settings (pb_qp pb) it'.
Proof.
  intros Hs Ht it'.
  destruct (consistent Hs) as (HA & HC & HH & HAT & HCT & HD).
  fold it' in HA, HC, HH, HAT, HCT, HD.
  unfold convergence_test, unscaled_primal_residual, unscaled_dual_residual
    in Ht.
  cbv zeta in Ht. apply andb_true_iff in Ht. destruct Ht as [Hp Hd].
  unfold is_primal_feasible in Hp. unfold is_dual_feasible in Hd.
  rewrite rhs_pri_R in Hp. rewrite rhs_dua_R in Hd.
  cbn [primal_feasibility_eq_rhs_0 primal_feasibility_in_rhs_0
       dual_feasibility_rhs_0 dual_feasibility_rhs_1 dual_feasibility_rhs_3]
    in Hp, Hd.
  rewrite HA, HC in Hp. rewrite HH, HAT, HCT, HD in Hd.
  apply Rleb_le in Hp. apply Rleb_le in Hd.
  fold (primal_eq_residual (pb_qp pb) (it_x it')) in Hp.
  fold (primal_in_residual (pb_qp pb) (it_x it')) in Hp.
  fold (primal_tolerance settings (pb_qp pb) (it_x it')) in Hp.
  fold (dual_tolerance settings (pb_qp pb) it') in Hd.
  pose proof (s_max_R_ge_l
                (infty_norm (primal_eq_residual (pb_qp pb) (it_x it')))
                (infty_norm (primal_in_residual (pb_qp pb) (it_x it'))))
    as Hl.
  pose proof (s_max_R_ge_r
                (infty_norm (primal_eq_residual (pb_qp pb) (it_x it')))
                (infty_norm (primal_in_residual (pb_qp pb) (it_x it'))))
    as Hr.
  unfold primal_tolerance, dual_tolerance.
  split; [exact (Rle_trans _ _ _ Hl Hp)|].
  split; [exact (Rle_trans _ _ _ Hr Hp) | exact Hd].
Qed.

End ResidualBound.


(** The identity preconditioner is consistent with a model that it leaves
    as it is. *)
Lemma Identity_preconditioner_consistent (T : Type) (ST : Scalar T)
      (qp : QpView T) :
  preconditioner_consistent Identity_preconditioner tt (problem_of qp).
Proof.
  unfold preconditioner_consistent. intros it Hs. simpl.
  destruct it; repeat split; reflexivity.
Qed.

(** Iterates that pass the convergence test end the outer loop at once. *)
Lemma outer_iteration_break_early
      (T : Type) (ST : Scalar T) (pow : T -> T -> T) (P : Type)
      (pc : Preconditioner T P) (precond : P) (settings : QPSettings T)
      (pb : Problem T)
      (inner_solver : nat -> Penalty T -> Bcl T -> list T -> InnerState T
                      -> option (InnerState T))
      (iter : nat) (s : OuterState T) :
  convergence_test pc precond settings pb (os_it s) = true ->
  outer_iteration pow pc precond settings pb inner_solver iter s
  = Some (Break s).
Proof.
  unfold convergence_test, outer_iteration. intros Ht.
  destruct (unscaled_primal_residual pc precond pb (it_x (os_it s)))
    as [[p0 prhs0] c0].
  destruct (unscaled_dual_residual pc precond pb (os_it s))
    as [[d0 drhs0] dc0].
  rewrite Ht. reflexivity.
Qed.

Lemma infty_norm_R_zero (v : list R) :
  Forall (fun x => x = 0%R) v -> infty_norm v = 0%R.
Proof.
  unfold infty_norm. intros Hv.
  assert (Hg : forall acc, acc = 0%R ->
             fold_left (fun m x => s_max m (s_fabs x)) v acc = 0%R).
  { induction Hv as [|x v Hx Hv IH]; intros acc Ha; simpl; [assumption|].
    apply IH. subst. rewrite s_max_R. simpl. rewrite Rabs_R0.
    apply Rmax_left. lra. }
  apply Hg. unfold s0; simpl. lra.
Qed.

(** The example: the warm start at the solution passes the test. *)
Lemma qp_solved_run :
  qp_solve_loop Rpower Identity_preconditioner tt
                (example_settings true (s_lit 1 1000000000) 1)
                (problem_of qp_solved) idle_inner_solver idle_solve
                [1%R] [0%R] [0%R]
  = Some ({| it_x := [1%R]; it_y := [0%R]; it_z := [0%R] |}, Converged).
Proof.
  unfold qp_solve_loop.
  change (Z.to_nat (max_iter (example_settings true (s_lit 1 1000000000) 1)))
    with 1%nat.
  cbn [outer_loop].
  rewrite outer_iteration_break_early; [reflexivity|].
  unfold convergence_test, initial_outer_state, initial_iterates.
  cbn [example_settings warm_start os_it it_x it_y it_z].
  unfold unscaled_primal_residual, unscaled_dual_residual.
  cbv zeta. apply andb_true_iff. split.
  - unfold is_primal_feasible. apply Rleb_true.
    unfold rhs_pri. cbn [example_settings eps_rel eps_abs].
    replace (s_eqb (s0 : R) s0) with true
      by (symmetry; apply Reqb_true; reflexivity).
    cbn [negb]. rewrite s_max_R.
    rewrite !infty_norm_R_zero.
    + rewrite Rmax_left by lra. simpl. lra.
    + cbn. constructor; [|constructor].
      unfold Rltb. repeat destruct (Rlt_dec _ _); lra.
    + cbn. constructor; [lra | constructor].
  - unfold is_dual_feasible. apply Rleb_true.
    unfold rhs_dua. cbn [example_settings eps_rel eps_abs].
    replace (s_eqb (s0 : R) s0) with true
      by (symmetry; apply Reqb_true; reflexivity).
    cbn [negb]. rewrite infty_norm_R_zero.
    + simpl. lra.
    + cbn. constructor; [lra | constructor].
Qed.


(* ================================================================== *)
(** * The Ruiz equilibration is a consistent preconditioner *)
(* ================================================================== *)

(** ** In-place updates of an array *)

Section InPlace.
Context {T : Type} `{Scalar T}.

Lemma get_set_nth (i k : nat) (v : T) (l : list T) :
  get (set_nth i v l) k
  = if ((k =? i) && (i <? length l))%nat then v else get l k.
Proof.
  unfold get. revert i k; induction l as [|y l IH]; intros i k.
  - rewrite andb_false_r. destruct i; reflexivity.
  - destruct i as [|i], k as [|k]; simpl; try reflexivity.
    apply IH.
Qed.

Lemma get_beyond (l : list T) (k : nat) :
  (length l <= k)%nat -> get l k = s0.
Proof. intros; unfold get; apply nth_overflow; assumption. Qed.

(** A loop [for (p = a; p < a + len; ++p) x[p] = g(p, x[p])]. *)
Lemma fold_set_seq (g : nat -> T -> T) (a len : nat) (x0 : list T) :
  let x := fold_left (fun x p => set_nth p (g p (get x p)) x) (seq a len) x0 in
  length x = length x0
  /\ forall k, get x k
               = if ((a <=? k) && (k <? a + len) && (k <? length x0))%nat
                 then g k (get x0 k) else get x0 k.
Proof.
  induction len as [|len IH]; cbv zeta.
  - simpl. split; [reflexivity|]. intros k.
    destruct (a <=? k)%nat eqn:E1; simpl; [|reflexivity].
    replace (k <? a + 0)%nat with false; [reflexivity|].
    symmetry. apply Nat.ltb_ge. apply Nat.leb_le in E1. lia.
  - rewrite seq_S, fold_left_app. cbv zeta in IH. cbn [fold_left].
    destruct IH as [IL IG]. split.
    + rewrite set_nth_length. assumption.
    + intros k. rewrite get_set_nth, IL, !IG.
      destruct (Nat.eq_dec k (a + len)) as [->|Hne].
      * rewrite Nat.eqb_refl. simpl.
        replace (a <=? a + len)%nat with true
          by (symmetry; apply Nat.leb_le; lia).
        replace (a + len <? a + len)%nat with false
          by (symmetry; apply Nat.ltb_ge; lia).
        replace (a + len <? a + S len)%nat with true
          by (symmetry; apply Nat.ltb_lt; lia).
        simpl. destruct (a + len <? length x0)%nat eqn:E; [reflexivity|].
        reflexivity.
      * replace (k =? a + len)%nat with false
          by (symmetry; apply Nat.eqb_neq; assumption).
        simpl.
        replace (k <? a + S len)%nat with (k <? a + len)%nat; [reflexivity|].
        destruct (k <? a + len)%nat eqn:E.
        -- symmetry. apply Nat.ltb_lt. apply Nat.ltb_lt in E. lia.
        -- symmetry. apply Nat.ltb_ge. apply Nat.ltb_ge in E. lia.
Qed.

(** The nested loop over the columns of a compressed matrix. *)
Lemma fold_cols (m : Mat T) (F : nat -> nat -> T -> T) (x0 : list T) :
  csc_wf m ->
  forall k, (k <= ncols m)%nat ->
    let x := fold_left
               (fun x j =>
                  fold_left (fun x p => set_nth p (F j p (get x p)) x)
                            (col_range m j) x)
               (seq 0 k) x0 in
    length x = length x0
    /\ (forall j p, (j < k)%nat -> (col_start m j <= p < col_end m j)%nat ->
                    (p < length x0)%nat -> get x p = F j p (get x0 p))
    /\ (forall p, (col_start m k <= p)%nat -> get x p = get x0 p).
Proof.
  intros (Hc & Hm & Hl & _).
  assert (Hce : forall j, col_end m j = col_start m (S j)).
  { intros j. unfold col_end, col_start. rewrite Hc. reflexivity. }
  assert (Hmono : forall j, (j < ncols m)%nat ->
                            (col_start m j <= col_start m (S j))%nat).
  { intros j Hj. unfold col_start. apply Hm; assumption. }
  induction k as [|k IH]; intros Hk; cbv zeta.
  - simpl. repeat split; auto. intros; lia.
  - rewrite seq_S, fold_left_app. cbn [fold_left Nat.add].
    cbv zeta in IH. destruct IH as (IL & IG & IB); [lia|].
    match type of IL with length ?t = _ => set (x1 := t) in * end.
    unfold col_range at 1. 
    destruct (fold_set_seq (F k) (col_start m k)
                (col_end m k - col_start m k) x1) as [L2 G2].
    split; [|split].
    + rewrite L2. assumption.
    + intros j p Hj Hp Hpl. rewrite G2, IL.
      destruct (Nat.eq_dec j k) as [->|Hne].
      * replace (col_start m k <=? p)%nat with true
          by (symmetry; apply Nat.leb_le; lia).
        replace (p <? col_start m k + (col_end m k - col_start m k))%nat
          with true by (symmetry; apply Nat.ltb_lt; lia).
        replace (p <? length x0)%nat with true
          by (symmetry; apply Nat.ltb_lt; lia).
        simpl. rewrite IB by lia. reflexivity.
      * assert (Hjk : (j < k)%nat) by lia.
        assert (Hle : (col_end m j <= col_start m k)%nat).
        { rewrite Hce. clear - Hjk Hmono Hk.
          induction k as [|k IHk]; [lia|].
          destruct (Nat.eq_dec j k) as [->|Hne]; [lia|].
          etransitivity; [apply IHk; lia|]. apply Hmono. lia. }
        replace (col_start m k <=? p)%nat with false
          by (symmetry; apply Nat.leb_gt; lia).
        simpl. apply IG; assumption.
    + intros p Hp. rewrite G2, IL.
      assert (Hle : (col_start m k <= col_start m (S k))%nat)
        by (apply Hmono; lia).
      replace (p <? col_start m k + (col_end m k - col_start m k))%nat
        with false by (symmetry; apply Nat.ltb_ge; rewrite Hce; lia).
      rewrite andb_false_r. simpl. apply IB. lia.
Qed.


Lemma col_end_next (m : Mat T) (j : nat) :
  csc_wf m -> col_end m j = col_start m (S j).
Proof. intros (Hc & _). unfold col_end, col_start. rewrite Hc. reflexivity. Qed.

Lemma col_start_mono (m : Mat T) :
  csc_wf m ->
  forall j k, (j <= k <= ncols m)%nat -> (col_start m j <= col_start m k)%nat.
Proof.
  intros (_ & Hm & _) j k. induction k as [|k IH]; intros Hjk.
  - replace j with 0%nat by lia. lia.
  - destruct (Nat.eq_dec j (S k)) as [->|Hne]; [lia|].
    etransitivity; [apply IH; lia|]. unfold col_start. apply Hm. lia.
Qed.

Lemma col_in_values (m : Mat T) (j p : nat) :
  csc_wf m -> (j < ncols m)%nat -> (col_start m j <= p < col_end m j)%nat ->
  (p < length (values m))%nat.
Proof.
  intros Hwf Hj Hp. rewrite (col_end_next j Hwf) in Hp.
  pose proof (col_start_mono Hwf (j := S j) (k := ncols m)) as Hle.
  destruct Hwf as (_ & _ & Hl & _). unfold col_start in *. lia.
Qed.

Lemma col_row_in_range (m : Mat T) (j p : nat) :
  csc_wf m -> (j < ncols m)%nat -> (col_start m j <= p < col_end m j)%nat ->
  (nth p (row_indices m) 0 < nrows m)%nat.
Proof.
  intros Hwf Hj Hp. rewrite (col_end_next j Hwf) in Hp.
  destruct Hwf as (_ & _ & _ & Hr). apply (Hr j); assumption.
Qed.

Lemma In_col_range (m : Mat T) (j p : nat) :
  In p (col_range m j) <-> (col_start m j <= p < col_end m j)%nat.
Proof. unfold col_range. rewrite in_seq. lia. Qed.

Lemma same_pattern_refl (m : Mat T) : same_pattern m m.
Proof. repeat split. Qed.

Lemma same_pattern_trans (m1 m2 m3 : Mat T) :
  same_pattern m1 m2 -> same_pattern m2 m3 -> same_pattern m1 m3.
Proof.
  intros (a1 & a2 & a3 & a4 & a5 & a6) (b1 & b2 & b3 & b4 & b5 & b6).
  repeat split; congruence.
Qed.

Lemma same_pattern_cols (m m' : Mat T) (j : nat) :
  same_pattern m m' ->
  col_start m' j = col_start m j /\ col_end m' j = col_end m j
  /\ col_range m' j = col_range m j.
Proof.
  intros (a1 & a2 & a3 & a4 & a5 & a6).
  unfold col_range, col_end, col_start. rewrite a3, a4. auto.
Qed.

Lemma csc_wf_same_pattern (m m' : Mat T) :
  same_pattern m m' -> csc_wf m -> csc_wf m'.
Proof.
  intros (a1 & a2 & a3 & a4 & a5 & a6) (Hc & Hm & Hl & Hr).
  unfold csc_wf. rewrite a1, a2, a3, a4, a5, a6. auto.
Qed.

Lemma upper_triangular_same_pattern (m m' : Mat T) :
  same_pattern m m' -> upper_triangular m -> upper_triangular m'.
Proof.
  intros Hp Hu j q Hj Hq.
  destruct (same_pattern_cols j Hp) as (e1 & e2 & _).
  destruct Hp as (a1 & a2 & a3 & a4 & a5 & a6).
  rewrite a5. rewrite a2 in Hj. rewrite e1, e2 in Hq. apply Hu; assumption.
Qed.

Lemma values_rel_trans (F G : nat -> nat -> T -> T) (m1 m2 m3 : Mat T) :
  values_rel F m1 m2 -> values_rel G m2 m3 ->
  values_rel (fun j i v => G j i (F j i v)) m1 m3.
Proof.
  intros [P1 V1] [P2 V2]. split; [eapply same_pattern_trans; eauto|].
  intros j p Hj Hp.
  destruct (same_pattern_cols j P1) as (e1 & e2 & _).
  destruct P1 as (a1 & a2 & a3 & a4 & a5 & a6).
  rewrite (V2 j p), a5, (V1 j p); try assumption; try reflexivity.
  - rewrite a2. assumption.
  - rewrite e1, e2. assumption.
Qed.

Lemma values_rel_ext (F G : nat -> nat -> T -> T) (m1 m2 : Mat T) :
  csc_wf m1 ->
  (forall j i v, (j < ncols m1)%nat -> (i < nrows m1)%nat ->
                 F j i v = G j i v) ->
  values_rel F m1 m2 -> values_rel G m1 m2.
Proof.
  intros Hwf He [P1 V1]. split; [assumption|]. intros j p Hj Hp.
  rewrite (V1 j p) by assumption. apply He; [assumption|].
  apply (@col_row_in_range m1 j p); assumption.
Qed.

Lemma fold_left_ext_in (A B : Type) (f g : A -> B -> A) (l : list B) :
  (forall x b, In b l -> f x b = g x b) ->
  forall a, fold_left f l a = fold_left g l a.
Proof.
  induction l as [|b l IH]; intros He a; simpl; [reflexivity|].
  rewrite He by (left; reflexivity). apply IH.
  intros; apply He; right; assumption.
Qed.

(** The in-place loops of the equilibration, entry by entry. *)
Lemma fold_cols_values (m : Mat T) (F : nat -> nat -> T -> T) :
  csc_wf m ->
  values_rel F m
    (with_values m
       (fold_left
          (fun x j =>
             fold_left (fun x p =>
                          set_nth p (F j (nth p (row_indices m) 0%nat)
                                       (get x p)) x)
                       (col_range m j) x)
          (seq 0 (ncols m)) (values m))).
Proof.
  intros Hwf.
  destruct (@fold_cols m (fun j p v => F j (nth p (row_indices m) 0%nat) v)
              (values m) Hwf (ncols m) (le_n _)) as (L & G & _).
  split.
  - repeat split; simpl; try reflexivity. exact L.
  - intros j p Hj Hp. simpl. apply G; try assumption.
    apply (@col_in_values m j p); assumption.
Qed.

Lemma normalize_cols_values (delta : list T) (off : nat) (m : Mat T) :
  csc_wf m ->
  values_rel (fun j i v => s_mul (get delta i) (s_mul v (get delta (off + j))))
             m (normalize_cols delta off m).
Proof.
  intros Hwf.
  exact (fold_cols_values
           (fun j i v => s_mul (get delta i) (s_mul v (get delta (off + j))))
           Hwf).
Qed.

Lemma mat_scale_values (gamma : T) (m : Mat T) :
  csc_wf m ->
  values_rel (fun j i v => s_mul v gamma) m (mat_scale gamma m).
Proof.
  intros Hwf. exact (fold_cols_values (fun j i v => s_mul v gamma) Hwf).
Qed.

Lemma normalize_H_col_upper (h : Mat T) (delta : list T) (j : nat)
      (ps : list nat) :
  (forall p, In p ps -> (nth p (row_indices h) 0 <= j)%nat) ->
  forall x,
    normalize_H_col (fun i => (j <? i)%nat) h delta j ps x
    = fold_left (fun x p =>
                   set_nth p (s_mul (s_mul (get delta j) (get x p))
                                    (get delta (nth p (row_indices h) 0%nat)))
                           x) ps x.
Proof.
  induction ps as [|p ps IH]; intros Hu x; simpl; [reflexivity|].
  replace (j <? nth p (row_indices h) 0)%nat with false
    by (symmetry; apply Nat.ltb_ge; apply Hu; left; reflexivity).
  apply IH. intros; apply Hu; right; assumption.
Qed.

Lemma normalize_H_values (delta : list T) (h : Mat T) :
  csc_wf h -> upper_triangular h ->
  values_rel (fun j i v => s_mul (s_mul (get delta j) v) (get delta i))
             h (normalize_H UPPER delta h).
Proof.
  intros Hwf Hu. unfold normalize_H.
  rewrite (fold_left_ext_in
             (fun x j => normalize_H_col (fun i => (j <? i)%nat) h delta j
                                         (col_range h j) x)
             (fun x j =>
                fold_left (fun x p =>
                   set_nth p (s_mul (s_mul (get delta j) (get x p))
                                (get delta (nth p (row_indices h) 0%nat))) x)
                  (col_range h j) x)).
  - exact (fold_cols_values
             (fun j i v => s_mul (s_mul (get delta j) v) (get delta i)) Hwf).
  - intros x j Hj. apply normalize_H_col_upper.
    intros p Hp. apply in_seq in Hj. apply In_col_range in Hp.
    apply Hu; [lia | assumption].
Qed.

End InPlace.

(** ** The equilibration keeps the model equilibrated *)

Section GetR.
Local Open Scope R_scope.

Lemma s0_R : (s0 : R) = 0.
Proof. unfold s0; simpl. lra. Qed.

Lemma s1_R : (s1 : R) = 1.
Proof. unfold s1; simpl. lra. Qed.

Lemma get_vmap2 {T : Type} {ST : Scalar T} (f : T -> T -> T) (a b : list T)
      (k : nat) :
  (k < length a)%nat -> (k < length b)%nat ->
  get (vmap2 f a b) k = f (get a k) (get b k).
Proof.
  unfold get, vmap2. revert b k.
  induction a as [|u a IH]; intros [|v b] k Ha Hb; simpl in *; try lia.
  destruct k as [|k]; [reflexivity|]. apply IH; lia.
Qed.

Lemma get_vmap2_beyond {T : Type} {ST : Scalar T} (f : T -> T -> T)
      (a b : list T) (k : nat) :
  (length a <= k)%nat \/ (length b <= k)%nat -> get (vmap2 f a b) k = s0.
Proof.
  intros Hk. apply get_beyond. rewrite vmap2_length. lia.
Qed.

Lemma get_vmul_R (a b : list R) (k : nat) :
  get (vmul a b) k = get a k * get b k.
Proof.
  destruct (Nat.lt_ge_cases k (length a)) as [Ha|Ha];
    [destruct (Nat.lt_ge_cases k (length b)) as [Hb|Hb]|].
  - apply get_vmap2; assumption.
  - unfold vmul. rewrite get_vmap2_beyond by (right; assumption).
    rewrite (get_beyond b) by assumption. rewrite s0_R. ring.
  - unfold vmul. rewrite get_vmap2_beyond by (left; assumption).
    rewrite (get_beyond a) by assumption. rewrite s0_R. ring.
Qed.

Lemma get_map_R (f : R -> R) (l : list R) (k : nat) :
  f 0 = 0 -> get (map f l) k = f (get l k).
Proof.
  intros Hf. unfold get. rewrite <- (map_nth f). rewrite s0_R, Hf.
  reflexivity.
Qed.

Lemma get_head {T : Type} {ST : Scalar T} (n k : nat) (l : list T) :
  (k < n)%nat -> get (head n l) k = get l k.
Proof.
  intros Hk. unfold get, head. rewrite nth_firstn.
  replace (k <? n)%nat with true by (symmetry; apply Nat.ltb_lt; assumption).
  reflexivity.
Qed.

Lemma get_segment {T : Type} {ST : Scalar T} (i n k : nat) (l : list T) :
  (k < n)%nat -> get (segment i n l) k = get l (i + k).
Proof.
  intros Hk. unfold get, segment. rewrite nth_firstn, nth_skipn.
  replace (k <? n)%nat with true by (symmetry; apply Nat.ltb_lt; assumption).
  reflexivity.
Qed.

Lemma get_tail {T : Type} {ST : Scalar T} (n k : nat) (l : list T) :
  get (tail n l) k = get l (length l - n + k).
Proof. unfold get, tail. apply nth_skipn. Qed.

Lemma get_vones {T : Type} {ST : Scalar T} (n k : nat) :
  (k < n)%nat -> get (vones n) k = s1.
Proof.
  intros Hk. unfold get, vones. apply nth_repeat_lt. assumption.
Qed.

Lemma get_vzero {T : Type} {ST : Scalar T} (n k : nat) :
  get (vzero n) k = s0.
Proof. unfold get, vzero. apply nth_repeat. Qed.

Lemma vec_ext {T : Type} {ST : Scalar T} (a b : list T) :
  length a = length b ->
  (forall k, (k < length a)%nat -> get a k = get b k) -> a = b.
Proof. intros HL Hg. apply (nth_ext a b s0 s0); assumption. Qed.

Lemma Forall_get_pos (S : list R) (k : nat) :
  Forall (fun v => 0 < v) S -> (k < length S)%nat -> 0 < get S k.
Proof.
  intros HS Hk. rewrite Forall_forall in HS. apply HS. unfold get.
  apply nth_In. assumption.
Qed.

End GetR.

Ltac scalar_R :=
  change (@s_mul R Scalar_R) with Rmult;
  change (@s_add R Scalar_R) with Rplus;
  change (@s_sub R Scalar_R) with Rminus;
  change (@s_div R Scalar_R) with Rdiv;
  change (@s_opp R Scalar_R) with Ropp;
  cbv beta.

Section RuizEquilibrated.
Local Open Scope R_scope.
Variable q0 : QpView R.
Hypothesis wf : qp_wf q0.

Let n := nrows (qp_H q0).
Let n_eq := ncols (qp_AT q0).
Let n_in := ncols (qp_CT q0).

(** One round of the loop: the factors of the round enter [S] and [c]. *)
Lemma ruiz_round_equilibrated (st : RuizState R) :
  equilibrated (rz_S st) (rz_c st) q0 (rz_qp st) ->
  equilibrated (rz_S (ruiz_round UPPER n n_eq n_in st))
               (rz_c (ruiz_round UPPER n n_eq n_in st)) q0
               (rz_qp (ruiz_round UPPER n n_eq n_in st)).
Proof.
  destruct wf as (wH & wA & wC & uH & sq & rA & rC & lg).
  intros (eH & eA & eC & Lg & eg).
  unfold ruiz_round. cbv zeta.
  cbn [rz_S rz_c rz_qp qp_H qp_AT qp_CT qp_g].
  set (delta := ruiz_delta UPPER n n_eq n_in (rz_qp st)).
  set (gamma := s_div s1 _).
  clearbody gamma.
  assert (Ld : length delta = (n + n_eq + n_in)%nat)
    by apply ruiz_delta_length.
  clearbody delta.
  pose proof (csc_wf_same_pattern (proj1 eH) wH) as wHs.
  pose proof (upper_triangular_same_pattern (proj1 eH) uH) as uHs.
  pose proof (csc_wf_same_pattern (proj1 eA) wA) as wAs.
  pose proof (csc_wf_same_pattern (proj1 eC) wC) as wCs.
  unfold equilibrated. cbv zeta. fold n n_eq.
  split; [|split; [|split; [|split]]].
  - pose proof (normalize_H_values delta wHs uHs) as V1.
    pose proof (mat_scale_values gamma
                  (csc_wf_same_pattern (proj1 V1) wHs)) as V2.
    pose proof (values_rel_trans (values_rel_trans eH V1) V2) as V.
    revert V. apply values_rel_ext; [assumption|].
    intros j i v _ _. rewrite !get_vmul_R. unfold n, n_eq. scalar_R. ring.
  - pose proof (normalize_cols_values delta n wAs) as V1.
    pose proof (values_rel_trans eA V1) as V.
    revert V. apply values_rel_ext; [assumption|].
    intros j i v _ _. rewrite !get_vmul_R. unfold n, n_eq. scalar_R. ring.
  - pose proof (normalize_cols_values delta (n + n_eq) wCs) as V1.
    pose proof (values_rel_trans eC V1) as V.
    revert V. apply values_rel_ext; [assumption|].
    intros j i v _ _. rewrite !get_vmul_R. unfold n, n_eq. scalar_R. ring.
  - cbn [qp_g]. rewrite length_map. unfold vmul, head.
    rewrite vmap2_length, length_firstn, Lg, Ld. fold n in lg. lia.
  - intros k. cbn [qp_g]. rewrite get_map_R by (scalar_R; ring).
    rewrite !get_vmul_R, eg.
    destruct (Nat.lt_ge_cases k n) as [Hk|Hk].
    + rewrite get_head by assumption. scalar_R. ring.
    + rewrite (get_beyond (qp_g q0)) by (fold n in lg; lia).
      rewrite s0_R. scalar_R. ring.
Qed.

Lemma equilibrated_initial :
  equilibrated (vones (n + n_eq + n_in)) s1 q0 q0.
Proof.
  destruct wf as (wH & wA & wC & uH & sq & rA & rC & lg).
  assert (Hid : forall m : Mat R, values_rel (fun _ _ v => v) m m)
    by (intros m; split; [apply same_pattern_refl | reflexivity]).
  unfold equilibrated. cbv zeta. fold n n_eq.
  split; [|split; [|split; [|split]]].
  - generalize (Hid (qp_H q0)). apply values_rel_ext; [assumption|].
    intros j i v Hj Hi. rewrite sq in Hj. fold n in Hj, Hi.
    rewrite !get_vones by lia. rewrite s1_R. scalar_R. ring.
  - generalize (Hid (qp_AT q0)). apply values_rel_ext; [assumption|].
    intros j i v Hj Hi. rewrite rA in Hi. fold n in Hi. fold n_eq in Hj.
    rewrite !get_vones by lia. rewrite s1_R. scalar_R. ring.
  - generalize (Hid (qp_CT q0)). apply values_rel_ext; [assumption|].
    intros j i v Hj Hi. rewrite rC in Hi. fold n in Hi. fold n_in in Hj.
    rewrite !get_vones by lia. rewrite s1_R. scalar_R. ring.
  - reflexivity.
  - intros k. destruct (Nat.lt_ge_cases k n) as [Hk|Hk].
    + rewrite get_vones by lia. rewrite s1_R. scalar_R. ring.
    + rewrite (get_beyond (qp_g q0)) by (fold n in lg; lia).
      rewrite s0_R. scalar_R. ring.
Qed.

(** The equilibration returns a model equilibrated with the factors it
    returns. *)
Lemma ruiz_scale_qp_equilibrated (fuel : nat) (r r' : RuizEquilibration R)
      (qs : QpView R) (k : nat) :
  re_sym r = UPPER ->
  length (re_delta r) = (n + n_eq + n_in)%nat ->
  ruiz_scale_qp fuel r q0 = Some (r', qs, k) ->
  equilibrated (re_delta r') (re_c r') q0 qs.
Proof.
  unfold ruiz_scale_qp, ruiz_scale_qp_in_place. intros Hsym HL Hr.
  fold n n_eq n_in in Hr. rewrite Hsym, HL in Hr.
  destruct (ruiz_loop _ _ _ _ _ _ _ _ _) as [[st j]|] eqn:E; [|discriminate].
  inversion Hr; subst; clear Hr; simpl.
  apply (ruiz_loop_invariant
           (fun st => equilibrated (rz_S st) (rz_c st) q0 (rz_qp st))) in E.
  - exact E.
  - apply ruiz_round_equilibrated.
  - simpl. apply equilibrated_initial.
Qed.

End RuizEquilibrated.

(** ** Products with an equilibrated matrix *)

Lemma fold_left_rel2 (A B C : Type) (Rel : A -> B -> Prop)
      (f : A -> C -> A) (g : B -> C -> B) (l : list C) :
  (forall a b c, In c l -> Rel a b -> Rel (f a c) (g b c)) ->
  forall a b, Rel a b -> Rel (fold_left f l a) (fold_left g l b).
Proof.
  induction l as [|c l IH]; intros Hs a b Hab; simpl; [assumption|].
  apply IH.
  - intros; apply Hs; [right|]; assumption.
  - apply Hs; [left; reflexivity | assumption].
Qed.

Lemma fold_left_inv (A C : Type) (P : A -> Prop) (f : A -> C -> A)
      (l : list C) :
  (forall a c, In c l -> P a -> P (f a c)) ->
  forall a, P a -> P (fold_left f l a).
Proof.
  induction l as [|c l IH]; intros Hs a Ha; simpl; [assumption|].
  apply IH.
  - intros; apply Hs; [right|]; assumption.
  - apply Hs; [left; reflexivity | assumption].
Qed.

Section Lengths.
Context {T : Type} `{Scalar T}.

Lemma get_map_seq (f : nat -> T) (k j : nat) :
  (j < k)%nat -> get (map f (seq 0 k)) j = f j.
Proof.
  intros Hj. unfold get.
  rewrite (nth_indep _ s0 (f 0%nat)) by (rewrite length_map, length_seq; lia).
  rewrite (map_nth f), seq_nth by assumption. reflexivity.
Qed.

Lemma mat_tmul_length (m : Mat T) (x : list T) :
  length (mat_tmul m x) = ncols m.
Proof. unfold mat_tmul. rewrite length_map, length_seq. reflexivity. Qed.

Lemma mat_mul_length (m : Mat T) (y : list T) :
  length (mat_mul m y) = nrows m.
Proof.
  unfold mat_mul.
  apply (fold_left_inv (fun out : list T => length out = nrows m)).
  - intros out j _ Ho.
    apply (fold_left_inv (fun out : list T => length out = nrows m));
      [|assumption].
    intros out' p _ Ho'. cbv zeta. rewrite set_nth_length. assumption.
  - unfold vzero. apply repeat_length.
Qed.

Lemma symhi_mul_length (h : Mat T) (x : list T) :
  length (symhi_mul h x) = nrows h.
Proof.
  unfold symhi_mul.
  apply (fold_left_inv (fun out : list T => length out = nrows h)).
  - intros out j _ Ho.
    apply (fold_left_inv (fun out : list T => length out = nrows h));
      [|assumption].
    intros out' p _ Ho'. cbv zeta.
    destruct (j <? _)%nat; [assumption|].
    destruct (_ =? j)%nat; rewrite ?set_nth_length; assumption.
  - unfold vzero. apply repeat_length.
Qed.

End Lengths.

Section Products.
Local Open Scope R_scope.

Lemma scaled_by_set_nth (e : nat -> R) (a b : list R) (i : nat) (u w : R) :
  scaled_by e a b -> u = e i * w ->
  scaled_by e (set_nth i (get a i + u) a) (set_nth i (get b i + w) b).
Proof.
  intros [HL Hg] Hu. split.
  - rewrite !set_nth_length. assumption.
  - intros k. rewrite !get_set_nth, HL.
    destruct ((k =? i)%nat && (i <? length b)%nat) eqn:E; [|apply Hg].
    apply andb_true_iff in E. destruct E as [E _].
    apply Nat.eqb_eq in E. subst k. rewrite Hg, Hu. ring.
Qed.

Lemma scaled_by_vzero (e : nat -> R) (k : nat) :
  scaled_by e (vzero k) (vzero k).
Proof.
  split; [reflexivity|]. intros i. rewrite get_vzero, s0_R. ring.
Qed.

Variables (F : nat -> nat -> R -> R) (m0 ms : Mat R).
Hypothesis wf0 : csc_wf m0.
Hypothesis rel : values_rel F m0 ms.

Lemma values_rel_entry (j p : nat) :
  (j < ncols m0)%nat -> In p (col_range m0 j) ->
  nth p (row_indices ms) 0%nat = nth p (row_indices m0) 0%nat
  /\ (nth p (row_indices m0) 0 < nrows m0)%nat
  /\ get (values ms) p
     = F j (nth p (row_indices m0) 0%nat) (get (values m0) p).
Proof.
  intros Hj Hp. apply In_col_range in Hp. destruct rel as [P V].
  destruct P as (a1 & a2 & a3 & a4 & a5 & a6). rewrite a5.
  split; [reflexivity|]. split.
  - apply (col_row_in_range wf0 Hj Hp).
  - apply V; assumption.
Qed.

(** [m^T x]: entry [j] is scaled by [d j]. *)
Lemma mat_tmul_rel (x x' : list R) (d : nat -> R) :
  (forall j i v, (j < ncols m0)%nat -> (i < nrows m0)%nat ->
                 F j i v * get x i = d j * (v * get x' i)) ->
  forall j, (j < ncols m0)%nat ->
            get (mat_tmul ms x) j = d j * get (mat_tmul m0 x') j.
Proof.
  intros HF j Hj. unfold mat_tmul.
  destruct (same_pattern_cols j (proj1 rel)) as (_ & _ & ec).
  destruct (proj1 rel) as (_ & a2 & _).
  rewrite a2, !get_map_seq by assumption. rewrite ec.
  apply (fold_left_rel2 (fun a b : R => a = d j * b)).
  - intros a b p Hp ->.
    destruct (@values_rel_entry j p Hj Hp) as (er & Hi & ev).
    rewrite er, ev. scalar_R. rewrite Rmult_plus_distr_l.
    rewrite <- HF by assumption. reflexivity.
  - rewrite s0_R. ring.
Qed.

(** [m y]: entry [i] is scaled by [e i]. *)
Lemma mat_mul_rel (y y' : list R) (e : nat -> R) :
  (forall j i v, (j < ncols m0)%nat -> (i < nrows m0)%nat ->
                 F j i v * get y j = e i * (v * get y' j)) ->
  scaled_by e (mat_mul ms y) (mat_mul m0 y').
Proof.
  intros HF. unfold mat_mul.
  destruct (proj1 rel) as (a1 & a2 & _). rewrite a1, a2.
  apply (fold_left_rel2 (scaled_by e)); [|apply scaled_by_vzero].
  intros a b j Hj Hab. apply in_seq in Hj.
  destruct (same_pattern_cols j (proj1 rel)) as (_ & _ & ec). rewrite ec.
  apply (fold_left_rel2 (scaled_by e)); [|assumption].
  intros a' b' p Hp Hab'. cbv zeta.
  destruct (@values_rel_entry j p) as (er & Hi & ev); [lia | assumption |].
  rewrite er, ev. scalar_R. apply scaled_by_set_nth; [assumption|].
  apply HF; [lia | assumption].
Qed.

(** [h x] with [h] stored by its upper triangle. *)
Lemma symhi_mul_rel (x x' : list R) (e : nat -> R) :
  ncols m0 = nrows m0 ->
  (forall j i v, (j < ncols m0)%nat -> (i < nrows m0)%nat ->
                 F j i v * get x j = e i * (v * get x' j)
                 /\ F j i v * get x i = e j * (v * get x' i)) ->
  scaled_by e (symhi_mul ms x) (symhi_mul m0 x').
Proof.
  intros Hsq HF. unfold symhi_mul.
  destruct (proj1 rel) as (a1 & a2 & _). rewrite a1, a2.
  apply (fold_left_rel2 (scaled_by e)); [|apply scaled_by_vzero].
  intros a b j Hj Hab. apply in_seq in Hj.
  destruct (same_pattern_cols j (proj1 rel)) as (_ & _ & ec). rewrite ec.
  apply (fold_left_rel2 (scaled_by e)); [|assumption].
  intros a' b' p Hp Hab'. cbv zeta.
  destruct (@values_rel_entry j p) as (er & Hi & ev); [lia | assumption |].
  rewrite er, ev. scalar_R.
  destruct (j <? _)%nat; [assumption|].
  destruct (HF j (nth p (row_indices m0) 0%nat) (get (values m0) p))
    as [H1 H2]; [lia | assumption |].
  assert (S1 : scaled_by e
            (set_nth (nth p (row_indices m0) 0%nat)
               (get a' (nth p (row_indices m0) 0%nat)
                + F j (nth p (row_indices m0) 0%nat) (get (values m0) p)
                  * get x j) a')
            (set_nth (nth p (row_indices m0) 0%nat)
               (get b' (nth p (row_indices m0) 0%nat)
                + get (values m0) p * get x' j) b'))
    by (apply scaled_by_set_nth; assumption).
  destruct (_ =? j)%nat; [assumption|].
  apply scaled_by_set_nth; assumption.
Qed.

End Products.

Section Unscaling.
Local Open Scope R_scope.

Lemma vdiv_scaled (a b dv : list R) (d : nat -> R) :
  length a = length b -> (length b <= length dv)%nat ->
  (forall k, (k < length b)%nat ->
             get dv k = d k /\ d k <> 0 /\ get a k = d k * get b k) ->
  vdiv a dv = b.
Proof.
  intros HL Hdv Hk. apply vec_ext.
  - unfold vdiv. rewrite vmap2_length. lia.
  - intros k Hlt. unfold vdiv in *. rewrite vmap2_length in Hlt.
    rewrite get_vmap2 by lia.
    destruct (Hk k) as (e1 & e2 & e3); [lia|].
    rewrite e1, e3. scalar_R. field. assumption.
Qed.

Lemma get_vadd_R (a b : list R) (k : nat) :
  length a = length b -> get (vadd a b) k = get a k + get b k.
Proof.
  intros HL. unfold vadd.
  destruct (Nat.lt_ge_cases k (length a)) as [Ha|Ha].
  - apply get_vmap2; lia.
  - rewrite get_vmap2_beyond by (left; assumption).
    rewrite (get_beyond a), (get_beyond b) by lia. rewrite s0_R. ring.
Qed.

Lemma scaled_by_vadd (e : nat -> R) (a b a' b' : list R) :
  length a = length a' ->
  scaled_by e a b -> scaled_by e a' b' ->
  scaled_by e (vadd a a') (vadd b b').
Proof.
  intros HL [L1 G1] [L2 G2]. split.
  - unfold vadd. rewrite !vmap2_length. lia.
  - intros i. rewrite !get_vadd_R by lia. rewrite G1, G2. ring.
Qed.

End Unscaling.

(** ** The Ruiz equilibration is consistent with the model it scales *)

Section RuizConsistent.
Local Open Scope R_scope.
Variables (fuel : nat) (r r' : RuizEquilibration R) (qp qs : QpView R).
Variables (rounds : nat) (perm_inv : list nat).
Hypothesis wf : qp_wf qp.
Hypothesis sym_upper : re_sym r = UPPER.
Hypothesis size_n : re_n r = nrows (qp_H qp).
Hypothesis size_delta :
  length (re_delta r)
  = (nrows (qp_H qp) + ncols (qp_AT qp) + ncols (qp_CT qp))%nat.
Hypothesis run : ruiz_scale_qp fuel r qp = Some (r', qs, rounds).

Let n := nrows (qp_H qp).
Let n_eq := ncols (qp_AT qp).
Let n_in := ncols (qp_CT qp).
Let S := re_delta r'.
Let c := re_c r'.

Lemma ruiz_run_facts :
  equilibrated S c qp qs
  /\ (forall k, (k < n + n_eq + n_in)%nat -> 0 < get S k)
  /\ 0 < c /\ length S = (n + n_eq + n_in)%nat /\ re_n r' = n.
Proof.
  destruct (ruiz_scale_qp_positive _ _ _ run size_delta)
    as (HS & Hc & HL & Hn).
  split; [|split; [|split; [|split]]].
  - exact (@ruiz_scale_qp_equilibrated qp wf fuel r r' qs rounds sym_upper
                                       size_delta run).
  - intros k Hk. apply Forall_get_pos; [assumption|].
    unfold S. rewrite HL, size_delta. exact Hk.
  - assumption.
  - unfold S. rewrite HL. assumption.
  - rewrite Hn. assumption.
Qed.

(** Unscaling a dual residual that is scaled by [c * S]. *)
Lemma unscale_dual_residual_scaled (a b : list R) :
  scaled_by (fun i => c * get S i) a b -> length b = n ->
  unscale_dual_residual_in_place r' a = b.
Proof.
  destruct ruiz_run_facts as (_ & HS & Hc & HL & Hn).
  intros [L G] Lb. unfold unscale_dual_residual_in_place.
  rewrite Hn. fold S c.
  apply (@vdiv_scaled a b _ (fun i => get S i * c)); [assumption| |].
  - rewrite length_map. unfold head. rewrite length_firstn. lia.
  - intros k Hk. rewrite Lb in Hk. split; [|split].
    + rewrite get_map_R by (scalar_R; ring).
      rewrite get_head by assumption. reflexivity.
    + assert (0 < get S k) by (apply HS; lia).
      apply Rgt_not_eq. apply Rmult_lt_0_compat; assumption.
    + rewrite G. ring.
Qed.

(** The unscaled iterates, entry by entry. *)
Lemma get_unscale_primal (x : list R) (i : nat) :
  (i < n)%nat ->
  get (unscale_primal_in_place r' x) i = get x i * get S i.
Proof.
  destruct ruiz_run_facts as (_ & _ & _ & _ & Hn). intros Hi.
  unfold unscale_primal_in_place. rewrite Hn, get_vmul_R.
  rewrite get_head by assumption. reflexivity.
Qed.

Lemma get_unscale_dual_eq (y : list R) (j : nat) :
  length y = n_eq -> (j < n_eq)%nat ->
  get (unscale_dual_in_place_eq r' y) j = get y j * get S (n + j) / c.
Proof.
  destruct ruiz_run_facts as (_ & _ & _ & _ & Hn). intros Ly Hj.
  unfold unscale_dual_in_place_eq. rewrite Hn, Ly.
  rewrite get_map_R by (scalar_R; unfold Rdiv; ring).
  rewrite get_vmul_R, get_segment by assumption. reflexivity.
Qed.

Lemma get_unscale_dual_in (z : list R) (j : nat) :
  length z = n_in -> (j < n_in)%nat ->
  get (unscale_dual_in_place_in r' z) j
  = get z j * get S (n + n_eq + j) / c.
Proof.
  destruct ruiz_run_facts as (_ & _ & _ & HL & Hn). intros Lz Hj.
  unfold unscale_dual_in_place_in. rewrite Lz.
  rewrite get_map_R by (scalar_R; unfold Rdiv; ring).
  rewrite get_vmul_R, get_tail. fold S. rewrite HL.
  replace (n + n_eq + n_in - n_in + j)%nat with (n + n_eq + j)%nat by lia.
  reflexivity.
Qed.

(** The equilibration that [qp_solve] runs on a well-formed model is
    consistent with the scaled model it returns. *)
Lemma Ruiz_preconditioner_consistent :
  preconditioner_consistent (Ruiz_preconditioner fuel) r'
    {| pb_n := nrows (qp_H qp); pb_n_eq := ncols (qp_AT qp);
       pb_n_in := ncols (qp_CT qp); pb_qp := qp; pb_qp_scaled := qs;
       pb_perm_inv := perm_inv |}.
Proof.
  destruct ruiz_run_facts as (E & HS & Hc & HL & Hn).
  destruct wf as (wH & wA & wC & uH & sq & rA & rC & lg).
  destruct E as (eH & eA & eC & Lg & eg). fold n n_eq in eA, eC.
  unfold preconditioner_consistent. cbv zeta.
  cbn [pb_qp pb_qp_scaled Ruiz_preconditioner
       pc_unscale_primal_residual_in_place_eq
       pc_unscale_primal_residual_in_place_in
       pc_unscale_dual_residual_in_place].
  intros it (Lx & Ly & Lz). cbn [pb_n pb_n_eq pb_n_in] in Lx, Ly, Lz.
  fold n in Lx. fold n_eq in Ly. fold n_in in Lz.
  unfold unscale_iterates.
  cbn [it_x it_y it_z Ruiz_preconditioner pc_unscale_primal_in_place
       pc_unscale_dual_in_place_eq pc_unscale_dual_in_place_in].
  assert (c0 : c <> 0) by (apply Rgt_not_eq; assumption).
  (* the three products of the dual residual *)
  assert (PH : scaled_by (fun i => c * get S i)
                 (symhi_mul (qp_H qs) (it_x it))
                 (symhi_mul (qp_H qp) (unscale_primal_in_place r' (it_x it)))).
  { apply (symhi_mul_rel wH eH); [assumption|].
    intros j i v Hj Hi. rewrite sq in Hj. fold n in Hj, Hi.
    rewrite !get_unscale_primal by assumption. split; ring. }
  assert (PA : scaled_by (fun i => c * get S i)
                 (mat_mul (qp_AT qs) (it_y it))
                 (mat_mul (qp_AT qp) (unscale_dual_in_place_eq r' (it_y it)))).
  { apply (mat_mul_rel wA eA).
    intros j i v Hj Hi. fold n_eq in Hj.
    rewrite get_unscale_dual_eq by assumption. field. assumption. }
  assert (PC : scaled_by (fun i => c * get S i)
                 (mat_mul (qp_CT qs) (it_z it))
                 (mat_mul (qp_CT qp) (unscale_dual_in_place_in r' (it_z it)))).
  { apply (mat_mul_rel wC eC).
    intros j i v Hj Hi. fold n_in in Hj.
    rewrite get_unscale_dual_in by assumption. field. assumption. }
  assert (Pg : scaled_by (fun i => c * get S i) (qp_g qs) (qp_g qp)).
  { split; [assumption|]. intros i. rewrite eg. reflexivity. }
  assert (LH : length (symhi_mul (qp_H qp)
                         (unscale_primal_in_place r' (it_x it))) = n)
    by apply symhi_mul_length.
  assert (LA : length (mat_mul (qp_AT qp)
                         (unscale_dual_in_place_eq r' (it_y it))) = n)
    by (rewrite mat_mul_length; assumption).
  assert (LC : length (mat_mul (qp_CT qp)
                         (unscale_dual_in_place_in r' (it_z it))) = n)
    by (rewrite mat_mul_length; assumption).
  split; [|split; [|split; [|split; [|split]]]].
  - unfold unscale_primal_residual_in_place_eq.
    rewrite mat_tmul_length, Hn. fold S.
    destruct (proj1 eA) as (_ & a2 & _). rewrite a2. fold n_eq.
    apply (@vdiv_scaled _ _ _ (fun j => get S (n + j))).
    + rewrite !mat_tmul_length. assumption.
    + rewrite mat_tmul_length. unfold segment.
      rewrite length_firstn, length_skipn, HL. fold n_eq. lia.
    + intros j Hj. rewrite mat_tmul_length in Hj. fold n_eq in Hj.
      cbv beta. split; [|split].
      * rewrite get_segment by assumption. reflexivity.
      * apply Rgt_not_eq. apply HS. lia.
      * apply (@mat_tmul_rel _ _ _ wA eA _ _ (fun j => get S (n + j)));
          [|assumption].
        intros j' i v Hj' Hi. rewrite rA in Hi. fold n in Hi.
        rewrite get_unscale_primal by assumption. ring.
  - unfold unscale_primal_residual_in_place_in.
    rewrite mat_tmul_length. fold S.
    destruct (proj1 eC) as (_ & a2 & _). rewrite a2. fold n_in.
    apply (@vdiv_scaled _ _ _ (fun j => get S (n + n_eq + j))).
    + rewrite !mat_tmul_length. assumption.
    + rewrite mat_tmul_length. unfold tail.
      rewrite length_skipn, HL. fold n_in. lia.
    + intros j Hj. rewrite mat_tmul_length in Hj. fold n_in in Hj.
      cbv beta. split; [|split].
      * rewrite get_tail, HL. f_equal. lia.
      * apply Rgt_not_eq. apply HS. lia.
      * apply (@mat_tmul_rel _ _ _ wC eC _ _
                 (fun j => get S (n + n_eq + j))); [|assumption].
        intros j' i v Hj' Hi. rewrite rC in Hi. fold n in Hi.
        rewrite get_unscale_primal by assumption. ring.
  - apply unscale_dual_residual_scaled; assumption.
  - apply unscale_dual_residual_scaled; assumption.
  - apply unscale_dual_residual_scaled; assumption.
  - unfold dual_residual. cbn [it_x it_y it_z].
    destruct PH as [LH' GH]. destruct PA as [LA' GA]. destruct PC as [LC' GC].
    apply unscale_dual_residual_scaled.
    + repeat apply scaled_by_vadd; try (split; assumption);
        unfold vadd; rewrite ?vmap2_length; lia.
    + unfold vadd; rewrite !vmap2_length. fold n in lg. lia.
Qed.

End RuizConsistent.

(** ** The example equilibration *)

Lemma mat_1x1_wf {T : Type} {ST : Scalar T} (v : T) : csc_wf (mat_1x1 v).
Proof.
  unfold csc_wf; simpl. split; [reflexivity|]. split; [|split].
  - intros j Hj. replace j with 0%nat by lia. simpl. lia.
  - lia.
  - intros j p Hj Hp. replace j with 0%nat in Hp by lia. simpl in Hp.
    replace p with 0%nat by lia. simpl. lia.
Qed.

Lemma qp_1_1_1_wf {T : Type} {ST : Scalar T} (h g a b c l u : T) :
  qp_wf (qp_1_1_1 h g a b c l u).
Proof.
  unfold qp_wf. cbn [qp_1_1_1 qp_H qp_AT qp_CT qp_g].
  split; [apply mat_1x1_wf|]. split; [apply mat_1x1_wf|].
  split; [apply mat_1x1_wf|]. split; [|repeat split].
  intros j p Hj Hp. unfold col_start, col_end in Hp. simpl in *.
  replace j with 0%nat in * by lia. simpl in Hp.
  replace p with 0%nat by lia. simpl. lia.
Qed.

(** The example equilibration is consistent with the model it returns. *)
Lemma ruiz_example_consistent :
  preconditioner_consistent (Ruiz_preconditioner 2) ruiz_example_scaled
    {| pb_n := 1; pb_n_eq := 1; pb_n_in := 1; pb_qp := ruiz_example_qp;
       pb_qp_scaled := rz_qp ruiz_example_state; pb_perm_inv := [] |}.
Proof.
  apply (@Ruiz_preconditioner_consistent 2 ruiz_example_precond
           ruiz_example_scaled ruiz_example_qp (rz_qp ruiz_example_state)
           1 []).
  - apply qp_1_1_1_wf.
  - reflexivity.
  - reflexivity.
  - reflexivity.
  - exact ruiz_example_run.
Qed.
(* ================================================================== *)
(** * Further properties of the Ruiz equilibration *)
(* ================================================================== *)

Section RuizCost.
Local Open Scope R_scope.

Lemma ruiz_gamma_le_1 (avg : R) : s_div s1 (s_max avg s1) <= 1.
Proof.
  rewrite s1_R, s_max_R. change (@s_div R Scalar_R) with Rdiv.
  pose proof (Rmax_r avg 1) as Hm.
  unfold Rdiv. rewrite Rmult_1_l.
  apply Rle_trans with (/ 1); [apply Rinv_le_contravar; lra|].
  rewrite Rinv_1. lra.
Qed.

Lemma ruiz_round_cost (sym : Symmetry) (n n_eq n_in : nat)
      (st : RuizState R) :
  0 < rz_c st <= 1 -> 0 < rz_c (ruiz_round sym n n_eq n_in st) <= 1.
Proof.
  intros [H0 H1]. unfold ruiz_round. cbv zeta. cbn [rz_c].
  match goal with |- 0 < s_mul _ (s_div s1 (s_max ?a s1)) <= 1 =>
    set (g := s_div s1 (s_max a s1));
    pose proof (ruiz_gamma_pos a : 0 < g) as Hp;
    pose proof (ruiz_gamma_le_1 a : g <= 1) as Hl
  end.
  clearbody g. change (@s_mul R Scalar_R) with Rmult. split.
  - apply Rmult_lt_0_compat; assumption.
  - nra.
Qed.

End RuizCost.

(** X1.  In exact arithmetic, the state returned by the equilibration holds
    factors [delta] that are all positive and a cost factor [c] with
    [0 < c <= 1], and [delta] keeps its length: no entry of the scaling is
    zero, negative or missing, whatever the entries of the QP are. *)
Theorem ruiz_factors_positive_and_cost_at_most_one
        (fuel : nat) (r r' : RuizEquilibration R) (qp qp' : QpView R)
        (k : nat) :
  ruiz_scale_qp fuel r qp = Some (r', qp', k) ->
  length (re_delta r)
  = (nrows (qp_H qp) + ncols (qp_AT qp) + ncols (qp_CT qp))%nat ->
  Forall (fun v => (0 < v)%R) (re_delta r')
  /\ (0 < re_c r' <= 1)%R
  /\ length (re_delta r') = length (re_delta r).
Proof.
  intros Hr HL.
  destruct (ruiz_scale_qp_positive _ _ _ Hr HL) as (Hd & _ & HL' & _).
  split; [assumption|]. split; [|assumption].
  unfold ruiz_scale_qp, ruiz_scale_qp_in_place in Hr.
  destruct (ruiz_loop _ _ _ _ _ _ _ _ _) as [[st j]|] eqn:E; [|discriminate].
  inversion Hr; subst; clear Hr; simpl.
  apply (ruiz_loop_invariant (fun st => (0 < rz_c st <= 1)%R)) in E.
  - exact E.
  - intros; apply ruiz_round_cost; assumption.
  - cbn [rz_c]. rewrite s1_R. lra.
Qed.

(** Witness of X1: the example equilibration. *)
Lemma ruiz_factors_positive_and_cost_at_most_one_witness :
  Forall (fun v => (0 < v)%R) (re_delta ruiz_example_scaled)
  /\ (0 < re_c ruiz_example_scaled <= 1)%R
  /\ length (re_delta ruiz_example_scaled)
     = length (re_delta ruiz_example_precond).
Proof.
  apply (@ruiz_factors_positive_and_cost_at_most_one 2 ruiz_example_precond
           ruiz_example_scaled ruiz_example_qp (rz_qp ruiz_example_state) 1).
  - exact ruiz_example_run.
  - reflexivity.
Defined.

Section RuizBounds.
Local Open Scope R_scope.
Variable q0 : QpView R.
Hypothesis len_b : length (qp_b q0) = ncols (qp_AT q0).
Hypothesis len_l : length (qp_l q0) = ncols (qp_CT q0).
Hypothesis len_u : length (qp_u q0) = ncols (qp_CT q0).

Lemma ruiz_round_bounds (sym : Symmetry) (st : RuizState R) :
  bounds_equilibrated (rz_S st) q0 (rz_qp st) ->
  bounds_equilibrated
    (rz_S (ruiz_round sym (nrows (qp_H q0)) (ncols (qp_AT q0))
                      (ncols (qp_CT q0)) st))
    q0
    (rz_qp (ruiz_round sym (nrows (qp_H q0)) (ncols (qp_AT q0))
                       (ncols (qp_CT q0)) st)).
Proof.
  intros (Lb & Ll & Lu & eb & elu).
  unfold ruiz_round. cbv zeta. cbn [rz_S rz_qp qp_b qp_l qp_u].
  set (n := nrows (qp_H q0)) in *. set (n_eq := ncols (qp_AT q0)) in *.
  set (n_in := ncols (qp_CT q0)) in *.
  set (delta := ruiz_delta sym n n_eq n_in (rz_qp st)).
  assert (Ld : length delta = (n + n_eq + n_in)%nat)
    by apply ruiz_delta_length.
  clearbody delta.
  unfold bounds_equilibrated. cbv zeta. cbn [qp_b qp_l qp_u].
  fold n n_eq n_in.
  split; [|split; [|split; [|split]]].
  - unfold vmul, segment. rewrite vmap2_length, length_firstn, length_skipn.
    lia.
  - unfold vmul, tail. rewrite vmap2_length, length_skipn. lia.
  - unfold vmul, tail. rewrite vmap2_length, length_skipn. lia.
  - intros j Hj. rewrite !get_vmul_R, get_segment, eb by assumption.
    change (@s_mul R Scalar_R) with Rmult. ring.
  - intros j Hj. rewrite !get_vmul_R, get_tail, Ld.
    replace (n + n_eq + n_in - n_in + j)%nat with (n + n_eq + j)%nat by lia.
    destruct (elu j Hj) as [-> ->].
    change (@s_mul R Scalar_R) with Rmult. split; ring.
Qed.

Lemma bounds_equilibrated_initial :
  bounds_equilibrated
    (vones (nrows (qp_H q0) + ncols (qp_AT q0) + ncols (qp_CT q0))) q0 q0.
Proof.
  unfold bounds_equilibrated. cbv zeta.
  split; [assumption|]. split; [assumption|]. split; [assumption|].
  split.
  - intros j Hj. rewrite get_vones by lia. rewrite s1_R. ring.
  - intros j Hj. rewrite get_vones by lia. rewrite s1_R. split; ring.
Qed.

End RuizBounds.

Lemma ruiz_scale_qp_bounds (fuel : nat) (r r' : RuizEquilibration R)
      (qp qs : QpView R) (k : nat) :
  length (qp_b qp) = ncols (qp_AT qp) ->
  length (qp_l qp) = ncols (qp_CT qp) ->
  length (qp_u qp) = ncols (qp_CT qp) ->
  length (re_delta r)
  = (nrows (qp_H qp) + ncols (qp_AT qp) + ncols (qp_CT qp))%nat ->
  ruiz_scale_qp fuel r qp = Some (r', qs, k) ->
  bounds_equilibrated (re_delta r') qp qs.
Proof.
  intros Lb Ll Lu HL Hr.
  unfold ruiz_scale_qp, ruiz_scale_qp_in_place in Hr. rewrite HL in Hr.
  destruct (ruiz_loop _ _ _ _ _ _ _ _ _) as [[st j]|] eqn:E;
    [|discriminate].
  inversion Hr; subst; clear Hr; simpl.
  apply (ruiz_loop_invariant
           (fun st => bounds_equilibrated (rz_S st) qp (rz_qp st))) in E.
  - exact E.
  - intros; apply ruiz_round_bounds; assumption.
  - simpl. apply bounds_equilibrated_initial; assumption.
Qed.

(** X2.  In exact arithmetic, on a well-formed QP with [H] stored by its
    upper triangle, the equilibration returns the QP scaled by the factors it
    returns: with [D], [E], [F] the three parts of [delta], the entries are
    those of [c D H D], [E A D] and [F C D] on the unchanged sparsity
    pattern, and the vectors are [c D g], [E b], [F l] and [F u]. *)
Theorem ruiz_returns_the_scaled_model
        (fuel : nat) (r r' : RuizEquilibration R) (qp qs : QpView R)
        (k : nat) :
  qp_wf qp ->
  length (qp_b qp) = ncols (qp_AT qp) ->
  length (qp_l qp) = ncols (qp_CT qp) ->
  length (qp_u qp) = ncols (qp_CT qp) ->
  re_sym r = UPPER ->
  length (re_delta r)
  = (nrows (qp_H qp) + ncols (qp_AT qp) + ncols (qp_CT qp))%nat ->
  ruiz_scale_qp fuel r qp = Some (r', qs, k) ->
  equilibrated (re_delta r') (re_c r') qp qs
  /\ bounds_equilibrated (re_delta r') qp qs.
Proof.
  intros wf Lb Ll Lu Hsym HL Hr. split.
  - exact (@ruiz_scale_qp_equilibrated qp wf fuel r r' qs k Hsym HL Hr).
  - exact (@ruiz_scale_qp_bounds fuel r r' qp qs k Lb Ll Lu HL Hr).
Qed.

(** Witness of X2: the example equilibration. *)
Lemma ruiz_returns_the_scaled_model_witness :
  equilibrated (re_delta ruiz_example_scaled) (re_c ruiz_example_scaled)
               ruiz_example_qp (rz_qp ruiz_example_state)
  /\ bounds_equilibrated (re_delta ruiz_example_scaled) ruiz_example_qp
                         (rz_qp ruiz_example_state).
Proof.
  apply (@ruiz_returns_the_scaled_model 2 ruiz_example_precond
           ruiz_example_scaled ruiz_example_qp (rz_qp ruiz_example_state) 1).
  - apply qp_1_1_1_wf.
  - reflexivity.
  - reflexivity.
  - reflexivity.
  - reflexivity.
  - reflexivity.
  - exact ruiz_example_run.
Defined.

(** ** The residuals that the solver computes through the Ruiz scaling *)

Section RuizResiduals.
Local Open Scope R_scope.
Variables (fuel : nat) (r r' : RuizEquilibration R) (qp qs : QpView R).
Variables (rounds : nat) (perm_inv : list nat).
Hypothesis wf : qp_wf qp.
Hypothesis sym_upper : re_sym r = UPPER.
Hypothesis size_n : re_n r = nrows (qp_H qp).
Hypothesis size_delta :
  length (re_delta r)
  = (nrows (qp_H qp) + ncols (qp_AT qp) + ncols (qp_CT qp))%nat.
Hypothesis run : ruiz_scale_qp fuel r qp = Some (r', qs, rounds).

Lemma ruiz_lhs_true_residuals (it : Iterates R) :
  let pb := {| pb_n := nrows (qp_H qp); pb_n_eq := ncols (qp_AT qp);
               pb_n_in := ncols (qp_CT qp); pb_qp := qp; pb_qp_scaled := qs;
               pb_perm_inv := perm_inv |} in
  sized pb it ->
  let it' := unscale_iterates (Ruiz_preconditioner fuel) r' it in
  fst (fst (unscaled_primal_residual (Ruiz_preconditioner fuel) r' pb
                                     (it_x it)))
  = s_max (infty_norm (primal_eq_residual qp (it_x it')))
          (infty_norm (primal_in_residual qp (it_x it')))
  /\ fst (fst (unscaled_dual_residual (Ruiz_preconditioner fuel) r' pb it))
     = infty_norm (dual_residual qp it').
Proof.
  intros pb Hs it'.
  destruct (@Ruiz_preconditioner_consistent fuel r r' qp qs rounds perm_inv
              wf sym_upper size_n size_delta run it Hs)
    as (HA & HC & _ & _ & _ & HD).
  fold pb in HA, HC, HD. fold it' in HA, HC, HD.
  unfold unscaled_primal_residual, unscaled_dual_residual. cbv zeta.
  cbn [fst pb_qp pb_qp_scaled pb] in *.
  rewrite HA, HC, HD. split; reflexivity.
Qed.

End RuizResiduals.

(** X3.  In exact arithmetic, with the Ruiz equilibration as preconditioner
    on a well-formed QP, the two numbers that [qp_solve] compares with its
    tolerances are residuals of the QP as the caller gave it: the value of
    [unscaled_primal_residual] is the larger of [|A x - b|] and
    [|[C x - u]^+ + [C x - l]^-|], and the value of [unscaled_dual_residual]
    is [|H x + g + A^T y + C^T z|], in the infinity norm, at the unscaled
    iterates. *)
Theorem ruiz_solver_residuals_are_unscaled_residuals
        (fuel : nat) (r r' : RuizEquilibration R) (qp qs : QpView R)
        (rounds : nat) (perm_inv : list nat) (it : Iterates R) :
  qp_wf qp ->
  re_sym r = UPPER ->
  re_n r = nrows (qp_H qp) ->
  length (re_delta r)
  = (nrows (qp_H qp) + ncols (qp_AT qp) + ncols (qp_CT qp))%nat ->
  ruiz_scale_qp fuel r qp = Some (r', qs, rounds) ->
  let pb := {| pb_n := nrows (qp_H qp); pb_n_eq := ncols (qp_AT qp);
               pb_n_in := ncols (qp_CT qp); pb_qp := qp; pb_qp_scaled := qs;
               pb_perm_inv := perm_inv |} in
  sized pb it ->
  let it' := unscale_iterates (Ruiz_preconditioner fuel) r' it in
  fst (fst (unscaled_primal_residual (Ruiz_preconditioner fuel) r' pb
                                     (it_x it)))
  = s_max (infty_norm (primal_eq_residual qp (it_x it')))
          (infty_norm (primal_in_residual qp (it_x it')))
  /\ fst (fst (unscaled_dual_residual (Ruiz_preconditioner fuel) r' pb it))
     = infty_norm (dual_residual qp it').
Proof.
  intros wf Hsym Hn HL Hr pb Hs it'.
  exact (@ruiz_lhs_true_residuals fuel r r' qp qs rounds perm_inv wf Hsym Hn
           HL Hr it Hs).
Qed.

(** Witness of X3: the example equilibration, at the scaled iterates
    [(5, 7, 9)]. *)
Lemma ruiz_solver_residuals_are_unscaled_residuals_witness :
  let it := {| it_x := [5%R]; it_y := [7%R]; it_z := [9%R] |} in
  let pb := {| pb_n := 1; pb_n_eq := 1; pb_n_in := 1;
               pb_qp := ruiz_example_qp;
               pb_qp_scaled := rz_qp ruiz_example_state;
               pb_perm_inv := [] |} in
  let it' := unscale_iterates (Ruiz_preconditioner 2) ruiz_example_scaled
                              it in
  fst (fst (unscaled_primal_residual (Ruiz_preconditioner 2)
              ruiz_example_scaled pb (it_x it)))
  = s_max (infty_norm (primal_eq_residual ruiz_example_qp (it_x it')))
          (infty_norm (primal_in_residual ruiz_example_qp (it_x it')))
  /\ fst (fst (unscaled_dual_residual (Ruiz_preconditioner 2)
                 ruiz_example_scaled pb it))
     = infty_norm (dual_residual ruiz_example_qp it').
Proof.
  intros it pb it'.
  apply (@ruiz_solver_residuals_are_unscaled_residuals 2
           ruiz_example_precond ruiz_example_scaled ruiz_example_qp
           (rz_qp ruiz_example_state) 1 [] it).
  - apply qp_1_1_1_wf.
  - reflexivity.
  - reflexivity.
  - reflexivity.
  - exact ruiz_example_run.
  - repeat split; reflexivity.
Defined.

(** ** Scaling and unscaling of the residuals *)

Section ResidualRoundTrip.
Local Open Scope R_scope.

Lemma Forall_pos_nonzero (d : list R) :
  Forall (fun v => 0 < v) d -> Forall (fun v => v <> 0) d.
Proof. intros Hd. eapply Forall_impl; [|exact Hd]. simpl. intros; lra. Qed.

Lemma Forall_map_mul_nonzero (c : R) (d : list R) :
  c <> 0 -> Forall (fun v => v <> 0) d ->
  Forall (fun v => v <> 0) (map (fun v => s_mul v c) d).
Proof.
  intros Hc Hd. apply Forall_forall. intros v Hv. apply in_map_iff in Hv.
  destruct Hv as (w & <- & Hw). rewrite Forall_forall in Hd.
  specialize (Hd w Hw). change (@s_mul R Scalar_R) with Rmult.
  apply Rmult_integral_contrapositive. split; assumption.
Qed.

End ResidualRoundTrip.

(** X4.  In exact arithmetic, for a scaling state with positive factors (as
    the equilibration returns), scaling a residual and unscaling it, in
    either order, gives the residual back: for the equality residual, the
    inequality residual, the dual residual and the whole primal residual. *)
Theorem ruiz_residual_scale_unscale_roundtrip
        (r : RuizEquilibration R) (p_eq p_in d p : list R) :
  Forall (fun v => (0 < v)%R) (re_delta r) -> (0 < re_c r)%R ->
  (re_n r + length p_eq <= length (re_delta r))%nat ->
  (length p_in <= length (re_delta r))%nat ->
  (length d <= re_n r <= length (re_delta r))%nat ->
  (length p <= length (re_delta r) - re_n r)%nat ->
  unscale_primal_residual_in_place_eq r
    (scale_primal_residual_in_place_eq r p_eq) = p_eq
  /\ scale_primal_residual_in_place_eq r
       (unscale_primal_residual_in_place_eq r p_eq) = p_eq
  /\ unscale_primal_residual_in_place_in r
       (scale_primal_residual_in_place_in r p_in) = p_in
  /\ scale_primal_residual_in_place_in r
       (unscale_primal_residual_in_place_in r p_in) = p_in
  /\ unscale_dual_residual_in_place r (scale_dual_residual_in_place r d) = d
  /\ scale_dual_residual_in_place r (unscale_dual_residual_in_place r d) = d
  /\ unscale_primal_residual_in_place r
       (scale_primal_residual_in_place r p) = p
  /\ scale_primal_residual_in_place r
       (unscale_primal_residual_in_place r p) = p.
Proof.
  intros Hd Hc Leq Lin Ld Lp.
  pose proof (Forall_pos_nonzero Hd) as Hd0.
  assert (Hc0 : re_c r <> 0%R) by lra.
  assert (Ls : length (segment (re_n r) (length p_eq) (re_delta r))
               = length p_eq).
  { unfold segment. rewrite length_firstn, length_skipn. lia. }
  assert (Lt : length (tail (length p_in) (re_delta r)) = length p_in).
  { unfold tail. rewrite length_skipn. lia. }
  unfold unscale_primal_residual_in_place_eq,
    scale_primal_residual_in_place_eq, unscale_primal_residual_in_place_in,
    scale_primal_residual_in_place_in, unscale_dual_residual_in_place,
    scale_dual_residual_in_place, unscale_primal_residual_in_place,
    scale_primal_residual_in_place.
  assert (L1 : length (vmul p_eq (segment (re_n r) (length p_eq)
                                          (re_delta r))) = length p_eq)
    by (unfold vmul; rewrite vmap2_length, Ls; apply Nat.min_id).
  assert (L2 : length (vdiv p_eq (segment (re_n r) (length p_eq)
                                          (re_delta r))) = length p_eq)
    by (unfold vdiv; rewrite vmap2_length, Ls; apply Nat.min_id).
  assert (L3 : length (vmul p_in (tail (length p_in) (re_delta r)))
               = length p_in)
    by (unfold vmul; rewrite vmap2_length, Lt; apply Nat.min_id).
  assert (L4 : length (vdiv p_in (tail (length p_in) (re_delta r)))
               = length p_in)
    by (unfold vdiv; rewrite vmap2_length, Lt; apply Nat.min_id).
  rewrite L1, L2, L3, L4.
  assert (Fs : Forall (fun v => v <> 0%R)
                 (segment (re_n r) (length p_eq) (re_delta r)))
    by (unfold segment; apply Forall_firstn, Forall_skipn; assumption).
  assert (Ft : Forall (fun v => v <> 0%R) (tail (length p_in) (re_delta r)))
    by (unfold tail; apply Forall_skipn; assumption).
  assert (Fh : Forall (fun v => v <> 0%R)
                 (map (fun v => s_mul v (re_c r))
                      (head (re_n r) (re_delta r))))
    by (apply Forall_map_mul_nonzero;
        [assumption | unfold head; apply Forall_firstn; assumption]).
  assert (Fw : Forall (fun v => v <> 0%R)
                 (tail (length (re_delta r) - re_n r) (re_delta r)))
    by (unfold tail; apply Forall_skipn; assumption).
  assert (Lh : length (map (fun v => s_mul v (re_c r))
                           (head (re_n r) (re_delta r))) = re_n r).
  { rewrite length_map. unfold head. rewrite length_firstn. lia. }
  assert (Lw : length (tail (length (re_delta r) - re_n r) (re_delta r))
               = (length (re_delta r) - re_n r)%nat).
  { unfold tail. rewrite length_skipn. lia. }
  repeat split.
  - apply vdiv_vmul_R; [assumption | lia].
  - apply vmul_vdiv_R; [assumption | lia].
  - apply vdiv_vmul_R; [assumption | lia].
  - apply vmul_vdiv_R; [assumption | lia].
  - apply vdiv_vmul_R; [assumption | lia].
  - apply vmul_vdiv_R; [assumption | lia].
  - apply vdiv_vmul_R; [assumption | lia].
  - apply vmul_vdiv_R; [assumption | lia].
Qed.

(** Witness of X4: the scaling state of the example equilibration. *)
Lemma ruiz_residual_scale_unscale_roundtrip_witness :
  let r := ruiz_example_scaled in
  unscale_primal_residual_in_place_eq r
    (scale_primal_residual_in_place_eq r [5%R]) = [5%R]
  /\ scale_primal_residual_in_place_eq r
       (unscale_primal_residual_in_place_eq r [5%R]) = [5%R]
  /\ unscale_primal_residual_in_place_in r
       (scale_primal_residual_in_place_in r [7%R]) = [7%R]
  /\ scale_primal_residual_in_place_in r
       (unscale_primal_residual_in_place_in r [7%R]) = [7%R]
  /\ unscale_dual_residual_in_place r
       (scale_dual_residual_in_place r [9%R]) = [9%R]
  /\ scale_dual_residual_in_place r
       (unscale_dual_residual_in_place r [9%R]) = [9%R]
  /\ unscale_primal_residual_in_place r
       (scale_primal_residual_in_place r [5%R; 7%R]) = [5%R; 7%R]
  /\ scale_primal_residual_in_place r
       (unscale_primal_residual_in_place r [5%R; 7%R]) = [5%R; 7%R].
Proof.
  intros r.
  destruct (@ruiz_scale_qp_positive 2 ruiz_example_precond
              ruiz_example_scaled ruiz_example_qp (rz_qp ruiz_example_state)
              1 ruiz_example_run eq_refl) as (Hd & Hc & HL & _).
  apply (@ruiz_residual_scale_unscale_roundtrip r [5%R] [7%R] [9%R]
           [5%R; 7%R] Hd Hc).
  - unfold r. rewrite HL. simpl. lia.
  - unfold r. rewrite HL. simpl. lia.
  - unfold r. rewrite HL. simpl. lia.
  - unfold r. rewrite HL. simpl. lia.
Defined.

(** ** The whole dual vector and its two parts *)

Section Stacked.
Context {T : Type} `{Scalar T}.

Lemma vmap2_app (f : T -> T -> T) (a b d : list T) :
  vmap2 f (a ++ b) d
  = vmap2 f a (firstn (length a) d) ++ vmap2 f b (skipn (length a) d).
Proof.
  unfold vmap2. revert d; induction a as [|x a IH]; intros d; simpl.
  - reflexivity.
  - destruct d as [|e d]; simpl.
    + destruct b; reflexivity.
    + f_equal. apply IH.
Qed.

Lemma tail_split (delta : list T) (n ky kz : nat) :
  (n + ky + kz = length delta)%nat ->
  firstn ky (tail (length delta - n) delta) = segment n ky delta
  /\ skipn ky (tail (length delta - n) delta) = tail kz delta.
Proof.
  intros HL. unfold tail, segment.
  replace (length delta - (length delta - n))%nat with n by lia.
  split; [reflexivity|].
  rewrite skipn_skipn. f_equal. lia.
Qed.

End Stacked.

(** X5.  For every scalar type: when the dual vector is the equality part
    [y] followed by the inequality part [z], of the sizes of the scaling
    state, [scale_dual_in_place] and [unscale_dual_in_place] on the whole
    vector do what [.._eq] does on [y] and [.._in] does on [z]; likewise for
    the primal residual. *)
Theorem ruiz_whole_dual_is_eq_then_in
        (T : Type) (ST : Scalar T) (r : RuizEquilibration T) (y z : list T) :
  (re_n r + length y + length z = length (re_delta r))%nat ->
  scale_dual_in_place r (y ++ z)
  = scale_dual_in_place_eq r y ++ scale_dual_in_place_in r z
  /\ unscale_dual_in_place r (y ++ z)
     = unscale_dual_in_place_eq r y ++ unscale_dual_in_place_in r z
  /\ scale_primal_residual_in_place r (y ++ z)
     = scale_primal_residual_in_place_eq r y
       ++ scale_primal_residual_in_place_in r z
  /\ unscale_primal_residual_in_place r (y ++ z)
     = unscale_primal_residual_in_place_eq r y
       ++ unscale_primal_residual_in_place_in r z.
Proof.
  intros HL.
  destruct (tail_split (re_delta r) (re_n r) (length y) (length z) HL)
    as [E1 E2].
  unfold scale_dual_in_place, unscale_dual_in_place,
    scale_primal_residual_in_place, unscale_primal_residual_in_place,
    scale_dual_in_place_eq, scale_dual_in_place_in, unscale_dual_in_place_eq,
    unscale_dual_in_place_in, scale_primal_residual_in_place_eq,
    scale_primal_residual_in_place_in, unscale_primal_residual_in_place_eq,
    unscale_primal_residual_in_place_in, vdiv, vmul.
  rewrite !vmap2_app, E1, E2, !map_app. repeat split; reflexivity.
Qed.

(** Witness of X5, in double arithmetic. *)
Lemma ruiz_whole_dual_is_eq_then_in_witness :
  let r := {| re_delta := [s_lit 2 1; s_lit 4 1; s_lit 8 1]; re_n := 1;
              re_c := s_lit 1 2; re_epsilon := s_lit 1 1000;
              re_max_iter := 10; re_sym := UPPER |} in
  scale_dual_in_place r ([s_lit 3 1] ++ [s_lit 5 1])
  = scale_dual_in_place_eq r [s_lit 3 1]
    ++ scale_dual_in_place_in r [s_lit 5 1]
  /\ unscale_dual_in_place r ([s_lit 3 1] ++ [s_lit 5 1])
     = unscale_dual_in_place_eq r [s_lit 3 1]
       ++ unscale_dual_in_place_in r [s_lit 5 1]
  /\ scale_primal_residual_in_place r ([s_lit 3 1] ++ [s_lit 5 1])
     = scale_primal_residual_in_place_eq r [s_lit 3 1]
       ++ scale_primal_residual_in_place_in r [s_lit 5 1]
  /\ unscale_primal_residual_in_place r ([s_lit 3 1] ++ [s_lit 5 1])
     = unscale_primal_residual_in_place_eq r [s_lit 3 1]
       ++ unscale_primal_residual_in_place_in r [s_lit 5 1].
Proof.
  intros r.
  apply (@ruiz_whole_dual_is_eq_then_in float _ r [s_lit 3 1] [s_lit 5 1]).
  reflexivity.
Defined.

(** ** The round limit of the equilibration *)

Section RuizLimit.
Context {T : Type} `{Scalar T}.

Lemma ruiz_loop_past_limit (sym : Symmetry) (n n_eq n_in : nat)
      (epsilon : T) (max_iter : Z) :
  forall fuel iter st,
    (max_iter < iter)%Z ->
    (forall st' k,
        ruiz_loop fuel sym n n_eq n_in epsilon max_iter iter st
        = Some (st', k) -> ruiz_continue epsilon st' = false)
    /\ ((forall j, (j < fuel)%nat ->
                   ruiz_continue epsilon
                     (Nat.iter j (ruiz_round sym n n_eq n_in) st) = true) ->
        ruiz_loop fuel sym n n_eq n_in epsilon max_iter iter st = None).
Proof.
  intros fuel; induction fuel as [|fuel IH]; intros iter st Hlt.
  - split; [intros st' k Hr; discriminate | reflexivity].
  - simpl. destruct (ruiz_continue epsilon st) eqn:Ec.
    + replace (iter =? max_iter)%Z with false
        by (symmetry; apply Z.eqb_neq; lia).
      destruct (IH (iter + 1)%Z (ruiz_round sym n n_eq n_in st)) as [I1 I2];
        [lia|].
      split.
      * intros st' k Hr.
        destruct (ruiz_loop fuel sym n n_eq n_in epsilon max_iter (iter + 1)
                    (ruiz_round sym n n_eq n_in st)) as [[st1 k1]|] eqn:E;
          [|discriminate].
        inversion Hr; subst. eapply I1; reflexivity.
      * intros Hc. rewrite I2; [reflexivity|].
        intros j Hj. rewrite <- Nat.iter_succ_r. apply Hc. lia.
    + split.
      * intros st' k Hr. inversion Hr; subst. assumption.
      * intros Hc. specialize (Hc 0%nat ltac:(lia)). simpl in Hc.
        congruence.
Qed.

End RuizLimit.

(** X6.  For every scalar type: with [1 <= max_iter] the loop of the
    equilibration ends, whatever the entries of the QP are (also when they
    are infinite or not numbers), after at most [max_iter - 1] rounds. *)
Theorem ruiz_ends_within_the_round_limit
        (T : Type) (ST : Scalar T) (delta_ : list T) (qp : QpView T)
        (epsilon : T) (max_iter : Z) (sym : Symmetry) :
  (1 <= max_iter)%Z ->
  exists st k,
    ruiz_scale_qp_in_place (Z.to_nat max_iter) delta_ qp epsilon max_iter sym
    = Some (st, k)
    /\ (Z.of_nat k <= max_iter - 1)%Z.
Proof.
  intros Hm. unfold ruiz_scale_qp_in_place.
  destruct (@ruiz_loop_total T ST sym (nrows (qp_H qp)) (ncols (qp_AT qp))
              (ncols (qp_CT qp)) epsilon max_iter (Z.to_nat max_iter) 1
              {| rz_delta := vzero (nrows (qp_H qp) + ncols (qp_AT qp)
                                    + ncols (qp_CT qp));
                 rz_qp := qp; rz_S := delta_; rz_c := s1; rz_gamma := s1 |})
    as [[st k] E]; [lia | lia |].
  exists st, k. split; [exact E|].
  apply ruiz_loop_rounds_le in E; lia.
Qed.

(** Witness of X6, in double arithmetic: the default limit on the QP
    "minimize x". *)
Lemma ruiz_ends_within_the_round_limit_witness :
  exists (st : RuizState float) k,
    ruiz_scale_qp_in_place (Z.to_nat 10) (vones 1) (qp_linear (s_lit 1 1))
                           default_epsilon 10 UPPER
    = Some (st, k)
    /\ (Z.of_nat k <= 10 - 1)%Z.
Proof.
  apply (@ruiz_ends_within_the_round_limit float _ (vones 1)
           (qp_linear (s_lit 1 1)) default_epsilon 10 UPPER).
  lia.
Defined.

(** X7.  For every scalar type: with [max_iter < 1] the counter, which
    starts at 1, never equals [max_iter], so the round limit is off: the
    loop can only end when [infty_norm(1 - delta) > epsilon] fails, and as
    long as that comparison holds it goes on (here: through all the fuel). *)
Theorem ruiz_round_limit_off_below_one
        (T : Type) (ST : Scalar T) (fuel : nat) (delta_ : list T)
        (qp : QpView T) (epsilon : T) (max_iter : Z) (sym : Symmetry) :
  (max_iter < 1)%Z ->
  (forall st k,
      ruiz_scale_qp_in_place fuel delta_ qp epsilon max_iter sym
      = Some (st, k) -> ruiz_continue epsilon st = false)
  /\ ((forall j, (j < fuel)%nat ->
         ruiz_continue epsilon
           (Nat.iter j (ruiz_round sym (nrows (qp_H qp)) (ncols (qp_AT qp))
                                   (ncols (qp_CT qp)))
                     (ruiz_initial_state delta_ qp)) = true) ->
      ruiz_scale_qp_in_place fuel delta_ qp epsilon max_iter sym = None).
Proof.
  intros Hm. unfold ruiz_scale_qp_in_place.
  apply ruiz_loop_past_limit. lia.
Qed.

(** Witness of X7, in double arithmetic: with [max_iter = 0] the
    equilibration of the QP "minimize x" is still running after 50 rounds. *)
Lemma ruiz_round_limit_off_below_one_witness :
  ruiz_scale_qp_in_place 50 (vones 1) (qp_linear (s_lit 1 1))
                         default_epsilon 0 UPPER
  = (None : option (RuizState float * nat)).
Proof.
  apply (proj2 (@ruiz_round_limit_off_below_one float _ 50 (vones 1)
                  (qp_linear (s_lit 1 1)) default_epsilon 0 UPPER
                  ltac:(lia))).
  intros j Hj.
  do 50 (destruct j as [|j]; [vm_compute; reflexivity|]). lia.
Defined.

(** ** A constraint without entries *)

Section EmptyRow.
Local Open Scope R_scope.
Variable q0 : QpView R.
Variable sym : Symmetry.
Variable j0 : nat.
Variable epsilon : R.
Variable delta_ : list R.
Hypothesis j0_lt : (j0 < ncols (qp_AT q0))%nat.
Hypothesis empty : col_range (qp_AT q0) j0 = [].
Hypothesis eps_lt : epsilon < 1.

Let n := nrows (qp_H q0).
Let n_eq := ncols (qp_AT q0).
Let n_in := ncols (qp_CT q0).
Let round := ruiz_round (T := R) sym n n_eq n_in.

Lemma get_app_middle (a b c : list R) (k j : nat) :
  length a = k -> (j < length b)%nat -> get (a ++ b ++ c) (k + j) = get b j.
Proof.
  intros Ha Hj. unfold get. rewrite app_nth2 by lia.
  rewrite app_nth1 by lia. f_equal. lia.
Qed.

Lemma ruiz_delta_empty_row (qp : QpView R) :
  col_range (qp_AT qp) j0 = [] ->
  get (ruiz_delta sym n n_eq n_in qp) (n + j0) = / s_epsilon.
Proof.
  intros He. unfold ruiz_delta.
  rewrite get_app_middle;
    [| rewrite length_map, length_seq; reflexivity
     | rewrite length_map, length_seq; exact j0_lt].
  rewrite get_map_seq by exact j0_lt.
  unfold col_abs_max. rewrite He. cbn [fold_left].
  rewrite s0_R, s1_R.
  change (@s_div R Scalar_R) with Rdiv. change (@s_add R Scalar_R) with Rplus.
  change (@s_sqrt R Scalar_R) with R_sqrt.sqrt.
  rewrite R_sqrt.sqrt_0, Rplus_0_r. unfold Rdiv. apply Rmult_1_l.
Qed.

Lemma inv_epsilon_R : / (s_epsilon : R) = 4503599627370496.
Proof. simpl. apply Rinv_inv. Qed.

Lemma ruiz_continue_at (st : RuizState R) (d : R) :
  (n + j0 < length (rz_delta st))%nat ->
  get (rz_delta st) (n + j0) = d -> epsilon < Rabs (1 - d) ->
  ruiz_continue epsilon st = true.
Proof.
  intros HL Hd Hlt. unfold ruiz_continue. apply Rltb_true.
  eapply Rlt_le_trans; [exact Hlt|].
  apply infty_norm_R_In. apply in_map_iff.
  exists (get (rz_delta st) (n + j0)). split.
  - rewrite Hd, s1_R. reflexivity.
  - unfold get. apply nth_In. assumption.
Qed.

Lemma ruiz_round_empty_row (st : RuizState R) :
  col_range (qp_AT (rz_qp st)) j0 = [] ->
  col_range (qp_AT (rz_qp (round st))) j0 = []
  /\ get (rz_S (round st)) (n + j0)
     = get (rz_S st) (n + j0) * / s_epsilon
  /\ ruiz_continue epsilon (round st) = true.
Proof.
  intros He. split; [exact He|]. split.
  - unfold round, ruiz_round. cbv zeta. cbn [rz_S].
    rewrite get_vmul_R, ruiz_delta_empty_row by assumption. reflexivity.
  - apply (@ruiz_continue_at (round st) (/ s_epsilon)).
    + unfold round, ruiz_round. cbv zeta. cbn [rz_delta].
      rewrite ruiz_delta_length. unfold n_eq. lia.
    + unfold round, ruiz_round. cbv zeta. cbn [rz_delta].
      apply ruiz_delta_empty_row. assumption.
    + rewrite inv_epsilon_R. rewrite Rabs_left; lra.
Qed.

Lemma ruiz_orbit_empty_row (k : nat) :
  let st := Nat.iter k round (ruiz_initial_state delta_ q0) in
  col_range (qp_AT (rz_qp st)) j0 = []
  /\ get (rz_S st) (n + j0) = get delta_ (n + j0) * (/ s_epsilon) ^ k
  /\ ruiz_continue epsilon st = true.
Proof.
  induction k as [|k IH]; cbv zeta.
  - cbn [Nat.iter nat_rect]. split; [exact empty|]. split.
    + unfold ruiz_initial_state. cbn [rz_S]. simpl pow.
      rewrite Rmult_1_r. reflexivity.
    + apply (@ruiz_continue_at _ 0).
      * unfold ruiz_initial_state. cbn [rz_delta]. unfold vzero.
        unfold n. rewrite (repeat_length (s0 : R)). lia.
      * unfold ruiz_initial_state. cbn [rz_delta].
        rewrite get_vzero. apply s0_R.
      * rewrite Rminus_0_r, Rabs_R1. exact eps_lt.
  - rewrite !Nat.iter_succ. cbv zeta in IH. destruct IH as (I1 & I2 & _).
    destruct (ruiz_round_empty_row _ I1) as (J1 & J2 & J3).
    split; [exact J1|]. split; [|exact J3].
    rewrite J2, I2. simpl pow.
    rewrite Rmult_assoc. f_equal. apply Rmult_comm.
Qed.

End EmptyRow.

(** X8.  In exact arithmetic, when a row of the equality constraints has no
    stored entry (a column of [AT] is empty), [epsilon < 1] and
    [1 <= max_iter]: every round multiplies the factor of that row by
    [1 / machine_eps], the stopping criterion is never met, and the
    equilibration runs its [max_iter - 1] rounds and returns the factor
    [(1 / machine_eps)^(max_iter - 1)] times its first value for that row. *)
Theorem ruiz_empty_constraint_row_is_never_equilibrated
        (fuel : nat) (delta_ : list R) (qp : QpView R) (epsilon : R)
        (max_iter : Z) (sym : Symmetry) (j0 : nat) :
  (j0 < ncols (qp_AT qp))%nat ->
  col_range (qp_AT qp) j0 = [] ->
  (epsilon < 1)%R ->
  (1 <= max_iter)%Z -> (Z.to_nat (max_iter - 1) < fuel)%nat ->
  exists st,
    ruiz_scale_qp_in_place fuel delta_ qp epsilon max_iter sym
    = Some (st, Z.to_nat (max_iter - 1))
    /\ ruiz_continue epsilon st = true
    /\ get (rz_S st) (nrows (qp_H qp) + j0)
       = (get delta_ (nrows (qp_H qp) + j0)
          * (/ s_epsilon) ^ Z.to_nat (max_iter - 1))%R.
Proof.
  intros Hj He Heps Hm Hf. unfold ruiz_scale_qp_in_place.
  rewrite (@ruiz_loop_never_met R _ sym (nrows (qp_H qp)) (ncols (qp_AT qp))
             (ncols (qp_CT qp)) epsilon max_iter fuel 1);
    [| lia | exact Hf |].
  - eexists. split; [reflexivity|].
    destruct (@ruiz_orbit_empty_row qp sym j0 epsilon delta_ Hj He Heps
                (Z.to_nat (max_iter - 1))) as (_ & I2 & I3).
    split; [exact I3 | exact I2].
  - intros j _.
    exact (proj2 (proj2 (@ruiz_orbit_empty_row qp sym j0 epsilon delta_ Hj He
                           Heps j))).
Qed.

(** Witness of X8: the QP "minimize x^2/2 + x subject to 0 x = 0" with the
    default arguments. *)
Lemma ruiz_empty_constraint_row_is_never_equilibrated_witness :
  exists st,
    ruiz_scale_qp_in_place 10 (vones 2) qp_empty_row default_epsilon 10 UPPER
    = Some (st, Z.to_nat (10 - 1))
    /\ ruiz_continue default_epsilon st = true
    /\ get (rz_S st) (nrows (qp_H qp_empty_row) + 0)
       = (get (vones 2) (nrows (qp_H qp_empty_row) + 0)
          * (/ s_epsilon) ^ Z.to_nat (10 - 1))%R.
Proof.
  apply (@ruiz_empty_constraint_row_is_never_equilibrated 10 (vones 2)
           qp_empty_row default_epsilon 10 UPPER 0).
  - simpl. lia.
  - reflexivity.
  - unfold default_epsilon. simpl. lra.
  - lia.
  - simpl. lia.
Defined.

(* ================================================================== *)
(** * [results.hpp] *)
(* ================================================================== *)

(** X9.  For every scalar type: [cleanup()] without arguments puts a
    [Results] back to what its constructor makes for the same sizes (zero
    [x], [y], [z], the default proximal parameters, cleared statistics and
    the status [PROXQP_MAX_ITER_REACHED]), whatever it held; only the flags
    [active_constraints] are left as they were.  Doing it twice changes
    nothing more. *)
Theorem cleanup_restores_the_constructed_results
        (T : Type) (ST : Scalar T) (r : results.Results T) :
  let fresh := results.Results_new (length (results.x r))
                 (length (results.y r)) (length (results.z r)) in
  results.cleanup None None None r
  = {| results.x := results.x fresh; results.y := results.y fresh;
       results.z := results.z fresh;
       results.active_constraints := results.active_constraints r;
       results.info := results.info fresh |}
  /\ results.cleanup None None None (results.cleanup None None None r)
     = results.cleanup None None None r.
Proof.
  split.
  - reflexivity.
  - unfold results.cleanup, results.cold_start, results.cleanup_statistics,
      results.set_zero, results.with_info. simpl.
    unfold vzero. rewrite !repeat_length. reflexivity.
Qed.

(** X10.  In exact arithmetic: after the constructor, and after
    [cold_start] or [cleanup] with any arguments whose given [mu_eq] and
    [mu_in] are not zero, the stored inverses are the inverses of the stored
    penalties: [mu_eq * mu_eq_inv = 1] and [mu_in * mu_in_inv = 1]. *)
Theorem results_penalties_and_inverses_agree
        (rho_ mu_eq_ mu_in_ : option R) (r : results.Results R)
        (dim n_eq n_in : nat) :
  (forall v, mu_eq_ = Some v -> v <> 0%R) ->
  (forall v, mu_in_ = Some v -> v <> 0%R) ->
  let ok (s : results.Results R) :=
    (results.mu_eq (results.info s) * results.mu_eq_inv (results.info s)
     = 1)%R
    /\ (results.mu_in (results.info s) * results.mu_in_inv (results.info s)
        = 1)%R in
  ok (results.Results_new dim n_eq n_in)
  /\ ok (results.cold_start rho_ mu_eq_ mu_in_ r)
  /\ ok (results.cleanup rho_ mu_eq_ mu_in_ r).
Proof.
  intros He Hi ok. unfold ok.
  unfold results.cleanup, results.cold_start, results.cleanup_statistics,
    results.with_info, results.Results_new.
  destruct mu_eq_ as [ve|], mu_in_ as [vi|]; simpl;
    try (pose proof (He ve eq_refl)); try (pose proof (Hi vi eq_refl));
    repeat split; try field; try assumption; try lra.
Qed.

(** Witness of X10: a cold start with [mu_eq = 4] and the default [mu_in]. *)
Lemma results_penalties_and_inverses_agree_witness :
  let r := results.Results_new (T := R) 2 1 1 in
  let ok (s : results.Results R) :=
    (results.mu_eq (results.info s) * results.mu_eq_inv (results.info s)
     = 1)%R
    /\ (results.mu_in (results.info s) * results.mu_in_inv (results.info s)
        = 1)%R in
  ok (results.Results_new 2 1 1)
  /\ ok (results.cold_start None (Some 4%R) None r)
  /\ ok (results.cleanup None (Some 4%R) None r).
Proof.
  intros r.
  apply (@results_penalties_and_inverses_agree None (Some 4%R) None r 2 1 1).
  - intros v Hv. inversion Hv. lra.
  - intros v Hv. discriminate.
Defined.

(* ================================================================== *)
(** * The sweep over the inequalities: bookkeeping *)
(* ================================================================== *)

Section SweepBookkeeping.
Context {T : Type} `{Scalar T}.
Variable K : Kernel T.
Variable pb : Problem T.

Lemma active_nnz_set_nth (active : list bool) (i k : nat) (v : bool) :
  (i < length active)%nat -> (i < k)%nat ->
  (active_nnz pb (set_nth i v active) k
   + (if nth i active false then kkt_col_nnz pb i else 0))%nat
  = (active_nnz pb active k + (if v then kkt_col_nnz pb i else 0))%nat.
Proof.
  intros Hi. unfold active_nnz. induction k as [|k IH]; intros Hk; [lia|].
  rewrite seq_S, !map_app, !list_sum_app. cbn [seq map Nat.add]. simpl (list_sum [_]).
  destruct (Nat.eq_dec i k) as [->|Hne].
  - rewrite nth_set_nth_same by assumption.
    assert (E : map (fun j => if nth j (set_nth k v active) false
                             then kkt_col_nnz pb j else 0%nat) (seq 0 k)
                = map (fun j => if nth j active false
                                then kkt_col_nnz pb j else 0%nat) (seq 0 k)).
    { apply map_ext_in. intros j Hj. apply in_seq in Hj.
      rewrite nth_set_nth_other by lia. reflexivity. }
    rewrite E. lia.
  - rewrite (nth_set_nth_other _ _ _ Hne). specialize (IH ltac:(lia)). lia.
Qed.

Lemma active_set_step_inv (pen : Penalty T) (pred : list bool)
      (a0 a : ActiveSet T) (added removed : bool) (i : nat)
      (r : ActiveSet T * bool * bool) :
  length (active_constraints a0) = pb_n_in pb -> (i < pb_n_in pb)%nat ->
  sweep_inv pb a0 pred i a ->
  active_set_step K pb pen pred (Some (a, added, removed)) i = Some r ->
  sweep_inv pb a0 pred (S i) (fst (fst r)).
Proof.
  intros L0 Hi (La & Hp & Hq & Hn) Hr. unfold active_set_step in Hr.
  pose proof (Hq i (le_n _)) as Hqi.
  destruct (nth i pred false) eqn:Ep;
    destruct (nth i (active_constraints a) false) eqn:Ea; cbn [andb negb] in Hr.
  - inversion Hr; subst; clear Hr.
    unfold sweep_inv; cbn [fst active_constraints kkt_active_nnz]. split; [assumption|].
    split; [|split; [|assumption]].
    + intros j Hj. destruct (Nat.eq_dec j i) as [->|Hne]; [congruence|].
      apply Hp. lia.
    + intros j Hj. apply Hq. lia.
  - destruct (add_row K (ldl a) (pb_perm_inv pb) (pb_n pb + pb_n_eq pb + i)
                (kkt_col_nnz pb i) _) as [ld|]; [|discriminate].
    inversion Hr; subst; clear Hr.
    unfold sweep_inv; cbn [fst active_constraints kkt_active_nnz].
    split; [rewrite set_nth_length; assumption|].
    split; [|split].
    + intros j Hj. destruct (Nat.eq_dec j i) as [->|Hne].
      * rewrite nth_set_nth_same by lia. congruence.
      * rewrite nth_set_nth_other by congruence. apply Hp. lia.
    + intros j Hj. rewrite nth_set_nth_other by lia. apply Hq. lia.
    + pose proof (@active_nnz_set_nth (active_constraints a) i (pb_n_in pb)
                    true ltac:(lia) Hi) as E.
      rewrite Ea in E. lia.
  - inversion Hr; subst; clear Hr.
    unfold sweep_inv; cbn [fst active_constraints kkt_active_nnz].
    split; [rewrite set_nth_length; assumption|].
    split; [|split].
    + intros j Hj. destruct (Nat.eq_dec j i) as [->|Hne].
      * rewrite nth_set_nth_same by lia. congruence.
      * rewrite nth_set_nth_other by congruence. apply Hp. lia.
    + intros j Hj. rewrite nth_set_nth_other by lia. apply Hq. lia.
    + pose proof (@active_nnz_set_nth (active_constraints a) i (pb_n_in pb)
                    false ltac:(lia) Hi) as E.
      rewrite Ea in E. lia.
  - inversion Hr; subst; clear Hr.
    unfold sweep_inv; cbn [fst active_constraints kkt_active_nnz]. split; [assumption|].
    split; [|split; [|assumption]].
    + intros j Hj. destruct (Nat.eq_dec j i) as [->|Hne]; [congruence|].
      apply Hp. lia.
    + intros j Hj. apply Hq. lia.
Qed.

Lemma sweep_fold_inv (pen : Penalty T) (pred : list bool) (a0 : ActiveSet T) :
  length (active_constraints a0) = pb_n_in pb ->
  forall k r, (k <= pb_n_in pb)%nat ->
    fold_left (active_set_step K pb pen pred) (seq 0 k)
              (Some (a0, false, false)) = Some r ->
    sweep_inv pb a0 pred k (fst (fst r)).
Proof.
  intros L0. induction k as [|k IH]; intros r Hk Hr.
  - simpl in Hr. inversion Hr; subst; simpl.
    unfold sweep_inv. repeat split; auto. intros; lia.
  - rewrite seq_S, fold_left_app in Hr. cbn [fold_left Nat.add] in Hr.
    destruct (fold_left (active_set_step K pb pen pred) (seq 0 k)
                        (Some (a0, false, false))) as [[[a ad] rm]|] eqn:E.
    + apply (@active_set_step_inv pen pred a0 a ad rm k r L0); [lia| |exact Hr].
      exact (IH _ ltac:(lia) eq_refl).
    + simpl in Hr. discriminate.
Qed.

Lemma active_set_change_inv (pen : Penalty T) (pred : list bool)
      (a0 a' : ActiveSet T) :
  length (active_constraints a0) = pb_n_in pb ->
  active_set_change K pb pen pred a0 = Some a' ->
  sweep_inv pb a0 pred (pb_n_in pb) a'.
Proof.
  intros L0 Hr. unfold active_set_change in Hr.
  destruct (0 <? pb_n_in pb)%nat eqn:E0.
  - destruct (fold_left _ _ _) as [[[a ad] rm]|] eqn:E; [|discriminate].
    pose proof (@sweep_fold_inv pen pred a0 L0 _ _ (le_n _) E) as Hi.
    simpl in Hi.
    destruct (ad || rm); inversion Hr; subst; clear Hr; exact Hi.
  - inversion Hr; subst. apply Nat.ltb_ge in E0.
    unfold sweep_inv. repeat split; auto. intros; lia.
Qed.

Lemma active_set_step_same (pen : Penalty T) (pred : list bool)
      (a : ActiveSet T) (i : nat) :
  nth i pred false = nth i (active_constraints a) false ->
  active_set_step K pb pen pred (Some (a, false, false)) i
  = Some (a, false, false).
Proof.
  intros He. unfold active_set_step. rewrite He.
  destruct (nth i (active_constraints a) false); reflexivity.
Qed.

End SweepBookkeeping.

(** X11.  For every scalar type and kernel: a sweep over the inequalities
    that goes through leaves the flags [active_constraints] equal to the
    prediction, for every inequality; and when the prediction already agrees
    with the flags, the sweep returns the state as it is, without a call of
    [add_row] or [delete_row] and without a refactorization. *)
Theorem sweep_sets_the_active_set_to_the_prediction
        (T : Type) (ST : Scalar T) (K : Kernel T) (pb : Problem T)
        (pen : Penalty T) (pred : list bool) (a : ActiveSet T) :
  length (active_constraints a) = pb_n_in pb ->
  (forall a', active_set_change K pb pen pred a = Some a' ->
     length (active_constraints a') = pb_n_in pb
     /\ forall i, (i < pb_n_in pb)%nat ->
                  nth i (active_constraints a') false = nth i pred false)
  /\ ((forall i, (i < pb_n_in pb)%nat ->
                 nth i pred false = nth i (active_constraints a) false) ->
      active_set_change K pb pen pred a = Some a).
Proof.
  intros L0. split.
  - intros a' Hr.
    destruct (@active_set_change_inv _ _ K pb pen pred a a' L0 Hr) as (La & Hp & _).
    split; [congruence | exact Hp].
  - intros He. unfold active_set_change.
    destruct (0 <? pb_n_in pb)%nat; [|reflexivity].
    assert (E : forall k, (k <= pb_n_in pb)%nat ->
                fold_left (active_set_step K pb pen pred) (seq 0 k)
                          (Some (a, false, false)) = Some (a, false, false)).
    { induction k as [|k IH]; intros Hk; [reflexivity|].
      rewrite seq_S, fold_left_app, IH by lia. cbn [fold_left Nat.add].
      apply active_set_step_same. apply He. lia. }
    rewrite E by lia. reflexivity.
Qed.

(** Witness of X11, in double arithmetic: the first sweep of the solver on
    the QP "minimize x^2/2 - 10 x subject to -1e20 <= x <= 0". *)
Lemma sweep_sets_the_active_set_to_the_prediction_witness :
  let pb := problem_of qp_bound in
  let K := dense_kernel pb in
  let a := initial_active_set pb (initial_penalty (T := float)) in
  (forall a', active_set_change K pb initial_penalty [true] a = Some a' ->
     length (active_constraints a') = pb_n_in pb
     /\ forall i, (i < pb_n_in pb)%nat ->
                  nth i (active_constraints a') false = nth i [true] false)
  /\ ((forall i, (i < pb_n_in pb)%nat ->
                 nth i [true] false = nth i (active_constraints a) false) ->
      active_set_change K pb initial_penalty [true] a = Some a).
Proof.
  intros pb K a.
  apply (@sweep_sets_the_active_set_to_the_prediction float _ K pb
           initial_penalty [true] a).
  reflexivity.
Defined.

(** X12.  For every scalar type and kernel: in every state of the active set
    that the solver reaches, [active_constraints] has one flag for each
    inequality and the entry count of [kkt_active] is the count of [H] and
    [AT] plus the lengths of the columns of [CT] of the active
    inequalities. *)
Theorem kkt_active_nnz_counts_the_active_columns
        (T : Type) (ST : Scalar T) (K : Kernel T) (pb : Problem T)
        (a : ActiveSet T) :
  reachable K pb a ->
  length (active_constraints a) = pb_n_in pb
  /\ kkt_active_nnz a
     = Z.of_nat (nnz (qp_H (pb_qp pb)) + nnz (qp_AT (pb_qp pb))
                 + active_nnz pb (active_constraints a) (pb_n_in pb)).
Proof.
  intros Hr. induction Hr as [pen | a a' pen pred Hr IH Hc | a pen Hr IH].
  - unfold initial_active_set, refactorize; simpl. split.
    + apply repeat_length.
    + assert (E : active_nnz pb (repeat false (pb_n_in pb)) (pb_n_in pb)
                  = 0%nat).
      { unfold active_nnz. induction (seq 0 (pb_n_in pb)) as [|i l IHl];
          [reflexivity|].
        simpl. rewrite IHl.
        replace (nth i (repeat false (pb_n_in pb)) false) with false;
          [reflexivity|].
        symmetry. apply nth_repeat. }
      rewrite E. f_equal. lia.
  - destruct IH as [La Hn].
    destruct (@active_set_change_inv _ _ K pb pen pred a a' La Hc) as (La' & _ & _ & Hs).
    split; [congruence|]. lia.
  - exact IH.
Qed.

(** Witness of X12, in double arithmetic: the state after the first sweep of
    the solver on the QP "minimize x^2/2 - 10 x subject to
    -1e20 <= x <= 0", in which the inequality has become active. *)
Lemma kkt_active_nnz_counts_the_active_columns_witness :
  let pb := problem_of qp_bound in
  let K := dense_kernel pb in
  exists a : ActiveSet float,
    active_set_change K pb initial_penalty [true]
                      (initial_active_set pb initial_penalty) = Some a
    /\ reachable K pb a
    /\ length (active_constraints a) = pb_n_in pb
    /\ kkt_active_nnz a
       = Z.of_nat (nnz (qp_H (pb_qp pb)) + nnz (qp_AT (pb_qp pb))
                   + active_nnz pb (active_constraints a) (pb_n_in pb)).
Proof.
  intros pb K.
  assert (R0 : exists a, active_set_change K pb initial_penalty [true]
                 (initial_active_set pb initial_penalty) = Some a).
  { eexists. vm_compute. reflexivity. }
  destruct R0 as [a Ha]. exists a. split; [exact Ha|].
  assert (Hr : reachable K pb a).
  { eapply reach_sweep; [apply reach_initial | exact Ha]. }
  split; [exact Hr|].
  apply (@kkt_active_nnz_counts_the_active_columns float _ K pb a Hr).
Defined.
(* ================================================================== *)
(** * What the primal feasibility measures *)
(* ================================================================== *)

Section FeasibilityMeasure.
Local Open Scope R_scope.

Lemma infty_norm_R_zero_iff (v : list R) :
  infty_norm v = 0 <-> forall i, (i < length v)%nat -> get v i = 0.
Proof.
  split.
  - intros Hn i Hi.
    pose proof (@infty_norm_R_In v (get v i) (nth_In v s0 Hi)) as Hb.
    rewrite Hn in Hb. pose proof (Rabs_pos (get v i)) as Hp.
    destruct (Req_dec (get v i) 0) as [E|E]; [exact E|].
    pose proof (Rabs_pos_lt _ E). lra.
  - intros Hz. apply infty_norm_R_zero. apply Forall_forall.
    intros y Hy. destruct (In_nth v y s0 Hy) as (i & Hi & <-).
    apply Hz. exact Hi.
Qed.

Lemma s_max_R_zero_iff (a b : R) :
  0 <= a -> 0 <= b -> (s_max a b = 0 <-> a = 0 /\ b = 0).
Proof.
  intros Ha Hb. rewrite s_max_R. unfold Rmax.
  destruct (Rle_dec a b); split; intros; lra.
Qed.

Lemma get_vsub_R (a b : list R) (k : nat) :
  (k < length a)%nat -> (k < length b)%nat ->
  get (vsub a b) k = get a k - get b k.
Proof. intros Ha Hb. unfold vsub. rewrite get_vmap2 by assumption. reflexivity. Qed.

Lemma get_positive_part_R (a : list R) (k : nat) :
  get (positive_part a) k = if Rltb 0 (get a k) then get a k else 0.
Proof.
  unfold positive_part.
  rewrite (@get_map_R (fun x => if s_ltb s0 x then x else s0)).
  - rewrite s0_R. reflexivity.
  - rewrite s0_R. destruct (s_ltb 0 0); reflexivity.
Qed.

Lemma get_negative_part_R (a : list R) (k : nat) :
  get (negative_part a) k = if Rltb (get a k) 0 then get a k else 0.
Proof.
  unfold negative_part.
  rewrite (@get_map_R (fun x => if s_ltb x s0 then x else s0)).
  - rewrite s0_R. reflexivity.
  - rewrite s0_R. destruct (s_ltb 0 0); reflexivity.
Qed.

Lemma Rltb_spec (x y : R) : Rltb x y = true <-> x < y.
Proof.
  split; [|apply Rltb_true]. intros Hb.
  destruct (Rlt_dec x y) as [Hl|Hl]; [exact Hl|].
  rewrite Rltb_false in Hb by lra. discriminate.
Qed.

(** The entry of [[c - u]^+ + [c - l]^-] when [l <= u]. *)
Lemma in_residual_entry (c l u : R) :
  l <= u ->
  ((if Rltb 0 (c - u) then c - u else 0)
   + (if Rltb (c - l) 0 then c - l else 0) = 0
   <-> l <= c <= u).
Proof.
  intros Hlu.
  destruct (Rltb 0 (c - u)) eqn:E1; destruct (Rltb (c - l) 0) eqn:E2.
  - apply Rltb_spec in E1, E2. lra.
  - apply Rltb_spec in E1. split; intros; lra.
  - apply Rltb_spec in E2. split; intros; lra.
  - assert (~ 0 < c - u) by (intros Hc; apply Rltb_true in Hc; congruence).
    assert (~ c - l < 0) by (intros Hc; apply Rltb_true in Hc; congruence).
    split; intros; lra.
Qed.

End FeasibilityMeasure.

(** X13.  In exact arithmetic, for a preconditioner that is consistent with
    the scaled model and bounds with [l <= u]: the primal feasibility that
    [unscaled_primal_residual] returns is never negative, and it is zero
    exactly when the unscaled iterate [x] satisfies [A x = b] and
    [l <= C x <= u]. *)
Theorem primal_feasibility_zero_iff_feasible
        (P : Type) (pc : Preconditioner R P) (precond : P) (pb : Problem R)
        (x : list R) :
  preconditioner_consistent pc precond pb ->
  length x = pb_n pb ->
  length (qp_b (pb_qp pb)) = ncols (qp_AT (pb_qp pb)) ->
  length (qp_l (pb_qp pb)) = ncols (qp_CT (pb_qp pb)) ->
  length (qp_u (pb_qp pb)) = ncols (qp_CT (pb_qp pb)) ->
  (forall i, (i < ncols (qp_CT (pb_qp pb)))%nat ->
             (get (qp_l (pb_qp pb)) i <= get (qp_u (pb_qp pb)) i)%R) ->
  let x' := pc_unscale_primal_in_place pc precond x in
  let lhs := fst (fst (unscaled_primal_residual pc precond pb x)) in
  (0 <= lhs)%R
  /\ (lhs = 0%R
      <-> (forall j, (j < ncols (qp_AT (pb_qp pb)))%nat ->
                     get (mat_tmul (qp_AT (pb_qp pb)) x') j
                     = get (qp_b (pb_qp pb)) j)
          /\ (forall i, (i < ncols (qp_CT (pb_qp pb)))%nat ->
                (get (qp_l (pb_qp pb)) i
                 <= get (mat_tmul (qp_CT (pb_qp pb)) x') i
                 <= get (qp_u (pb_qp pb)) i)%R)).
Proof.
  intros Hc Lx Lb Ll Lu Hlu x' lhs.
  set (it := {| it_x := x; it_y := vzero (pb_n_eq pb);
                it_z := vzero (pb_n_in pb) |}).
  assert (Hs : sized pb it).
  { unfold sized, it; simpl. unfold vzero. rewrite !repeat_length. auto. }
  destruct (Hc it Hs) as (EA & EC & _). cbn [it it_x unscale_iterates] in EA, EC.
  fold x' in EA, EC.
  unfold lhs, unscaled_primal_residual. cbn [fst].
  rewrite EA, EC.
  set (q := pb_qp pb) in *.
  set (e := vsub (mat_tmul (qp_AT q) x') (qp_b q)).
  set (c := mat_tmul (qp_CT q) x').
  set (lo := vadd (positive_part (vsub c (qp_u q)))
                  (negative_part (vsub c (qp_l q)))).
  pose proof (infty_norm_R_nonneg e) as Ne.
  pose proof (infty_norm_R_nonneg lo) as Nl.
  split.
  - rewrite s_max_R. apply Rle_trans with (infty_norm e); [exact Ne|].
    apply Rmax_l.
  - rewrite (s_max_R_zero_iff Ne Nl), !infty_norm_R_zero_iff.
    assert (Le : length e = ncols (qp_AT q)).
    { unfold e, vsub. rewrite vmap2_length, mat_tmul_length, Lb.
      apply Nat.min_id. }
    assert (Lc : length c = ncols (qp_CT q)) by apply mat_tmul_length.
    assert (Llo : length lo = ncols (qp_CT q)).
    { unfold lo, vadd, vsub, positive_part, negative_part.
      rewrite vmap2_length, !length_map, !vmap2_length, Lc, Ll, Lu.
      rewrite !Nat.min_id. reflexivity. }
    rewrite Le, Llo.
    assert (Ge : forall j, (j < ncols (qp_AT q))%nat ->
              get e j = (get (mat_tmul (qp_AT q) x') j - get (qp_b q) j)%R).
    { intros j Hj. unfold e. apply get_vsub_R.
      - rewrite mat_tmul_length. exact Hj.
      - rewrite Lb. exact Hj. }
    assert (Gl : forall i, (i < ncols (qp_CT q))%nat ->
              get lo i
              = ((if Rltb 0 (get c i - get (qp_u q) i)
                  then get c i - get (qp_u q) i else 0)
                 + (if Rltb (get c i - get (qp_l q) i) 0
                    then get c i - get (qp_l q) i else 0))%R).
    { intros i Hi. unfold lo, vadd. rewrite get_vmap2.
      - rewrite get_positive_part_R, get_negative_part_R.
        rewrite !get_vsub_R by (rewrite ?Lc, ?Ll, ?Lu; exact Hi).
        reflexivity.
      - unfold positive_part, vsub.
        rewrite length_map, vmap2_length, Lc, Lu, Nat.min_id. exact Hi.
      - unfold negative_part, vsub.
        rewrite length_map, vmap2_length, Lc, Ll, Nat.min_id. exact Hi. }
    split.
    + intros [He Hl]. split.
      * intros j Hj. specialize (He j Hj). rewrite (Ge j Hj) in He. lra.
      * intros i Hi. specialize (Hl i Hi). rewrite (Gl i Hi) in Hl.
        apply (in_residual_entry _ (Hlu i Hi)). exact Hl.
    + intros [He Hl]. split.
      * intros j Hj. rewrite (Ge j Hj), (He j Hj). lra.
      * intros i Hi. rewrite (Gl i Hi).
        apply (in_residual_entry _ (Hlu i Hi)). exact (Hl i Hi).
Qed.

(** Witness of X13: the QP "minimize 2 x^2 - 4 x subject to x = 1 and
    0 <= x <= 1" at [x = 1], without rescaling. *)
Lemma primal_feasibility_zero_iff_feasible_witness :
  let pb := problem_of qp_solved in
  let x' := pc_unscale_primal_in_place Identity_preconditioner tt [1%R] in
  let lhs :=
    fst (fst (unscaled_primal_residual Identity_preconditioner tt pb [1%R])) in
  (0 <= lhs)%R
  /\ (lhs = 0%R
      <-> (forall j, (j < ncols (qp_AT (pb_qp pb)))%nat ->
                     get (mat_tmul (qp_AT (pb_qp pb)) x') j
                     = get (qp_b (pb_qp pb)) j)
          /\ (forall i, (i < ncols (qp_CT (pb_qp pb)))%nat ->
                (get (qp_l (pb_qp pb)) i
                 <= get (mat_tmul (qp_CT (pb_qp pb)) x') i
                 <= get (qp_u (pb_qp pb)) i)%R)).
Proof.
  apply (@primal_feasibility_zero_iff_feasible
           unit Identity_preconditioner tt (problem_of qp_solved) [1%R]).
  - apply Identity_preconditioner_consistent.
  - reflexivity.
  - reflexivity.
  - reflexivity.
  - reflexivity.
  - intros i Hi. destruct i as [|i]; [cbv [get nth]; simpl; lra | vm_compute in Hi; lia].
Defined.
(* ================================================================== *)
(** * The penalties along the outer loop *)
(* ================================================================== *)

Section PenaltySchedule.
Context {T : Type} `{Scalar T}.
Local Open Scope scalar_scope.
Variable pow : T -> T -> T.
Variable P : Type.
Variable pc : Preconditioner T P.
Variable precond : P.
Variable settings : QPSettings T.
Variable pb : Problem T.
Variable inner_solver :
  nat -> Penalty T -> Bcl T -> list T -> InnerState T -> option (InnerState T).

(** The state with which a turn of the outer loop ends. *)
Let state_of (st : Step T) : OuterState T :=
  match st with Break s' => s' | Continue s' => s' end.

(** What a turn of the outer loop can do to the penalties. *)
Lemma outer_iteration_penalties (iter : nat) (s : OuterState T) (st : Step T) :
  outer_iteration pow pc precond settings pb inner_solver iter s = Some st ->
  rho (os_pen (state_of st)) = rho (os_pen s)
  /\ (mu_eq (os_pen (state_of st)) = mu_eq (os_pen s)
      \/ mu_eq (os_pen (state_of st))
         = s_min (mu_eq (os_pen s) * mu_update_factor settings)
                 (mu_max_eq settings)
      \/ mu_eq (os_pen (state_of st)) = cold_reset_mu_eq settings)
  /\ (mu_in (os_pen (state_of st)) = mu_in (os_pen s)
      \/ mu_in (os_pen (state_of st))
         = s_min (mu_in (os_pen s) * mu_update_factor settings)
                 (mu_max_in settings)
      \/ mu_in (os_pen (state_of st)) = cold_reset_mu_in settings).
Proof.
  unfold outer_iteration.
  destruct (unscaled_primal_residual pc precond pb (it_x (os_it s)))
    as [[p0 prhs0] c0].
  destruct (unscaled_dual_residual pc precond pb (os_it s))
    as [[d0 drhs0] dc0].
  destruct (is_primal_feasible settings pb prhs0 p0
            && is_dual_feasible settings pb drhs0 d0).
  - intros Hr; inversion Hr; subst; simpl. auto.
  - destruct (inner_solver iter (os_pen s) (os_bcl s) (it_x (os_it s))
                (inner_input pc precond pb s)) as [r|]; [|discriminate].
    destruct (unscaled_primal_residual pc precond pb (it_x (is_it r)))
      as [[p1 prhs1] c1].
    destruct (unscaled_dual_residual pc precond pb (is_it r))
      as [[d1 drhs1] dc1].
    destruct (is_primal_feasible settings pb prhs1 p1
              && is_dual_feasible settings pb drhs1 d1).
    + intros Hr; inversion Hr; subst; simpl. auto.
    + intros Hr; inversion Hr; subst; clear Hr. cbn [state_of].
      unfold outer_update.
      destruct (unscaled_dual_residual pc precond pb _) as [[d2 ?] ?].
      unfold mu_update_step, cold_reset, bcl_update.
      destruct (cold_reset_test _ _ _ _);
        destruct (s_leb p1 (bcl_eta_ext (os_bcl s)));
        cbn [new_bcl_mu_eq new_bcl_mu_in fst snd];
        match goal with
        | |- context [if ?c then _ else _] => destruct c
        end; cbn [os_pen rho mu_eq mu_in]; auto.
Qed.

Lemma outer_loop_penalty_invariant (Q : Penalty T -> Prop) :
  (forall pen pen', Q pen -> rho pen' = rho pen ->
     (mu_eq pen' = mu_eq pen
      \/ mu_eq pen' = s_min (mu_eq pen * mu_update_factor settings)
                            (mu_max_eq settings)
      \/ mu_eq pen' = cold_reset_mu_eq settings) ->
     (mu_in pen' = mu_in pen
      \/ mu_in pen' = s_min (mu_in pen * mu_update_factor settings)
                            (mu_max_in settings)
      \/ mu_in pen' = cold_reset_mu_in settings) ->
     Q pen') ->
  forall remaining iter s s' e,
    Q (os_pen s) ->
    outer_loop pow pc precond settings pb inner_solver remaining iter s
    = Some (s', e) ->
    Q (os_pen s').
Proof.
  intros HQ. induction remaining as [|remaining IH]; intros iter s s' e Hs Hr;
    simpl in Hr.
  - inversion Hr; subst. exact Hs.
  - destruct (outer_iteration pow pc precond settings pb inner_solver iter s)
      as [[s1|s1]|] eqn:E; try discriminate;
      destruct (outer_iteration_penalties _ _ E) as (Hrho & He & Hi);
      cbn [state_of] in Hrho, He, Hi.
    + inversion Hr; subst. exact (HQ _ _ Hs Hrho He Hi).
    + apply (IH _ _ _ _ (HQ _ _ Hs Hrho He Hi) Hr).
Qed.

End PenaltySchedule.

(** X14.  For every scalar type, preconditioner and inner solver: the outer
    loop never changes [rho]; whatever the number of turns and the way the
    loop is left, the state it ends with holds the [rho] it started with. *)
Theorem outer_loop_never_changes_rho
        (T : Type) (ST : Scalar T) (pow : T -> T -> T) (P : Type)
        (pc : Preconditioner T P) (precond : P) (settings : QPSettings T)
        (pb : Problem T)
        (inner_solver : nat -> Penalty T -> Bcl T -> list T -> InnerState T
                        -> option (InnerState T))
        (remaining iter : nat) (s s' : OuterState T) (e : Exit) :
  outer_loop pow pc precond settings pb inner_solver remaining iter s
  = Some (s', e) ->
  rho (os_pen s') = rho (os_pen s).
Proof.
  intros Hr.
  apply (@outer_loop_penalty_invariant T ST pow P pc precond settings pb
           inner_solver (fun pen => rho pen = rho (os_pen s)))
    with (3 := Hr); [|reflexivity].
  intros pen pen' Hp Hrho _ _. congruence.
Qed.

(** X15.  In exact arithmetic, for every preconditioner and inner solver:
    when [mu_update_factor], [mu_max_eq], [mu_max_in], [cold_reset_mu_eq] and
    [cold_reset_mu_in] are positive, the penalties of the state with which
    the outer loop ends are positive if those it started with are (the
    initial ones, 1e3 and 1e1, are), and neither exceeds the largest of its
    first value, its cap [mu_max] and its cold-reset value. *)
Theorem outer_loop_penalties_stay_positive
        (pow : R -> R -> R) (P : Type)
        (pc : Preconditioner R P) (precond : P) (settings : QPSettings R)
        (pb : Problem R)
        (inner_solver : nat -> Penalty R -> Bcl R -> list R -> InnerState R
                        -> option (InnerState R))
        (remaining iter : nat) (s s' : OuterState R) (e : Exit) :
  (0 < mu_update_factor settings)%R ->
  (0 < mu_max_eq settings)%R -> (0 < mu_max_in settings)%R ->
  (0 < cold_reset_mu_eq settings)%R -> (0 < cold_reset_mu_in settings)%R ->
  (0 < mu_eq (os_pen s))%R -> (0 < mu_in (os_pen s))%R ->
  outer_loop pow pc precond settings pb inner_solver remaining iter s
  = Some (s', e) ->
  (0 < mu_eq (os_pen s')
   <= Rmax (mu_eq (os_pen s))
           (Rmax (mu_max_eq settings) (cold_reset_mu_eq settings)))%R
  /\ (0 < mu_in (os_pen s')
      <= Rmax (mu_in (os_pen s))
              (Rmax (mu_max_in settings) (cold_reset_mu_in settings)))%R.
Proof.
  intros Hf Hme Hmi Hce Hci He0 Hi0 Hr.
  set (Be := Rmax (mu_eq (os_pen s))
                  (Rmax (mu_max_eq settings) (cold_reset_mu_eq settings))).
  set (Bi := Rmax (mu_in (os_pen s))
                  (Rmax (mu_max_in settings) (cold_reset_mu_in settings))).
  assert (Min : forall a b : R, s_min a b = Rmin a b).
  { intros a b. unfold s_min, Rmin. simpl. unfold Rltb.
    destruct (Rlt_dec b a), (Rle_dec a b); try reflexivity; lra. }
  apply (@outer_loop_penalty_invariant R _ pow P pc precond settings pb
           inner_solver
           (fun pen => (0 < mu_eq pen <= Be)%R /\ (0 < mu_in pen <= Bi)%R))
    with (3 := Hr).
  - intros pen pen' [Qe Qi] _ Ee Ei.
    assert (Hbe : (mu_max_eq settings <= Be)%R
                  /\ (cold_reset_mu_eq settings <= Be)%R).
    { unfold Be. split.
      - eapply Rle_trans; [apply Rmax_l | apply Rmax_r].
      - eapply Rle_trans; [apply Rmax_r | apply Rmax_r]. }
    assert (Hbi : (mu_max_in settings <= Bi)%R
                  /\ (cold_reset_mu_in settings <= Bi)%R).
    { unfold Bi. split.
      - eapply Rle_trans; [apply Rmax_l | apply Rmax_r].
      - eapply Rle_trans; [apply Rmax_r | apply Rmax_r]. }
    split.
    + destruct Ee as [->| [->| ->]]; [exact Qe| |lra].
      rewrite Min. split.
      * apply Rmin_glb_lt; [|exact Hme].
        apply Rmult_lt_0_compat; [apply Qe | exact Hf].
      * eapply Rle_trans; [apply Rmin_r | apply Hbe].
    + destruct Ei as [->| [->| ->]]; [exact Qi| |lra].
      rewrite Min. split.
      * apply Rmin_glb_lt; [|exact Hmi].
        apply Rmult_lt_0_compat; [apply Qi | exact Hf].
      * eapply Rle_trans; [apply Rmin_r | apply Hbi].
  - split; (split; [assumption | apply Rmax_l]).
Qed.

(** Witness of X14, in double arithmetic: two turns of the outer loop on the
    QP "minimize x^2/2 - 10 x subject to -1e20 <= x <= 0"; the first turn
    raises [mu_in] from 10 to 100. *)
Lemma outer_loop_never_changes_rho_witness :
  let settings := example_settings false (s_lit 1 1000000000) 100 in
  exists (s' : OuterState float) (e : Exit),
    outer_loop pow_01 Identity_preconditioner tt settings
               (problem_of qp_bound) (example_inner settings qp_bound)
               2 0 (example_start settings qp_bound) = Some (s', e)
    /\ rho (os_pen s') = rho (os_pen (example_start settings qp_bound)).
Proof.
  intros settings.
  assert (R0 : exists r, outer_loop pow_01 Identity_preconditioner tt settings
               (problem_of qp_bound) (example_inner settings qp_bound)
               2 0 (example_start settings qp_bound) = Some r).
  { eexists. vm_compute. reflexivity. }
  destruct R0 as [[s' e] Hr]. exists s', e. split; [exact Hr|].
  apply (@outer_loop_never_changes_rho float _ pow_01 unit
           Identity_preconditioner tt settings (problem_of qp_bound)
           (example_inner settings qp_bound) 2 0
           (example_start settings qp_bound) s' e Hr).
Defined.

(** Witness of X15: the outer loop on the QP "minimize 2 x^2 - 4 x subject
    to x = 1 and 0 <= x <= 1", started at its solution. *)
Lemma outer_loop_penalties_stay_positive_witness :
  let settings := example_settings true (s_lit 1 1000000000) 1 in
  let s := initial_outer_state Rpower settings (problem_of qp_solved)
                               idle_solve [1%R] [0%R] [0%R] in
  exists (s' : OuterState R) (e : Exit),
    outer_loop Rpower Identity_preconditioner tt settings
               (problem_of qp_solved) idle_inner_solver 1 0 s = Some (s', e)
    /\ (0 < mu_eq (os_pen s')
        <= Rmax (mu_eq (os_pen s))
                (Rmax (mu_max_eq settings) (cold_reset_mu_eq settings)))%R
    /\ (0 < mu_in (os_pen s')
        <= Rmax (mu_in (os_pen s))
                (Rmax (mu_max_in settings) (cold_reset_mu_in settings)))%R.
Proof.
  intros settings s.
  pose proof qp_solved_run as Hq. unfold qp_solve_loop in Hq.
  change (Z.to_nat (max_iter (example_settings true (s_lit 1 1000000000) 1)))
    with 1%nat in Hq.
  fold settings in Hq. fold s in Hq.
  destruct (outer_loop Rpower Identity_preconditioner tt settings
              (problem_of qp_solved) idle_inner_solver 1 0 s)
    as [[s' e]|] eqn:E; [|discriminate].
  exists s', e. split; [reflexivity|].
  apply (@outer_loop_penalties_stay_positive Rpower unit
           Identity_preconditioner tt settings (problem_of qp_solved)
           idle_inner_solver 1 0 s s' e); try exact E; simpl; lra.
Defined.
(* ================================================================== *)
(** * The residual caches handed to the inner solver *)
(* ================================================================== *)

Section ScaledCaches.
Local Open Scope R_scope.
Variables (fuel : nat) (r r' : RuizEquilibration R) (qp qs : QpView R).
Variables (rounds : nat) (perm_inv : list nat).
Hypothesis wf : qp_wf qp.
Hypothesis len_b : length (qp_b qp) = ncols (qp_AT qp).
Hypothesis len_l : length (qp_l qp) = ncols (qp_CT qp).
Hypothesis len_u : length (qp_u qp) = ncols (qp_CT qp).
Hypothesis sym_upper : re_sym r = UPPER.
Hypothesis size_n : re_n r = nrows (qp_H qp).
Hypothesis size_delta :
  length (re_delta r)
  = (nrows (qp_H qp) + ncols (qp_AT qp) + ncols (qp_CT qp))%nat.
Hypothesis run : ruiz_scale_qp fuel r qp = Some (r', qs, rounds).

Let n := nrows (qp_H qp).
Let n_eq := ncols (qp_AT qp).
Let n_in := ncols (qp_CT qp).
Let S := re_delta r'.

Lemma scaled_sizes :
  ncols (qp_AT qs) = n_eq /\ ncols (qp_CT qs) = n_in
  /\ nrows (qp_H qs) = n /\ nrows (qp_AT qs) = n /\ nrows (qp_CT qs) = n
  /\ length (qp_g qs) = n.
Proof.
  destruct (@ruiz_run_facts fuel r r' qp qs rounds wf sym_upper size_n
              size_delta run) as (He & _).
  destruct He as ((PH & _) & (PA & _) & (PC & _) & Lg & _).
  destruct PH as (? & ? & _). destruct PA as (? & ? & _).
  destruct PC as (? & ? & _).
  destruct wf as (_ & _ & _ & _ & ? & ? & ? & ?).
  unfold n, n_eq, n_in. repeat split; congruence.
Qed.

(** Scaling the equality residual [unscaled product - b] gives the residual
    of the scaled constraints. *)
Lemma scale_eq_residual (v : list R) :
  length v = n_eq ->
  scale_primal_residual_in_place_eq r'
    (vsub (unscale_primal_residual_in_place_eq r' v) (qp_b qp))
  = vsub v (qp_b qs).
Proof.
  intros Lv.
  destruct (@ruiz_run_facts fuel r r' qp qs rounds wf sym_upper size_n
              size_delta run) as (_ & HS & _ & HL & Hn).
  destruct (@ruiz_scale_qp_bounds fuel r r' qp qs rounds len_b len_l len_u
              size_delta run) as (Lbs & _ & _ & Hb & _).
  fold n n_eq n_in in HS, HL, Hn, Lbs, Hb. fold S in HS, HL, Hb.
  unfold scale_primal_residual_in_place_eq,
    unscale_primal_residual_in_place_eq.
  rewrite Hn, Lv. fold S.
  assert (Ls : length (segment n n_eq S) = n_eq).
  { unfold segment. rewrite length_firstn, length_skipn. lia. }
  assert (L1 : length (vdiv v (segment n n_eq S)) = n_eq).
  { unfold vdiv. rewrite vmap2_length. lia. }
  assert (L2 : length (vsub (vdiv v (segment n n_eq S)) (qp_b qp)) = n_eq).
  { unfold vsub. rewrite vmap2_length, L1, len_b. fold n_eq. lia. }
  rewrite L2.
  apply vec_ext.
  - unfold vmul, vsub at 2. rewrite !vmap2_length, L2, Ls, Lv, Lbs. lia.
  - intros k Hk. unfold vmul in Hk. rewrite vmap2_length, L2, Ls in Hk.
    assert (Hk' : (k < n_eq)%nat) by lia.
    rewrite get_vmul_R.
    rewrite !get_vsub_R by (rewrite ?L1, ?len_b, ?Lv, ?Lbs; exact Hk').
    unfold vdiv. rewrite get_vmap2 by (rewrite ?Lv, ?Ls; exact Hk').
    rewrite get_segment by exact Hk'. rewrite (Hb k Hk').
    assert (0 < get S (n + k)) by (apply HS; lia).
    scalar_R. field. lra.
Qed.

Lemma scale_unscale_in_residual (v : list R) :
  length v = n_in ->
  scale_primal_residual_in_place_in r'
    (unscale_primal_residual_in_place_in r' v) = v.
Proof.
  intros Lv.
  destruct (ruiz_scale_qp_positive _ _ _ run size_delta)
    as (Hd & _ & HL & _).
  unfold scale_primal_residual_in_place_in,
    unscale_primal_residual_in_place_in.
  assert (Lt : length (tail (length v) (re_delta r')) = length v).
  { unfold tail. rewrite length_skipn, HL, size_delta, Lv.
    fold n n_eq n_in. lia. }
  assert (L1 : length (vdiv v (tail (length v) (re_delta r'))) = length v).
  { unfold vdiv. rewrite vmap2_length, Lt. lia. }
  rewrite L1. apply vmul_vdiv_R; [|lia].
  apply Forall_pos_nonzero. unfold tail. apply Forall_skipn. exact Hd.
Qed.

Lemma scale_unscale_dual_residual (d : list R) :
  length d = n ->
  scale_dual_residual_in_place r' (unscale_dual_residual_in_place r' d) = d.
Proof.
  intros Ld.
  destruct (ruiz_scale_qp_positive _ _ _ run size_delta)
    as (Hd & Hc & HL & Hn).
  unfold scale_dual_residual_in_place, unscale_dual_residual_in_place.
  apply vmul_vdiv_R.
  - apply Forall_map_mul_nonzero; [lra|].
    apply Forall_pos_nonzero. unfold head. apply Forall_firstn. exact Hd.
  - rewrite length_map. unfold head. rewrite length_firstn, HL, size_delta.
    rewrite Hn, size_n, Ld. fold n. lia.
Qed.

End ScaledCaches.

(** X16.  In exact arithmetic, after the equilibration of a well-formed QP:
    the residual caches that an outer iteration hands to the inner solver
    are the residuals of the scaled QP at the scaled iterates, namely
    [A_s x - b_s], [C_s x + z / mu_in - l_s], [C_s x + z / mu_in - u_s] and
    [g_s + H_s x + A_s^T y + C_s^T z], although they are computed by
    unscaling, subtracting the unscaled [b] and scaling again. *)
Theorem inner_solver_starts_from_the_scaled_residuals
        (fuel : nat) (r r' : RuizEquilibration R) (qp qs : QpView R)
        (rounds : nat) (perm_inv : list nat) (s : OuterState R) :
  qp_wf qp ->
  length (qp_b qp) = ncols (qp_AT qp) ->
  length (qp_l qp) = ncols (qp_CT qp) ->
  length (qp_u qp) = ncols (qp_CT qp) ->
  re_sym r = UPPER ->
  re_n r = nrows (qp_H qp) ->
  length (re_delta r)
  = (nrows (qp_H qp) + ncols (qp_AT qp) + ncols (qp_CT qp))%nat ->
  ruiz_scale_qp fuel r qp = Some (r', qs, rounds) ->
  let pb := {| pb_n := nrows (qp_H qp); pb_n_eq := ncols (qp_AT qp);
               pb_n_in := ncols (qp_CT qp); pb_qp := qp; pb_qp_scaled := qs;
               pb_perm_inv := perm_inv |} in
  sized pb (os_it s) ->
  let x := it_x (os_it s) in
  let y := it_y (os_it s) in
  let z := it_z (os_it s) in
  let res := is_res (inner_input (Ruiz_preconditioner fuel) r' pb s) in
  let Cx_z := vadd (mat_tmul (qp_CT qs) x)
                   (vscale (s_div s1 (mu_in (os_pen s))) z) in
  primal_residual_eq_scaled res = vsub (mat_tmul (qp_AT qs) x) (qp_b qs)
  /\ primal_residual_in_scaled_lo res = vsub Cx_z (qp_l qs)
  /\ primal_residual_in_scaled_up res = vsub Cx_z (qp_u qs)
  /\ dual_residual_scaled res
     = vadd (vadd (vadd (qp_g qs) (symhi_mul (qp_H qs) x))
                  (mat_mul (qp_AT qs) y))
            (mat_mul (qp_CT qs) z).
Proof.
  intros wf Lb Ll Lu Hsym Hn HL Hr pb Hs x y z res Cx_z.
  destruct (@scaled_sizes fuel r r' qp qs rounds wf Hsym Hn HL Hr)
    as (NA & NC & RH & RA & RC & Lg).
  unfold res, inner_input, unscaled_primal_residual, unscaled_dual_residual.
  cbv zeta.
  cbn [is_res primal_residual_eq_scaled primal_residual_in_scaled_lo
       primal_residual_in_scaled_up dual_residual_scaled pb pb_qp
       pb_qp_scaled Ruiz_preconditioner
       pc_scale_primal_residual_in_place_eq
       pc_scale_primal_residual_in_place_in
       pc_scale_dual_residual_in_place
       pc_unscale_primal_residual_in_place_eq
       pc_unscale_primal_residual_in_place_in
       pc_unscale_dual_residual_in_place].
  fold x y z.
  rewrite (@scale_eq_residual fuel r r' qp qs rounds wf Lb Ll Lu Hsym Hn HL
             Hr (mat_tmul (qp_AT qs) x))
    by (rewrite mat_tmul_length; exact NA).
  rewrite (@scale_unscale_in_residual fuel r r' qp qs rounds Lb Ll Lu Hn HL Hr
             (mat_tmul (qp_CT qs) x))
    by (rewrite mat_tmul_length; exact NC).
  rewrite (@scale_unscale_dual_residual fuel r r' qp qs rounds Lb Ll Lu Hn HL Hr).
  - repeat split; reflexivity.
  - unfold vadd. rewrite !vmap2_length, Lg, symhi_mul_length,
      !mat_mul_length, RH, RA, RC. lia.
Qed.

(** Witness of X16: the example equilibration, at the scaled iterates
    [(5, 7, 9)] with the initial penalties. *)
Lemma inner_solver_starts_from_the_scaled_residuals_witness :
  let qs := rz_qp ruiz_example_state in
  let pb := {| pb_n := 1; pb_n_eq := 1; pb_n_in := 1;
               pb_qp := ruiz_example_qp; pb_qp_scaled := qs;
               pb_perm_inv := [] |} in
  let s := {| os_it := {| it_x := [5%R]; it_y := [7%R]; it_z := [9%R] |};
              os_pen := initial_penalty;
              os_bcl := {| bcl_eta_ext := 1%R; bcl_eta_in := 1%R |};
              os_aset := initial_active_set pb initial_penalty |} in
  let res := is_res (inner_input (Ruiz_preconditioner 2) ruiz_example_scaled
                                 pb s) in
  let Cx_z := vadd (mat_tmul (qp_CT qs) [5%R])
                   (vscale (s_div s1 (mu_in (os_pen s))) [9%R]) in
  primal_residual_eq_scaled res = vsub (mat_tmul (qp_AT qs) [5%R]) (qp_b qs)
  /\ primal_residual_in_scaled_lo res = vsub Cx_z (qp_l qs)
  /\ primal_residual_in_scaled_up res = vsub Cx_z (qp_u qs)
  /\ dual_residual_scaled res
     = vadd (vadd (vadd (qp_g qs) (symhi_mul (qp_H qs) [5%R]))
                  (mat_mul (qp_AT qs) [7%R]))
            (mat_mul (qp_CT qs) [9%R]).
Proof.
  intros qs pb s.
  apply (@inner_solver_starts_from_the_scaled_residuals 2
           ruiz_example_precond ruiz_example_scaled ruiz_example_qp
           qs 1 [] s).
  - apply qp_1_1_1_wf.
  - reflexivity.
  - reflexivity.
  - reflexivity.
  - reflexivity.
  - reflexivity.
  - reflexivity.
  - exact ruiz_example_run.
  - repeat split; reflexivity.
Defined.
(* ================================================================== *)
(** * The first iterate of a warm start *)
(* ================================================================== *)

(** X17.  For every scalar type and preconditioner: with [warm_start] set,
    the vectors [x], [y], [z] given to the solver are taken as the first
    iterate as they are, without being scaled.  When [max_iter] is not
    positive, or when they pass the convergence test of the first turn, the
    solver returns them after unscaling them (so, after an equilibration,
    not the vectors it was given), and neither the linear solve nor the
    inner solver is used. *)
Theorem warm_start_is_returned_unscaled
        (T : Type) (ST : Scalar T) (pow : T -> T -> T) (P : Type)
        (pc : Preconditioner T P) (precond : P) (settings : QPSettings T)
        (pb : Problem T)
        (inner_solver : nat -> Penalty T -> Bcl T -> list T -> InnerState T
                        -> option (InnerState T))
        (ldl_solve_in_place : Penalty T -> ActiveSet T -> list T -> list T)
        (x y z : list T) :
  warm_start settings = true ->
  let unscaled :=
    {| it_x := pc_unscale_primal_in_place pc precond x;
       it_y := pc_unscale_dual_in_place_eq pc precond y;
       it_z := pc_unscale_dual_in_place_in pc precond z |} in
  ((max_iter settings <= 0)%Z ->
   qp_solve_loop pow pc precond settings pb inner_solver ldl_solve_in_place
                 x y z
   = Some (unscaled, MaxIterReached))
  /\ ((0 < max_iter settings)%Z ->
      convergence_test pc precond settings pb
                       {| it_x := x; it_y := y; it_z := z |} = true ->
      qp_solve_loop pow pc precond settings pb inner_solver ldl_solve_in_place
                    x y z
      = Some (unscaled, Converged)).
Proof.
  intros Hw unscaled. unfold qp_solve_loop.
  assert (Hi : os_it (initial_outer_state pow settings pb ldl_solve_in_place
                                          x y z)
               = {| it_x := x; it_y := y; it_z := z |}).
  { unfold initial_outer_state, initial_iterates. cbn [os_it].
    rewrite Hw. reflexivity. }
  split.
  - intros Hm. replace (Z.to_nat (max_iter settings)) with 0%nat by lia.
    cbn [outer_loop]. rewrite Hi. reflexivity.
  - intros Hm Ht.
    destruct (Z.to_nat (max_iter settings)) as [|k] eqn:Ek; [lia|].
    cbn [outer_loop].
    rewrite outer_iteration_break_early by (rewrite Hi; exact Ht).
    rewrite Hi. reflexivity.
Qed.

(** Witness of X17, in double arithmetic: the QP "minimize x^2/2 + x"
    warm-started at its solution [x = -1], which passes the test. *)
Lemma warm_start_is_returned_unscaled_witness :
  let settings := example_settings true (s_lit 1 1000000000) 100 in
  let pb := problem_of qp_free in
  qp_solve_loop pow_01 Identity_preconditioner tt settings pb
                (example_inner settings qp_free)
                (ldl_solve_in_place (dense_kernel pb) settings pb)
                [s_lit (-1) 1] [] []
  = Some ({| it_x := [s_lit (-1) 1]; it_y := []; it_z := [] |}, Converged).
Proof.
  intros settings pb.
  apply (proj2 (@warm_start_is_returned_unscaled float _ pow_01 unit
                  Identity_preconditioner tt settings pb
                  (example_inner settings qp_free)
                  (ldl_solve_in_place (dense_kernel pb) settings pb)
                  [s_lit (-1) 1] [] [] eq_refl)).
  - reflexivity.
  - vm_compute. reflexivity.
Defined.
(* ================================================================== *)
(** * The breakpoints of the line search *)
(* ================================================================== *)

Section BreakpointsR.
Local Open Scope R_scope.

Lemma Reqb_eq (x y : R) : Reqb x y = true -> x = y.
Proof. unfold Reqb. destruct (Req_dec_T x y); [auto | discriminate]. Qed.

Lemma sort_insert_sorted (x : R) (l : list R) :
  StronglySorted Rle l -> StronglySorted Rle (sort_insert x l).
Proof.
  induction 1 as [|y l Hs IH Hy]; simpl.
  - constructor; constructor.
  - change (s_ltb x y) with (Rltb x y).
    destruct (Rltb x y) eqn:E.
    + apply Rltb_spec in E. constructor.
      * constructor; assumption.
      * constructor; [lra|]. eapply Forall_impl; [|exact Hy].
        simpl; intros; lra.
    + assert (Hyx : y <= x).
      { destruct (Rle_dec y x) as [Hl|Hl]; [exact Hl|].
        rewrite Rltb_true in E by lra. discriminate. }
      constructor; [exact IH|].
      apply Forall_forall. intros v Hv. apply sort_insert_In in Hv.
      destruct Hv as [->|Hv]; [exact Hyx|].
      rewrite Forall_forall in Hy. apply Hy. exact Hv.
Qed.

Lemma std_sort_sorted (l : list R) : StronglySorted Rle (std_sort l).
Proof.
  induction l as [|x l IH]; simpl; [constructor|].
  apply sort_insert_sorted. exact IH.
Qed.

Lemma std_unique_sorted (l : list R) :
  StronglySorted Rle l -> StronglySorted Rlt (std_unique l).
Proof.
  induction 1 as [|x l Hs IH Hx]; [constructor|].
  destruct l as [|y l]; [constructor; constructor|].
  change (std_unique (x :: y :: l))
    with (if s_eqb x y then std_unique (y :: l)
          else x :: std_unique (y :: l)).
  change (s_eqb x y) with (Reqb x y).
  destruct (Reqb x y) eqn:E; [exact IH|].
  constructor; [exact IH|].
  assert (Hxy : x < y).
  { inversion Hx; subst.
    destruct (Req_dec x y) as [Heq|Hne];
      [rewrite Reqb_true in E by exact Heq; discriminate | lra]. }
  apply Forall_forall. intros v Hv. apply std_unique_In in Hv.
  destruct Hv as [<-|Hv]; [exact Hxy|].
  inversion Hs; subst.
  match goal with
  | Hy : Forall (Rle y) l |- _ =>
      rewrite Forall_forall in Hy; specialize (Hy v Hv); lra
  end.
Qed.

Lemma std_unique_keeps (v : R) (l : list R) :
  In v l -> In v (std_unique l).
Proof.
  induction l as [|x l IH]; [auto|].
  destruct l as [|y l]; [auto|].
  change (std_unique (x :: y :: l))
    with (if s_eqb x y then std_unique (y :: l)
          else x :: std_unique (y :: l)).
  change (s_eqb x y) with (Reqb x y).
  intros Hv. destruct (Reqb x y) eqn:E.
  - apply Reqb_eq in E. apply IH. destruct Hv as [<-|Hv].
    + left. symmetry. exact E.
    + exact Hv.
  - destruct Hv as [<-|Hv]; [left; reflexivity | right; apply IH; exact Hv].
Qed.

End BreakpointsR.

(** X18.  In exact arithmetic: the breakpoints that the line search walks,
    that is the array [alphas] after [std::sort] and [std::unique], are
    strictly increasing, they are exactly the candidates that the collecting
    loop kept, and each of them is positive. *)
Theorem line_search_breakpoints_increase
        (pb : Problem R) (r : Residuals R) (Cdx_ : list R) :
  let alphas := std_unique (std_sort (collect_alphas pb r Cdx_)) in
  StronglySorted Rlt alphas
  /\ (forall a, In a alphas <-> In a (collect_alphas pb r Cdx_))
  /\ Forall (fun a => (0 < a)%R) alphas.
Proof.
  intros alphas.
  assert (Hin : forall a, In a alphas <-> In a (collect_alphas pb r Cdx_)).
  { intros a. unfold alphas. split.
    - intros Ha. apply std_sort_In. apply std_unique_In. exact Ha.
    - intros Ha. apply std_unique_keeps. apply std_sort_In. exact Ha. }
  split; [|split].
  - apply std_unique_sorted. apply std_sort_sorted.
  - exact Hin.
  - apply Forall_forall. intros a Ha. apply Hin in Ha.
    unfold collect_alphas in Ha. apply in_flat_map in Ha.
    destruct Ha as (i & _ & Ha). apply filter_In in Ha.
    destruct Ha as [_ Hpos]. change (s_ltb s0 a) with (Rltb s0 a) in Hpos.
    apply Rltb_spec in Hpos. rewrite s0_R in Hpos. exact Hpos.
Qed.
(* ================================================================== *)
(** * The linear solve without refinement passes *)
(* ================================================================== *)

Section NoPass.
Context {T : Type} `{Scalar T}.

Lemma head_vzero (n k : nat) : head n (vzero (n + k)) = vzero n.
Proof.
  unfold head, vzero. induction n as [|n IH]; simpl; [reflexivity|].
  rewrite IH. reflexivity.
Qed.

Lemma segment_vzero (i n k : nat) :
  segment i n (vzero (i + n + k)) = vzero n.
Proof.
  unfold segment. induction i as [|i IH]; simpl.
  - apply head_vzero.
  - exact IH.
Qed.

End NoPass.

(** X19.  For every scalar type and kernel: when
    [nb_iterative_refinement] is not positive, [ldl_iter_solve_noalias]
    makes no pass and leaves the solution at zero, whatever the right-hand
    side.  So every Newton direction of the inner loop is the zero vector,
    and the first iterate of a cold start is zero. *)
Theorem solve_without_refinement_pass_is_zero
        (T : Type) (ST : Scalar T) (HI : HasInfinity T) (K : Kernel T)
        (settings : QPSettings T) (pb : Problem T) (pen : Penalty T)
        (a : ActiveSet T) (rhs x_prev x y z : list T) (s : InnerState T) :
  (nb_iterative_refinement settings <= 0)%Z ->
  ldl_iter_solve_noalias K settings pb pen a rhs
  = (vzero (pb_n pb + pb_n_eq pb + pb_n_in pb), 0%nat)
  /\ (forall a' dw alpha,
        newton_step K settings pb pen x_prev s = Some (a', dw, alpha) ->
        dw = vzero (pb_n pb + pb_n_eq pb + pb_n_in pb))
  /\ (warm_start settings = false ->
      initial_iterates settings pb (ldl_solve_in_place K settings pb)
                       x y z a
      = {| it_x := vzero (pb_n pb); it_y := vzero (pb_n_eq pb);
           it_z := vzero (pb_n_in pb) |}).
Proof.
  intros Hnb.
  assert (E : forall pen a rhs,
             ldl_iter_solve_noalias K settings pb pen a rhs
             = (vzero (pb_n pb + pb_n_eq pb + pb_n_in pb), 0%nat)).
  { intros pen0 a0 rhs0. unfold ldl_iter_solve_noalias.
    replace (Z.to_nat (nb_iterative_refinement settings)) with 0%nat by lia.
    reflexivity. }
  split; [apply E|]. split.
  - intros a' dw alpha Hs. unfold newton_step in Hs.
    destruct (active_set_change K pb pen _ (is_aset s)) as [a1|];
      [|discriminate].
    inversion Hs; subst. unfold ldl_solve_in_place. rewrite E. reflexivity.
  - intros Hw. unfold initial_iterates. rewrite Hw.
    unfold ldl_solve_in_place. rewrite E. cbn [fst].
    rewrite <- Nat.add_assoc at 1. rewrite head_vzero.
    rewrite segment_vzero.
    replace (pb_n pb + pb_n_eq pb + pb_n_in pb)%nat
      with (pb_n pb + pb_n_eq pb + pb_n_in pb + 0)%nat at 1 by lia.
    rewrite segment_vzero. reflexivity.
Qed.

(** Witness of X19, in double arithmetic: the QP "minimize x^2/2 - 10 x
    subject to -1e20 <= x <= 0" with no refinement pass allowed. *)
Lemma solve_without_refinement_pass_is_zero_witness :
  let settings :=
    {| alpha_bcl := s1; beta_bcl := s1; mu_update_factor := s_lit 10 1;
       mu_max_eq := s_lit 10000000000 1; mu_max_in := s_lit 100000000 1;
       cold_reset_mu_eq := s_lit 11 10; cold_reset_mu_in := s_lit 11 10;
       eps_abs := s_lit 1 1000000000; eps_rel := s0;
       max_iter := 100; max_iter_in := 1500;
       nb_iterative_refinement := 0; warm_start := false |} in
  let pb := problem_of qp_bound in
  let K := dense_kernel pb in
  let a := initial_active_set pb (initial_penalty (T := float)) in
  let s := {| is_it := {| it_x := [s0]; it_y := []; it_z := [s0] |};
              is_res := {| primal_residual_eq_scaled := [];
                           primal_residual_in_scaled_lo := [s1];
                           primal_residual_in_scaled_up := [s0];
                           dual_residual_scaled := [s1] |};
              is_aset := a |} in
  ldl_iter_solve_noalias K settings pb initial_penalty a [s1; s0]
  = (vzero (pb_n pb + pb_n_eq pb + pb_n_in pb), 0%nat)
  /\ (forall a' dw alpha,
        newton_step K settings pb initial_penalty [s0] s
        = Some (a', dw, alpha) ->
        dw = vzero (pb_n pb + pb_n_eq pb + pb_n_in pb))
  /\ (warm_start settings = false ->
      initial_iterates settings pb (ldl_solve_in_place K settings pb)
                       [] [] [] a
      = {| it_x := vzero (pb_n pb); it_y := vzero (pb_n_eq pb);
           it_z := vzero (pb_n_in pb) |}).
Proof.
  intros settings pb K a s.
  apply (@solve_without_refinement_pass_is_zero float _ _ K settings pb
           initial_penalty a [s1; s0] [s0] [] [] [] s).
  vm_compute. discriminate.
Defined.
(* ================================================================== *)
(** * The permutation and its inverse *)
(* ================================================================== *)

Section PermutationFacts.

Lemma compute_perm_length (n_tot : nat) (perm_inv perm : list nat) :
  length (compute_perm n_tot perm_inv perm) = length perm.
Proof.
  unfold compute_perm. revert perm.
  induction (seq 0 n_tot) as [|i l IH]; intros perm; simpl; [reflexivity|].
  rewrite IH. apply set_nth_length.
Qed.

Lemma compute_perm_prefix (perm_inv perm : list nat) :
  NoDup perm_inv ->
  (forall i, (i < length perm_inv)%nat ->
             (nth i perm_inv 0 < length perm)%nat) ->
  forall k, (k <= length perm_inv)%nat ->
  forall i, (i < k)%nat ->
    nth (nth i perm_inv 0%nat) (compute_perm k perm_inv perm) 0%nat = i.
Proof.
  intros Hnd Hr. unfold compute_perm.
  induction k as [|k IH]; intros Hk i Hi; [lia|].
  rewrite seq_S, fold_left_app. cbn [fold_left Nat.add].
  set (p := fold_left _ (seq 0 k) perm) in *.
  assert (Lp : length p = length perm) by apply compute_perm_length.
  destruct (Nat.eq_dec i k) as [->|Hne].
  - apply nth_set_nth_same. rewrite Lp. apply Hr. lia.
  - rewrite nth_set_nth_other.
    + apply IH; lia.
    + intros E. apply Hne. symmetry.
      apply (proj1 (NoDup_nth perm_inv 0%nat) Hnd); [lia | lia | exact E].
Qed.

Lemma permutation_onto (n_tot : nat) (perm_inv : list nat) :
  NoDup perm_inv -> length perm_inv = n_tot ->
  (forall i, (i < n_tot)%nat -> (nth i perm_inv 0 < n_tot)%nat) ->
  forall j, (j < n_tot)%nat ->
    exists i, (i < n_tot)%nat /\ nth i perm_inv 0%nat = j.
Proof.
  intros Hnd HL Hr j Hj.
  assert (Hincl : incl (seq 0 n_tot) perm_inv).
  { apply NoDup_length_incl; [exact Hnd | rewrite length_seq; lia |].
    intros v Hv. destruct (In_nth _ _ 0%nat Hv) as (i & Hi & <-).
    apply in_seq. rewrite HL in Hi. specialize (Hr i Hi). lia. }
  assert (Hin : In j perm_inv) by (apply Hincl; apply in_seq; lia).
  destruct (In_nth _ _ 0%nat Hin) as (i & Hi & E).
  exists i. split; [lia | exact E].
Qed.

End PermutationFacts.

(** X20.  When [perm_inv] is a permutation of the [n_tot] slots, the loop
    "compute perm from perm_inv" makes [perm] its inverse, whatever the
    array held before: [perm[perm_inv[i]] = i] and [perm_inv[perm[j]] = j]
    for all slots, and [perm] has each slot once. *)
Theorem compute_perm_is_the_inverse_permutation
        (n_tot : nat) (perm_inv perm0 : list nat) :
  NoDup perm_inv -> length perm_inv = n_tot -> length perm0 = n_tot ->
  (forall i, (i < n_tot)%nat -> (nth i perm_inv 0 < n_tot)%nat) ->
  let perm := compute_perm n_tot perm_inv perm0 in
  length perm = n_tot
  /\ (forall i, (i < n_tot)%nat -> nth (nth i perm_inv 0%nat) perm 0%nat = i)
  /\ (forall j, (j < n_tot)%nat ->
                (nth j perm 0 < n_tot)%nat
                /\ nth (nth j perm 0%nat) perm_inv 0%nat = j)
  /\ NoDup perm.
Proof.
  intros Hnd HL HL0 Hr perm.
  assert (Lp : length perm = n_tot).
  { unfold perm. rewrite compute_perm_length. exact HL0. }
  assert (H1 : forall i, (i < n_tot)%nat ->
                 nth (nth i perm_inv 0%nat) perm 0%nat = i).
  { intros i Hi. apply compute_perm_prefix; try lia; [exact Hnd|].
    intros k Hk. rewrite HL0. apply Hr. lia. }
  assert (H2 : forall j, (j < n_tot)%nat ->
                 (nth j perm 0 < n_tot)%nat
                 /\ nth (nth j perm 0%nat) perm_inv 0%nat = j).
  { intros j Hj.
    destruct (permutation_onto Hnd HL Hr Hj) as (i & Hi & E).
    rewrite <- E at 1 2. rewrite (H1 i Hi). split; [exact Hi | exact E]. }
  split; [exact Lp|]. split; [exact H1|]. split; [exact H2|].
  apply (NoDup_nth perm 0%nat). intros i j Hi Hj E.
  rewrite Lp in Hi, Hj.
  rewrite <- (proj2 (H2 i Hi)), <- (proj2 (H2 j Hj)), E. reflexivity.
Qed.

(** Witness of X20: the permutation (2, 0, 1) of three slots. *)
Lemma compute_perm_is_the_inverse_permutation_witness :
  let perm := compute_perm 3 [2; 0; 1]%nat [7; 7; 7]%nat in
  length perm = 3%nat
  /\ (forall i, (i < 3)%nat ->
                nth (nth i [2; 0; 1]%nat 0%nat) perm 0%nat = i)
  /\ (forall j, (j < 3)%nat ->
                (nth j perm 0 < 3)%nat
                /\ nth (nth j perm 0%nat) [2; 0; 1]%nat 0%nat = j)
  /\ NoDup perm.
Proof.
  apply (@compute_perm_is_the_inverse_permutation 3 [2; 0; 1]%nat
           [7; 7; 7]%nat).
  - repeat constructor; simpl; intuition lia.
  - reflexivity.
  - reflexivity.
  - intros i Hi. destruct i as [|[|[|i]]]; simpl; lia.
Defined.

(** X21.  For every scalar type: with [perm] computed from a permutation
    [perm_inv], the two copies of [ldl_solve] cancel.  Entry [i] of the
    result is entry [perm_inv[i]] of what the triangular solves return, the
    solves are given the right-hand side with entry [perm_inv[i]] holding
    [rhs[i]], and with solves that change nothing the result is the
    right-hand side itself. *)
Theorem ldl_solve_permutations_cancel
        (T : Type) (ST : Scalar T) (n_tot : nat) (perm_inv perm0 : list nat)
        (solve : list T -> list T) (rhs : list T) :
  NoDup perm_inv -> length perm_inv = n_tot -> length perm0 = n_tot ->
  (forall i, (i < n_tot)%nat -> (nth i perm_inv 0 < n_tot)%nat) ->
  length rhs = n_tot ->
  let perm := compute_perm n_tot perm_inv perm0 in
  let work := map (fun i => get rhs (nth i perm 0%nat)) (seq 0 n_tot) in
  (forall i, (i < n_tot)%nat ->
     get work (nth i perm_inv 0%nat) = get rhs i
     /\ get (ldl_solve n_tot perm perm_inv solve rhs) i
        = get (solve work) (nth i perm_inv 0%nat))
  /\ ldl_solve n_tot perm perm_inv (fun w => w) rhs = rhs.
Proof.
  intros Hnd HL HL0 Hr Lr perm work.
  assert (H1 : forall i, (i < n_tot)%nat ->
                 nth (nth i perm_inv 0%nat) perm 0%nat = i).
  { intros i Hi. apply compute_perm_prefix; try lia; [exact Hnd|].
    intros k Hk. rewrite HL0. apply Hr. lia. }
  assert (Hw : forall i, (i < n_tot)%nat ->
                 get work (nth i perm_inv 0%nat) = get rhs i).
  { intros i Hi. unfold work.
    rewrite get_map_seq by (apply Hr; exact Hi).
    rewrite (H1 i Hi). reflexivity. }
  split.
  - intros i Hi. split; [exact (Hw i Hi)|].
    unfold ldl_solve. cbv zeta. fold work.
    rewrite get_map_seq by exact Hi. reflexivity.
  - unfold ldl_solve. cbv zeta. fold work.
    apply vec_ext.
    + rewrite length_map, length_seq. symmetry. exact Lr.
    + intros i Hi. rewrite length_map, length_seq in Hi.
      rewrite get_map_seq by exact Hi. apply Hw. exact Hi.
Qed.

(** Witness of X21, in double arithmetic: the permutation (2, 0, 1) and the
    right-hand side (1, 2, 3). *)
Lemma ldl_solve_permutations_cancel_witness :
  let rhs := [s_lit 1 1; s_lit 2 1; s_lit 3 1] : list float in
  let perm := compute_perm 3 [2; 0; 1]%nat [7; 7; 7]%nat in
  let work := map (fun i => get rhs (nth i perm 0%nat)) (seq 0 3) in
  (forall i, (i < 3)%nat ->
     get work (nth i [2; 0; 1]%nat 0%nat) = get rhs i
     /\ get (ldl_solve 3 perm [2; 0; 1]%nat (fun w => w) rhs) i
        = get work (nth i [2; 0; 1]%nat 0%nat))
  /\ ldl_solve 3 perm [2; 0; 1]%nat (fun w => w) rhs = rhs.
Proof.
  intros rhs.
  apply (@ldl_solve_permutations_cancel float _ 3 [2; 0; 1]%nat
           [7; 7; 7]%nat (fun w => w) rhs).
  - repeat constructor; simpl; intuition lia.
  - reflexivity.
  - reflexivity.
  - intros i Hi. destruct i as [|[|[|i]]]; simpl; lia.
  - reflexivity.
Defined.
(* ================================================================== *)
(** * The assembly of the KKT storage *)
(* ================================================================== *)

Section KktAssembly.
Context {T : Type} `{Scalar T}.
Variable checked_non_negative_plus : nat -> nat -> option nat.
Variable narrow : nat -> option nat.

(** The index type holds the values up to [I_max]. *)
Variable I_max : nat.
Hypothesis plus_fits :
  forall a b, (a + b <= I_max)%nat ->
              checked_non_negative_plus a b = Some (a + b)%nat.
Hypothesis narrow_fits :
  forall i, (i <= I_max)%nat -> narrow i = Some i.

Let entry := @insert_entry T _ narrow.
Let column := @insert_column T _ checked_non_negative_plus narrow.

Lemma write_in {A : Type} (k : nat) (v : A) (a : list A) :
  (k < length a)%nat -> write k v a = Some (set_nth k v a).
Proof.
  intros Hk. unfold write.
  replace (k <? length a)%nat with true
    by (symmetry; apply Nat.ltb_lt; exact Hk).
  reflexivity.
Qed.

(** The length of column [j] of [m]. *)
Let len (m : Mat T) (j : nat) : nat := (col_end m j - col_start m j)%nat.

(** The loop over the entries of a column. *)
Lemma insert_entries (m : Mat T) (a : bool) (j : nat) :
  forall (k start : nat) (st : KktBuild T),
    (forall t, (t < k)%nat ->
       (a = true -> nth (start + t) (row_indices m) 0 <= j)%nat
       /\ (nth (start + t) (row_indices m) 0 <= I_max)%nat) ->
    (kb_pos st + k <= length (kkti st))%nat ->
    length (kktx st) = length (kkti st) ->
    exists st',
      fold_left (entry m a j) (seq start k) (Some st) = Some st'
      /\ kktp st' = kktp st /\ kb_col st' = kb_col st
      /\ kb_pos st' = (kb_pos st + k)%nat
      /\ length (kkti st') = length (kkti st)
      /\ length (kktx st') = length (kktx st)
      /\ (forall q, (q < kb_pos st)%nat ->
            nth q (kkti st') 0%nat = nth q (kkti st) 0%nat
            /\ get (kktx st') q = get (kktx st) q)
      /\ (forall t, (t < k)%nat ->
            nth (kb_pos st + t) (kkti st') 0%nat
            = nth (start + t) (row_indices m) 0%nat
            /\ get (kktx st') (kb_pos st + t) = get (values m) (start + t)).
Proof.
  induction k as [|k IH]; intros start st Hrows Hpos Hlen.
  - exists st. simpl. repeat split; auto; intros; lia.
  - cbn [seq fold_left].
    destruct (Hrows 0%nat ltac:(lia)) as [Ha Hi].
    rewrite Nat.add_0_r in Ha, Hi.
    assert (E1 : entry m a j (Some st) start
                 = Some {| kktp := kktp st;
                           kkti := set_nth (kb_pos st)
                                     (nth start (row_indices m) 0%nat)
                                     (kkti st);
                           kktx := set_nth (kb_pos st)
                                     (get (values m) start) (kktx st);
                           kb_col := kb_col st;
                           kb_pos := S (kb_pos st) |}).
    { unfold entry, insert_entry. cbv zeta.
      replace (a && negb (nth start (row_indices m) 0 <=? j)%nat)
        with false.
      - rewrite (narrow_fits Hi).
        rewrite !write_in by lia. reflexivity.
      - destruct a; [|reflexivity]. simpl.
        replace (nth start (row_indices m) 0 <=? j)%nat with true;
          [reflexivity|].
        symmetry. apply Nat.leb_le. apply Ha. reflexivity. }
    rewrite E1.
    match goal with
    | |- context [fold_left _ _ (Some ?s)] => set (st1 := s)
    end.
    destruct (IH (S start) st1) as (st' & Ef & Ep & Ec & Eq & Li & Lx & Hpre & Hent).
    + intros t Ht. replace (S start + t)%nat with (start + S t)%nat by lia.
      apply Hrows. lia.
    + unfold st1; cbn [kb_pos kkti]. rewrite set_nth_length. lia.
    + unfold st1; cbn [kktx kkti]. rewrite !set_nth_length. exact Hlen.
    + exists st'. unfold st1 in *; cbn [kktp kkti kktx kb_col kb_pos] in *.
      rewrite set_nth_length in Li, Lx.
      split; [exact Ef|]. split; [exact Ep|]. split; [exact Ec|].
      split; [lia|]. split; [exact Li|]. split; [exact Lx|]. split.
      * intros q Hq. destruct (Hpre q ltac:(lia)) as [P1 P2].
        rewrite P1, P2. split.
        -- apply nth_set_nth_other. lia.
        -- unfold get. apply nth_set_nth_other. lia.
      * intros t Ht. destruct t as [|t].
        -- rewrite !Nat.add_0_r.
           destruct (Hpre (kb_pos st) ltac:(lia)) as [P1 P2].
           rewrite P1, P2. split.
           ++ apply nth_set_nth_same. lia.
           ++ unfold get. apply nth_set_nth_same. lia.
        -- replace (kb_pos st + S t)%nat with (S (kb_pos st) + t)%nat by lia.
           replace (start + S t)%nat with (S start + t)%nat by lia.
           apply Hent. lia.
Qed.

(** A column to insert: the matrix, whether the assertion on the upper
    triangle is on, and the index of the column. *)
Let Col : Type := (Mat T * bool * nat)%type.

Let step (acc : option (KktBuild T)) (c : Col) : option (KktBuild T) :=
  column (fst (fst c)) (snd (fst c)) acc (snd c).

Let clen (c : Col) : nat := len (fst (fst c)) (snd c).

Let total (cols : list Col) : nat := list_sum (map clen cols).

(** The rows of the column pass the assertion and fit the index type. *)
Let col_ok (c : Col) : Prop :=
  forall t, (t < clen c)%nat ->
    let row := nth (col_start (fst (fst c)) (snd c) + t)
                   (row_indices (fst (fst c))) 0%nat in
    (snd (fst c) = true -> row <= snd c)%nat /\ (row <= I_max)%nat.

Lemma insert_columns :
  forall (cols : list Col) (st : KktBuild T),
    Forall col_ok cols ->
    (kb_col st + length cols < length (kktp st))%nat ->
    nth (kb_col st) (kktp st) 0%nat = kb_pos st ->
    (kb_pos st + total cols <= length (kkti st))%nat ->
    length (kktx st) = length (kkti st) ->
    (kb_pos st + total cols <= I_max)%nat ->
    exists st',
      fold_left step cols (Some st) = Some st'
      /\ kb_col st' = (kb_col st + length cols)%nat
      /\ kb_pos st' = (kb_pos st + total cols)%nat
      /\ length (kktp st') = length (kktp st)
      /\ length (kkti st') = length (kkti st)
      /\ length (kktx st') = length (kktx st)
      /\ (forall c, (c <= kb_col st)%nat ->
            nth c (kktp st') 0%nat = nth c (kktp st) 0%nat)
      /\ (forall q, (q < kb_pos st)%nat ->
            nth q (kkti st') 0%nat = nth q (kkti st) 0%nat
            /\ get (kktx st') q = get (kktx st) q)
      /\ (forall k, (k <= length cols)%nat ->
            nth (kb_col st + k) (kktp st') 0%nat
            = (kb_pos st + total (firstn k cols))%nat)
      /\ (forall k c, nth_error cols k = Some c ->
            forall t, (t < clen c)%nat ->
              nth (kb_pos st + total (firstn k cols) + t) (kkti st') 0%nat
              = nth (col_start (fst (fst c)) (snd c) + t)
                    (row_indices (fst (fst c))) 0%nat
              /\ get (kktx st') (kb_pos st + total (firstn k cols) + t)
                 = get (values (fst (fst c)))
                       (col_start (fst (fst c)) (snd c) + t)).
Proof.
  induction cols as [|c cols IH]; intros st Hok Hcol Hp Hpos Hlen Hmax.
  - exists st. cbn [fold_left length]. unfold total; cbn [map list_sum].
    repeat split; auto; try lia.
    + intros k Hk. replace k with 0%nat by lia. cbn [firstn map list_sum].
      rewrite !Nat.add_0_r. exact Hp.
    + destruct k; discriminate.
    + destruct k; discriminate.
  - inversion Hok as [|c0 cols0 Hc Hcs]; subst.
    assert (Ht : total (c :: cols) = (clen c + total cols)%nat) by reflexivity.
    rewrite Ht in *. cbn [length] in Hcol.
    destruct c as [[m a] j]. cbn [fold_left].
    unfold step at 2. cbn [fst snd]. unfold column, insert_column.
    rewrite Hp.
    change (col_end m j - col_start m j)%nat with (clen (m, a, j)).
    rewrite plus_fits by lia. rewrite write_in by lia.
    set (st0 := {| kktp := set_nth (S (kb_col st))
                             (kb_pos st + clen (m, a, j))%nat (kktp st);
                   kkti := kkti st; kktx := kktx st;
                   kb_col := S (kb_col st); kb_pos := kb_pos st |}).
    destruct (@insert_entries m a j (clen (m, a, j)) (col_start m j) st0)
      as (st1 & E1 & P1 & C1 & Q1 & Li1 & Lx1 & Pre1 & Ent1).
    { intros t Ht'. apply (Hc t Ht'). }
    { unfold st0; cbn [kb_pos kkti]. lia. }
    { unfold st0; cbn [kktx kkti]. exact Hlen. }
    unfold col_range.
    change (col_end m j - col_start m j)%nat with (clen (m, a, j)).
    fold entry. rewrite E1.
    unfold st0 in P1, C1, Q1, Li1, Lx1, Pre1, Ent1.
    cbn [kktp kkti kktx kb_col kb_pos] in P1, C1, Q1, Li1, Lx1, Pre1, Ent1.
    destruct (IH st1 Hcs) as
      (st' & Ef & Ec & Eq & Lp & Li & Lx & Hpp & Hpre & Hptr & Hent).
    { rewrite C1, P1, set_nth_length. lia. }
    { rewrite C1, P1, Q1. apply nth_set_nth_same. lia. }
    { rewrite Q1, Li1. lia. }
    { rewrite Lx1, Li1. exact Hlen. }
    { rewrite Q1. lia. }
    exists st'. split; [exact Ef|].
    rewrite C1 in Ec, Hpp, Hptr. rewrite Q1 in Eq, Hpre, Hptr, Hent.
    rewrite P1, set_nth_length in Lp. rewrite Li1 in Li. rewrite Lx1 in Lx.
    cbn [length].
    split; [lia|]. split; [lia|]. split; [exact Lp|]. split; [exact Li|].
    split; [exact Lx|]. split; [|split; [|split]].
    + intros c Hc'. rewrite Hpp by lia. rewrite P1.
      apply nth_set_nth_other. lia.
    + intros q Hq. destruct (Hpre q ltac:(lia)) as [A1 A2].
      destruct (Pre1 q Hq) as [B1 B2]. rewrite A1, A2. auto.
    + intros k Hk. destruct k as [|k].
      * cbn [firstn]. unfold total at 1; cbn [map list_sum].
        rewrite !Nat.add_0_r. rewrite Hpp by lia. rewrite P1.
        rewrite nth_set_nth_other by lia. exact Hp.
      * cbn [firstn].
        change (total ((m, a, j) :: firstn k cols))
          with (clen (m, a, j) + total (firstn k cols))%nat.
        replace (kb_col st + S k)%nat with (S (kb_col st) + k)%nat by lia.
        rewrite Hptr by lia. lia.
    + intros k c Hk t Ht'. destruct k as [|k].
      * cbn [nth_error] in Hk. inversion Hk; subst c. cbn [firstn fst snd].
        unfold total at 1 2; cbn [map list_sum]. rewrite !Nat.add_0_r.
        destruct (Hpre (kb_pos st + t)%nat ltac:(lia)) as [A1 A2].
        rewrite A1, A2. apply Ent1. exact Ht'.
      * cbn [nth_error] in Hk. cbn [firstn].
        change (total ((m, a, j) :: firstn k cols))
          with (clen (m, a, j) + total (firstn k cols))%nat.
        rewrite !Nat.add_assoc. apply (Hent k c Hk t Ht').
Qed.

(** [insert_submatrix] inserts the columns of its matrix in turn. *)
Lemma insert_submatrix_fold (m : Mat T) (a : bool)
      (acc : option (KktBuild T)) :
  insert_submatrix checked_non_negative_plus narrow m a acc
  = fold_left step (map (fun j => (m, a, j)) (seq 0 (ncols m))) acc.
Proof.
  unfold insert_submatrix. revert acc.
  induction (seq 0 (ncols m)) as [|j l IH]; intros acc; [reflexivity|].
  cbn [map fold_left]. rewrite IH. reflexivity.
Qed.

Lemma total_app (a b : list Col) : total (a ++ b) = (total a + total b)%nat.
Proof. unfold total. rewrite map_app, list_sum_app. reflexivity. Qed.

Lemma total_firstn_S (cols : list Col) (k : nat) (c : Col) :
  nth_error cols k = Some c ->
  total (firstn (S k) cols) = (total (firstn k cols) + clen c)%nat.
Proof.
  revert k. induction cols as [|c0 cols IH]; intros [|k] Hk;
    try discriminate.
  - inversion Hk; subst. cbn [firstn]. unfold total. simpl. lia.
  - cbn [nth_error] in Hk. change (firstn (S (S k)) (c0 :: cols))
      with (c0 :: firstn (S k) cols).
    change (firstn (S k) (c0 :: cols)) with (c0 :: firstn k cols).
    change (total (c0 :: firstn (S k) cols))
      with (clen c0 + total (firstn (S k) cols))%nat.
    change (total (c0 :: firstn k cols))
      with (clen c0 + total (firstn k cols))%nat.
    rewrite (IH k Hk). lia.
Qed.

(** The columns of a compressed matrix, added up. *)
Lemma total_columns (m : Mat T) (a : bool) (k : nat) :
  csc_wf m -> (k <= ncols m)%nat ->
  total (map (fun j => (m, a, j)) (seq 0 k))
  = (col_start m k - col_start m 0)%nat.
Proof.
  intros wf. induction k as [|k IH]; intros Hk.
  - cbn. lia.
  - rewrite seq_S, map_app, total_app, IH by lia. cbn [map Nat.add].
    unfold total. simpl list_sum. unfold clen, len. cbn [fst snd map].
    simpl list_sum.
    rewrite col_end_next by exact wf.
    pose proof (col_start_mono wf) as Hm.
    assert (H0 : (col_start m 0 <= col_start m k)%nat)
      by (apply Hm; lia).
    assert (H1 : (col_start m k <= col_start m (S k))%nat)
      by (apply Hm; lia).
    lia.
Qed.

Lemma nth_error_columns (m : Mat T) (a : bool) (k j : nat) :
  (j < k)%nat ->
  nth_error (map (fun j => (m, a, j)) (seq 0 k)) j = Some (m, a, j).
Proof.
  intros Hj. rewrite nth_error_map.
  rewrite (nth_error_nth' (seq 0 k) 0%nat) by (rewrite length_seq; exact Hj).
  rewrite seq_nth by exact Hj. reflexivity.
Qed.

Variable qp : QpView T.
Variable work0 : QpWorkspace T.

Let n : nat := nrows (qp_H qp).
Let n_eq : nat := ncols (qp_AT qp).
Let n_in : nat := ncols (qp_CT qp).
Let nnz_tot : nat := (nnz (qp_H qp) + nnz (qp_AT qp) + nnz (qp_CT qp))%nat.

Hypothesis wf : qp_wf qp.
Hypothesis nnz_H :
  nnz (qp_H qp)
  = (col_start (qp_H qp) (ncols (qp_H qp)) - col_start (qp_H qp) 0)%nat.
Hypothesis nnz_AT :
  nnz (qp_AT qp)
  = (col_start (qp_AT qp) (ncols (qp_AT qp)) - col_start (qp_AT qp) 0)%nat.
Hypothesis nnz_CT :
  nnz (qp_CT qp)
  = (col_start (qp_CT qp) (ncols (qp_CT qp)) - col_start (qp_CT qp) 0)%nat.
Hypothesis len_p : length (kkt_col_ptrs work0) = (n + n_eq + n_in + 1)%nat.
Hypothesis len_i : length (kkt_row_indices work0) = nnz_tot.
Hypothesis len_x : length (kkt_values work0) = nnz_tot.
Hypothesis fits_n : (n <= I_max)%nat.
Hypothesis fits_nnz : (nnz_tot <= I_max)%nat.

Let cols : list Col :=
  map (fun j => (qp_H qp, true, j)) (seq 0 n)
  ++ map (fun j => (qp_AT qp, false, j)) (seq 0 n_eq)
  ++ map (fun j => (qp_CT qp, false, j)) (seq 0 n_in).

Lemma cols_length : length cols = (n + n_eq + n_in)%nat.
Proof.
  unfold cols. rewrite !length_app, !length_map, !length_seq. lia.
Qed.

Lemma cols_total : total cols = nnz_tot.
Proof.
  destruct wf as (wH & wA & wC & _ & sq & _).
  unfold cols. rewrite !total_app.
  unfold n. rewrite <- sq.
  rewrite !total_columns by (assumption || apply le_n).
  unfold nnz_tot. rewrite nnz_H, nnz_AT, nnz_CT. unfold n_eq, n_in. lia.
Qed.

Lemma cols_H (j : nat) :
  (j < n)%nat -> nth_error cols j = Some (qp_H qp, true, j).
Proof.
  intros Hj. unfold cols.
  rewrite nth_error_app1 by (rewrite length_map, length_seq; exact Hj).
  apply nth_error_columns. exact Hj.
Qed.

Lemma cols_AT (j : nat) :
  (j < n_eq)%nat -> nth_error cols (n + j) = Some (qp_AT qp, false, j).
Proof.
  intros Hj. unfold cols.
  rewrite nth_error_app2 by (rewrite length_map, length_seq; lia).
  rewrite length_map, length_seq.
  replace (n + j - n)%nat with j by lia.
  rewrite nth_error_app1 by (rewrite length_map, length_seq; exact Hj).
  apply nth_error_columns. exact Hj.
Qed.

Lemma cols_CT (j : nat) :
  (j < n_in)%nat ->
  nth_error cols (n + n_eq + j) = Some (qp_CT qp, false, j).
Proof.
  intros Hj. unfold cols.
  rewrite nth_error_app2 by (rewrite length_map, length_seq; lia).
  rewrite length_map, length_seq.
  rewrite nth_error_app2 by (rewrite length_map, length_seq; lia).
  rewrite length_map, length_seq.
  replace (n + n_eq + j - n - n_eq)%nat with j by lia.
  apply nth_error_columns. exact Hj.
Qed.

Lemma cols_ok : Forall col_ok cols.
Proof.
  destruct wf as (wH & wA & wC & up & sq & rA & rC & _).
  assert (Hgen : forall (m : Mat T) (a : bool) (k : nat),
            csc_wf m -> (k <= ncols m)%nat -> (nrows m <= I_max)%nat ->
            (a = true -> upper_triangular m) ->
            Forall col_ok (map (fun j => (m, a, j)) (seq 0 k))).
  { intros m a k wm Hk Hr Hu. apply Forall_forall. intros c Hc.
    apply in_map_iff in Hc. destruct Hc as (j & <- & Hj).
    apply in_seq in Hj. unfold col_ok, clen, len. cbn [fst snd].
    intros t Ht. cbv zeta.
    assert (Hp : (col_start m j <= col_start m j + t < col_end m j)%nat)
      by lia.
    split.
    - intros Ha. apply (Hu Ha j); [lia | exact Hp].
    - assert (Hrow : (nth (col_start m j + t) (row_indices m) 0
                      < nrows m)%nat).
      { destruct wm as (Hc0 & _ & _ & Hrows). apply (Hrows j); [lia|].
        unfold col_start, col_end in Hp. rewrite Hc0 in Hp. exact Hp. }
      lia. }
  unfold cols. apply Forall_app. split; [|apply Forall_app; split].
  - apply Hgen; [exact wH | unfold n; lia | exact fits_n | intros _; exact up].
  - apply Hgen; [exact wA | apply le_n | rewrite rA; exact fits_n
                 | discriminate].
  - apply Hgen; [exact wC | apply le_n | rewrite rC; exact fits_n
                 | discriminate].
Qed.

(** The arrays that [setup_impl] returns. *)
Lemma setup_impl_layout :
  exists work,
    setup_impl checked_non_negative_plus narrow qp work0 = Some work
    /\ length (kkt_col_ptrs work) = (n + n_eq + n_in + 1)%nat
    /\ (forall k, (k <= n + n_eq + n_in)%nat ->
          nth k (kkt_col_ptrs work) 0%nat = total (firstn k cols))
    /\ (forall k c, nth_error cols k = Some c ->
          forall t, (t < clen c)%nat ->
            nth (total (firstn k cols) + t) (kkt_row_indices work) 0%nat
            = nth (col_start (fst (fst c)) (snd c) + t)
                  (row_indices (fst (fst c))) 0%nat
            /\ get (kkt_values work) (total (firstn k cols) + t)
               = get (values (fst (fst c)))
                     (col_start (fst (fst c)) (snd c) + t)).
Proof.
  set (st0 := {| kktp := set_nth 0 0%nat (kkt_col_ptrs work0);
                 kkti := kkt_row_indices work0; kktx := kkt_values work0;
                 kb_col := 0; kb_pos := 0 |}).
  destruct (@insert_columns cols st0 cols_ok)
    as (st' & Ef & Ec & Eq & Lp & Li & Lx & _ & _ & Hptr & Hent).
  { unfold st0; cbn [kb_col kktp]. rewrite set_nth_length, cols_length. lia. }
  { unfold st0; cbn [kb_col kktp kb_pos]. apply nth_set_nth_same. lia. }
  { unfold st0; cbn [kb_pos kkti]. rewrite cols_total. lia. }
  { unfold st0; cbn [kktx kkti]. congruence. }
  { unfold st0; cbn [kb_pos]. rewrite cols_total. exact fits_nnz. }
  exists {| kkt_col_ptrs := kktp st'; kkt_row_indices := kkti st';
            kkt_values := kktx st' |}.
  unfold st0 in Lp, Hptr, Hent. cbn [kktp kb_col kb_pos] in Lp, Hptr, Hent.
  split; [|split; [|split]].
  - unfold setup_impl. rewrite write_in by lia.
    rewrite !insert_submatrix_fold.
    destruct wf as (_ & _ & _ & _ & sq & _).
    rewrite sq. fold n n_eq n_in.
    rewrite <- !fold_left_app. fold st0.
    rewrite <- ?app_assoc.
    match goal with
    | |- match ?f with _ => _ end = _ =>
        replace f with (Some st') by (symmetry; exact Ef); reflexivity
    end.
  - cbn [kkt_col_ptrs]. rewrite Lp, set_nth_length. exact len_p.
  - intros k Hk. cbn [kkt_col_ptrs].
    exact (Hptr k ltac:(rewrite cols_length; exact Hk)).
  - intros k c Hk t Ht. cbn [kkt_row_indices kkt_values].
    apply (Hent k c Hk t Ht).
Qed.

Lemma nth_slice (l : list nat) (off k j : nat) :
  (j < k)%nat -> nth j (firstn k (skipn off l)) 0%nat = nth (off + j) l 0%nat.
Proof.
  intros Hj. rewrite nth_firstn.
  replace (j <? k)%nat with true by (symmetry; apply Nat.ltb_lt; exact Hj).
  apply nth_skipn.
Qed.

Lemma view_same_columns (m : Mat T) (a : bool) (off : nat)
      (work : QpWorkspace T) (v : Mat T) :
  (off + ncols m <= n + n_eq + n_in)%nat ->
  (forall j, (j < ncols m)%nat -> nth_error cols (off + j) = Some (m, a, j)) ->
  nrows v = nrows m -> ncols v = ncols m -> nnz_per_col v = None ->
  row_indices v = kkt_row_indices work -> values v = kkt_values work ->
  (forall j, (j <= ncols m)%nat ->
     nth j (col_ptrs v) 0%nat = nth (off + j) (kkt_col_ptrs work) 0%nat) ->
  (forall k, (k <= n + n_eq + n_in)%nat ->
     nth k (kkt_col_ptrs work) 0%nat = total (firstn k cols)) ->
  (forall k c, nth_error cols k = Some c ->
     forall t, (t < clen c)%nat ->
       nth (total (firstn k cols) + t) (kkt_row_indices work) 0%nat
       = nth (col_start (fst (fst c)) (snd c) + t)
             (row_indices (fst (fst c))) 0%nat
       /\ get (kkt_values work) (total (firstn k cols) + t)
          = get (values (fst (fst c)))
                (col_start (fst (fst c)) (snd c) + t)) ->
  same_columns m v.
Proof.
  intros Hoff Hc Hr Hn Hz Hi Hx Hp Hptr Hent.
  split; [exact Hr|]. split; [exact Hn|].
  intros j Hj.
  assert (Es : col_start v j = total (firstn (off + j) cols)).
  { unfold col_start. rewrite Hp by lia. apply Hptr. lia. }
  assert (Ee : col_end v j
               = (total (firstn (off + j) cols) + clen (m, a, j))%nat).
  { unfold col_end. rewrite Hz. rewrite Hp by lia.
    replace (off + S j)%nat with (S (off + j)) by lia.
    rewrite Hptr by lia. apply total_firstn_S. apply Hc. exact Hj. }
  split.
  - rewrite Es, Ee. unfold clen, len. cbn [fst snd]. lia.
  - intros t Ht. rewrite Es, Hi, Hx.
    apply (Hent (off + j)%nat (m, a, j) (Hc j Hj) t Ht).
Qed.

(** The three views of the arrays that [setup_impl] returns hold the columns
    of [H], [AT] and [CT]. *)
Lemma setup_impl_views :
  exists work,
    setup_impl checked_non_negative_plus narrow qp work0 = Some work
    /\ length (kkt_col_ptrs work) = (n + n_eq + n_in + 1)%nat
    /\ nth 0 (kkt_col_ptrs work) 0%nat = 0%nat
    /\ nth (n + n_eq + n_in) (kkt_col_ptrs work) 0%nat = nnz_tot
    /\ same_columns (qp_H qp) (H_scaled qp work)
    /\ same_columns (qp_AT qp) (AT_scaled qp work)
    /\ same_columns (qp_CT qp) (CT_scaled qp work).
Proof.
  destruct setup_impl_layout as (work & Es & Lp & Hptr & Hent).
  exists work. split; [exact Es|]. split; [exact Lp|].
  destruct wf as (_ & _ & _ & _ & sq & rA & rC & _).
  split; [|split; [|split; [|split]]].
  - rewrite Hptr by lia. reflexivity.
  - rewrite Hptr by lia. rewrite <- cols_length, firstn_all. apply cols_total.
  - apply (@view_same_columns (qp_H qp) true 0 work); try reflexivity;
      try assumption.
    + unfold n. lia.
    + intros j Hj. apply cols_H. rewrite sq in Hj. exact Hj.
    + cbn [ncols H_scaled]. symmetry. exact sq.
    + intros j Hj. cbn [col_ptrs H_scaled].
      rewrite <- (nth_slice (kkt_col_ptrs work) 0 (k := n + 1))
        by (unfold n; lia).
      reflexivity.
  - apply (@view_same_columns (qp_AT qp) false n work); try reflexivity;
      try assumption.
    + unfold n_eq. lia.
    + intros j Hj. apply cols_AT. exact Hj.
    + cbn [nrows AT_scaled]. symmetry. exact rA.
    + intros j Hj. cbn [col_ptrs AT_scaled].
      apply nth_slice. lia.
  - apply (@view_same_columns (qp_CT qp) false (n + n_eq) work);
      try assumption.
    + unfold n_in. lia.
    + intros j Hj. apply cols_CT. exact Hj.
    + cbn [nrows CT_scaled]. symmetry. exact rC.
    + reflexivity.
    + reflexivity.
    + reflexivity.
    + reflexivity.
    + intros j Hj. cbn [col_ptrs CT_scaled].
      apply nth_slice. lia.
Qed.

End KktAssembly.

(** ** Products with a matrix that holds the same columns *)

Section SameColumns.
Context {T : Type} `{Scalar T}.

Lemma fold_seq_shift (A : Type) (f g : A -> nat -> A) :
  forall (k a b : nat) (acc : A),
    (forall t acc, (t < k)%nat -> f acc (a + t)%nat = g acc (b + t)%nat) ->
    fold_left f (seq a k) acc = fold_left g (seq b k) acc.
Proof.
  induction k as [|k IH]; intros a b acc Hfg; [reflexivity|].
  cbn [seq fold_left].
  pose proof (Hfg 0%nat acc ltac:(lia)) as H0.
  rewrite !Nat.add_0_r in H0. rewrite H0.
  apply IH. intros t acc' Ht.
  replace (S a + t)%nat with (a + S t)%nat by lia.
  replace (S b + t)%nat with (b + S t)%nat by lia.
  apply Hfg. lia.
Qed.

Variables m v : Mat T.
Hypothesis same : same_columns m v.

Lemma same_columns_fold (A : Type) (f : Mat T -> nat -> A -> nat -> A)
      (j : nat) (acc : A) :
  (j < ncols m)%nat ->
  (forall (w w' : Mat T) (p p' : nat) (acc : A),
     nth p (row_indices w) 0%nat = nth p' (row_indices w') 0%nat ->
     get (values w) p = get (values w') p' ->
     f w j acc p = f w' j acc p') ->
  fold_left (f v j) (col_range v j) acc
  = fold_left (f m j) (col_range m j) acc.
Proof.
  intros Hj Hf. destruct same as (_ & _ & Hc).
  destruct (Hc j Hj) as [Hl He]. unfold col_range. rewrite Hl.
  apply fold_seq_shift. intros t acc' Ht.
  destruct (He t Ht) as [E1 E2]. apply Hf; assumption.
Qed.

Lemma same_columns_mat_tmul (x : list T) : mat_tmul v x = mat_tmul m x.
Proof.
  unfold mat_tmul. destruct same as (_ & Hn & _). rewrite Hn.
  apply map_ext_in. intros j Hj. apply in_seq in Hj.
  apply (@same_columns_fold T
           (fun w _ acc p =>
              s_add acc (s_mul (get (values w) p)
                               (get x (nth p (row_indices w) 0%nat))))
           j s0); [lia|].
  intros w w' p p' acc E1 E2. rewrite E1, E2. reflexivity.
Qed.

Lemma same_columns_mat_mul (y : list T) : mat_mul v y = mat_mul m y.
Proof.
  unfold mat_mul. destruct same as (Hr & Hn & _). rewrite Hn, Hr.
  apply fold_left_ext_in. intros out j Hj. apply in_seq in Hj.
  apply (@same_columns_fold (list T)
           (fun w j out p =>
              set_nth (nth p (row_indices w) 0%nat)
                      (s_add (get out (nth p (row_indices w) 0%nat))
                             (s_mul (get (values w) p) (get y j)))
                      out)
           j out); [lia|].
  intros w w' p p' acc E1 E2. rewrite E1, E2. reflexivity.
Qed.

Lemma same_columns_symhi_mul (x : list T) : symhi_mul v x = symhi_mul m x.
Proof.
  unfold symhi_mul. destruct same as (Hr & Hn & _). rewrite Hn, Hr.
  apply fold_left_ext_in. intros out j Hj. apply in_seq in Hj.
  apply (@same_columns_fold (list T)
           (fun w j out p =>
              let i := nth p (row_indices w) 0%nat in
              let hij := get (values w) p in
              if (j <? i)%nat then out
              else
                let out1 := set_nth i (s_add (get out i)
                                             (s_mul hij (get x j))) out in
                if (i =? j)%nat then out1
                else set_nth j (s_add (get out1 j) (s_mul hij (get x i)))
                             out1)
           j out); [lia|].
  intros w w' p p' acc E1 E2. cbv zeta. rewrite E1, E2. reflexivity.
Qed.

End SameColumns.

(** ** An entry of [H] below the diagonal *)

Section LowerEntry.
Context {T : Type} `{Scalar T}.
Variable checked_non_negative_plus : nat -> nat -> option nat.
Variable narrow : nat -> option nat.

Lemma fold_left_none (A B : Type) (f : option A -> B -> option A)
      (l : list B) :
  (forall b, f None b = None) -> fold_left f l None = None.
Proof.
  intros Hf. induction l as [|b l IH]; [reflexivity|].
  cbn [fold_left]. rewrite Hf. exact IH.
Qed.

Lemma fold_left_fails (A B : Type) (f : option A -> B -> option A)
      (l : list B) (b : B) (acc : option A) :
  (forall b, f None b = None) -> (forall acc, f acc b = None) -> In b l ->
  fold_left f l acc = None.
Proof.
  intros Hn Hb Hin. apply in_split in Hin. destruct Hin as (l1 & l2 & ->).
  rewrite fold_left_app. cbn [fold_left]. rewrite Hb.
  apply fold_left_none. exact Hn.
Qed.

Lemma insert_submatrix_none (m : Mat T) (a : bool) :
  insert_submatrix checked_non_negative_plus narrow m a None = None.
Proof. apply fold_left_none. reflexivity. Qed.

Lemma insert_submatrix_lower (m : Mat T) (j p : nat)
      (acc : option (KktBuild T)) :
  (j < ncols m)%nat -> (col_start m j <= p < col_end m j)%nat ->
  (j < nth p (row_indices m) 0)%nat ->
  insert_submatrix checked_non_negative_plus narrow m true acc = None.
Proof.
  intros Hj Hp Hlow. unfold insert_submatrix.
  apply (@fold_left_fails _ _ _ _ j); [reflexivity | | apply in_seq; lia].
  intros acc0. unfold insert_column.
  destruct acc0 as [st|]; [|reflexivity].
  destruct (checked_non_negative_plus _ _) as [c|]; [|reflexivity].
  destruct (write _ c (kktp st)) as [kp|]; [|reflexivity].
  apply (@fold_left_fails _ _ _ _ p); [reflexivity | |].
  - intros acc1. unfold insert_entry.
    destruct acc1 as [st1|]; [|reflexivity]. cbv zeta.
    replace (nth p (row_indices m) 0 <=? j)%nat with false
      by (symmetry; apply Nat.leb_gt; exact Hlow).
    reflexivity.
  - unfold col_range. apply in_seq. lia.
Qed.

End LowerEntry.

(** X22.  When the sizes fit the index type, on a well-formed QP whose
    [nnz] fields count the stored entries, and with arrays of the lengths
    that [setup_impl] requests: [setup_impl] goes through, whatever the
    arrays held before; the column pointers of the KKT storage start at 0
    and end at [nnz(H) + nnz(AT) + nnz(CT)]; and the three views
    [H_scaled], [AT_scaled], [CT_scaled] that [qp_solve] takes of the
    storage hold, column by column, the row indices and the values of [H],
    [AT] and [CT]. *)
Theorem setup_impl_stores_the_model
        (T : Type) (ST : Scalar T)
        (checked_non_negative_plus : nat -> nat -> option nat)
        (narrow : nat -> option nat) (I_max : nat)
        (qp : QpView T) (work0 : QpWorkspace T) :
  (forall a b, (a + b <= I_max)%nat ->
               checked_non_negative_plus a b = Some (a + b)%nat) ->
  (forall i, (i <= I_max)%nat -> narrow i = Some i) ->
  qp_wf qp ->
  nnz (qp_H qp)
  = (col_start (qp_H qp) (ncols (qp_H qp)) - col_start (qp_H qp) 0)%nat ->
  nnz (qp_AT qp)
  = (col_start (qp_AT qp) (ncols (qp_AT qp)) - col_start (qp_AT qp) 0)%nat ->
  nnz (qp_CT qp)
  = (col_start (qp_CT qp) (ncols (qp_CT qp)) - col_start (qp_CT qp) 0)%nat ->
  length (kkt_col_ptrs work0)
  = (nrows (qp_H qp) + ncols (qp_AT qp) + ncols (qp_CT qp) + 1)%nat ->
  length (kkt_row_indices work0)
  = (nnz (qp_H qp) + nnz (qp_AT qp) + nnz (qp_CT qp))%nat ->
  length (kkt_values work0)
  = (nnz (qp_H qp) + nnz (qp_AT qp) + nnz (qp_CT qp))%nat ->
  (nrows (qp_H qp) <= I_max)%nat ->
  (nnz (qp_H qp) + nnz (qp_AT qp) + nnz (qp_CT qp) <= I_max)%nat ->
  exists work : QpWorkspace T,
    setup_impl checked_non_negative_plus narrow qp work0 = Some work
    /\ length (kkt_col_ptrs work)
       = (nrows (qp_H qp) + ncols (qp_AT qp) + ncols (qp_CT qp) + 1)%nat
    /\ nth 0 (kkt_col_ptrs work) 0%nat = 0%nat
    /\ nth (nrows (qp_H qp) + ncols (qp_AT qp) + ncols (qp_CT qp))
           (kkt_col_ptrs work) 0%nat
       = (nnz (qp_H qp) + nnz (qp_AT qp) + nnz (qp_CT qp))%nat
    /\ same_columns (qp_H qp) (H_scaled qp work)
    /\ same_columns (qp_AT qp) (AT_scaled qp work)
    /\ same_columns (qp_CT qp) (CT_scaled qp work).
Proof.
  intros Hplus Hnarrow wf nH nA nC Lp Li Lx Fn Fz.
  exact (setup_impl_views checked_non_negative_plus narrow Hplus Hnarrow
                          work0 wf nH nA nC Lp Li Lx Fn Fz).
Qed.

(** Witness of X22, in double arithmetic: the QP with one variable, one
    equality and one inequality, and arrays filled with 9. *)
Lemma setup_impl_stores_the_model_witness :
  let qp := qp_1_1_1 (T := float) s1 s1 s1 s1 s1 s0 s1 in
  let work0 := {| kkt_col_ptrs := [9; 9; 9; 9]%nat;
                  kkt_row_indices := [9; 9; 9]%nat;
                  kkt_values := [s0; s0; s0] |} in
  exists work : QpWorkspace float,
    setup_impl (fun a b => Some (a + b)%nat) Some qp work0 = Some work
    /\ length (kkt_col_ptrs work)
       = (nrows (qp_H qp) + ncols (qp_AT qp) + ncols (qp_CT qp) + 1)%nat
    /\ nth 0 (kkt_col_ptrs work) 0%nat = 0%nat
    /\ nth (nrows (qp_H qp) + ncols (qp_AT qp) + ncols (qp_CT qp))
           (kkt_col_ptrs work) 0%nat
       = (nnz (qp_H qp) + nnz (qp_AT qp) + nnz (qp_CT qp))%nat
    /\ same_columns (qp_H qp) (H_scaled qp work)
    /\ same_columns (qp_AT qp) (AT_scaled qp work)
    /\ same_columns (qp_CT qp) (CT_scaled qp work).
Proof.
  intros qp work0.
  apply (@setup_impl_stores_the_model float _ (fun a b => Some (a + b)%nat)
           Some 1000 qp work0).
  - intros; reflexivity.
  - intros; reflexivity.
  - apply qp_1_1_1_wf.
  - reflexivity.
  - reflexivity.
  - reflexivity.
  - reflexivity.
  - reflexivity.
  - reflexivity.
  - vm_compute. lia.
  - vm_compute. lia.
Defined.

(** X23.  When the sizes fit the index type and [setup_impl] has returned
    a workspace for a well-formed QP whose [nnz] fields count the stored
    entries: the products that the solver forms with the views [H_scaled],
    [AT_scaled], [CT_scaled] of the KKT storage are the products with the
    matrices of the QP, namely [A x], [C x], the symmetric product [H x],
    [A^T y] and [C^T z]. *)
Theorem products_with_the_views_of_the_storage
        (T : Type) (ST : Scalar T)
        (checked_non_negative_plus : nat -> nat -> option nat)
        (narrow : nat -> option nat) (I_max : nat)
        (qp : QpView T) (work0 work : QpWorkspace T) (x y z : list T) :
  (forall a b, (a + b <= I_max)%nat ->
               checked_non_negative_plus a b = Some (a + b)%nat) ->
  (forall i, (i <= I_max)%nat -> narrow i = Some i) ->
  qp_wf qp ->
  nnz (qp_H qp)
  = (col_start (qp_H qp) (ncols (qp_H qp)) - col_start (qp_H qp) 0)%nat ->
  nnz (qp_AT qp)
  = (col_start (qp_AT qp) (ncols (qp_AT qp)) - col_start (qp_AT qp) 0)%nat ->
  nnz (qp_CT qp)
  = (col_start (qp_CT qp) (ncols (qp_CT qp)) - col_start (qp_CT qp) 0)%nat ->
  length (kkt_col_ptrs work0)
  = (nrows (qp_H qp) + ncols (qp_AT qp) + ncols (qp_CT qp) + 1)%nat ->
  length (kkt_row_indices work0)
  = (nnz (qp_H qp) + nnz (qp_AT qp) + nnz (qp_CT qp))%nat ->
  length (kkt_values work0)
  = (nnz (qp_H qp) + nnz (qp_AT qp) + nnz (qp_CT qp))%nat ->
  (nrows (qp_H qp) <= I_max)%nat ->
  (nnz (qp_H qp) + nnz (qp_AT qp) + nnz (qp_CT qp) <= I_max)%nat ->
  setup_impl checked_non_negative_plus narrow qp work0 = Some work ->
  mat_tmul (AT_scaled qp work) x = mat_tmul (qp_AT qp) x
  /\ mat_tmul (CT_scaled qp work) x = mat_tmul (qp_CT qp) x
  /\ symhi_mul (H_scaled qp work) x = symhi_mul (qp_H qp) x
  /\ mat_mul (AT_scaled qp work) y = mat_mul (qp_AT qp) y
  /\ mat_mul (CT_scaled qp work) z = mat_mul (qp_CT qp) z.
Proof.
  intros Hplus Hnarrow wf nH nA nC Lp Li Lx Fn Fz Hs.
  destruct (setup_impl_views checked_non_negative_plus narrow Hplus Hnarrow
                             work0 wf nH nA nC Lp Li Lx Fn Fz)
    as (w & Ew & _ & _ & _ & SH & SA & SC).
  rewrite Hs in Ew. inversion Ew; subst w.
  split; [apply (same_columns_mat_tmul SA)|].
  split; [apply (same_columns_mat_tmul SC)|].
  split; [apply (same_columns_symhi_mul SH)|].
  split; [apply (same_columns_mat_mul SA) | apply (same_columns_mat_mul SC)].
Qed.

(** Witness of X23, in double arithmetic: the same QP and arrays, with the
    vectors (5), (7) and (9). *)
Lemma products_with_the_views_of_the_storage_witness :
  let qp := qp_1_1_1 (T := float) s1 s1 s1 s1 s1 s0 s1 in
  let work0 := {| kkt_col_ptrs := [9; 9; 9; 9]%nat;
                  kkt_row_indices := [9; 9; 9]%nat;
                  kkt_values := [s0; s0; s0] |} in
  let x := [s_lit 5 1] in
  let y := [s_lit 7 1] in
  let z := [s_lit 9 1] in
  exists work : QpWorkspace float,
    setup_impl (fun a b => Some (a + b)%nat) Some qp work0 = Some work
    /\ mat_tmul (AT_scaled qp work) x = mat_tmul (qp_AT qp) x
    /\ mat_tmul (CT_scaled qp work) x = mat_tmul (qp_CT qp) x
    /\ symhi_mul (H_scaled qp work) x = symhi_mul (qp_H qp) x
    /\ mat_mul (AT_scaled qp work) y = mat_mul (qp_AT qp) y
    /\ mat_mul (CT_scaled qp work) z = mat_mul (qp_CT qp) z.
Proof.
  intros qp work0 x y z.
  assert (R0 : exists work,
             setup_impl (fun a b => Some (a + b)%nat) Some qp work0
             = Some work).
  { eexists. vm_compute. reflexivity. }
  destruct R0 as [work Hw]. exists work. split; [exact Hw|].
  apply (@products_with_the_views_of_the_storage float _
           (fun a b => Some (a + b)%nat) Some 1000 qp work0 work x y z).
  - intros; reflexivity.
  - intros; reflexivity.
  - apply qp_1_1_1_wf.
  - reflexivity.
  - reflexivity.
  - reflexivity.
  - reflexivity.
  - reflexivity.
  - reflexivity.
  - vm_compute. lia.
  - vm_compute. lia.
  - exact Hw.
Defined.

(** X24.  For every scalar type, whatever the two checked conversions do:
    when [H] has a stored entry below its diagonal, in row [i > j] of a
    column [j], [setup_impl] does not return a workspace (the assertion
    [i <= j] of [insert_submatrix] fails, if nothing failed before it). *)
Theorem setup_impl_rejects_an_entry_below_the_diagonal
        (T : Type) (ST : Scalar T)
        (checked_non_negative_plus : nat -> nat -> option nat)
        (narrow : nat -> option nat)
        (qp : QpView T) (work0 : QpWorkspace T) (j p : nat) :
  (j < ncols (qp_H qp))%nat ->
  (col_start (qp_H qp) j <= p < col_end (qp_H qp) j)%nat ->
  (j < nth p (row_indices (qp_H qp)) 0)%nat ->
  setup_impl checked_non_negative_plus narrow qp work0 = None.
Proof.
  intros Hj Hp Hlow. unfold setup_impl.
  destruct (write 0 0%nat (kkt_col_ptrs work0)) as [kp|]; [|reflexivity].
  cbv zeta.
  rewrite (insert_submatrix_lower checked_non_negative_plus narrow
             (qp_H qp) _ Hj Hp Hlow).
  rewrite !insert_submatrix_none. reflexivity.
Qed.

(** Witness of X24, in double arithmetic: a 2 x 2 matrix [H] whose only
    stored entry is in row 1 of column 0. *)
Lemma setup_impl_rejects_an_entry_below_the_diagonal_witness :
  let h := {| nrows := 2; ncols := 2; nnz := 1; col_ptrs := [0; 1; 1]%nat;
              nnz_per_col := None; row_indices := [1%nat];
              values := [s1 : float] |} in
  let qp := {| qp_H := h; qp_g := [s0; s0]; qp_AT := mat_empty 2 0;
               qp_b := []; qp_CT := mat_empty 2 0; qp_l := [];
               qp_u := [] |} in
  setup_impl (fun a b => Some (a + b)%nat) Some qp
             {| kkt_col_ptrs := [9; 9; 9]%nat; kkt_row_indices := [9%nat];
                kkt_values := [s0] |}
  = None.
Proof.
  intros h qp.
  apply (@setup_impl_rejects_an_entry_below_the_diagonal float _
           (fun a b => Some (a + b)%nat) Some qp _ 0 0).
  - vm_compute. lia.
  - vm_compute. lia.
  - vm_compute. lia.
Defined.
(* ================================================================== *)
(** * The norms that the equilibration takes of [H] *)
(* ================================================================== *)

Section SymhiNorm.
Local Open Scope R_scope.
Variable h : Mat R.
Hypothesis wf : csc_wf h.
Hypothesis upper : upper_triangular h.
Hypothesis square : ncols h = nrows h.

Let n : nat := nrows h.
Let cs (j : nat) : nat := col_start h j.
Let row (p : nat) : nat := nth p (row_indices h) 0%nat.
Let absv (p : nat) : R := Rabs (get (values h) p).

(** The entry at position [p] of column [j] lies in row [k] or column [k]
    of the upper triangle. *)
Let touch (k p j : nat) : Prop :=
  (cs j <= p < col_end h j)%nat /\ (row p = k \/ j = k).

(** [c] is the largest of the values [absv p] over the positions that
    satisfy [S], and 0 when there is none. *)
Let largest (S : nat -> nat -> Prop) (c : R) : Prop :=
  (forall p j, S p j -> absv p <= c)
  /\ (c = 0 \/ exists p j, S p j /\ c = absv p).

Lemma get_set_same (i : nat) (v : R) (l : list R) :
  (i < length l)%nat -> get (set_nth i v l) i = v.
Proof. intros Hi. unfold get. apply nth_set_nth_same. exact Hi. Qed.

Lemma get_set_other (i k : nat) (v : R) (l : list R) :
  i <> k -> get (set_nth i v l) k = get l k.
Proof. intros Hi. unfold get. apply nth_set_nth_other. exact Hi. Qed.

Lemma largest_ext (S S' : nat -> nat -> Prop) (c : R) :
  (forall p j, S p j <-> S' p j) -> largest S c -> largest S' c.
Proof.
  intros He [Hb Ha]. split.
  - intros p j Hs. apply (Hb p j). apply He. exact Hs.
  - destruct Ha as [Hz|(p & j & Hs & Hc)]; [left; exact Hz|].
    right. exists p, j. split; [apply He; exact Hs | exact Hc].
Qed.

Lemma largest_add (S : nat -> nat -> Prop) (c : R) (p0 j0 : nat) :
  largest S c ->
  largest (fun p j => S p j \/ (p = p0 /\ j = j0)) (Rmax c (absv p0)).
Proof.
  intros [Hb Ha]. split.
  - intros p j [Hs|[-> ->]].
    + eapply Rle_trans; [apply (Hb p j Hs) | apply Rmax_l].
    + apply Rmax_r.
  - unfold Rmax. destruct (Rle_dec c (absv p0)) as [Hle|Hgt].
    + right. exists p0, j0. split; [right; split; reflexivity | reflexivity].
    + destruct Ha as [Hz|(p & j & Hs & Hc)]; [left; exact Hz|].
      right. exists p, j. split; [left; exact Hs | exact Hc].
Qed.

(** The state of the walk over column [J] before its entry number [t]. *)
Let inner (J t : nat) (norm_j : R) (cn : list R) : Prop :=
  length cn = n
  /\ largest (fun p j => j = J /\ (cs J <= p < cs J + t)%nat) norm_j
  /\ forall k, (k < J)%nat ->
       largest (fun p j => ((j < J)%nat /\ touch k p j)
                           \/ (j = J /\ (cs J <= p < cs J + t)%nat
                               /\ row p = k))
               (get cn k).

Lemma symhi_col_inner (J : nat) :
  (J < n)%nat ->
  forall (k t : nat) (norm_j : R) (cn : list R),
    (cs J + t + k = col_end h J)%nat ->
    inner J t norm_j cn ->
    inner J (t + k)
          (fst (symhi_col h J (seq (cs J + t) k) norm_j cn))
          (snd (symhi_col h J (seq (cs J + t) k) norm_j cn)).
Proof.
  intros HJ. induction k as [|k IH]; intros t norm_j cn Hend Hinv.
  - cbn [seq symhi_col fst snd]. rewrite Nat.add_0_r. exact Hinv.
  - cbn [seq symhi_col]. fold (row (cs J + t)).
    assert (Hp : (cs J <= cs J + t < col_end h J)%nat) by lia.
    assert (Hrow : (row (cs J + t) <= J)%nat).
    { apply upper; [rewrite square; exact HJ | exact Hp]. }
    replace (J <? row (cs J + t))%nat with false
      by (symmetry; apply Nat.ltb_ge; exact Hrow).
    replace (cs J + t + S k)%nat with (cs J + S t + k)%nat in Hend by lia.
    replace (S (cs J + t)) with (cs J + S t)%nat by lia.
    replace (t + S k)%nat with (S t + k)%nat by lia.
    apply IH; [exact Hend|].
    destruct Hinv as (Lc & Hn & Hk).
    change (s_fabs (get (values h) (cs J + t))) with (absv (cs J + t)).
    rewrite !s_max_R.
    split; [rewrite set_nth_length; exact Lc|]. split.
    + apply (largest_ext
               (S := fun p j => (j = J /\ (cs J <= p < cs J + t)%nat)
                                \/ (p = (cs J + t)%nat /\ j = J))).
      * intros p j. split.
        -- intros [[-> Hr]|[-> ->]]; split; (reflexivity || lia).
        -- intros [-> Hr].
           destruct (Nat.eq_dec p (cs J + t)) as [->|Hne];
             [right; auto | left; split; [reflexivity | lia]].
      * apply largest_add. exact Hn.
    + intros k0 Hk0. specialize (Hk k0 Hk0).
      destruct (Nat.eq_dec (row (cs J + t)) k0) as [Er|Er].
      * rewrite Er. rewrite get_set_same by (rewrite Lc; lia).
        apply (largest_ext
                 (S := fun p j =>
                         (((j < J)%nat /\ touch k0 p j)
                          \/ (j = J /\ (cs J <= p < cs J + t)%nat
                              /\ row p = k0))
                         \/ (p = (cs J + t)%nat /\ j = J))).
        -- intros p j. split.
           ++ intros [[Ho|(-> & Hr & Hw)]|[-> ->]].
              ** left. exact Ho.
              ** right. split; [reflexivity|]. split; [lia | exact Hw].
              ** right. split; [reflexivity|]. split; [lia | exact Er].
           ++ intros [Ho|(-> & Hr & Hw)]; [left; left; exact Ho|].
              destruct (Nat.eq_dec p (cs J + t)) as [->|Hne];
                [right; auto|].
              left. right. split; [reflexivity|]. split; [lia | exact Hw].
        -- apply largest_add. exact Hk.
      * rewrite get_set_other by exact Er.
        eapply largest_ext; [|exact (Hk)]. intros p j. split.
        -- intros [Ho|(-> & Hr & Hw)]; [left; exact Ho|].
           right. split; [reflexivity|]. split; [lia | exact Hw].
        -- intros [Ho|(-> & Hr & Hw)]; [left; exact Ho|].
           right. split; [reflexivity|]. split; [|exact Hw].
           destruct (Nat.eq_dec p (cs J + t)) as [->|Hne]; [|lia].
           exfalso. apply Er. exact Hw.
Qed.

(** The state of the loop over the columns before column [J]. *)
Let outer (J : nat) (cn : list R) : Prop :=
  length cn = n
  /\ forall k, (k < J)%nat ->
       largest (fun p j => (j < J)%nat /\ touch k p j) (get cn k).

Lemma symhi_outer_step (J : nat) (cn : list R) :
  (J < n)%nat -> outer J cn ->
  outer (S J)
        (set_nth J (fst (symhi_col h J (col_range h J) s0 cn))
                 (snd (symhi_col h J (col_range h J) s0 cn))).
Proof.
  intros HJ (Lc & Hk).
  assert (Hmono : (cs J <= col_end h J)%nat).
  { unfold cs. rewrite col_end_next by exact wf.
    apply (col_start_mono wf). rewrite square. fold n. lia. }
  assert (Hin : inner J 0 s0 cn).
  { split; [exact Lc|]. split.
    - split; [intros p j [_ Hr]; lia | left; apply s0_R].
    - intros k Hk0. eapply largest_ext; [|exact (Hk k Hk0)]. intros p j. split.
      + intros Ho. left. exact Ho.
      + intros [Ho|(_ & Hr & _)]; [exact Ho | lia]. }
  pose proof (@symhi_col_inner J HJ (col_end h J - cs J) 0 s0 cn
                ltac:(lia) Hin) as Hfin.
  rewrite Nat.add_0_r in Hfin. cbn [Nat.add] in Hfin.
  unfold col_range. fold (cs J).
  destruct Hfin as (Lc' & Hn' & Hk').
  split; [rewrite set_nth_length; exact Lc'|].
  intros k Hk0. destruct (Nat.eq_dec k J) as [->|Hne].
  - rewrite get_set_same by (rewrite Lc'; exact HJ).
    eapply largest_ext; [|exact (Hn')]. intros p j. split.
    + intros [-> Hr]. split; [lia|]. split; [lia | right; reflexivity].
    + intros [Hj [Hr Hw]].
      destruct (Nat.eq_dec j J) as [->|Hjne]; [split; [reflexivity | lia]|].
      exfalso. destruct Hw as [Hw|Hw]; [|lia].
      assert (Hu : (row p <= j)%nat).
      { apply upper; [rewrite square; fold n; lia | exact Hr]. }
      lia.
  - rewrite get_set_other by (intros E; apply Hne; auto).
    eapply largest_ext; [|exact (Hk' k ltac:(lia))]. intros p j. split.
    + intros [[Hj Ht]|(-> & Hr & Hw)].
      * split; [lia | exact Ht].
      * split; [lia|]. split; [lia | left; exact Hw].
    + intros [Hj [Hr Hw]].
      destruct (Nat.eq_dec j J) as [->|Hjne].
      * right. split; [reflexivity|]. split; [lia|].
        destruct Hw as [Hw|Hw]; [exact Hw | lia].
      * left. split; [lia|]. split; assumption.
Qed.

Lemma symhi_outer (col_norm : list R) :
  length col_norm = n ->
  forall J, (J <= n)%nat ->
    outer J (fold_left (fun cn j =>
                          set_nth j (fst (symhi_col h j (col_range h j) s0 cn))
                                  (snd (symhi_col h j (col_range h j) s0 cn)))
                       (seq 0 J) col_norm).
Proof.
  intros L0. induction J as [|J IH]; intros HJ.
  - split; [exact L0 | intros k Hk; lia].
  - rewrite seq_S, fold_left_app. cbn [fold_left Nat.add].
    apply symhi_outer_step; [lia | apply IH; lia].
Qed.

End SymhiNorm.

(** X25.  In exact arithmetic, for a well-formed square matrix [h] stored
    by its upper triangle: [colwise_infty_norm_symhi] leaves in
    [col_norm[k]] the largest absolute value among the stored entries of
    row [k] and of column [k], that is the infinity norm of column [k] of
    the symmetric matrix, and 0 when there is no such entry.  What the array
    held on entry plays no part. *)
Theorem colwise_infty_norm_symhi_is_the_column_norm
        (h : Mat R) (col_norm : list R) :
  csc_wf h -> upper_triangular h -> ncols h = nrows h ->
  length col_norm = nrows h ->
  let res := colwise_infty_norm_symhi col_norm h in
  length res = nrows h
  /\ forall k, (k < nrows h)%nat ->
       (forall j p, (j < ncols h)%nat ->
          (col_start h j <= p < col_end h j)%nat ->
          nth p (row_indices h) 0%nat = k \/ j = k ->
          (Rabs (get (values h) p) <= get res k)%R)
       /\ (get res k = 0%R
           \/ exists j p, (j < ncols h)%nat
                /\ (col_start h j <= p < col_end h j)%nat
                /\ (nth p (row_indices h) 0%nat = k \/ j = k)
                /\ get res k = Rabs (get (values h) p)).
Proof.
  intros wf up sq L0 res.
  destruct (@symhi_outer h wf up sq col_norm L0 (nrows h) (le_n _))
    as (Lr & Hk).
  match type of Lr with
  | length ?t = _ =>
      assert (Er : t = res)
        by (unfold res, colwise_infty_norm_symhi; rewrite sq; reflexivity)
  end.
  rewrite Er in Lr, Hk.
  split; [exact Lr|].
  intros k Hkn. destruct (Hk k Hkn) as [Hb Ha]. split.
  - intros j p Hj Hp Hw. apply (Hb p j). split; [lia|].
    split; [exact Hp | exact Hw].
  - destruct Ha as [Hz|(p & j & (Hj & Hp & Hw) & Hc)]; [left; exact Hz|].
    right. exists j, p. split; [lia|]. split; [exact Hp|].
    split; [exact Hw | exact Hc].
Qed.

(** Witness of X25: the 1 x 1 matrix (-3), and an array that holds 7. *)
Lemma colwise_infty_norm_symhi_is_the_column_norm_witness :
  let h := mat_1x1 (-3)%R in
  let res := colwise_infty_norm_symhi [7%R] h in
  length res = nrows h
  /\ forall k, (k < nrows h)%nat ->
       (forall j p, (j < ncols h)%nat ->
          (col_start h j <= p < col_end h j)%nat ->
          nth p (row_indices h) 0%nat = k \/ j = k ->
          (Rabs (get (values h) p) <= get res k)%R)
       /\ (get res k = 0%R
           \/ exists j p, (j < ncols h)%nat
                /\ (col_start h j <= p < col_end h j)%nat
                /\ (nth p (row_indices h) 0%nat = k \/ j = k)
                /\ get res k = Rabs (get (values h) p)).
Proof.
  apply (@colwise_infty_norm_symhi_is_the_column_norm (mat_1x1 (-3)%R)
           [7%R]).
  - apply mat_1x1_wf.
  - intros j p Hj Hp. destruct j as [|j]; [|vm_compute in Hj; lia].
    cbv [mat_1x1 col_start col_end col_ptrs nnz_per_col nth] in Hp.
    assert (p = 0%nat) by lia. subst p. cbv. lia.
  - reflexivity.
  - reflexivity.
Defined.
(* ================================================================== *)
(** * The wrapper: what [update] copies *)
(* ================================================================== *)

(** X26.  For every scalar type, whatever the helpers compute: [update]
    replaces each of the vectors [g], [b], [u], [l] that is given, whether
    or not the matrices are accepted.  Of the matrices it copies all those
    that are given, in the order [H], [A^T], [C^T], when each of them has
    the structure of its view (for [H], the structure of its upper
    triangle), and it copies none of them when one check fails.  [A] and [C]
    are copied transposed; [H] is copied by its upper triangle, except when
    it is the only matrix given: then the matrix itself is passed to
    [copy]. *)
Theorem update_copies_all_the_matrices_or_none
        (T : Type) (ST : Scalar T)
        (have_same_structure : Mat T -> Mat T -> bool)
        (triangularView_Upper transpose : Mat T -> Mat T)
        (views : wrapper.Block -> Mat T)
        (H_ A_ C_ : option (Mat T)) (g_ b_ u_ l_ : option (list T))
        (model : wrapper.Model T) :
  let r := wrapper.update have_same_structure triangularView_Upper transpose
                          views H_ g_ A_ b_ C_ u_ l_ model in
  let given (v : option (list T)) (old : list T) : list T :=
    match v with Some w => w | None => old end in
  let checked (blk : wrapper.Block) (m : option (Mat T))
              (f : Mat T -> Mat T) : bool :=
    match m with
    | Some x => have_same_structure (views blk) (f x)
    | None => true
    end in
  let copied (blk : wrapper.Block) (m : option (Mat T))
             (f : Mat T -> Mat T) : list (wrapper.Block * Mat T) :=
    match m with Some x => [(blk, f x)] | None => [] end in
  let of_H : Mat T -> Mat T :=
    match A_, C_ with
    | None, None => fun h => h
    | _, _ => triangularView_Upper
    end in
  wrapper.g (fst r) = given g_ (wrapper.g model)
  /\ wrapper.b (fst r) = given b_ (wrapper.b model)
  /\ wrapper.u (fst r) = given u_ (wrapper.u model)
  /\ wrapper.l (fst r) = given l_ (wrapper.l model)
  /\ snd r
     = if checked wrapper.H_unscaled H_ triangularView_Upper
          && checked wrapper.AT_unscaled A_ transpose
          && checked wrapper.CT_unscaled C_ transpose
       then copied wrapper.H_unscaled H_ of_H
            ++ copied wrapper.AT_unscaled A_ transpose
            ++ copied wrapper.CT_unscaled C_ transpose
       else [].
Proof.
  cbv zeta. unfold wrapper.update. cbn [fst snd wrapper.g wrapper.b
                                        wrapper.u wrapper.l].
  repeat split.
  destruct H_ as [h|], A_ as [a|], C_ as [c|]; cbn [andb app];
    rewrite ?andb_true_r;
    repeat match goal with
           | |- context [have_same_structure ?x ?y] =>
               destruct (have_same_structure x y); cbn [andb]
           end; reflexivity.
Qed.
(* ================================================================== *)
(** * The dense solver: the refinement of a linear solve *)
(* ================================================================== *)

Section DenseIterativeFacts.
Context {T : Type} `{Scalar T}.
Variable solve : list T -> list T.
Variable mul : list T -> list T.
Variable rhs : list T.
Variable eps : T.
Variable max_it : Z.
Hypothesis small : (max_it <= i32_max)%Z.

Let M : Z := Z.max max_it 1.

Lemma iterative_solve_loop_total :
  forall (fuel : nat) (it : Z) (sol : list T),
    (0 <= it < M)%Z -> (1 <= fuel)%nat -> (M <= it + Z.of_nat fuel)%Z ->
    exists sol' it',
      iterative_solve_loop solve mul rhs eps max_it fuel it sol
                           (vsub (mul sol) rhs) = Some (sol', it')
      /\ (it <= it' <= M)%Z
      /\ ((it' < M)%Z ->
          s_leb eps (infty_norm (vsub (mul sol') rhs)) = false).
Proof.
  induction fuel as [|fuel IH]; intros it sol Hit Hf Hm; [lia|].
  cbn [iterative_solve_loop].
  destruct (s_leb eps (infty_norm (vsub (mul sol) rhs))) eqn:Et.
  - assert (Hmax : (M <= i32_max)%Z) by (unfold M, i32_max in *; lia).
    replace (it =? i32_max)%Z with false by (symmetry; apply Z.eqb_neq; lia).
    destruct (max_it <=? it + 1)%Z eqn:El.
    + apply Z.leb_le in El. exists sol, (it + 1)%Z.
      split; [reflexivity|]. split; [lia|]. unfold M. lia.
    + apply Z.leb_gt in El.
      destruct (IH (it + 1)%Z
                   (vadd sol (solve (vneg (vsub (mul sol) rhs)))))
        as (sol' & it' & E & Hb & Hc).
      * unfold M. lia.
      * unfold M in *. lia.
      * lia.
      * exists sol', it'. split; [exact E|]. split; [lia | exact Hc].
  - exists sol, it. split; [reflexivity|]. split; [lia|].
    intros _. exact Et.
Qed.

End DenseIterativeFacts.

(** X27.  For every scalar type, factorization and matrix: with a limit
    [max_it] that the counter can hold, [iterative_solve_with_permut_fact]
    ends after at most [max(max_it, 1)] tests of the residual.  Its counter
    ends at most at [max(max_it, 1)], and when it ends below that value the
    residual [mat * sol - rhs] of the solution it leaves compares below
    [eps].  A limit [max_it = 1], or less, allows no correction at all. *)
Theorem iterative_solve_with_permut_fact_ends
        (T : Type) (ST : Scalar T) (solve mul : list T -> list T)
        (rhs : list T) (eps : T) (max_it : Z) :
  (max_it <= i32_max)%Z ->
  (exists sol it,
     iterative_solve_with_permut_fact solve mul rhs eps max_it
                                      (Z.to_nat (Z.max max_it 1))
     = Some (sol, it)
     /\ (0 <= it <= Z.max max_it 1)%Z
     /\ ((it < Z.max max_it 1)%Z ->
         s_leb eps (infty_norm (vsub (mul sol) rhs)) = false))
  /\ ((max_it <= 1)%Z ->
      exists it,
        iterative_solve_with_permut_fact solve mul rhs eps max_it 1
        = Some (solve rhs, it)).
Proof.
  intros Hs. split.
  - unfold iterative_solve_with_permut_fact. cbv zeta.
    destruct (@iterative_solve_loop_total T ST solve mul rhs eps max_it Hs
                (Z.to_nat (Z.max max_it 1)) 0%Z (solve rhs))
      as (sol & it & E & Hb & Hc); try lia.
    exists sol, it. split; [exact E|]. split; [lia | exact Hc].
  - intros H1. unfold iterative_solve_with_permut_fact. cbv zeta.
    cbn [iterative_solve_loop].
    destruct (s_leb eps (infty_norm (vsub (mul (solve rhs)) rhs)));
      [|eexists; reflexivity].
    change (0 =? i32_max)%Z with false. cbv iota.
    replace (max_it <=? 0 + 1)%Z with true
      by (symmetry; apply Z.leb_le; lia).
    eexists; reflexivity.
Qed.

(** Witness of X27, in double arithmetic: the 1 x 1 system [2 x = 1] with
    an exact solve, and the limit [max_it = 3]. *)
Lemma iterative_solve_with_permut_fact_ends_witness :
  let solve := fun v : list float => map (fun x => s_div x (s_lit 2 1)) v in
  let mul := fun v : list float => map (fun x => s_mul (s_lit 2 1) x) v in
  let rhs := [s_lit 1 1] : list float in
  let eps := s_lit 1 1000000 : float in
  (exists sol it,
     iterative_solve_with_permut_fact solve mul rhs eps 3
                                      (Z.to_nat (Z.max 3 1))
     = Some (sol, it)
     /\ (0 <= it <= Z.max 3 1)%Z
     /\ ((it < Z.max 3 1)%Z ->
         s_leb eps (infty_norm (vsub (mul sol) rhs)) = false))
  /\ ((3 <= 1)%Z ->
      exists it,
        iterative_solve_with_permut_fact solve mul rhs eps 3 1
        = Some (solve rhs, it)).
Proof.
  intros solve mul rhs eps.
  apply (@iterative_solve_with_permut_fact_ends float _ solve mul rhs eps 3).
  vm_compute. discriminate.
Defined.
(* ================================================================== *)
(** * [delete_row], step 1 *)
(* ================================================================== *)

Section DeleteRowArrays.
Import rowmod.

Lemma lower_bound_spec (a : list nat) (v : nat) :
  forall (count first : nat),
    let it := lower_bound a first count v in
    (first <= it <= first + count)%nat
    /\ (forall p, (first <= p < it)%nat -> (nth p a 0 < v)%nat)
    /\ ((it < first + count)%nat -> (v <= nth it a 0)%nat).
Proof.
  induction count as [|count IH]; intros first; cbn [lower_bound].
  - cbv zeta. split; [lia|]. split; intros; lia.
  - destruct (nth first a 0 <? v)%nat eqn:E.
    + apply Nat.ltb_lt in E. specialize (IH (S first)). cbv zeta in *.
      destruct IH as (Hr & Hb & He). split; [lia|]. split.
      * intros p Hp. destruct (Nat.eq_dec p first) as [->|Hne];
          [exact E | apply Hb; lia].
      * intros Hi. apply He. lia.
    + apply Nat.ltb_ge in E. cbv zeta. split; [lia|]. split.
      * intros; lia.
      * intros _. exact E.
Qed.

Lemma memmove_fold_length (A : Type) (d : A) (a : list A)
      (dst src count : nat) :
  length (fold_left (fun acc t => set_nth (dst + t) (nth (src + t) a d) acc)
                    (seq 0 count) a) = length a.
Proof.
  induction count as [|count IH]; [reflexivity|].
  rewrite seq_S, fold_left_app. cbn [fold_left Nat.add].
  rewrite set_nth_length. exact IH.
Qed.

Lemma memmove_fold_nth (A : Type) (d : A) (a : list A)
      (dst src count p : nat) :
  (dst + count <= length a)%nat ->
  nth p (fold_left (fun acc t => set_nth (dst + t) (nth (src + t) a d) acc)
                   (seq 0 count) a) d
  = if ((dst <=? p) && (p <? dst + count))%nat
    then nth (src + (p - dst)) a d else nth p a d.
Proof.
  induction count as [|count IH]; intros Hb.
  - cbn [seq fold_left]. rewrite Nat.add_0_r.
    destruct (dst <=? p)%nat eqn:E1; destruct (p <? dst)%nat eqn:E2;
      try reflexivity.
    apply Nat.leb_le in E1. apply Nat.ltb_lt in E2. lia.
  - rewrite seq_S, fold_left_app. cbn [fold_left Nat.add].
    destruct (Nat.eq_dec p (dst + count)) as [->|Hne].
    + rewrite nth_set_nth_same by (rewrite memmove_fold_length; lia).
      replace (dst <=? dst + count)%nat with true
        by (symmetry; apply Nat.leb_le; lia).
      replace (dst + count <? dst + S count)%nat with true
        by (symmetry; apply Nat.ltb_lt; lia).
      cbn [andb]. f_equal. lia.
    + rewrite nth_set_nth_other by (intros E; apply Hne; auto).
      rewrite IH by lia.
      destruct (dst <=? p)%nat eqn:E1; [|reflexivity]. cbn [andb].
      apply Nat.leb_le in E1.
      destruct (p <? dst + count)%nat eqn:E2.
      * apply Nat.ltb_lt in E2.
        replace (p <? dst + S count)%nat with true
          by (symmetry; apply Nat.ltb_lt; lia).
        reflexivity.
      * apply Nat.ltb_ge in E2.
        replace (p <? dst + S count)%nat with false
          by (symmetry; apply Nat.ltb_ge; lia).
        reflexivity.
Qed.

(** Removing the entry of row [k] from a column with increasing rows. *)
Lemma filter_sorted_absent (A : Type) (k : nat) (L : list (nat * A)) :
  ~ In k (map fst L) ->
  filter (fun e => negb (fst e =? k)%nat) L = L.
Proof.
  induction L as [|e L IH]; intros Hn; [reflexivity|].
  cbn [filter]. cbn [map] in Hn.
  destruct (fst e =? k)%nat eqn:E.
  - apply Nat.eqb_eq in E. exfalso. apply Hn. left. exact E.
  - cbn [negb]. f_equal. apply IH. intros Hin. apply Hn. right. exact Hin.
Qed.

Lemma filter_sorted_at (A : Type) (k : nat) (L : list (nat * A)) :
  StronglySorted lt (map fst L) ->
  forall t d, (t < length L)%nat -> fst (nth t L d) = k ->
    filter (fun e => negb (fst e =? k)%nat) L = firstn t L ++ skipn (S t) L.
Proof.
  induction L as [|e L IH]; intros Hs t d Ht Hk; [cbn in Ht; lia|].
  cbn [map] in Hs. apply StronglySorted_inv in Hs. destruct Hs as [Hs' Hall].
  destruct t as [|t].
  - cbn [nth] in Hk. cbn [filter firstn skipn app].
    replace (fst e =? k)%nat with true
      by (symmetry; apply Nat.eqb_eq; exact Hk).
    cbn [negb]. apply filter_sorted_absent. intros Hin.
    rewrite Forall_forall in Hall. specialize (Hall k Hin). lia.
  - cbn [nth] in Hk. cbn [length] in Ht. cbn [filter firstn skipn].
    assert (Hne : fst e <> k).
    { rewrite Forall_forall in Hall.
      assert (Hin : In k (map fst L)).
      { rewrite <- Hk. apply in_map. apply nth_In. lia. }
      specialize (Hall k Hin). lia. }
    replace (fst e =? k)%nat with false
      by (symmetry; apply Nat.eqb_neq; exact Hne).
    cbn [negb app]. f_equal. apply (IH Hs' t d); [lia | exact Hk].
Qed.

Lemma sorted_nth (l : list nat) :
  StronglySorted lt l ->
  forall i i', (i < i' < length l)%nat -> (nth i l 0 < nth i' l 0)%nat.
Proof.
  induction 1 as [|x l Hs IH Hall]; intros i i' Hi; [cbn in Hi; lia|].
  cbn [length] in Hi. destruct i' as [|i']; [lia|].
  destruct i as [|i]; cbn [nth].
  - rewrite Forall_forall in Hall. apply Hall. apply nth_In. lia.
  - apply IH. lia.
Qed.

Lemma sorted_filter_fst (A : Type) (g : nat * A -> bool) (L : list (nat * A)) :
  StronglySorted lt (map fst L) ->
  StronglySorted lt (map fst (filter g L)).
Proof.
  induction L as [|e L IH]; intros Hs; [constructor|].
  cbn [map] in Hs. apply StronglySorted_inv in Hs. destruct Hs as [Hs Hall].
  cbn [filter]. destruct (g e); [|apply IH; exact Hs].
  cbn [map]. constructor; [apply IH; exact Hs|].
  apply Forall_forall. intros r Hr. rewrite Forall_forall in Hall.
  apply Hall. apply in_map_iff in Hr. destruct Hr as (e' & <- & He').
  apply in_map. apply filter_In in He'. apply He'.
Qed.

Section Columns.
Context {T : Type} `{Scalar T}.
Variable m : Mat T.
Variable nz : list nat.
Hypothesis Enz : nnz_per_col m = Some nz.
Hypothesis cap :
  forall j, (j < ncols m)%nat ->
    (1 <= nth j nz 0)%nat
    /\ (col_start m j + nth j nz 0 <= col_start m (S j))%nat.

Lemma col_end_counts (j : nat) :
  col_end m j = (col_start m j + nth j nz 0)%nat.
Proof. unfold col_end. rewrite Enz. reflexivity. Qed.

Lemma col_range_counts (j : nat) :
  col_range m j = seq (col_start m j) (nth j nz 0).
Proof.
  unfold col_range. rewrite col_end_counts. f_equal. lia.
Qed.

Lemma col_start_le (j1 j2 : nat) :
  (j1 <= j2 <= ncols m)%nat -> (col_start m j1 <= col_start m j2)%nat.
Proof.
  induction j2 as [|j2 IH]; intros Hj.
  - replace j1 with 0%nat by lia. lia.
  - destruct (Nat.eq_dec j1 (S j2)) as [->|Hne]; [lia|].
    destruct (cap (j := j2) ltac:(lia)) as [_ Hc].
    specialize (IH ltac:(lia)). lia.
Qed.

Lemma col_end_le (j1 j2 : nat) :
  (j1 < j2 <= ncols m)%nat -> (col_end m j1 <= col_start m j2)%nat.
Proof.
  intros Hj. rewrite col_end_counts.
  destruct (cap (j := j1) ltac:(lia)) as [_ Hc].
  pose proof (@col_start_le (S j1) j2 ltac:(lia)). lia.
Qed.

Lemma column_entries_nth (j i : nat) (d : nat * T) :
  (i < nth j nz 0)%nat ->
  nth i (column_entries m j) d
  = (nth (col_start m j + i) (row_indices m) 0%nat,
     get (values m) (col_start m j + i)).
Proof.
  intros Hi. unfold column_entries. rewrite col_range_counts.
  rewrite (nth_indep _ d
             (nth (col_start m j + 0) (row_indices m) 0%nat,
              get (values m) (col_start m j + 0)))
    by (rewrite length_map, length_seq; exact Hi).
  rewrite (map_nth (fun p => (nth p (row_indices m) 0%nat, get (values m) p))
                   (seq (col_start m j) (nth j nz 0)) (col_start m j + 0) i).
  rewrite Nat.add_0_r, seq_nth by exact Hi. reflexivity.
Qed.

Lemma column_entries_length (j : nat) :
  length (column_entries m j) = nth j nz 0%nat.
Proof.
  unfold column_entries. rewrite col_range_counts, length_map, length_seq.
  reflexivity.
Qed.

End Columns.

End DeleteRowArrays.

Section DeleteRowColumn.
Import rowmod.
Context {T : Type} `{Scalar T}.

Let keep (k : nat) (e : nat * T) : bool := negb (fst e =? k)%nat.

Lemma first_below_nth (m : Mat T) (nz : list nat) (j : nat) :
  nnz_per_col m = Some nz ->
  first_below m j
  = if (1 <? nth j nz 0)%nat
    then Z.of_nat (nth (col_start m j + 1) (row_indices m) 0%nat)
    else (-1)%Z.
Proof.
  intros Enz. unfold first_below.
  pose proof (column_entries_length m Enz j) as HL.
  destruct (1 <? nth j nz 0)%nat eqn:E.
  - apply Nat.ltb_lt in E.
    pose proof (@column_entries_nth T _ m nz Enz j 1 (0%nat, s0) E) as H1.
    destruct (column_entries m j) as [|e0 [|[r v] L]];
      cbn [length] in HL; try lia.
    cbn [nth] in H1. inversion H1; subst. reflexivity.
  - apply Nat.ltb_ge in E.
    destruct (column_entries m j) as [|e0 [|[r v] L]];
      cbn [length] in HL; try lia; reflexivity.
Qed.

Lemma column_entries_ext (m m' : Mat T) (nz nz' : list nat) (j : nat) :
  nnz_per_col m = Some nz -> nnz_per_col m' = Some nz' ->
  col_ptrs m' = col_ptrs m -> nth j nz' 0%nat = nth j nz 0%nat ->
  (forall p, (col_start m j <= p < col_start m j + nth j nz 0)%nat ->
     nth p (row_indices m') 0%nat = nth p (row_indices m) 0%nat
     /\ get (values m') p = get (values m) p) ->
  column_entries m' j = column_entries m j.
Proof.
  intros Enz Enz' Ep En Hp. unfold column_entries.
  rewrite (col_range_counts m Enz), (col_range_counts m' Enz').
  unfold col_start. rewrite Ep, En. apply map_ext_in.
  intros p Hin. apply in_seq in Hin.
  destruct (Hp p) as [-> ->]; [unfold col_start; lia | reflexivity].
Qed.

Lemma delete_row_col_spec (s : Ldlt T) (k j : nat) :
  factor_wf s -> (j < k < ncols (ld s))%nat ->
  exists s',
    delete_row_col k (Some s) j = Some s'
    /\ ncols (ld s') = ncols (ld s)
    /\ col_ptrs (ld s') = col_ptrs (ld s)
    /\ column_entries (ld s') j = filter (keep k) (column_entries (ld s) j)
    /\ (forall j', (j' < ncols (ld s))%nat -> j' <> j ->
          column_entries (ld s') j' = column_entries (ld s) j'
          /\ nth j' (etree s') (-1)%Z = nth j' (etree s) (-1)%Z)
    /\ factor_wf s'.
Proof.
  intros wf Hjk.
  assert (wf0 := wf).
  destruct wf as (nz & Enz & Lnz & Le_t & Lv & Hend & Hcol).
  cbv zeta in *.
  set (m := ld s) in *.
  assert (cap : forall j, (j < ncols m)%nat ->
            (1 <= nth j nz 0)%nat
            /\ (col_start m j + nth j nz 0 <= col_start m (S j))%nat).
  { intros j0 Hj0. destruct (Hcol j0 Hj0) as (A1 & A2 & _). auto. }
  destruct (Hcol j ltac:(lia)) as (Hnz1 & Hcap & Hdiag & Hsort & Het).
  set (cs := col_start m j) in *.
  set (rows := row_indices m) in *.
  assert (Ece : col_end m j = (cs + nth j nz 0)%nat)
    by (apply col_end_counts; exact Enz).
  (* the rows of column j, by position *)
  assert (Hrow : forall i, (i < nth j nz 0)%nat ->
            nth i (map fst (column_entries m j)) 0%nat = nth (cs + i) rows 0%nat).
  { intros i Hi.
    change 0%nat with (fst (0%nat, s0)) at 1. rewrite map_nth.
    rewrite (column_entries_nth m Enz j (0%nat, s0) Hi). reflexivity. }
  assert (Hlt : forall i i', (i < i' < nth j nz 0)%nat ->
            (nth (cs + i) rows 0 < nth (cs + i') rows 0)%nat).
  { intros i i' Hi. rewrite <- !Hrow by lia.
    apply sorted_nth; [exact Hsort|].
    rewrite length_map, (column_entries_length m Enz). exact Hi. }
  (* the next column starts within the arrays *)
  assert (Hnext : (cs + nth j nz 0 < length rows)%nat).
  { destruct (cap (S j) ltac:(lia)) as [B1 B2].
    pose proof (@col_start_le T m nz cap (S (S j)) (ncols m) ltac:(lia)).
    lia. }
  unfold delete_row_col. fold m. rewrite Enz. cbv zeta. fold rows cs.
  rewrite Ece.
  replace (cs + nth j nz 0 - (cs + 1))%nat with (nth j nz 0 - 1)%nat by lia.
  set (it := lower_bound rows (cs + 1) (nth j nz 0 - 1) k).
  destruct (lower_bound_spec rows k (nth j nz 0 - 1) (cs + 1))
    as (Hr & Hb & He). fold it in Hr, Hb, He.
  destruct (negb (it =? cs + nth j nz 0)%nat
            && (nth it rows 0 =? k)%nat) eqn:Econd.
  - (* row k is in column j, at position it *)
    apply andb_true_iff in Econd. destruct Econd as [E1 E2].
    apply negb_true_iff, Nat.eqb_neq in E1. apply Nat.eqb_eq in E2.
    assert (Hit : (cs + 1 <= it < cs + nth j nz 0)%nat) by lia.
    replace (cs + 1 + (it - (cs + 1)))%nat with it by lia.
    replace (nth j nz 0 - 1 - (it - (cs + 1)))%nat
      with (cs + nth j nz 0 - it)%nat by lia.
    set (count := (cs + nth j nz 0 - it)%nat).
    unfold memmove.
    replace ((it + 1 + count <=? length rows)
             && (it + count <=? length rows))%nat with true
      by (symmetry; apply andb_true_iff; split; apply Nat.leb_le;
          unfold count; lia).
    replace ((it + 1 + count <=? length (values m))
             && (it + count <=? length (values m)))%nat with true
      by (symmetry; apply andb_true_iff; split; apply Nat.leb_le;
          rewrite Lv; fold rows; unfold count; lia).
    set (rows' := fold_left _ (seq 0 count) rows).
    set (vals' := fold_left _ (seq 0 count) (values m)).
    set (nz' := set_nth j (nth j nz 0 - 1)%nat nz).
    set (m' := {| nrows := nrows m; ncols := ncols m; nnz := (nnz m - 1)%nat;
                  col_ptrs := col_ptrs m; nnz_per_col := Some nz';
                  row_indices := rows'; values := vals' |}).
    assert (Hrows' : forall p,
              nth p rows' 0%nat
              = if ((it <=? p) && (p <? cs + nth j nz 0))%nat
                then nth (p + 1) rows 0%nat else nth p rows 0%nat).
    { intros p. unfold rows'. rewrite memmove_fold_nth by (unfold count; lia).
      replace (it + count)%nat with (cs + nth j nz 0)%nat
        by (unfold count; lia).
      destruct ((it <=? p) && (p <? cs + nth j nz 0))%nat eqn:E;
        [|reflexivity].
      apply andb_true_iff in E. destruct E as [E3 E4].
      apply Nat.leb_le in E3. f_equal. lia. }
    assert (Hvals' : forall p,
              get vals' p
              = if ((it <=? p) && (p <? cs + nth j nz 0))%nat
                then get (values m) (p + 1) else get (values m) p).
    { intros p. unfold vals', get.
      rewrite memmove_fold_nth by (rewrite Lv; fold rows; unfold count; lia).
      replace (it + count)%nat with (cs + nth j nz 0)%nat
        by (unfold count; lia).
      destruct ((it <=? p) && (p <? cs + nth j nz 0))%nat eqn:E;
        [|reflexivity].
      apply andb_true_iff in E. destruct E as [E3 E4].
      apply Nat.leb_le in E3. f_equal. lia. }
    assert (Hnz'j : nth j nz' 0%nat = (nth j nz 0 - 1)%nat).
    { unfold nz'. apply nth_set_nth_same. rewrite Lnz. lia. }
    assert (Hnz'o : forall j', j' <> j -> nth j' nz' 0%nat = nth j' nz 0%nat).
    { intros j' Hne. unfold nz'. apply nth_set_nth_other. auto. }
    assert (Enz' : nnz_per_col m' = Some nz') by reflexivity.
    (* the other columns keep their entries *)
    assert (Hother : forall j', (j' < ncols m)%nat -> j' <> j ->
              column_entries m' j' = column_entries m j').
    { intros j' Hj' Hne.
      apply (@column_entries_ext m m' nz nz' j' Enz Enz' eq_refl
               (Hnz'o j' Hne)).
      intros p Hp. rewrite Hrows', Hvals'.
      replace ((it <=? p) && (p <? cs + nth j nz 0))%nat with false;
        [split; reflexivity|].
      symmetry. apply andb_false_iff.
      destruct (Nat.lt_ge_cases j' j) as [Hl|Hg].
      - left. apply Nat.leb_gt.
        pose proof (@col_end_le T m nz Enz cap j' j ltac:(lia))
          as Hce.
        rewrite (col_end_counts m Enz) in Hce. fold cs in Hce. lia.
      - right. apply Nat.ltb_ge.
        pose proof (@col_end_le T m nz Enz cap j j' ltac:(lia))
          as Hce.
        rewrite (col_end_counts m Enz) in Hce. fold cs in Hce. lia. }
    (* column j loses the entry at position it *)
    assert (Hcolj : column_entries m' j
                    = firstn (it - cs) (column_entries m j)
                      ++ skipn (S (it - cs)) (column_entries m j)).
    { apply (nth_ext _ _ (0%nat, s0) (0%nat, s0)).
      - rewrite (column_entries_length m' Enz'), Hnz'j.
        rewrite length_app, length_firstn, length_skipn.
        rewrite (column_entries_length m Enz). lia.
      - intros i Hi. rewrite (column_entries_length m' Enz'), Hnz'j in Hi.
        rewrite (column_entries_nth m' Enz') by (rewrite Hnz'j; exact Hi).
        change (col_start m' j) with cs. cbn [row_indices values m'].
        rewrite Hrows', Hvals'.
        destruct (Nat.lt_ge_cases i (it - cs)) as [Hl|Hg].
        + replace ((it <=? cs + i) && (cs + i <? cs + nth j nz 0))%nat
            with false
            by (symmetry; apply andb_false_iff; left; apply Nat.leb_gt; lia).
          rewrite app_nth1
            by (rewrite length_firstn, (column_entries_length m Enz); lia).
          rewrite nth_firstn.
          replace (i <? it - cs)%nat with true
            by (symmetry; apply Nat.ltb_lt; exact Hl).
          rewrite (column_entries_nth m Enz) by lia. reflexivity.
        + replace ((it <=? cs + i) && (cs + i <? cs + nth j nz 0))%nat
            with true
            by (symmetry; apply andb_true_iff; split;
                [apply Nat.leb_le | apply Nat.ltb_lt]; lia).
          rewrite app_nth2
            by (rewrite length_firstn, (column_entries_length m Enz); lia).
          rewrite length_firstn, (column_entries_length m Enz).
          rewrite nth_skipn.
          replace (S (it - cs) + (i - Nat.min (it - cs) (nth j nz 0)))%nat
            with (i + 1)%nat by lia.
          rewrite (column_entries_nth m Enz) by lia.
          fold cs. rewrite Nat.add_assoc. reflexivity. }
    assert (Hfilter : column_entries m' j
                      = filter (keep k) (column_entries m j)).
    { rewrite Hcolj. symmetry.
      apply (@filter_sorted_at T k (column_entries m j) Hsort (it - cs)
               (0%nat, s0)).
      - rewrite (column_entries_length m Enz). lia.
      - rewrite (column_entries_nth m Enz) by lia. cbn [fst]. fold cs rows.
        replace (cs + (it - cs))%nat with it by lia. exact E2. }
    (* the factor after the step *)
    assert (Hwf : forall et',
              length et' = ncols m ->
              (forall j', j' <> j -> nth j' et' (-1)%Z = nth j' (etree s) (-1)%Z) ->
              nth j et' (-1)%Z = first_below m' j ->
              factor_wf {| ld := m'; etree := et' |}).
    { intros et' Let' Heo Hej. exists nz'. cbn [ld etree].
      change (ncols m') with (ncols m). change (values m') with vals'.
      change (row_indices m') with rows'.
      split; [reflexivity|].
      split; [unfold nz'; rewrite set_nth_length; exact Lnz|].
      split; [exact Let'|].
      split; [unfold vals', rows'; rewrite !memmove_fold_length; exact Lv|].
      split; [unfold rows'; rewrite memmove_fold_length; exact Hend|].
      intros j' Hj'. change (col_start m' j') with (col_start m j').
      change (col_start m' (S j')) with (col_start m (S j')).
      destruct (Hcol j' Hj') as (C1 & C2 & C3 & C4 & C5).
      destruct (Nat.eq_dec j' j) as [->|Hne].
      - rewrite Hnz'j, Hfilter. fold cs.
        split; [|split; [|split; [|split]]].
        + assert (Hin : (it - cs < nth j nz 0)%nat) by lia. lia.
        + fold cs in C2. lia.
        + rewrite Hrows'.
          replace ((it <=? cs) && (cs <? cs + nth j nz 0))%nat with false
            by (symmetry; apply andb_false_iff; left; apply Nat.leb_gt; lia).
          exact Hdiag.
        + apply sorted_filter_fst. exact Hsort.
        + exact Hej.
      - rewrite (Hnz'o j' Hne), (Hother j' Hj' Hne).
        split; [exact C1|]. split; [exact C2|]. split; [|split].
        + rewrite Hrows'.
          replace ((it <=? col_start m j')
                   && (col_start m j' <? cs + nth j nz 0))%nat with false;
            [exact C3|].
          symmetry. apply andb_false_iff.
          destruct (Nat.lt_ge_cases j' j) as [Hl|Hg].
          * left. apply Nat.leb_gt.
            pose proof (@col_end_le T m nz Enz cap j' j
                          ltac:(lia)) as Hce.
            rewrite (col_end_counts m Enz) in Hce. fold cs in Hce. lia.
          * right. apply Nat.ltb_ge.
            pose proof (@col_end_le T m nz Enz cap j j'
                          ltac:(lia)) as Hce.
            rewrite (col_end_counts m Enz) in Hce. fold cs in Hce. lia.
        + exact C4.
        + rewrite (Heo j' Hne). unfold first_below.
          rewrite (Hother j' Hj' Hne). exact C5. }
    (* the elimination tree *)
    rewrite Het. rewrite (first_below_nth m j Enz). fold cs rows.
    destruct (1 <? nth j nz 0)%nat eqn:E1nz;
      [|apply Nat.ltb_ge in E1nz; lia].
    destruct (Z.of_nat (nth (cs + 1) rows 0%nat) =? Z.of_nat k)%Z eqn:Epar.
    + (* k is the parent of j *)
      apply Z.eqb_eq in Epar. apply Nat2Z.inj in Epar.
      assert (Eit : it = (cs + 1)%nat).
      { destruct (Nat.eq_dec it (cs + 1)) as [E|Hne]; [exact E|].
        specialize (Hb (cs + 1)%nat ltac:(lia)). lia. }
      replace (it - (cs + 1) =? 0)%nat with true
        by (symmetry; apply Nat.eqb_eq; lia).
      cbn [negb].
      eexists. split; [reflexivity|]. cbn [ld etree].
      split; [reflexivity|]. split; [reflexivity|]. split; [exact Hfilter|].
      split.
      * intros j' Hj' Hne. split; [apply Hother; assumption|].
        apply nth_set_nth_other. auto.
      * apply Hwf.
        -- rewrite set_nth_length. exact Le_t.
        -- intros j' Hne. apply nth_set_nth_other. auto.
        -- rewrite nth_set_nth_same by (rewrite Le_t; lia).
           rewrite (first_below_nth m' j Enz'). rewrite Hnz'j.
           change (col_start m' j) with cs. cbn [row_indices m'].
           rewrite Eit. reflexivity.
    + (* the parent of j is another row *)
      apply Z.eqb_neq in Epar.
      eexists. split; [reflexivity|]. cbn [ld etree].
      split; [reflexivity|]. split; [reflexivity|]. split; [exact Hfilter|].
      split.
      * intros j' Hj' Hne. split; [apply Hother; assumption | reflexivity].
      * apply Hwf; [exact Le_t | reflexivity |].
        rewrite Het. rewrite (first_below_nth m j Enz).
        rewrite (first_below_nth m' j Enz'). rewrite Hnz'j.
        change (col_start m' j) with cs. cbn [row_indices m']. fold cs rows.
        rewrite E1nz.
        assert (Hit2 : (cs + 1 < it)%nat).
        { destruct (Nat.eq_dec it (cs + 1)) as [E|Hne]; [|lia].
          exfalso. apply Epar. rewrite <- E, E2. reflexivity. }
        replace (1 <? nth j nz 0 - 1)%nat with true
          by (symmetry; apply Nat.ltb_lt; lia).
        rewrite Hrows'.
        replace ((it <=? cs + 1) && (cs + 1 <? cs + nth j nz 0))%nat
          with false
          by (symmetry; apply andb_false_iff; left; apply Nat.leb_gt; lia).
        reflexivity.
  - (* row k is not in column j *)
    exists s. split; [reflexivity|]. split; [reflexivity|].
    split; [reflexivity|]. split; [|split; [auto | exact wf0]].
    fold m. symmetry. apply filter_sorted_absent. intros Hin.
    destruct (In_nth _ _ 0%nat Hin) as (i & Hi & Ei).
    rewrite length_map, (column_entries_length m Enz) in Hi.
    rewrite (Hrow i Hi) in Ei.
    destruct i as [|i].
    + rewrite Nat.add_0_r in Ei. fold cs rows in Hdiag. lia.
    + assert (Eq : it = (cs + S i)%nat).
      { destruct (Nat.lt_trichotomy it (cs + S i)) as [Hl|[E|Hg]];
          [|exact E|].
        - specialize (He ltac:(lia)).
          pose proof (Hlt (it - cs)%nat (S i) ltac:(lia)) as Hs.
          replace (cs + (it - cs))%nat with it in Hs by lia. lia.
        - specialize (Hb (cs + S i)%nat ltac:(lia)). lia. }
      apply andb_false_iff in Econd. destruct Econd as [E|E].
      * apply negb_false_iff, Nat.eqb_eq in E. lia.
      * apply Nat.eqb_neq in E. apply E. rewrite Eq. exact Ei.
Qed.

End DeleteRowColumn.

Section DeleteRowLoop.
Import rowmod.
Context {T : Type} `{Scalar T}.

Lemma delete_row_loop (s : Ldlt T) (k : nat) :
  factor_wf s -> (k < ncols (ld s))%nat ->
  forall J, (J <= k)%nat ->
    exists s',
      fold_left (delete_row_col k) (seq 0 J) (Some s) = Some s'
      /\ ncols (ld s') = ncols (ld s)
      /\ col_ptrs (ld s') = col_ptrs (ld s)
      /\ (forall j, (j < J)%nat ->
            column_entries (ld s') j
            = filter (fun e => negb (fst e =? k)%nat)
                     (column_entries (ld s) j))
      /\ (forall j, (J <= j < ncols (ld s))%nat ->
            column_entries (ld s') j = column_entries (ld s) j
            /\ nth j (etree s') (-1)%Z = nth j (etree s) (-1)%Z)
      /\ factor_wf s'.
Proof.
  intros wf Hk. induction J as [|J IH]; intros HJ.
  - exists s. cbn [seq fold_left]. repeat split; auto. intros j Hj. lia.
  - destruct (IH ltac:(lia)) as (s1 & E1 & N1 & P1 & F1 & U1 & W1).
    destruct (@delete_row_col_spec T _ s1 k J W1 ltac:(rewrite N1; lia))
      as (s2 & E2 & N2 & P2 & F2 & U2 & W2).
    exists s2. rewrite seq_S, fold_left_app, E1. cbn [fold_left Nat.add].
    split; [exact E2|]. split; [congruence|]. split; [congruence|].
    split; [|split; [|exact W2]].
    + intros j Hj. destruct (Nat.eq_dec j J) as [->|Hne].
      * rewrite F2. destruct (U1 J ltac:(lia)) as [-> _]. reflexivity.
      * destruct (U2 j ltac:(rewrite N1; lia) Hne) as [-> _].
        apply F1. lia.
    + intros j Hj.
      destruct (U2 j ltac:(rewrite N1; lia) ltac:(lia)) as [-> ->].
      apply U1. lia.
Qed.

End DeleteRowLoop.

(** X28.  For every scalar type, on a factor in the layout that
    [delete_row] expects (per-column counts within the capacities, in every
    column the diagonal entry first and then increasing rows, and an
    elimination tree that gives the first row below the diagonal): step 1
    of [delete_row] for the position [k] goes through, no assertion fails
    and no copy leaves the arrays.  After it every column before [k] holds
    its former entries without the one of row [k], in the same order and
    with their values; the columns from [k] on and their parents are
    untouched; and the factor is again in that layout, so that each parent
    that was [k] has become the next row of its column, or none. *)
Theorem delete_row_step_1_deletes_the_row
        (T : Type) (ST : Scalar T) (s : rowmod.Ldlt T) (k : nat) :
  rowmod.factor_wf s -> (k < ncols (rowmod.ld s))%nat ->
  exists s',
    rowmod.delete_row_step_1 k s = Some s'
    /\ ncols (rowmod.ld s') = ncols (rowmod.ld s)
    /\ col_ptrs (rowmod.ld s') = col_ptrs (rowmod.ld s)
    /\ (forall j, (j < k)%nat ->
          rowmod.column_entries (rowmod.ld s') j
          = filter (fun e => negb (fst e =? k)%nat)
                   (rowmod.column_entries (rowmod.ld s) j))
    /\ (forall j, (k <= j < ncols (rowmod.ld s))%nat ->
          rowmod.column_entries (rowmod.ld s') j
          = rowmod.column_entries (rowmod.ld s) j
          /\ nth j (rowmod.etree s') (-1)%Z = nth j (rowmod.etree s) (-1)%Z)
    /\ rowmod.factor_wf s'.
Proof.
  intros wf Hk. unfold rowmod.delete_row_step_1.
  apply (delete_row_loop wf Hk (le_n k)).
Qed.

(** Witness of X28, in double arithmetic: a 3 x 3 factor with full columns,
    from which row 1 is deleted. *)
Lemma delete_row_step_1_deletes_the_row_witness :
  let s := {| rowmod.ld :=
                {| nrows := 3; ncols := 3; nnz := 6;
                   col_ptrs := [0; 3; 5; 6]%nat;
                   nnz_per_col := Some [3; 2; 1]%nat;
                   row_indices := [0; 1; 2; 1; 2; 2]%nat;
                   values := [s_lit 1 1; s_lit 2 1; s_lit 3 1; s_lit 4 1;
                              s_lit 5 1; s_lit 6 1] : list float |};
              rowmod.etree := [1; 2; -1]%Z |} in
  exists s',
    rowmod.delete_row_step_1 1 s = Some s'
    /\ ncols (rowmod.ld s') = ncols (rowmod.ld s)
    /\ col_ptrs (rowmod.ld s') = col_ptrs (rowmod.ld s)
    /\ (forall j, (j < 1)%nat ->
          rowmod.column_entries (rowmod.ld s') j
          = filter (fun e => negb (fst e =? 1)%nat)
                   (rowmod.column_entries (rowmod.ld s) j))
    /\ (forall j, (1 <= j < ncols (rowmod.ld s))%nat ->
          rowmod.column_entries (rowmod.ld s') j
          = rowmod.column_entries (rowmod.ld s) j
          /\ nth j (rowmod.etree s') (-1)%Z = nth j (rowmod.etree s) (-1)%Z)
    /\ rowmod.factor_wf s'.
Proof.
  intros s.
  apply (@delete_row_step_1_deletes_the_row float _ s 1).
  - exists [3; 2; 1]%nat. cbv zeta.
    split; [reflexivity|]. split; [reflexivity|]. split; [reflexivity|].
    split; [reflexivity|]. split; [vm_compute; lia|].
    intros j Hj.
    destruct j as [|[|[|j]]]; [| | |vm_compute in Hj; lia];
      (split; [vm_compute; lia|]; split; [vm_compute; lia|];
       split; [reflexivity|]; split; [|reflexivity]);
      cbv [rowmod.column_entries col_range col_start col_end s rowmod.ld
           nnz_per_col col_ptrs row_indices nth Nat.add Nat.sub seq map fst];
      repeat constructor.
  - vm_compute. lia.
Defined.
(* ================================================================== *)
(** * What the factors of a round of the equilibration are *)
(* ================================================================== *)

Section LargestEntries.
Local Open Scope R_scope.

Lemma is_largest_ext (V V' : R -> Prop) (c : R) :
  (forall v, V v <-> V' v) -> is_largest V c -> is_largest V' c.
Proof.
  intros He [Hb Ha]. split.
  - intros v Hv. apply Hb. apply He. exact Hv.
  - destruct Ha as [Hz|Hc]; [left; exact Hz | right; apply He; exact Hc].
Qed.

Lemma is_largest_union (V1 V2 : R -> Prop) (c1 c2 : R) :
  is_largest V1 c1 -> is_largest V2 c2 ->
  is_largest (fun v => V1 v \/ V2 v) (Rmax c1 c2).
Proof.
  intros [B1 A1] [B2 A2]. split.
  - intros v [Hv|Hv].
    + eapply Rle_trans; [apply B1; exact Hv | apply Rmax_l].
    + eapply Rle_trans; [apply B2; exact Hv | apply Rmax_r].
  - unfold Rmax. destruct (Rle_dec c1 c2).
    + destruct A2 as [Hz|Hc]; [left; exact Hz | right; right; exact Hc].
    + destruct A1 as [Hz|Hc]; [left; exact Hz | right; left; exact Hc].
Qed.

Lemma is_largest_empty : is_largest (fun _ => False) 0.
Proof. split; [intros v [] | left; reflexivity]. Qed.

Variable m : Mat R.

Let row (p : nat) : nat := nth p (row_indices m) 0%nat.
Let absv (p : nat) : R := Rabs (get (values m) p).

(** The values at the positions of [ps] whose row satisfies [sel]. *)
Let among (ps : list nat) (sel : nat -> Prop) (v : R) : Prop :=
  exists p, In p ps /\ sel (row p) /\ v = absv p.

(** The loop of [rowwise_infty_norm] over a list of positions. *)
Lemma rowwise_entries (n : nat) :
  forall (ps done : list nat) (rn : list R),
    length rn = n ->
    (forall p, In p ps -> (row p < n)%nat) ->
    (forall i, (i < n)%nat -> is_largest (among done (eq i)) (get rn i)) ->
    let rn' := fold_left (fun rn p =>
                            set_nth (row p) (s_max (get rn (row p))
                                                   (s_fabs (get (values m) p)))
                                    rn) ps rn in
    length rn' = n
    /\ forall i, (i < n)%nat ->
         is_largest (among (done ++ ps) (eq i)) (get rn' i).
Proof.
  induction ps as [|p ps IH]; intros done rn Ln Hr Hi; cbv zeta.
  - cbn [fold_left]. rewrite app_nil_r. split; assumption.
  - cbn [fold_left].
    replace (done ++ p :: ps) with ((done ++ [p]) ++ ps)
      by (rewrite <- app_assoc; reflexivity).
    apply IH.
    + rewrite set_nth_length. exact Ln.
    + intros q Hq. apply Hr. right. exact Hq.
    + intros i Hin. fold (row p). fold (absv p). rewrite s_max_R.
      destruct (Nat.eq_dec (row p) i) as [E|E].
      * rewrite E. rewrite get_set_same by (rewrite Ln; exact Hin).
        apply (@is_largest_ext
                 (fun v => among done (eq i) v \/ v = absv p)).
        -- intros v. split.
           ++ intros [(q & Hq & Hs & Hv)|Hv].
              ** exists q. split; [apply in_or_app; left; exact Hq | auto].
              ** exists p. split; [apply in_or_app; right; left; reflexivity|].
                 split; [symmetry; exact E | exact Hv].
           ++ intros (q & Hq & Hs & Hv). apply in_app_or in Hq.
              destruct Hq as [Hq|[<-|[]]].
              ** left. exists q. auto.
              ** right. exact Hv.
        -- apply is_largest_union; [apply Hi; exact Hin|].
           split; [intros v ->; apply Rle_refl | right; reflexivity].
      * rewrite get_set_other by exact E.
        apply (@is_largest_ext (among done (eq i))); [|apply Hi; exact Hin].
        intros v. split.
        -- intros (q & Hq & Hs & Hv). exists q.
           split; [apply in_or_app; left; exact Hq | auto].
        -- intros (q & Hq & Hs & Hv). apply in_app_or in Hq.
           destruct Hq as [Hq|[<-|[]]]; [exists q; auto|].
           exfalso. apply E. symmetry. exact Hs.
Qed.

Lemma fold_left_flat_map (A B C : Type) (f : A -> C -> A) (g : B -> list C)
      (l : list B) (a : A) :
  fold_left f (flat_map g l) a
  = fold_left (fun a b => fold_left f (g b) a) l a.
Proof.
  revert a. induction l as [|b l IH]; intros a; [reflexivity|].
  cbn [flat_map fold_left]. rewrite fold_left_app. apply IH.
Qed.

Hypothesis wf : csc_wf m.

(** [rowwise_infty_norm] on an array of zeros: the largest entry of each
    row. *)
Lemma rowwise_infty_norm_largest (i : nat) :
  (i < nrows m)%nat ->
  is_largest (stored_abs m (fun _ r => r = i))
             (get (rowwise_infty_norm (vzero (nrows m)) m) i).
Proof.
  intros Hi. unfold rowwise_infty_norm.
  rewrite <- (fold_left_flat_map
                (fun rn p =>
                   set_nth (nth p (row_indices m) 0%nat)
                           (s_max (get rn (nth p (row_indices m) 0%nat))
                                  (s_fabs (get (values m) p))) rn)
                (col_range m) (seq 0 (ncols m)) (vzero (nrows m))).
  destruct (@rowwise_entries (nrows m)
              (flat_map (col_range m) (seq 0 (ncols m))) []
              (vzero (nrows m))) as [_ Hl].
  - unfold vzero. apply repeat_length.
  - intros p Hp. apply in_flat_map in Hp. destruct Hp as (j & Hj & Hp).
    apply in_seq in Hj. apply In_col_range in Hp.
    apply (col_row_in_range wf (j := j)); [lia | exact Hp].
  - intros i0 _. rewrite get_vzero, s0_R.
    apply (@is_largest_ext (fun _ => False)); [|apply is_largest_empty].
    intros v. split; [intros [] | intros (q & [] & _)].
  - cbn [app] in Hl. eapply is_largest_ext; [|exact (Hl i Hi)].
    intros v. split.
    + intros (p & Hp & Hs & Hv). apply in_flat_map in Hp.
      destruct Hp as (j & Hj & Hp). apply in_seq in Hj.
      apply In_col_range in Hp. exists j, p.
      split; [lia|]. split; [exact Hp|]. split; [symmetry; exact Hs|].
      exact Hv.
    + intros (j & p & Hj & Hp & Hs & Hv). exists p.
      split; [|split; [symmetry; exact Hs | exact Hv]].
      apply in_flat_map. exists j. split; [apply in_seq; lia|].
      apply In_col_range. exact Hp.
Qed.

(** [col_abs_max]: the largest entry of a column. *)
Lemma col_abs_max_largest (j : nat) :
  (j < ncols m)%nat ->
  is_largest (stored_abs m (fun j' _ => j' = j)) (col_abs_max m j).
Proof.
  intros Hj. unfold col_abs_max.
  assert (Hg : forall (ps done : list nat) (c : R),
            is_largest (fun v => exists p, In p done /\ v = absv p) c ->
            is_largest (fun v => exists p, In p (done ++ ps) /\ v = absv p)
                       (fold_left (fun nrm p =>
                                     s_max nrm (s_fabs (get (values m) p)))
                                  ps c)).
  { induction ps as [|p ps IH]; intros done c Hc.
    - cbn [fold_left]. rewrite app_nil_r. exact Hc.
    - cbn [fold_left].
      replace (done ++ p :: ps) with ((done ++ [p]) ++ ps)
        by (rewrite <- app_assoc; reflexivity).
      apply IH. rewrite s_max_R. fold (absv p).
      apply (@is_largest_ext
               (fun v => (exists q, In q done /\ v = absv q) \/ v = absv p)).
      + intros v. split.
        * intros [(q & Hq & Hv)|Hv].
          -- exists q. split; [apply in_or_app; left; exact Hq | exact Hv].
          -- exists p. split; [apply in_or_app; right; left; reflexivity|].
             exact Hv.
        * intros (q & Hq & Hv). apply in_app_or in Hq.
          destruct Hq as [Hq|[<-|[]]]; [left; exists q; auto | right; exact Hv].
      + apply is_largest_union; [exact Hc|].
        split; [intros v ->; apply Rle_refl | right; reflexivity]. }
  specialize (Hg (col_range m j) [] s0). cbn [app] in Hg.
  apply (@is_largest_ext
           (fun v => exists p, In p (col_range m j) /\ v = absv p)).
  - intros v. split.
    + intros (p & Hp & Hv). apply In_col_range in Hp. exists j, p.
      split; [exact Hj|]. split; [exact Hp|]. split; [reflexivity | exact Hv].
    + intros (j' & p & _ & Hp & -> & Hv). exists p.
      split; [apply In_col_range; exact Hp | exact Hv].
  - apply Hg. rewrite s0_R.
    apply (@is_largest_ext (fun _ => False)); [|apply is_largest_empty].
    intros v. split; [intros [] | intros (q & [] & _)].
Qed.

End LargestEntries.

Lemma get_app_inner (a b c : list R) (k j : nat) :
  length a = k -> (j < length b)%nat -> get (a ++ b ++ c) (k + j) = get b j.
Proof.
  intros Ha Hj. unfold get. rewrite app_nth2 by lia.
  rewrite app_nth1 by lia. f_equal. lia.
Qed.

Lemma symhi_largest (h : Mat R) (col_norm : list R) (k : nat) :
  csc_wf h -> upper_triangular h -> ncols h = nrows h ->
  length col_norm = nrows h -> (k < nrows h)%nat ->
  is_largest (stored_abs h (fun j r => r = k \/ j = k))
             (get (colwise_infty_norm_symhi col_norm h) k).
Proof.
  intros wf up sq L0 Hk.
  destruct (@symhi_outer h wf up sq col_norm L0 (nrows h) (le_n _))
    as (_ & Hl).
  cbv beta in Hl. specialize (Hl k Hk). destruct Hl as [Hb Ha].
  assert (Er : colwise_infty_norm_symhi col_norm h
               = fold_left
                   (fun cn j =>
                      set_nth j (fst (symhi_col h j (col_range h j) s0 cn))
                              (snd (symhi_col h j (col_range h j) s0 cn)))
                   (seq 0 (nrows h)) col_norm)
    by (unfold colwise_infty_norm_symhi; rewrite sq; reflexivity).
  rewrite Er. split.
  - intros v (j & p & Hj & Hp & Hs & ->). apply (Hb p j).
    split; [lia|]. split; [exact Hp | exact Hs].
  - destruct Ha as [Hz|(p & j & (Hj & Hp & Hs) & Hc)]; [left; exact Hz|].
    right. exists j, p. split; [lia|]. split; [exact Hp|].
    split; [exact Hs | exact Hc].
Qed.

(** X29.  In exact arithmetic, on a well-formed QP with [H] stored by its
    upper triangle: the factor that a round of the equilibration computes
    for a variable [i] is [1 / (machine_eps + sqrt(N))], where [N] is the
    largest absolute value in column [i] of the KKT matrix, that is among
    the stored entries of [H] in row [i] or column [i] and the entries of
    row [i] of [AT] and of [CT]; the factor of a constraint is the same with
    the largest absolute value of its column of [AT] or [CT].  [N] is 0 for
    a column without stored entries. *)
Theorem ruiz_delta_is_the_inverse_root_of_the_column_norm (qp : QpView R) :
  qp_wf qp ->
  let n := nrows (qp_H qp) in
  let n_eq := ncols (qp_AT qp) in
  let n_in := ncols (qp_CT qp) in
  let delta := ruiz_delta UPPER n n_eq n_in qp in
  let factor (N : R) : R := s_div s1 (s_add s_epsilon (s_sqrt N)) in
  (forall i, (i < n)%nat ->
     exists N,
       get delta i = factor N
       /\ is_largest
            (fun v => stored_abs (qp_H qp) (fun j r => r = i \/ j = i) v
                      \/ stored_abs (qp_AT qp) (fun _ r => r = i) v
                      \/ stored_abs (qp_CT qp) (fun _ r => r = i) v) N)
  /\ (forall j, (j < n_eq)%nat ->
        exists N,
          get delta (n + j) = factor N
          /\ is_largest (stored_abs (qp_AT qp) (fun j' _ => j' = j)) N)
  /\ (forall j, (j < n_in)%nat ->
        exists N,
          get delta (n + n_eq + j) = factor N
          /\ is_largest (stored_abs (qp_CT qp) (fun j' _ => j' = j)) N).
Proof.
  intros wf n n_eq n_in delta factor.
  destruct wf as (wH & wA & wC & up & sq & rA & rC & _).
  unfold delta, ruiz_delta. cbv zeta.
  split; [|split].
  - intros i Hi.
    exists (Rmax (Rmax (get (colwise_infty_norm UPPER (vzero n) (qp_H qp)) i)
                       (get (rowwise_infty_norm (vzero n) (qp_AT qp)) i))
                 (get (rowwise_infty_norm (vzero n) (qp_CT qp)) i)).
    split.
    + unfold get at 1. rewrite app_nth1 by (rewrite length_map, length_seq; exact Hi).
      fold (get (map (fun j =>
                        s_div s1 (s_add s_epsilon
                          (s_sqrt (s_max_list
                             (get (colwise_infty_norm UPPER (vzero n) (qp_H qp)) j)
                             [get (rowwise_infty_norm (vzero n) (qp_AT qp)) j;
                              get (rowwise_infty_norm (vzero n) (qp_CT qp)) j]))))
                     (seq 0 n)) i).
      rewrite get_map_seq by exact Hi.
      unfold s_max_list. cbn [fold_left]. rewrite !s_max_R. reflexivity.
    + apply (@is_largest_ext
               (fun v =>
                  (stored_abs (qp_H qp) (fun j r => r = i \/ j = i) v
                   \/ stored_abs (qp_AT qp) (fun _ r => r = i) v)
                  \/ stored_abs (qp_CT qp) (fun _ r => r = i) v)).
      * intros v. tauto.
      * apply is_largest_union; [apply is_largest_union|].
        -- cbn [colwise_infty_norm].
           apply symhi_largest; try assumption.
           unfold vzero. apply repeat_length.
        -- unfold n. rewrite <- rA.
           apply rowwise_infty_norm_largest; [exact wA|].
           rewrite rA. exact Hi.
        -- unfold n. rewrite <- rC.
           apply rowwise_infty_norm_largest; [exact wC|].
           rewrite rC. exact Hi.
  - intros j Hj. exists (col_abs_max (qp_AT qp) j). split.
    + rewrite get_app_inner
        by (rewrite ?length_map, ?length_seq; (reflexivity || exact Hj)).
      rewrite get_map_seq by exact Hj. reflexivity.
    + apply col_abs_max_largest. exact Hj.
  - intros j Hj. exists (col_abs_max (qp_CT qp) j). split.
    + rewrite app_assoc. unfold get at 1.
      rewrite app_nth2 by (rewrite length_app, !length_map, !length_seq; lia).
      rewrite length_app, !length_map, !length_seq.
      replace (n + n_eq + j - (n + n_eq))%nat with j by lia.
      fold (get (map (fun j =>
                        s_div s1 (s_add s_epsilon
                                        (s_sqrt (col_abs_max (qp_CT qp) j))))
                     (seq 0 n_in)) j).
      rewrite get_map_seq by exact Hj. reflexivity.
    + apply col_abs_max_largest. exact Hj.
Qed.

(** Witness of X29: the example QP of the equilibration. *)
Lemma ruiz_delta_is_the_inverse_root_of_the_column_norm_witness :
  let qp := ruiz_example_qp in
  let n := nrows (qp_H qp) in
  let n_eq := ncols (qp_AT qp) in
  let n_in := ncols (qp_CT qp) in
  let delta := ruiz_delta UPPER n n_eq n_in qp in
  let factor (N : R) : R := s_div s1 (s_add s_epsilon (s_sqrt N)) in
  (forall i, (i < n)%nat ->
     exists N,
       get delta i = factor N
       /\ is_largest
            (fun v => stored_abs (qp_H qp) (fun j r => r = i \/ j = i) v
                      \/ stored_abs (qp_AT qp) (fun _ r => r = i) v
                      \/ stored_abs (qp_CT qp) (fun _ r => r = i) v) N)
  /\ (forall j, (j < n_eq)%nat ->
        exists N,
          get delta (n + j) = factor N
          /\ is_largest (stored_abs (qp_AT qp) (fun j' _ => j' = j)) N)
  /\ (forall j, (j < n_in)%nat ->
        exists N,
          get delta (n + n_eq + j) = factor N
          /\ is_largest (stored_abs (qp_CT qp) (fun j' _ => j' = j)) N).
Proof.
  apply (@ruiz_delta_is_the_inverse_root_of_the_column_norm ruiz_example_qp).
  apply qp_1_1_1_wf.
Defined.
